(** * Turn-based game servers over shared memory: a shallow embedding

    The repository holds two sibling servers that share one design: a
    Sudoku placement game ([server.c]) on System V shared memory with spin
    locks, and a dice game "Race to 100" on POSIX shared memory with
    process-shared mutexes.  Each forks one handler process per player slot
    and runs a scheduler thread and a logger thread.

    The embedding is a state-and-fault monad over a [World] that holds the
    three shared-memory segments (game state, log queue, score ledger), the
    three lock words, the contents of the scores file and the values still
    to be returned by [rand()].  Every critical section of the C code is one
    monadic program; a ghost trace records the lock operations it performs.

    C [int] arithmetic is written with its 32-bit wrap-around ([int_add]).
    Out-of-bounds array accesses, a lock that is never released and an
    exhausted random stream are faults ([Err]). *)

From Stdlib Require Import ZArith String List Lia Bool.
From stdpp Require Import base tactics option list numbers strings.

Local Open Scope Z_scope.

(** ** C integers *)

Definition INT_MIN : Z := -2147483648.
Definition INT_MAX : Z := 2147483647.

(** Two's complement reduction of a mathematical integer to a C [int]. *)
Definition int_wrap (z : Z) : Z := (z + 2147483648) `mod` 4294967296 - 2147483648.

Definition int_add (a b : Z) : Z := int_wrap (a + b).
Definition int_sub (a b : Z) : Z := int_wrap (a - b).

Definition in_int (z : Z) : Prop := INT_MIN <= z <= INT_MAX.

(** ** Configuration constants shared by both servers *)

Definition MIN_PLAYERS : Z := 3.
Definition MAX_PLAYERS : Z := 5.
Definition WINNING_SCORE : Z := 100.
Definition MAX_NAME_LEN : Z := 32.
Definition LOG_QUEUE_SIZE : Z := 100.
Definition MAX_SCORES : Z := 100.

Inductive PlayerState :=
  | PLAYER_DISCONNECTED
  | PLAYER_WAITING
  | PLAYER_ACTIVE
  | PLAYER_FINISHED.

Inductive GameState :=
  | GAME_WAITING_FOR_PLAYERS
  | GAME_IN_PROGRESS
  | GAME_FINISHED.

Global Instance PlayerState_eq_dec : EqDecision PlayerState.
Proof. solve_decision. Defined.

Global Instance GameState_eq_dec : EqDecision GameState.
Proof. solve_decision. Defined.

(** [strncpy(dst, src, MAX_NAME_LEN - 1)] writes 31 bytes, the first 31
    characters of [src] padded with NUL; byte 31 of the 32-byte field is 0
    since [setup_shared_memory] and is never written.  As a C string the
    field then holds the first 31 characters. *)
Definition strncpy_name (src : string) : string := String.substring 0 31 src.

(** ** The three locks and the ghost trace of lock operations *)

Inductive Lock := GameLock | LogLock | ScoresLock.

Global Instance Lock_eq_dec : EqDecision Lock.
Proof. solve_decision. Defined.

Inductive LockEvent :=
  | Acquire (l : Lock)
  | Release (l : Lock).

(** The lock words: [game_state->game_lock], [log_queue->lock] and
    [scores->lock] (the mutexes [game_mutex], [log_queue->mutex] and
    [scores->mutex] in the dice server).  0 is free. *)
Record Locks := mkLocks {
  game_lock : Z;
  log_lock : Z;
  scores_lock : Z }.

Definition lock_word (l : Lock) (ls : Locks) : Z :=
  match l with
  | GameLock => game_lock ls
  | LogLock => log_lock ls
  | ScoresLock => scores_lock ls
  end.

Definition set_lock_word (l : Lock) (v : Z) (ls : Locks) : Locks :=
  match l with
  | GameLock => mkLocks v (log_lock ls) (scores_lock ls)
  | LogLock => mkLocks (game_lock ls) v (scores_lock ls)
  | ScoresLock => mkLocks (game_lock ls) (log_lock ls) v
  end.

(** ** Log queue *)

(** A log line is kept as its format string and arguments; the rendering
    by [vsnprintf] and the time stamp are not modelled. *)
Inductive LogArg :=
  | ArgInt (z : Z)
  | ArgStr (s : string).

Definition LogMsg : Type := string * list LogArg.

Record LogQueue := mkLogQueue {
  q_entries : list LogMsg;
  q_head : Z;
  q_tail : Z;
  q_count : Z;
  q_shutdown : Z }.

(** ** Score ledger, generic in the entry type of each server *)

Record SharedScores (E : Type) := mkScores {
  sc_entries : list E;
  sc_count : Z }.
Arguments mkScores {E} _ _.
Arguments sc_entries {E} _.
Arguments sc_count {E} _.

(** ** The world seen by one thread *)

Record World (G E : Type) := mkWorld {
  game : G;                       (* *game_state *)
  log_queue : LogQueue;           (* *log_queue *)
  scores : SharedScores E;        (* *scores *)
  scores_file : list E;           (* contents of SCORES_FILE *)
  locks : Locks;
  lock_trace : list LockEvent;    (* ghost: lock operations so far *)
  rand_stream : list Z }.         (* values rand() will return *)
Arguments mkWorld {G E} _ _ _ _ _ _ _.
Arguments game {G E} _.
Arguments log_queue {G E} _.
Arguments scores {G E} _.
Arguments scores_file {G E} _.
Arguments locks {G E} _.
Arguments lock_trace {G E} _.
Arguments rand_stream {G E} _.

Section WorldUpdate.
Context {G E : Type}.
Implicit Types w : World G E.

Definition with_game (g : G) w : World G E :=
  mkWorld g (log_queue w) (scores w) (scores_file w) (locks w) (lock_trace w) (rand_stream w).
Definition with_log_queue (q : LogQueue) w : World G E :=
  mkWorld (game w) q (scores w) (scores_file w) (locks w) (lock_trace w) (rand_stream w).
Definition with_scores (s : SharedScores E) w : World G E :=
  mkWorld (game w) (log_queue w) s (scores_file w) (locks w) (lock_trace w) (rand_stream w).
Definition with_scores_file (f : list E) w : World G E :=
  mkWorld (game w) (log_queue w) (scores w) f (locks w) (lock_trace w) (rand_stream w).
Definition with_locks (ls : Locks) w : World G E :=
  mkWorld (game w) (log_queue w) (scores w) (scores_file w) ls (lock_trace w) (rand_stream w).
Definition with_lock_trace (t : list LockEvent) w : World G E :=
  mkWorld (game w) (log_queue w) (scores w) (scores_file w) (locks w) t (rand_stream w).
Definition with_rand_stream (r : list Z) w : World G E :=
  mkWorld (game w) (log_queue w) (scores w) (scores_file w) (locks w) (lock_trace w) r.
End WorldUpdate.

(** ** The monad *)

Inductive Fault :=
  | OutOfBounds     (* array index outside the array *)
  | Blocked         (* spinning on a lock that is held *)
  | NoRandom        (* the random stream is exhausted *)
  | OutOfFuel.      (* a loop ran past its bound *)

Inductive Res (W A : Type) :=
  | Ok (a : A) (w : W)
  | Err (f : Fault).
Arguments Ok {W A} _ _.
Arguments Err {W A} _.

Definition M (W A : Type) : Type := W → Res W A.

Definition ret {W A} (a : A) : M W A := λ w, Ok a w.

Definition bind {W A B} (m : M W A) (k : A → M W B) : M W B :=
  λ w, match m w with
       | Ok a w' => k a w'
       | Err f => Err f
       end.

Definition fail {W A} (f : Fault) : M W A := λ _, Err f.

Declare Scope cmd_scope.
Delimit Scope cmd_scope with cmd.
Notation "x <- m ;; k" := (bind m (λ x, k))
  (at level 100, m at next level, k at level 200, right associativity) : cmd_scope.
Notation "m ;; k" := (bind m (λ _, k))
  (at level 100, k at level 200, right associativity) : cmd_scope.
Local Open Scope cmd_scope.

Definition get {W} : M W W := λ w, Ok w w.
Definition modify {W} (f : W → W) : M W unit := λ w, Ok tt (f w).

(** [a[i]] and [a[i] = x] on an array held as a list. *)
Definition arr_get {A} (a : list A) (i : Z) : option A :=
  if i <? 0 then None else a !! Z.to_nat i.

Definition arr_set {A} (a : list A) (i : Z) (x : A) : option (list A) :=
  if (0 <=? i) && (i <? Z.of_nat (length a)) then Some (<[Z.to_nat i := x]> a) else None.

Definition lift_opt {W A} (o : option A) : M W A :=
  match o with
  | Some a => ret a
  | None => fail OutOfBounds
  end.

Definition lift {W A} (r : Fault + A) : M W A :=
  match r with
  | inr a => ret a
  | inl f => fail f
  end.

(** Weakest precondition: the run ends without fault in a state where [Q]
    holds. *)
Definition wp {W A} (m : M W A) (Q : A → W → Prop) (w : W) : Prop :=
  match m w with
  | Ok a w' => Q a w'
  | Err _ => False
  end.

Section Shm.
Context {G E : Type}.
Abbreviation W := (World G E).

Definition read_game : M W G := λ w, Ok (game w) w.
Definition write_game (g : G) : M W unit := modify (with_game g).
Definition read_log : M W LogQueue := λ w, Ok (log_queue w) w.
Definition write_log (q : LogQueue) : M W unit := modify (with_log_queue q).
Definition read_scores : M W (SharedScores E) := λ w, Ok (scores w) w.
Definition write_scores (s : SharedScores E) : M W unit := modify (with_scores s).

(** [spin_lock]: test-and-set until the old value is 0.  A single thread
    running alone never sees a held lock become free. *)
Definition spin_lock (l : Lock) : M W unit :=
  λ w, if lock_word l (locks w) =? 0
       then Ok tt (with_lock_trace (lock_trace w ++ [Acquire l])
                     (with_locks (set_lock_word l 1 (locks w)) w))
       else Err Blocked.

Definition spin_unlock (l : Lock) : M W unit :=
  λ w, Ok tt (with_lock_trace (lock_trace w ++ [Release l])
                (with_locks (set_lock_word l 0 (locks w)) w)).

(** [rand()] *)
Definition rand : M W Z :=
  λ w, match rand_stream w with
       | r :: rs => Ok r (with_rand_stream rs w)
       | [] => Err NoRandom
       end.

(** [enqueue_log(format, ...)]: append to the circular buffer unless it is
    full. *)
Definition enqueue_log (format : string) (args : list LogArg) : M W unit :=
  spin_lock LogLock ;;
  q <- read_log ;;
  (if q_count q <? LOG_QUEUE_SIZE then
     es <- lift_opt (arr_set (q_entries q) (q_tail q) (format, args)) ;;
     write_log (mkLogQueue es (q_head q)
                  (Z.rem (q_tail q + 1) LOG_QUEUE_SIZE)
                  (int_add (q_count q) 1) (q_shutdown q))
   else ret tt) ;;
  spin_unlock LogLock.

(** The inner loop of [logger_thread_func]: while [count > 0], write the
    entry at [head] to the log file and advance [head].  The result is
    the lines written, oldest first; the time stamp that [fprintf] puts
    in front of each line is not modelled. *)
Fixpoint logger_loop (fuel : nat) : M W (list LogMsg) :=
  q <- read_log ;;
  if 0 <? q_count q then
    match fuel with
    | O => fail OutOfFuel
    | S fuel' =>
        entry <- lift_opt (arr_get (q_entries q) (q_head q)) ;;
        write_log (mkLogQueue (q_entries q)
                     (Z.rem (int_add (q_head q) 1) LOG_QUEUE_SIZE)
                     (q_tail q) (int_sub (q_count q) 1) (q_shutdown q)) ;;
        rest <- logger_loop fuel' ;;
        ret (entry :: rest)
    end
  else ret [].

(** One round of the outer [while (1)] loop of [logger_thread_func], from
    [spin_lock] to [spin_unlock]: the lines written and [should_exit].
    Each round of the inner loop takes one off [count], so the value of
    [count] at entry bounds it. *)
Definition logger_iteration : M W (list LogMsg * bool) :=
  spin_lock LogLock ;;
  q <- read_log ;;
  lines <- logger_loop (Z.to_nat (q_count q)) ;;
  q <- read_log ;;
  let should_exit := negb (q_shutdown q =? 0) && (q_count q =? 0) in
  spin_unlock LogLock ;;
  ret (lines, should_exit).
End Shm.

(** ** Lock discipline on a trace *)

(** The locks held after a trace, most recent first. *)
Fixpoint held_after (held : list Lock) (t : list LockEvent) : list Lock :=
  match t with
  | [] => held
  | Acquire l :: t' => held_after (l :: held) t'
  | Release l :: t' => held_after (remove Lock_eq_dec l held) t'
  end.

(** The largest number of locks held at any point of a trace. *)
Fixpoint max_held (held : list Lock) (t : list LockEvent) : nat :=
  match t with
  | [] => length held
  | Acquire l :: t' => Nat.max (length held) (max_held (l :: held) t')
  | Release l :: t' => Nat.max (length held) (max_held (remove Lock_eq_dec l held) t')
  end.

(** The discipline the code follows: a lock is taken with no lock held,
    with the one exception of the log lock, which is also taken with just
    the game lock held; and a thread releases the lock it took last. *)
Definition may_acquire (held : list Lock) (l : Lock) : bool :=
  match held, l with
  | [], _ => true
  | [GameLock], LogLock => true
  | _, _ => false
  end.

Fixpoint follows_order (held : list Lock) (t : list LockEvent) : option (list Lock) :=
  match t with
  | [] => Some held
  | Acquire l :: t' =>
      if may_acquire held l then follows_order (l :: held) t' else None
  | Release l :: t' =>
      match held with
      | l' :: held' => if decide (l = l') then follows_order held' t' else None
      | [] => None
      end
  end.

(** ** Well-formed shared memory *)

(** The log queue is an array of [LOG_QUEUE_SIZE] entries with [tail]
    inside it. *)
Definition wf_log (q : LogQueue) : Prop :=
  length (q_entries q) = 100%nat ∧ 0 <= q_tail q < LOG_QUEUE_SIZE.

(** The ledger is an array of [MAX_SCORES] entries, [count] of them used. *)
Definition wf_scores {E} (s : SharedScores E) : Prop :=
  length (sc_entries s) = 100%nat ∧ 0 <= sc_count s <= MAX_SCORES.

(** The rows of the ledger in use. *)
Definition ledger_rows {E} (s : SharedScores E) : list E :=
  take (Z.to_nat (sc_count s)) (sc_entries s).

Definition free_locks : Locks := mkLocks 0 0 0.

(** The queue after [enqueue_log] has run. *)
Definition log_push (m : LogMsg) (q : LogQueue) : LogQueue :=
  if q_count q <? LOG_QUEUE_SIZE then
    mkLogQueue (<[Z.to_nat (q_tail q) := m]> (q_entries q)) (q_head q)
               (Z.rem (q_tail q + 1) LOG_QUEUE_SIZE) (int_add (q_count q) 1) (q_shutdown q)
  else q.

(** The world after [enqueue_log] has run. *)
Definition logged {G E} (m : LogMsg) (w : World G E) : World G E :=
  with_lock_trace (lock_trace w ++ [Acquire LogLock; Release LogLock])
    (with_log_queue (log_push m (log_queue w)) w).

(** [glp m Q g0]: every run of [m] that starts with game state [g0] and
    ends without fault ends with a result and a game state that satisfy
    [Q]. *)
Definition glp {G E A} (m : M (World G E) A) (Q : A → G → Prop) (g0 : G) : Prop :=
  ∀ w a w', game w = g0 → m w = Ok a w' → Q a (game w').

(** A program that leaves the game state alone. *)
Definition game_frame {G E A} (m : M (World G E) A) : Prop :=
  ∀ w a w', m w = Ok a w' → game w' = game w.

(** A program is lock-safe from [held] to [held'] when every run that ends
    extends the trace by lock operations that follow the order, starting
    with [held] and ending with [held']. *)
Definition lock_safe {G E A} (held held' : list Lock) (m : M (World G E) A) : Prop :=
  ∀ w a w', m w = Ok a w' →
    ∃ t, lock_trace w' = lock_trace w ++ t ∧ follows_order held t = Some held'.

(** [lock_safe] for the runs that start with the game state [g0]. *)
Definition lock_safe_at {G E A} (g0 : G) (held held' : list Lock) (m : M (World G E) A)
    : Prop :=
  ∀ w a w', game w = g0 → m w = Ok a w' →
    ∃ t, lock_trace w' = lock_trace w ++ t ∧ follows_order held t = Some held'.

(** A program whose runs that end all extend the trace by [t]. *)
Definition lock_adds {G E A} (t : list LockEvent) (m : M (World G E) A) : Prop :=
  ∀ w a w', m w = Ok a w' → lock_trace w' = lock_trace w ++ t.

(** The sets of held locks the order allows, most recent first: none, one,
    or the log lock on top of the game lock. *)
Definition ordered (h : list Lock) : Prop :=
  h = [] ∨ (∃ l, h = [l]) ∨ h = [LogLock; GameLock].

(** [wpr m Q w]: the run of [m] ends in a state where [Q] holds, or stops
    because [rand()] has no value left to return; no other fault occurs. *)
Definition wpr {W A} (m : M W A) (Q : A → W → Prop) (w : W) : Prop :=
  match m w with
  | Ok a w' => Q a w'
  | Err f => f = NoRandom
  end.

(** [wlp m Q w]: if the run of [m] from [w] ends without fault, it ends
    in a state where [Q] holds. *)
Definition wlp {W A} (m : M W A) (Q : A → W → Prop) (w : W) : Prop :=
  match m w with
  | Ok a w' => Q a w'
  | Err _ => True
  end.

(** *** The log queue as a sequence *)

(** The circular buffer holds [count] lines from [head] on, and [tail] is
    where the next one goes. *)
Definition log_inv (q : LogQueue) : Prop :=
  length (q_entries q) = 100%nat
  ∧ 0 <= q_head q < LOG_QUEUE_SIZE
  ∧ 0 <= q_count q <= LOG_QUEUE_SIZE
  ∧ q_tail q = (q_head q + q_count q) `mod` LOG_QUEUE_SIZE.

(** The lines waiting in the queue, oldest first. *)
Definition queue_contents (q : LogQueue) : list LogMsg :=
  take (Z.to_nat (q_count q)) (rotate (Z.to_nat (q_head q)) (q_entries q)).

(** The queue after one round of the logger's inner loop. *)
Definition log_pop (q : LogQueue) : LogQueue :=
  mkLogQueue (q_entries q) (Z.rem (int_add (q_head q) 1) LOG_QUEUE_SIZE)
             (q_tail q) (int_sub (q_count q) 1) (q_shutdown q).

(** A sequence of calls of [enqueue_log]. *)
Fixpoint enqueue_all {G E} (ms : list LogMsg) : M (World G E) unit :=
  match ms with
  | [] => ret tt
  | m :: ms' => enqueue_log (fst m) (snd m) ;; enqueue_all ms'
  end.

(** What the logging code leaves alone. *)
Definition log_only {G E} (w w' : World G E) : Prop :=
  game w' = game w ∧ scores w' = scores w ∧ scores_file w' = scores_file w
  ∧ rand_stream w' = rand_stream w ∧ locks w' = locks w.

(** ** Round-robin successor, the same function in both servers *)

Section RoundRobin.
Context {P : Type} (state_of : P → PlayerState).

Definition is_active (p : P) : bool := bool_decide (state_of p = PLAYER_ACTIVE).

(** The [do ... while (idx != start)] loop; it ends within [MAX_PLAYERS]
    rounds, the fuel given by [get_next_active_player]. *)
Fixpoint next_active_loop (fuel : nat) (ps : list P) (idx start : Z) : Fault + Z :=
  match fuel with
  | O => inl OutOfFuel
  | S fuel' =>
      match arr_get ps idx with
      | None => inl OutOfBounds
      | Some p =>
          if is_active p then inr idx
          else
            let idx' := Z.rem (int_add idx 1) MAX_PLAYERS in
            if idx' =? start then inr (-1)
            else next_active_loop fuel' ps idx' start
      end
  end.

Definition get_next_active_player (ps : list P) (current : Z) : Fault + Z :=
  let start := Z.rem (int_add current 1) MAX_PLAYERS in
  next_active_loop (Z.to_nat MAX_PLAYERS) ps start start.

(** [count_active_players] *)
Definition count_active_players (ps : list P) : Z :=
  Z.of_nat (length (filter (λ p, is_active p = true) ps)).

(** The slots whose state is Active, in ascending order. *)
Definition active_slots (ps : list P) : list Z :=
  filter (λ i, from_option is_active false (arr_get ps i) = true)
         (Z.of_nat <$> seq 0 (length ps)).

(** [n] successive calls, each starting from the previous result. *)
Fixpoint turn_orbit (n : nat) (ps : list P) (current : Z) : Fault + list Z :=
  match n with
  | O => inr []
  | S n' =>
      match get_next_active_player ps current with
      | inl f => inl f
      | inr next =>
          match turn_orbit n' ps next with
          | inl f => inl f
          | inr rest => inr (next :: rest)
          end
      end
  end.
End RoundRobin.

(** The round-robin functions see only whether a slot is Active; a
    configuration of five slots is a list of five flags. *)
Definition state_of_flag (b : bool) : PlayerState :=
  if b then PLAYER_ACTIVE else PLAYER_DISCONNECTED.

(** What the round-robin claims need, for one configuration of flags and
    one starting value. *)
Definition round_robin_ok (m : list bool) (c : Z) : Prop :=
  ∃ r orb,
    get_next_active_player state_of_flag m c = inr r
    ∧ (r = -1 ↔ active_slots state_of_flag m = [])
    ∧ (r ≠ -1 → r ∈ active_slots state_of_flag m)
    ∧ (∀ s, active_slots state_of_flag m = [s] → r = s)
    ∧ turn_orbit state_of_flag (length (active_slots state_of_flag m)) m c = inr orb
    ∧ orb ≡ₚ active_slots state_of_flag m
    ∧ NoDup orb
    ∧ (c ∈ active_slots state_of_flag m → last orb = Some c).

(** ** The Sudoku server ([server.c]) *)

Module Sudoku.

Definition GRID_SIZE : Z := 9.
Definition EMPTY_CELL : Z := 0.
Definition POINTS_CORRECT : Z := 10.
Definition POINTS_WRONG : Z := -5.

Definition MSG_JOIN : Z := 1.
Definition MSG_PLACE : Z := 2.
Definition MSG_QUIT : Z := 3.
Definition MSG_GAME_STATE : Z := 4.
Definition MSG_YOUR_TURN : Z := 5.
Definition MSG_PLACE_RESULT : Z := 6.
Definition MSG_GAME_OVER : Z := 7.
Definition MSG_WAIT : Z := 8.
Definition MSG_ERROR : Z := 9.
Definition MSG_PLAYER_JOINED : Z := 10.
Definition MSG_PLAYER_LEFT : Z := 11.
Definition MSG_GAME_START : Z := 12.
Definition MSG_GRID_UPDATE : Z := 13.

Record Player := mkPlayer {
  id : Z;
  name : string;
  score : Z;
  correct_placements : Z;
  wrong_placements : Z;
  state : PlayerState;
  handler_pid : Z }.

Record SudokuCell := mkCell {
  value : Z;
  solution : Z;
  is_fixed : Z;
  placed_by : Z }.

(** [SharedGameState] without its lock word, which lives in [Locks]. *)
Record SharedGameState := mkGame {
  game_state : GameState;
  num_players : Z;
  current_turn : Z;
  winner_id : Z;
  grid : list (list SudokuCell);
  cells_remaining : Z;
  players : list Player;
  turn_signal : Z;
  game_reset_requested : Z;
  server_shutdown : Z }.

Record ScoreEntry := mkScore {
  entry_name : string;
  wins : Z;
  total_correct : Z;
  total_wrong : Z }.

Record GameMessage := mkMsg {
  msg_type : Z;
  msg_player_id : Z;
  msg_player_name : string;
  msg_row : Z;
  msg_col : Z;
  msg_value : Z;
  msg_success : Z;
  msg_points_earned : Z;
  msg_text : LogMsg;
  msg_grid : list (list SudokuCell);
  msg_cells_remaining : Z;
  msg_players : list Player;
  msg_num_players : Z;
  msg_current_turn : Z }.

Abbreviation W := (World SharedGameState ScoreEntry).

(** Field assignments. *)
Definition set_name v (p : Player) :=
  mkPlayer (id p) v (score p) (correct_placements p) (wrong_placements p) (state p) (handler_pid p).
Definition set_score v (p : Player) :=
  mkPlayer (id p) (name p) v (correct_placements p) (wrong_placements p) (state p) (handler_pid p).
Definition set_correct_placements v (p : Player) :=
  mkPlayer (id p) (name p) (score p) v (wrong_placements p) (state p) (handler_pid p).
Definition set_wrong_placements v (p : Player) :=
  mkPlayer (id p) (name p) (score p) (correct_placements p) v (state p) (handler_pid p).
Definition set_state v (p : Player) :=
  mkPlayer (id p) (name p) (score p) (correct_placements p) (wrong_placements p) v (handler_pid p).
Definition set_handler_pid v (p : Player) :=
  mkPlayer (id p) (name p) (score p) (correct_placements p) (wrong_placements p) (state p) v.

Definition set_game_state v (g : SharedGameState) :=
  mkGame v (num_players g) (current_turn g) (winner_id g) (grid g) (cells_remaining g)
         (players g) (turn_signal g) (game_reset_requested g) (server_shutdown g).
Definition set_num_players v (g : SharedGameState) :=
  mkGame (game_state g) v (current_turn g) (winner_id g) (grid g) (cells_remaining g)
         (players g) (turn_signal g) (game_reset_requested g) (server_shutdown g).
Definition set_current_turn v (g : SharedGameState) :=
  mkGame (game_state g) (num_players g) v (winner_id g) (grid g) (cells_remaining g)
         (players g) (turn_signal g) (game_reset_requested g) (server_shutdown g).
Definition set_winner_id v (g : SharedGameState) :=
  mkGame (game_state g) (num_players g) (current_turn g) v (grid g) (cells_remaining g)
         (players g) (turn_signal g) (game_reset_requested g) (server_shutdown g).
Definition set_grid v (g : SharedGameState) :=
  mkGame (game_state g) (num_players g) (current_turn g) (winner_id g) v (cells_remaining g)
         (players g) (turn_signal g) (game_reset_requested g) (server_shutdown g).
Definition set_cells_remaining v (g : SharedGameState) :=
  mkGame (game_state g) (num_players g) (current_turn g) (winner_id g) (grid g) v
         (players g) (turn_signal g) (game_reset_requested g) (server_shutdown g).
Definition set_players v (g : SharedGameState) :=
  mkGame (game_state g) (num_players g) (current_turn g) (winner_id g) (grid g) (cells_remaining g)
         v (turn_signal g) (game_reset_requested g) (server_shutdown g).
Definition set_turn_signal v (g : SharedGameState) :=
  mkGame (game_state g) (num_players g) (current_turn g) (winner_id g) (grid g) (cells_remaining g)
         (players g) v (game_reset_requested g) (server_shutdown g).

Definition set_msg_type v (m : GameMessage) :=
  mkMsg v (msg_player_id m) (msg_player_name m) (msg_row m) (msg_col m) (msg_value m)
        (msg_success m) (msg_points_earned m) (msg_text m) (msg_grid m)
        (msg_cells_remaining m) (msg_players m) (msg_num_players m) (msg_current_turn m).
Definition set_msg_player_id v (m : GameMessage) :=
  mkMsg (msg_type m) v (msg_player_name m) (msg_row m) (msg_col m) (msg_value m)
        (msg_success m) (msg_points_earned m) (msg_text m) (msg_grid m)
        (msg_cells_remaining m) (msg_players m) (msg_num_players m) (msg_current_turn m).
Definition set_msg_text v (m : GameMessage) :=
  mkMsg (msg_type m) (msg_player_id m) (msg_player_name m) (msg_row m) (msg_col m) (msg_value m)
        (msg_success m) (msg_points_earned m) v (msg_grid m)
        (msg_cells_remaining m) (msg_players m) (msg_num_players m) (msg_current_turn m).
(** [response.row = row; response.col = col; response.value = value] *)
Definition set_msg_move r c v (m : GameMessage) :=
  mkMsg (msg_type m) (msg_player_id m) (msg_player_name m) r c v
        (msg_success m) (msg_points_earned m) (msg_text m) (msg_grid m)
        (msg_cells_remaining m) (msg_players m) (msg_num_players m) (msg_current_turn m).
(** [response.success = s; response.points_earned = pts] *)
Definition set_msg_outcome s pts (m : GameMessage) :=
  mkMsg (msg_type m) (msg_player_id m) (msg_player_name m) (msg_row m) (msg_col m) (msg_value m)
        s pts (msg_text m) (msg_grid m)
        (msg_cells_remaining m) (msg_players m) (msg_num_players m) (msg_current_turn m).

(** [copy_state_to_message] *)
Definition copy_state_to_message (g : SharedGameState) (m : GameMessage) : GameMessage :=
  mkMsg (msg_type m) (msg_player_id m) (msg_player_name m) (msg_row m) (msg_col m) (msg_value m)
        (msg_success m) (msg_points_earned m) (msg_text m)
        (grid g) (cells_remaining g) (players g) (num_players g) (current_turn g).

Definition zero_cell : SudokuCell := mkCell 0 0 0 0.
Definition zero_player : Player := mkPlayer 0 "" 0 0 0 PLAYER_DISCONNECTED 0.

(** [memset(&response, 0, sizeof(GameMessage))] *)
Definition zero_message : GameMessage :=
  mkMsg 0 0 "" 0 0 0 0 0 ("", [])
        (replicate 9 (replicate 9 zero_cell)) 0 (replicate 5 zero_player) 0 0.

(** [grid[row][col]] *)
Definition grid_get (g : list (list SudokuCell)) (row col : Z) : option SudokuCell :=
  match arr_get g row with
  | Some r => arr_get r col
  | None => None
  end.

Definition grid_set (g : list (list SudokuCell)) (row col : Z) (c : SudokuCell)
    : option (list (list SudokuCell)) :=
  match arr_get g row with
  | Some r =>
      match arr_set r col c with
      | Some r' => arr_set g row r'
      | None => None
      end
  | None => None
  end.

Definition update_game (f : SharedGameState → SharedGameState) : M W unit :=
  gs <- read_game ;; write_game (f gs).

(** Reads and writes through [player = &game_state->players[i]]. *)
Definition read_player (i : Z) : M W Player :=
  gs <- read_game ;; lift_opt (arr_get (players gs) i).

Definition update_player (i : Z) (f : Player → Player) : M W unit :=
  gs <- read_game ;;
  p <- lift_opt (arr_get (players gs) i) ;;
  ps <- lift_opt (arr_set (players gs) i (f p)) ;;
  write_game (set_players ps gs).

(** *** Puzzle generation *)

(** The removal loop of [generate_puzzle]; [rs] are the coming values of
    [rand()]. *)
Fixpoint remove_cells (rs : list Z) (g : list (list SudokuCell)) (removed cells_to_remove : Z)
    : Fault + (list (list SudokuCell) * list Z) :=
  if removed <? cells_to_remove then
    match rs with
    | r1 :: r2 :: rs' =>
        let row := Z.rem r1 GRID_SIZE in
        let col := Z.rem r2 GRID_SIZE in
        match grid_get g row col with
        | None => inl OutOfBounds
        | Some c =>
            if negb (value c =? EMPTY_CELL) then
              match grid_set g row col (mkCell EMPTY_CELL (solution c) 0 (placed_by c)) with
              | Some g' => remove_cells rs' g' (int_add removed 1) cells_to_remove
              | None => inl OutOfBounds
              end
            else remove_cells rs' g removed cells_to_remove
        end
    | _ => inl NoRandom
    end
  else inr (g, rs).

Definition indices9 : list Z := [0; 1; 2; 3; 4; 5; 6; 7; 8].

(** *** Score persistence *)

(** [save_scores]: rewrite the file from the first [count] entries.
    [fopen] is taken to succeed; when it fails the C function returns at
    once, before it takes the lock, and the file stays as it was. *)
Definition save_scores : M W unit :=
  spin_lock ScoresLock ;;
  sc <- read_scores ;;
  modify (with_scores_file (take (Z.to_nat (sc_count sc)) (sc_entries sc))) ;;
  spin_unlock ScoresLock.

(** The search loop of [update_player_stats]. *)
Fixpoint find_entry (player_name : string) (es : list ScoreEntry) (i : Z) : Z :=
  match es with
  | [] => -1
  | e :: es' =>
      if String.eqb (entry_name e) player_name then i
      else find_entry player_name es' (i + 1)
  end.

Definition update_player_stats (player_name : string) (is_winner : bool) (correct wrong : Z)
    : M W unit :=
  spin_lock ScoresLock ;;
  sc <- read_scores ;;
  let found := find_entry player_name (take (Z.to_nat (sc_count sc)) (sc_entries sc)) 0 in
  (if 0 <=? found then
     e <- lift_opt (arr_get (sc_entries sc) found) ;;
     let e' := mkScore (entry_name e)
                       (if is_winner then int_add (wins e) 1 else wins e)
                       (int_add (total_correct e) correct)
                       (int_add (total_wrong e) wrong) in
     es <- lift_opt (arr_set (sc_entries sc) found e') ;;
     write_scores (mkScores es (sc_count sc))
   else if sc_count sc <? MAX_SCORES then
     let e' := mkScore (strncpy_name player_name) (if is_winner then 1 else 0) correct wrong in
     es <- lift_opt (arr_set (sc_entries sc) (sc_count sc) e') ;;
     write_scores (mkScores es (int_add (sc_count sc) 1))
   else ret tt) ;;
  spin_unlock ScoresLock ;;
  save_scores.

(** *** Winner selection, written twice in the source *)

(** The loop over [i] with [max_score] and [winner]; [i] is the index of
    the head of [ps]. *)
Fixpoint winner_loop (ps : list Player) (i max_score winner : Z) : Z * Z :=
  match ps with
  | [] => (max_score, winner)
  | p :: ps' =>
      if is_active state p && (score p >? max_score)
      then winner_loop ps' (i + 1) (score p) i
      else winner_loop ps' (i + 1) max_score winner
  end.

(** The ledger loop of the scheduler: one [update_player_stats] per Active
    slot. *)
Fixpoint stats_loop (ps : list Player) (i winner : Z) : M W unit :=
  match ps with
  | [] => ret tt
  | p :: ps' =>
      (if is_active state p
       then update_player_stats (name p) (i =? winner) (correct_placements p) (wrong_placements p)
       else ret tt) ;;
      stats_loop ps' (i + 1) winner
  end.

(** *** Scheduler *)

(** One round of the [while (server_running)] loop of
    [scheduler_thread_func], from [spin_lock] to [spin_unlock]. *)
Definition scheduler_iteration : M W unit :=
  spin_lock GameLock ;;
  gs <- read_game ;;
  (if bool_decide (game_state gs = GAME_IN_PROGRESS) then
     let current := current_turn gs in
     (if (0 <=? current) && (current <? MAX_PLAYERS) then
        p <- read_player current ;;
        if negb (is_active state p) then
          next <- lift (get_next_active_player state (players gs) current) ;;
          if 0 <=? next then
            update_game (λ gs, set_turn_signal (int_add (turn_signal gs) 1)
                                 (set_current_turn next gs)) ;;
            np <- read_player next ;;
            enqueue_log "Scheduler: Turn passed to Player %d (%s)"
                        [ArgInt (int_add next 1); ArgStr (name np)]
          else
            update_game (set_game_state GAME_FINISHED) ;;
            enqueue_log "Scheduler: No active players, game ended" []
        else ret tt
      else ret tt) ;;
     gs <- read_game ;;
     if cells_remaining gs <=? 0 then
       update_game (set_game_state GAME_FINISHED) ;;
       let '(max_score, winner) := winner_loop (players gs) 0 (-1000) (-1) in
       update_game (set_winner_id winner) ;;
       if 0 <=? winner then
         best <- read_player winner ;;
         enqueue_log "PUZZLE COMPLETE! Winner: Player %d (%s) with %d points!"
                     [ArgInt (int_add winner 1); ArgStr (name best); ArgInt max_score] ;;
         stats_loop (players gs) 0 winner
       else ret tt
     else ret tt
   else ret tt) ;;
  spin_unlock GameLock.

(** [advance_turn] *)
Definition advance_turn : M W unit :=
  spin_lock GameLock ;;
  gs <- read_game ;;
  next <- lift (get_next_active_player state (players gs) (current_turn gs)) ;;
  (if 0 <=? next then
     update_game (λ gs, set_turn_signal (int_add (turn_signal gs) 1)
                          (set_current_turn next gs)) ;;
     np <- read_player next ;;
     enqueue_log "Turn advanced to Player %d (%s)"
                 [ArgInt (int_add next 1); ArgStr (name np)]
   else ret tt) ;;
  spin_unlock GameLock.

(** [broadcast_turn_notification]: the pipe writes are not modelled, the
    locking and the reads are. *)
Definition broadcast_turn_notification : M W unit :=
  spin_lock GameLock ;;
  gs <- read_game ;;
  (if negb (bool_decide (game_state gs = GAME_IN_PROGRESS)) then ret tt
   else if (current_turn gs <? 0) || (current_turn gs >=? MAX_PLAYERS) then ret tt
   else _ <- read_player (current_turn gs) ;; ret tt) ;;
  spin_unlock GameLock.

(** *** Client handler: the cases of the [switch] in [handle_client] *)

(** [case MSG_PLACE], the part executed under the game lock.  The result
    is the response and whether the game goes on ([false] on the early
    [break]s). *)
Definition place_locked (player_id : Z) (msg : GameMessage) : M W (GameMessage * bool) :=
  let response := zero_message in
  spin_lock GameLock ;;
  gs <- read_game ;;
  if negb (bool_decide (game_state gs = GAME_IN_PROGRESS)) then
    spin_unlock GameLock ;;
    ret (set_msg_text ("Game not in progress", []) (set_msg_type MSG_ERROR response), false)
  else if negb (current_turn gs =? player_id) then
    cur <- read_player (current_turn gs) ;;
    spin_unlock GameLock ;;
    ret (set_msg_text ("Not your turn! Current turn: Player %d (%s)",
                       [ArgInt (int_add (current_turn gs) 1); ArgStr (name cur)])
           (copy_state_to_message gs (set_msg_type MSG_WAIT response)), false)
  else
    let row := msg_row msg in
    let col := msg_col msg in
    let value := msg_value msg in
    if (row <? 0) || (row >=? GRID_SIZE) || (col <? 0) || (col >=? GRID_SIZE) then
      spin_unlock GameLock ;;
      ret (set_msg_text ("Invalid position (%d,%d)",
                         [ArgInt (int_add row 1); ArgInt (int_add col 1)])
             (set_msg_type MSG_ERROR response), false)
    else if (value <? 1) || (value >? 9) then
      spin_unlock GameLock ;;
      ret (set_msg_text ("Invalid number %d (must be 1-9)", [ArgInt value])
             (set_msg_type MSG_ERROR response), false)
    else
      cell <- lift_opt (grid_get (grid gs) row col) ;;
      if negb (is_fixed cell =? 0) then
        spin_unlock GameLock ;;
        ret (set_msg_text ("Cell (%d,%d) is fixed and cannot be changed",
                           [ArgInt (int_add row 1); ArgInt (int_add col 1)])
               (set_msg_type MSG_ERROR response), false)
      else if negb (Sudoku.value cell =? EMPTY_CELL) then
        spin_unlock GameLock ;;
        ret (set_msg_text ("Cell (%d,%d) already has value %d",
                           [ArgInt (int_add row 1); ArgInt (int_add col 1);
                            ArgInt (Sudoku.value cell)])
               (set_msg_type MSG_ERROR response), false)
      else
        let response := set_msg_move row col value (set_msg_type MSG_PLACE_RESULT response) in
        response <-
          (if value =? solution cell then
             g' <- lift_opt (grid_set (grid gs) row col
                               (mkCell value (solution cell) (is_fixed cell) player_id)) ;;
             update_game (λ gs, set_cells_remaining (int_sub (cells_remaining gs) 1)
                                  (set_grid g' gs)) ;;
             update_player player_id
               (λ p, set_correct_placements (int_add (correct_placements p) 1)
                       (set_score (int_add (score p) POINTS_CORRECT) p)) ;;
             player <- read_player player_id ;;
             gs <- read_game ;;
             enqueue_log "Player %d (%s) placed %d at (%d,%d) - CORRECT! Score: %d"
               [ArgInt (int_add player_id 1); ArgStr (name player); ArgInt value;
                ArgInt (int_add row 1); ArgInt (int_add col 1); ArgInt (score player)] ;;
             ret (set_msg_text ("CORRECT! +%d points. Score: %d. Cells remaining: %d",
                                [ArgInt POINTS_CORRECT; ArgInt (score player);
                                 ArgInt (cells_remaining gs)])
                    (set_msg_outcome 1 POINTS_CORRECT response))
           else
             update_player player_id
               (λ p, set_wrong_placements (int_add (wrong_placements p) 1)
                       (set_score (int_add (score p) POINTS_WRONG) p)) ;;
             player <- read_player player_id ;;
             enqueue_log "Player %d (%s) placed %d at (%d,%d) - WRONG! Score: %d"
               [ArgInt (int_add player_id 1); ArgStr (name player); ArgInt value;
                ArgInt (int_add row 1); ArgInt (int_add col 1); ArgInt (score player)] ;;
             ret (set_msg_text ("WRONG! %d points. Score: %d. Try again next turn!",
                                [ArgInt POINTS_WRONG; ArgInt (score player)])
                    (set_msg_outcome 0 POINTS_WRONG response))) ;;
        gs <- read_game ;;
        let response := copy_state_to_message gs response in
        if cells_remaining gs <=? 0 then
          let response := set_msg_type MSG_GAME_OVER response in
          let '(max_score, winner) := winner_loop (players gs) 0 (-1000) (-1) in
          update_game (λ gs, set_game_state GAME_FINISHED (set_winner_id winner gs)) ;;
          player <- read_player player_id ;;
          response <-
            (if winner =? player_id then
               ret (set_msg_text
                      ("PUZZLE COMPLETE! CONGRATULATIONS - YOU WON with %d points!",
                       [ArgInt (score player)]) response)
             else if 0 <=? winner then
               best <- read_player winner ;;
               ret (set_msg_text
                      ("PUZZLE COMPLETE! Winner: %s with %d points. Your score: %d",
                       [ArgStr (name best); ArgInt max_score; ArgInt (score player)]) response)
             else ret response) ;;
          spin_unlock GameLock ;;
          ret (response, false)
        else
          spin_unlock GameLock ;;
          ret (response, true).

(** [case MSG_PLACE] as a whole: after the locked part, [advance_turn]
    and the two broadcasts when the game goes on. *)
Definition handle_MSG_PLACE (player_id : Z) (msg : GameMessage) : M W GameMessage :=
  r <- place_locked player_id msg ;;
  (if snd r then advance_turn ;; broadcast_turn_notification else ret tt) ;;
  ret (fst r).

(** [case MSG_GAME_STATE] *)
Definition handle_MSG_GAME_STATE (player_id : Z) : M W GameMessage :=
  spin_lock GameLock ;;
  gs <- read_game ;;
  let response := copy_state_to_message gs (set_msg_type MSG_GAME_STATE zero_message) in
  let response :=
    set_msg_text ("Game: %s | Cells left: %d | Your turn: %s",
                  [ArgStr (match game_state gs with
                           | GAME_WAITING_FOR_PLAYERS => "Waiting"
                           | GAME_IN_PROGRESS => "In Progress"
                           | GAME_FINISHED => "Finished"
                           end);
                   ArgInt (cells_remaining gs);
                   ArgStr (if current_turn gs =? player_id then "YES" else "NO")])
                 response in
  spin_unlock GameLock ;;
  ret response.

(** [case MSG_QUIT] *)
Definition handle_MSG_QUIT (player_id : Z) : M W GameMessage :=
  spin_lock GameLock ;;
  update_player player_id (set_state PLAYER_DISCONNECTED) ;;
  update_game (λ gs, set_num_players (int_sub (num_players gs) 1) gs) ;;
  spin_unlock GameLock ;;
  player <- read_player player_id ;;
  enqueue_log "Player %d (%s) quit the game" [ArgInt (int_add player_id 1); ArgStr (name player)] ;;
  ret (set_msg_text ("Goodbye %s! Final score: %d", [ArgStr (name player); ArgInt (score player)])
         (set_msg_type MSG_PLAYER_LEFT zero_message)).

(** The branch taken when [read] returns no message: the client is gone. *)
Definition handle_disconnect (player_id : Z) : M W unit :=
  spin_lock GameLock ;;
  update_player player_id (set_state PLAYER_DISCONNECTED) ;;
  update_game (λ gs, set_num_players (int_sub (num_players gs) 1) gs) ;;
  spin_unlock GameLock ;;
  player <- read_player player_id ;;
  enqueue_log "Player %d (%s) disconnected" [ArgInt (int_add player_id 1); ArgStr (name player)].

(** [sigint_handler], installed for SIGINT and SIGTERM before the
    threads and the handler processes are created.  [server_running] is a
    variable of the process, not of the shared memory, and is not
    modelled. *)
Definition sigint_handler : M W unit :=
  save_scores ;;
  spin_lock LogLock ;;
  q <- read_log ;;
  write_log (mkLogQueue (q_entries q) (q_head q) (q_tail q) (q_count q) 1) ;;
  spin_unlock LogLock.

(** The end of [main] once [server_running] is 0, up to the joins of the
    two threads. *)
Definition main_shutdown : M W unit :=
  enqueue_log "=== SERVER SHUTDOWN ===" [] ;;
  save_scores ;;
  spin_lock LogLock ;;
  q <- read_log ;;
  write_log (mkLogQueue (q_entries q) (q_head q) (q_tail q) (q_count q) 1) ;;
  spin_unlock LogLock.

(** [setup_shared_memory]: the three segments as the server creates
    them. *)
Definition initial_player (i : Z) : Player := mkPlayer i "" 0 0 0 PLAYER_DISCONNECTED 0.

Definition setup_shared_memory : W :=
  mkWorld
    (mkGame GAME_WAITING_FOR_PLAYERS 0 (-1) (-1)
            (replicate 9 (replicate 9 (mkCell EMPTY_CELL 0 0 (-1)))) 0
            (initial_player <$> [0; 1; 2; 3; 4]) 0 0 0)
    (mkLogQueue (replicate 100 ("", [])) 0 0 0 0)
    (mkScores (replicate 100 (mkScore "" 0 0 0)) 0)
    [] free_locks [] [].

Definition promote (p : Player) : Player :=
  if bool_decide (state p = PLAYER_WAITING) then set_state PLAYER_ACTIVE p else p.

Section Server.
(** [generate_full_grid] fills a 9x9 [int] array by randomized
    backtracking.  It is a function of the values [rand()] returns; here
    it is a parameter that yields the filled array and the rest of the
    random stream. *)
Variable generate_full_grid : list Z → (Z → Z → Z) * list Z.

Definition generate_puzzle (difficulty : Z) : M W unit :=
  w <- get ;;
  let '(sol, rs) := generate_full_grid (rand_stream w) in
  let full := (λ r, (λ c, mkCell (sol r c) (sol r c) 1 (-1)) <$> indices9) <$> indices9 in
  let cells_to_remove := int_add 30 (int_wrap (difficulty * 5)) in
  let cells_to_remove := if cells_to_remove >? 55 then 55 else cells_to_remove in
  r <- lift (remove_cells rs full 0 cells_to_remove) ;;
  modify (with_rand_stream (snd r)) ;;
  update_game (λ gs, set_cells_remaining cells_to_remove (set_grid (fst r) gs)) ;;
  enqueue_log "Generated puzzle with %d empty cells (difficulty: %d)"
              [ArgInt cells_to_remove; ArgInt difficulty].

(** [case MSG_JOIN], the part executed under the game lock. *)
Definition join_locked (player_id : Z) (msg : GameMessage) : M W GameMessage :=
  spin_lock GameLock ;;
  update_player player_id
    (λ p, set_wrong_placements 0 (set_correct_placements 0 (set_score 0
            (set_state PLAYER_WAITING (set_name (strncpy_name (msg_player_name msg)) p))))) ;;
  update_game (λ gs, set_num_players (int_add (num_players gs) 1) gs) ;;
  gs <- read_game ;;
  player <- read_player player_id ;;
  let response :=
    set_msg_text ("Welcome %s! You are Player %d. Waiting for %d more players...",
                  [ArgStr (name player); ArgInt (int_add player_id 1);
                   ArgInt (int_sub MIN_PLAYERS (num_players gs))])
      (copy_state_to_message gs
         (set_msg_player_id player_id (set_msg_type MSG_PLAYER_JOINED zero_message))) in
  enqueue_log "Player %d joined: %s (Total: %d players)"
    [ArgInt (int_add player_id 1); ArgStr (name player); ArgInt (num_players gs)] ;;
  response <-
    (if (MIN_PLAYERS <=? num_players gs)
        && bool_decide (game_state gs = GAME_WAITING_FOR_PLAYERS) then
       generate_puzzle 2 ;;
       update_game (set_game_state GAME_IN_PROGRESS) ;;
       update_game (λ gs, set_players (promote <$> players gs) gs) ;;
       gs <- read_game ;;
       next <- lift (get_next_active_player state (players gs) (-1)) ;;
       update_game (λ gs, set_turn_signal (int_add (turn_signal gs) 1)
                            (set_current_turn next gs)) ;;
       gs <- read_game ;;
       enqueue_log "Game started with %d players! %d cells to fill"
         [ArgInt (num_players gs); ArgInt (cells_remaining gs)] ;;
       ret (set_msg_text ("Game started! %d cells to fill. First turn: Player %d",
                          [ArgInt (cells_remaining gs); ArgInt (int_add (current_turn gs) 1)])
              (set_msg_type MSG_GAME_START (copy_state_to_message gs response)))
     else ret response) ;;
  spin_unlock GameLock ;;
  ret response.

(** [case MSG_JOIN] as a whole: the turn notification follows when the
    game is in progress. *)
Definition handle_MSG_JOIN (player_id : Z) (msg : GameMessage) : M W GameMessage :=
  response <- join_locked player_id msg ;;
  gs <- read_game ;;
  (if bool_decide (game_state gs = GAME_IN_PROGRESS) && (0 <=? current_turn gs)
   then broadcast_turn_notification else ret tt) ;;
  ret response.

(** One round of the [while (1)] loop of [handle_client]: [None] is a
    [read] that returned no bytes.  The result is the response written
    to the client's pipe, if any, and whether the loop goes on. *)
Definition handle_client_step (player_id : Z) (input : option GameMessage)
    : M W (option GameMessage * bool) :=
  match input with
  | None => handle_disconnect player_id ;; ret (None, false)
  | Some msg =>
      if msg_type msg =? MSG_JOIN then
        r <- handle_MSG_JOIN player_id msg ;; ret (Some r, true)
      else if msg_type msg =? MSG_PLACE then
        r <- handle_MSG_PLACE player_id msg ;; ret (Some r, true)
      else if msg_type msg =? MSG_GAME_STATE then
        r <- handle_MSG_GAME_STATE player_id ;; ret (Some r, true)
      else if msg_type msg =? MSG_QUIT then
        r <- handle_MSG_QUIT player_id ;; ret (Some r, false)
      else
        ret (Some (set_msg_text ("Unknown command", [])
                     (set_msg_type MSG_ERROR zero_message)), true)
  end.

(** *** The server as a transition system *)

(** The critical sections that threads and handler processes run, in
    any interleaving.  [advance_turn] and the turn broadcast are steps
    of their own because the handler releases the game lock before it
    calls them.  [ActForked] is the store to [handler_pid] that
    [accept_player_connections] does, without a lock, after [fork]. *)
Inductive Action :=
  | ActForked (slot pid : Z)
  | ActJoin (player_id : Z) (msg : GameMessage)
  | ActPlace (player_id : Z) (msg : GameMessage)
  | ActAdvanceTurn
  | ActBroadcastTurn
  | ActGameState (player_id : Z)
  | ActQuit (player_id : Z)
  | ActDisconnect (player_id : Z)
  | ActScheduler.

Definition run_action (a : Action) : M W unit :=
  match a with
  | ActForked slot pid => update_player slot (set_handler_pid pid)
  | ActJoin player_id msg => join_locked player_id msg ;; ret tt
  | ActPlace player_id msg => place_locked player_id msg ;; ret tt
  | ActAdvanceTurn => advance_turn
  | ActBroadcastTurn => broadcast_turn_notification
  | ActGameState player_id => handle_MSG_GAME_STATE player_id ;; ret tt
  | ActQuit player_id => handle_MSG_QUIT player_id ;; ret tt
  | ActDisconnect player_id => handle_disconnect player_id
  | ActScheduler => scheduler_iteration
  end.

(** The states the server can be in: from [setup_shared_memory], any
    sequence of critical sections, each with the random values its
    process draws. *)
Inductive reachable : W → Prop :=
  | reach_setup : reachable setup_shared_memory
  | reach_step w a rs w' :
      reachable w →
      run_action a (with_rand_stream rs w) = Ok tt w' →
      reachable w'.
End Server.

(** *** Well-formed states *)

(** [players] has [MAX_PLAYERS] slots and [grid] is 9 by 9. *)
Definition wf_game (g : SharedGameState) : Prop :=
  length (players g) = 5%nat ∧
  length (grid g) = 9%nat ∧
  Forall (λ r, length r = 9%nat) (grid g).

(** A world in which no lock is held: what a thread sees when it enters
    a critical section. *)
Definition wf_world (w : W) : Prop :=
  wf_game (game w) ∧ wf_log (log_queue w) ∧ wf_scores (scores w) ∧ locks w = free_locks.

(** The score of slot [i], for statements. *)
Definition score_of (g : SharedGameState) (i : Z) : option Z :=
  score <$> arr_get (players g) i.

Definition state_at (g : SharedGameState) (i : Z) : option PlayerState :=
  state <$> arr_get (players g) i.

(** *** Vocabulary of the statements *)

(** The game state after a turn change to [next], or unchanged when no
    slot is Active. *)
Definition turn_passed (next : Z) (g : SharedGameState) : SharedGameState :=
  if 0 <=? next
  then set_turn_signal (int_add (turn_signal g) 1) (set_current_turn next g)
  else g.

(** What a critical section on the game state leaves alone: the ledger,
    its file, the random stream and the locks, all free again. *)
Definition quiet (w w' : W) : Prop :=
  locks w' = free_locks ∧ wf_log (log_queue w') ∧ scores w' = scores w
  ∧ scores_file w' = scores_file w ∧ rand_stream w' = rand_stream w.

(** The world after a request that is turned down: only the ghost trace
    has grown. *)
Definition rejected_world (w : W) : W :=
  with_lock_trace (lock_trace w ++ [Acquire GameLock; Release GameLock]) w.

(** What the ledger code leaves alone: the game state, the log queue, the
    random stream and the locks. *)
Definition ledger_only (w w' : W) : Prop :=
  game w' = game w ∧ log_queue w' = log_queue w ∧ locks w' = locks w
  ∧ rand_stream w' = rand_stream w ∧ wf_scores (scores w').

(** The turn check of the scheduler, on the game state. *)
Definition sched_turn (g : SharedGameState) : SharedGameState :=
  if (0 <=? current_turn g) && (current_turn g <? MAX_PLAYERS) then
    match arr_get (players g) (current_turn g) with
    | Some p =>
        if is_active state p then g
        else match get_next_active_player state (players g) (current_turn g) with
             | inr next =>
                 if 0 <=? next
                 then set_turn_signal (int_add (turn_signal g) 1) (set_current_turn next g)
                 else set_game_state GAME_FINISHED g
             | inl _ => g
             end
    | None => g
    end
  else g.

(** The completion check of the scheduler, on the game state. *)
Definition sched_complete (g : SharedGameState) : SharedGameState :=
  if cells_remaining g <=? 0
  then set_winner_id (snd (winner_loop (players g) 0 (-1000) (-1)))
         (set_game_state GAME_FINISHED g)
  else g.

Definition sched_game (g : SharedGameState) : SharedGameState :=
  if bool_decide (game_state g = GAME_IN_PROGRESS) then sched_complete (sched_turn g) else g.

(** The slot as [case MSG_JOIN] leaves it. *)
Definition joined (msg : GameMessage) (p : Player) : Player :=
  mkPlayer (id p) (strncpy_name (msg_player_name msg)) 0 0 0 PLAYER_WAITING (handler_pid p).

(** The game state after a Join that does not start the game. *)
Definition late_join (pid : Z) (msg : GameMessage) (p : Player) (g : SharedGameState)
    : SharedGameState :=
  set_num_players (int_add (num_players g) 1)
    (set_players (<[Z.to_nat pid := joined msg p]> (players g)) g).

(** The ledger row of a player, by name. *)
Definition stats_of (player_name : string) (rows : list ScoreEntry) : option ScoreEntry :=
  find (λ e, String.eqb (entry_name e) player_name) rows.

(** A row after [update_player_stats] has added a game to it, and the row
    it makes for a new name. *)
Definition credited (is_winner : bool) (correct wrong : Z) (e : ScoreEntry) : ScoreEntry :=
  mkScore (entry_name e) (if is_winner then int_add (wins e) 1 else wins e)
          (int_add (total_correct e) correct) (int_add (total_wrong e) wrong).

Definition first_row (player_name : string) (is_winner : bool) (correct wrong : Z)
    : ScoreEntry :=
  mkScore (strncpy_name player_name) (if is_winner then 1 else 0) correct wrong.

(** The invariant of the turn: nobody is Active and no turn is set before
    the game starts; afterwards the turn is a slot index. *)
Definition turn_inv (g : SharedGameState) : Prop :=
  length (players g) = 5%nat
  ∧ (game_state g = GAME_WAITING_FOR_PLAYERS →
       current_turn g = -1 ∧ Forall (λ p, state p ≠ PLAYER_ACTIVE) (players g))
  ∧ (game_state g ≠ GAME_WAITING_FOR_PLAYERS → 0 <= current_turn g < MAX_PLAYERS).

(** What one critical section may do to the turn. *)
Definition turn_step (g g' : SharedGameState) : Prop :=
  turn_inv g'
  ∧ (game_state g = GAME_WAITING_FOR_PLAYERS → game_state g' ≠ GAME_WAITING_FOR_PLAYERS →
       MIN_PLAYERS <= num_players g')
  ∧ (current_turn g' ≠ current_turn g → state_at g' (current_turn g') = Some PLAYER_ACTIVE).

(** Running a list of critical sections, each with its random values. *)
Fixpoint run_actions (gen : list Z → (Z → Z → Z) * list Z)
    (l : list (Action * list Z)) (w : W) : option W :=
  match l with
  | [] => Some w
  | (a, rs) :: l' =>
      match run_action gen a (with_rand_stream rs w) with
      | Ok _ w' => run_actions gen l' w'
      | Err _ => None
      end
  end.

(** A game in progress has a cell left: the handler that fills the last
    cell finishes the game in the same critical section. *)
Definition in_play (g : SharedGameState) : Prop :=
  game_state g = GAME_IN_PROGRESS → 0 < cells_remaining g.

(** Slot [pid] stands aside: the game has started, the slot is not
    Active and the turn is not on it. *)
Definition sidelined (pid : Z) (g : SharedGameState) : Prop :=
  game_state g ≠ GAME_WAITING_FOR_PLAYERS
  ∧ state_at g pid ≠ Some PLAYER_ACTIVE
  ∧ current_turn g ≠ pid.
End Sudoku.

(** ** Generation of the solution grid ([server.c]) *)

Module Generator.

Definition BOX_SIZE : Z := 3.

(** [grid[r][c]] and [grid[r][c] = v] on an [int grid[9][9]]. *)
Definition cell_at (grid : list (list Z)) (r c : Z) : option Z :=
  match arr_get grid r with
  | Some row => arr_get row c
  | None => None
  end.

Definition cell_put (grid : list (list Z)) (r c v : Z) : option (list (list Z)) :=
  match arr_get grid r with
  | Some row =>
      match arr_set row c v with
      | Some row' => arr_set grid r row'
      | None => None
      end
  | None => None
  end.

(** A loop that reads the cells [cells] in turn and leaves with
    [return 0] at the first one that holds [num]: whether it left. *)
Fixpoint occurs (grid : list (list Z)) (cells : list (Z * Z)) (num : Z) : option bool :=
  match cells with
  | [] => Some false
  | (r, c) :: cells' =>
      match cell_at grid r c with
      | Some v => if v =? num then Some true else occurs grid cells' num
      | None => None
      end
  end.

(** The cells the three loops of [is_valid_placement] read.  The box
    loops start at [(row / BOX_SIZE) * BOX_SIZE]; they are reached only
    when the first two loops stayed inside the array, that is with [row]
    and [col] in the grid, so their bounds do not overflow. *)
Definition row_cells (row : Z) : list (Z * Z) := (λ c, (row, c)) <$> Sudoku.indices9.

Definition col_cells (col : Z) : list (Z * Z) := (λ r, (r, col)) <$> Sudoku.indices9.

Definition box_cells (row col : Z) : list (Z * Z) :=
  let box_row := Z.quot row BOX_SIZE * BOX_SIZE in
  let box_col := Z.quot col BOX_SIZE * BOX_SIZE in
  r ← [box_row; box_row + 1; box_row + 2];
  c ← [box_col; box_col + 1; box_col + 2];
  [(r, c)].

(** [is_valid_placement] *)
Definition is_valid_placement (grid : list (list Z)) (row col num : Z) : option Z :=
  in_row ← occurs grid (row_cells row) num;
  if in_row : bool then Some 0 else
    in_col ← occurs grid (col_cells col) num;
    if in_col : bool then Some 0 else
      in_box ← occurs grid (box_cells row col) num;
      if in_box : bool then Some 0 else Some 1.

(** The cells of the grid in the order of the two loops of
    [generate_full_grid]. *)
Definition all_cells : list (Z * Z) :=
  r ← Sudoku.indices9; c ← Sudoku.indices9; [(r, c)].

(** The search for the first cell that holds [EMPTY_CELL]. *)
Fixpoint first_empty (grid : list (list Z)) (cells : list (Z * Z)) : option (option (Z * Z)) :=
  match cells with
  | [] => Some None
  | (r, c) :: cells' =>
      match cell_at grid r c with
      | Some v => if v =? Sudoku.EMPTY_CELL then Some (Some (r, c)) else first_empty grid cells'
      | None => None
      end
  end.

Definition nums_1_to_9 : list Z := [1; 2; 3; 4; 5; 6; 7; 8; 9].

Section Gen.
Context {G E : Type}.

(** The loop of [shuffle_array] for [i] from [n] down to 1. *)
Fixpoint shuffle_loop (n : nat) (arr : list Z) : M (World G E) (list Z) :=
  match n with
  | O => ret arr
  | S n' =>
      let i := Z.of_nat n in
      r <- rand ;;
      let j := Z.rem r (int_add i 1) in
      temp <- lift_opt (arr_get arr i) ;;
      aj <- lift_opt (arr_get arr j) ;;
      arr <- lift_opt (arr_set arr i aj) ;;
      arr <- lift_opt (arr_set arr j temp) ;;
      shuffle_loop n' arr
  end.

(** [shuffle_array(arr, n)] *)
Definition shuffle_array (arr : list Z) (n : Z) : M (World G E) (list Z) :=
  shuffle_loop (Z.to_nat (int_sub n 1)) arr.

(** The loop over [nums] in [generate_full_grid]; [again] is the
    recursive call. *)
Fixpoint try_numbers (again : list (list Z) → M (World G E) (Z * list (list Z)))
    (row col : Z) (nums : list Z) (grid : list (list Z))
    : M (World G E) (Z * list (list Z)) :=
  match nums with
  | [] => ret (0, grid)
  | num :: nums' =>
      ok <- lift_opt (is_valid_placement grid row col num) ;;
      if negb (ok =? 0) then
        grid <- lift_opt (cell_put grid row col num) ;;
        r <- again grid ;;
        if negb (fst r =? 0) then ret (1, snd r)
        else
          grid <- lift_opt (cell_put (snd r) row col Sudoku.EMPTY_CELL) ;;
          try_numbers again row col nums' grid
      else try_numbers again row col nums' grid
  end.

(** [generate_full_grid]: the result is the returned value and the grid
    as the call leaves it.  [fuel] bounds the depth of the recursion,
    which goes one level down for each cell it fills. *)
Fixpoint generate_full_grid (fuel : nat) (grid : list (list Z))
    : M (World G E) (Z * list (list Z)) :=
  match fuel with
  | O => fail OutOfFuel
  | S fuel' =>
      e <- lift_opt (first_empty grid all_cells) ;;
      match e with
      | Some (row, col) =>
          nums <- shuffle_array nums_1_to_9 9 ;;
          try_numbers (generate_full_grid fuel') row col nums grid
      | None => ret (1, grid)
      end
  end.
End Gen.

(** *** Vocabulary of the statements *)

Definition wf_grid (g : list (list Z)) : Prop :=
  length g = 9%nat ∧ Forall (λ row, length row = 9%nat) g.

Definition in_grid (r c : Z) : Prop := 0 <= r < 9 ∧ 0 <= c < 9.

(** Two cells in the same row, the same column or the same 3 by 3 box. *)
Definition same_unit (r c r' c' : Z) : Prop :=
  r' = r ∨ c' = c ∨ (r' / 3 = r / 3 ∧ c' / 3 = c / 3).

(** No number stands twice in a row, a column or a box. *)
Definition consistent (g : list (list Z)) : Prop :=
  ∀ r c r' c' v,
    cell_at g r c = Some v → v ≠ 0 → cell_at g r' c' = Some v →
    same_unit r c r' c' → r' = r ∧ c' = c.

(** Every cell holds a number from 1 to 9. *)
Definition full (g : list (list Z)) : Prop :=
  ∀ r c, in_grid r c → ∃ v, cell_at g r c = Some v ∧ 1 <= v <= 9.

(** [g'] has the numbers of [g] where [g] has any. *)
Definition extends (g g' : list (list Z)) : Prop :=
  ∀ r c v, cell_at g r c = Some v → v ≠ 0 → cell_at g' r c = Some v.

Definition solved (g : list (list Z)) : Prop := wf_grid g ∧ full g ∧ consistent g.

Definition completable (g : list (list Z)) : Prop := ∃ s, solved s ∧ extends g s.

(** The cells of a partly filled grid hold 0 to 9. *)
Definition in_range (g : list (list Z)) : Prop :=
  ∀ r c v, cell_at g r c = Some v → 0 <= v <= 9.

Definition no_empty (g : list (list Z)) : Prop :=
  ∀ r c, in_grid r c → ∃ v, cell_at g r c = Some v ∧ v ≠ Sudoku.EMPTY_CELL.

(** What a call of [generate_full_grid] on [g] returns: 0 with the grid
    as it was, or 1 with a grid that has no empty cell left and the
    numbers of [g] where [g] had any. *)
Definition outcome (g : list (list Z)) (r : Z * list (list Z)) : Prop :=
  (r.1 = 0 ∧ r.2 = g)
  ∨ (r.1 = 1 ∧ wf_grid r.2 ∧ no_empty r.2 ∧ extends g r.2
     ∧ (consistent g → consistent r.2) ∧ (in_range g → in_range r.2)).

(** The random values still to come are those of [rs], from some point
    on, and nothing else has changed. *)
Definition drew {G E} (w w' : World G E) : Prop :=
  ∃ used, rand_stream w = used ++ rand_stream w' ∧ w' = with_rand_stream (rand_stream w') w.

Definition blank : list (list Z) := replicate 9 (replicate 9 0).

(** A bound on the values a call of [generate_full_grid] draws on a grid
    with [k] empty cells: 8 for its shuffle, and nine calls one level
    down at most. *)
Fixpoint draws_bound (k : nat) : Z :=
  match k with
  | O => 0
  | S k' => 8 + 9 * draws_bound k'
  end.

(** The number of cells that hold [EMPTY_CELL]. *)
Definition empty_count (g : list (list Z)) : nat :=
  length (filter (λ rc, cell_at g rc.1 rc.2 = Some Sudoku.EMPTY_CELL) all_cells).

(** The executable form of [solved]. *)
Definition unit_cells (r c : Z) : list (Z * Z) := row_cells r ++ col_cells c ++ box_cells r c.

Definition solvedb (g : list (list Z)) : bool :=
  bool_decide (length g = 9%nat)
  && forallb (λ row, bool_decide (length row = 9%nat)) g
  && forallb (λ '(r, c),
       match cell_at g r c with
       | Some v =>
           (1 <=? v) && (v <=? 9)
           && forallb (λ '(r', c'),
                bool_decide ((r', c') = (r, c))
                || negb (bool_decide (cell_at g r' c' = Some v))) (unit_cells r c)
       | None => false
       end) all_cells.
End Generator.

(** ** Vocabulary for the puzzle and the books of the Sudoku server *)

Module Puzzle.
Import Sudoku.

(** A grid of 9 rows of 9 cells. *)
Definition wf_cells (g : list (list SudokuCell)) : Prop :=
  length g = 9%nat ∧ Forall (λ row, length row = 9%nat) g.

(** The number of cells that show no number. *)
Definition open_cells (g : list (list SudokuCell)) : nat :=
  length (filter (λ rc, value <$> grid_get g rc.1 rc.2 = Some EMPTY_CELL)
                 Generator.all_cells).

(** A cell as [generate_puzzle] leaves it: it knows its number [sol] and
    either shows it and is fixed, or shows nothing and is open. *)
Definition fresh_cell (sol : Z) (c : SudokuCell) : Prop :=
  solution c = sol ∧ placed_by c = -1
  ∧ (value c = sol ∧ is_fixed c = 1 ∨ value c = EMPTY_CELL ∧ is_fixed c = 0).

Definition fresh_puzzle (sol : Z → Z → Z) (g : list (list SudokuCell)) : Prop :=
  ∀ r c, Generator.in_grid r c →
         ∃ cell, grid_get g r c = Some cell ∧ fresh_cell (sol r c) cell.

(** The generator leaves no cell of the solution empty. *)
Definition fills (generate_full_grid : list Z → (Z → Z → Z) * list Z) : Prop :=
  ∀ rs r c, Generator.in_grid r c → (generate_full_grid rs).1 r c ≠ 0.

(** The score is what the counted placements are worth. *)
Definition score_matches (p : Player) : Prop :=
  score p = int_wrap (POINTS_CORRECT * correct_placements p
                      + POINTS_WRONG * wrong_placements p).

(** A cell shows nothing or its own number. *)
Definition shows_solution (c : SudokuCell) : Prop :=
  value c = EMPTY_CELL ∨ value c = solution c.

(** What every critical section keeps: the shape of the arrays, the
    scores in step with the counters, only right numbers on the grid,
    a phase that never returns to waiting and, once the game has
    started with a generator that fills the grid, [cells_remaining] equal
    to the number of open cells. *)
Definition books_inv (generate_full_grid : list Z → (Z → Z → Z) * list Z)
    (g : SharedGameState) : Prop :=
  wf_game g
  ∧ Forall score_matches (players g)
  ∧ (∀ r c cell, grid_get (grid g) r c = Some cell → shows_solution cell)
  ∧ (fills generate_full_grid → game_state g ≠ GAME_WAITING_FOR_PLAYERS →
       cells_remaining g = Z.of_nat (open_cells (grid g)) ∧ cells_remaining g <= 40).
End Puzzle.

(** ** The dice server, "Race to 100" *)

Module Dice.

Definition MSG_JOIN : Z := 1.
Definition MSG_ROLL : Z := 2.
Definition MSG_QUIT : Z := 3.
Definition MSG_GAME_STATE : Z := 4.
Definition MSG_YOUR_TURN : Z := 5.
Definition MSG_ROLL_RESULT : Z := 6.
Definition MSG_GAME_OVER : Z := 7.
Definition MSG_WAIT : Z := 8.
Definition MSG_ERROR : Z := 9.
Definition MSG_PLAYER_JOINED : Z := 10.
Definition MSG_PLAYER_LEFT : Z := 11.
Definition MSG_GAME_START : Z := 12.

Record Player := mkPlayer {
  id : Z;
  name : string;
  score : Z;
  state : PlayerState;
  handler_pid : Z }.

(** [SharedGameState] without [game_mutex], [turn_cond] and [turn_mutex];
    the mutex is the game lock of [Locks], the condition variable carries
    no data. *)
Record SharedGameState := mkGame {
  game_state : GameState;
  num_players : Z;
  current_turn : Z;
  winner_id : Z;
  players : list Player;
  game_reset_requested : Z;
  server_shutdown : Z }.

Record ScoreEntry := mkScore {
  entry_name : string;
  wins : Z }.

Record GameMessage := mkMsg {
  msg_type : Z;
  msg_player_id : Z;
  msg_player_name : string;
  msg_value : Z;
  msg_text : LogMsg }.

Abbreviation W := (World SharedGameState ScoreEntry).

Definition set_name v (p : Player) := mkPlayer (id p) v (score p) (state p) (handler_pid p).
Definition set_score v (p : Player) := mkPlayer (id p) (name p) v (state p) (handler_pid p).
Definition set_state v (p : Player) := mkPlayer (id p) (name p) (score p) v (handler_pid p).

Definition set_game_state v (g : SharedGameState) :=
  mkGame v (num_players g) (current_turn g) (winner_id g) (players g)
         (game_reset_requested g) (server_shutdown g).
Definition set_num_players v (g : SharedGameState) :=
  mkGame (game_state g) v (current_turn g) (winner_id g) (players g)
         (game_reset_requested g) (server_shutdown g).
Definition set_current_turn v (g : SharedGameState) :=
  mkGame (game_state g) (num_players g) v (winner_id g) (players g)
         (game_reset_requested g) (server_shutdown g).
Definition set_winner_id v (g : SharedGameState) :=
  mkGame (game_state g) (num_players g) (current_turn g) v (players g)
         (game_reset_requested g) (server_shutdown g).
Definition set_players v (g : SharedGameState) :=
  mkGame (game_state g) (num_players g) (current_turn g) (winner_id g) v
         (game_reset_requested g) (server_shutdown g).

(** [memset(&response, 0, sizeof(GameMessage))] *)
Definition zero_message : GameMessage := mkMsg 0 0 "" 0 ("", []).

Definition update_game (f : SharedGameState → SharedGameState) : M W unit :=
  gs <- read_game ;; write_game (f gs).

Definition read_player (i : Z) : M W Player :=
  gs <- read_game ;; lift_opt (arr_get (players gs) i).

Definition update_player (i : Z) (f : Player → Player) : M W unit :=
  gs <- read_game ;;
  p <- lift_opt (arr_get (players gs) i) ;;
  ps <- lift_opt (arr_set (players gs) i (f p)) ;;
  write_game (set_players ps gs).

(** [save_scores]; the log line follows the unlock.  [fopen] is taken to
    succeed; when it fails the C function returns at once, before it
    takes the lock, and neither writes the file nor logs. *)
Definition save_scores : M W unit :=
  spin_lock ScoresLock ;;
  sc <- read_scores ;;
  modify (with_scores_file (take (Z.to_nat (sc_count sc)) (sc_entries sc))) ;;
  spin_unlock ScoresLock ;;
  sc <- read_scores ;;
  enqueue_log "Saved %d score entries to %s" [ArgInt (sc_count sc); ArgStr "scores.txt"].

Fixpoint find_entry (player_name : string) (es : list ScoreEntry) (i : Z) : Z :=
  match es with
  | [] => -1
  | e :: es' =>
      if String.eqb (entry_name e) player_name then i
      else find_entry player_name es' (i + 1)
  end.

(** [update_score] *)
Definition update_score (player_name : string) : M W unit :=
  spin_lock ScoresLock ;;
  sc <- read_scores ;;
  let found := find_entry player_name (take (Z.to_nat (sc_count sc)) (sc_entries sc)) 0 in
  (if 0 <=? found then
     e <- lift_opt (arr_get (sc_entries sc) found) ;;
     es <- lift_opt (arr_set (sc_entries sc) found (mkScore (entry_name e) (int_add (wins e) 1))) ;;
     write_scores (mkScores es (sc_count sc))
   else if sc_count sc <? MAX_SCORES then
     es <- lift_opt (arr_set (sc_entries sc) (sc_count sc)
                       (mkScore (strncpy_name player_name) 1)) ;;
     write_scores (mkScores es (int_add (sc_count sc) 1))
   else ret tt) ;;
  spin_unlock ScoresLock ;;
  save_scores.

(** [advance_turn] *)
Definition advance_turn : M W unit :=
  spin_lock GameLock ;;
  gs <- read_game ;;
  next <- lift (get_next_active_player state (players gs) (current_turn gs)) ;;
  (if 0 <=? next then
     update_game (set_current_turn next) ;;
     np <- read_player next ;;
     enqueue_log "Turn advanced to Player %d (%s)"
                 [ArgInt (int_add next 1); ArgStr (name np)]
   else ret tt) ;;
  spin_unlock GameLock.

Definition promote (p : Player) : Player :=
  if bool_decide (state p = PLAYER_WAITING) then set_state PLAYER_ACTIVE p else p.

(** [case MSG_JOIN] of [handle_client] *)
Definition handle_MSG_JOIN (player_id : Z) (msg : GameMessage) : M W GameMessage :=
  spin_lock GameLock ;;
  update_player player_id
    (λ p, set_score 0 (set_state PLAYER_WAITING
                         (set_name (strncpy_name (msg_player_name msg)) p))) ;;
  update_game (λ gs, set_num_players (int_add (num_players gs) 1) gs) ;;
  gs <- read_game ;;
  player <- read_player player_id ;;
  let response :=
    mkMsg MSG_PLAYER_JOINED player_id "" 0
          ("Welcome %s! You are Player %d. Waiting for %d more players...",
           [ArgStr (name player); ArgInt (int_add player_id 1);
            ArgInt (int_sub MIN_PLAYERS (num_players gs))]) in
  enqueue_log "Player %d joined: %s (Total: %d players)"
    [ArgInt (int_add player_id 1); ArgStr (name player); ArgInt (num_players gs)] ;;
  (if (MIN_PLAYERS <=? num_players gs)
      && bool_decide (game_state gs = GAME_WAITING_FOR_PLAYERS) then
     update_game (λ gs, set_current_turn 0 (set_game_state GAME_IN_PROGRESS gs)) ;;
     update_game (λ gs, set_players (promote <$> players gs) gs) ;;
     gs <- read_game ;;
     next <- lift (get_next_active_player state (players gs) (-1)) ;;
     update_game (set_current_turn next) ;;
     gs <- read_game ;;
     enqueue_log "Game started with %d players! First turn: Player %d"
       [ArgInt (num_players gs); ArgInt (int_add (current_turn gs) 1)]
   else ret tt) ;;
  spin_unlock GameLock ;;
  ret response.

(** [case MSG_ROLL] of [handle_client] *)
Definition handle_MSG_ROLL (player_id : Z) : M W GameMessage :=
  let response := zero_message in
  spin_lock GameLock ;;
  gs <- read_game ;;
  if negb (bool_decide (game_state gs = GAME_IN_PROGRESS)) then
    spin_unlock GameLock ;;
    ret (mkMsg MSG_ERROR 0 "" 0 ("Game not in progress", []))
  else if negb (current_turn gs =? player_id) then
    cur <- read_player (current_turn gs) ;;
    spin_unlock GameLock ;;
    ret (mkMsg MSG_WAIT 0 "" 0
               ("Not your turn! Current turn: Player %d (%s)",
                [ArgInt (int_add (current_turn gs) 1); ArgStr (name cur)]))
  else
    r1 <- rand ;;
    r2 <- rand ;;
    let die1 := int_add (Z.rem r1 6) 1 in
    let die2 := int_add (Z.rem r2 6) 1 in
    let roll_total := int_add die1 die2 in
    player0 <- read_player player_id ;;
    response <-
      (if (die1 =? 1) && (die2 =? 1) then
         update_player player_id (set_score 0) ;;
         enqueue_log "Player %d (%s) rolled snake eyes! Score reset to 0"
           [ArgInt (int_add player_id 1); ArgStr (name player0)] ;;
         ret (mkMsg MSG_ROLL_RESULT 0 "" 0
                    ("Snake eyes! You rolled %d + %d. Score reset to 0!",
                     [ArgInt die1; ArgInt die2]))
       else
         update_player player_id (λ p, set_score (int_add (score p) roll_total) p) ;;
         player <- read_player player_id ;;
         enqueue_log "Player %d (%s) rolled %d + %d = %d (Total: %d)"
           [ArgInt (int_add player_id 1); ArgStr (name player); ArgInt die1; ArgInt die2;
            ArgInt roll_total; ArgInt (score player)] ;;
         ret (mkMsg MSG_ROLL_RESULT 0 "" (score player)
                    ("You rolled %d + %d = %d. Total score: %d",
                     [ArgInt die1; ArgInt die2; ArgInt roll_total; ArgInt (score player)]))) ;;
    player <- read_player player_id ;;
    if score player >=? WINNING_SCORE then
      update_game (λ gs, set_game_state GAME_FINISHED (set_winner_id player_id gs)) ;;
      enqueue_log "GAME OVER: Player %d (%s) wins with %d points!"
        [ArgInt (int_add player_id 1); ArgStr (name player); ArgInt (score player)] ;;
      update_score (name player) ;;
      spin_unlock GameLock ;;
      ret (mkMsg MSG_GAME_OVER (msg_player_id response) (msg_player_name response)
                 (msg_value response)
                 ("CONGRATULATIONS! You reached %d and WON!", [ArgInt (score player)]))
    else
      spin_unlock GameLock ;;
      advance_turn ;;
      ret response.

(** [case MSG_ROLL] up to the unlock of the game lock: the response and
    whether [advance_turn] follows. *)
Definition roll_locked (player_id : Z) : M W (GameMessage * bool) :=
  spin_lock GameLock ;;
  gs <- read_game ;;
  if negb (bool_decide (game_state gs = GAME_IN_PROGRESS)) then
    spin_unlock GameLock ;;
    ret (mkMsg MSG_ERROR 0 "" 0 ("Game not in progress", []), false)
  else if negb (current_turn gs =? player_id) then
    cur <- read_player (current_turn gs) ;;
    spin_unlock GameLock ;;
    ret (mkMsg MSG_WAIT 0 "" 0
               ("Not your turn! Current turn: Player %d (%s)",
                [ArgInt (int_add (current_turn gs) 1); ArgStr (name cur)]), false)
  else
    r1 <- rand ;;
    r2 <- rand ;;
    let die1 := int_add (Z.rem r1 6) 1 in
    let die2 := int_add (Z.rem r2 6) 1 in
    let roll_total := int_add die1 die2 in
    player0 <- read_player player_id ;;
    response <-
      (if (die1 =? 1) && (die2 =? 1) then
         update_player player_id (set_score 0) ;;
         enqueue_log "Player %d (%s) rolled snake eyes! Score reset to 0"
           [ArgInt (int_add player_id 1); ArgStr (name player0)] ;;
         ret (mkMsg MSG_ROLL_RESULT 0 "" 0
                    ("Snake eyes! You rolled %d + %d. Score reset to 0!",
                     [ArgInt die1; ArgInt die2]))
       else
         update_player player_id (λ p, set_score (int_add (score p) roll_total) p) ;;
         player <- read_player player_id ;;
         enqueue_log "Player %d (%s) rolled %d + %d = %d (Total: %d)"
           [ArgInt (int_add player_id 1); ArgStr (name player); ArgInt die1; ArgInt die2;
            ArgInt roll_total; ArgInt (score player)] ;;
         ret (mkMsg MSG_ROLL_RESULT 0 "" (score player)
                    ("You rolled %d + %d = %d. Total score: %d",
                     [ArgInt die1; ArgInt die2; ArgInt roll_total; ArgInt (score player)]))) ;;
    player <- read_player player_id ;;
    if score player >=? WINNING_SCORE then
      update_game (λ gs, set_game_state GAME_FINISHED (set_winner_id player_id gs)) ;;
      enqueue_log "GAME OVER: Player %d (%s) wins with %d points!"
        [ArgInt (int_add player_id 1); ArgStr (name player); ArgInt (score player)] ;;
      update_score (name player) ;;
      spin_unlock GameLock ;;
      ret (mkMsg MSG_GAME_OVER (msg_player_id response) (msg_player_name response)
                 (msg_value response)
                 ("CONGRATULATIONS! You reached %d and WON!", [ArgInt (score player)]), false)
    else
      spin_unlock GameLock ;;
      ret (response, true).

(** [case MSG_QUIT] of [handle_client] *)
Definition handle_MSG_QUIT (player_id : Z) : M W GameMessage :=
  spin_lock GameLock ;;
  update_player player_id (set_state PLAYER_DISCONNECTED) ;;
  update_game (λ gs, set_num_players (int_sub (num_players gs) 1) gs) ;;
  spin_unlock GameLock ;;
  player <- read_player player_id ;;
  enqueue_log "Player %d (%s) quit the game"
    [ArgInt (int_add player_id 1); ArgStr (name player)] ;;
  ret (mkMsg MSG_PLAYER_LEFT 0 "" 0 ("Goodbye %s!", [ArgStr (name player)])).

(** The branch of [handle_client] taken when [read] returns no message;
    [num_players] stays as it is. *)
Definition handle_disconnect (player_id : Z) : M W unit :=
  spin_lock GameLock ;;
  update_player player_id (set_state PLAYER_DISCONNECTED) ;;
  spin_unlock GameLock ;;
  player <- read_player player_id ;;
  enqueue_log "Player %d (%s) disconnected"
    [ArgInt (int_add player_id 1); ArgStr (name player)].

(** One round of the [while (server_running)] loop of
    [scheduler_thread_func], from the lock to the unlock. *)
Definition scheduler_iteration : M W unit :=
  spin_lock GameLock ;;
  gs <- read_game ;;
  (if bool_decide (game_state gs = GAME_IN_PROGRESS) then
     let current := current_turn gs in
     (if (0 <=? current) && (current <? MAX_PLAYERS) then
        p <- read_player current ;;
        if negb (is_active state p) then
          next <- lift (get_next_active_player state (players gs) current) ;;
          if 0 <=? next then
            update_game (set_current_turn next) ;;
            np <- read_player next ;;
            enqueue_log "Scheduler: Skipped inactive player, turn passed to Player %d (%s)"
                        [ArgInt (int_add next 1); ArgStr (name np)]
          else
            update_game (set_game_state GAME_FINISHED) ;;
            enqueue_log "Scheduler: No active players, game ended" []
        else ret tt
      else ret tt) ;;
     gs <- read_game ;;
     if winner_id gs >=? 0 then update_game (set_game_state GAME_FINISHED) else ret tt
   else ret tt) ;;
  spin_unlock GameLock.

(** [reset_game_state]: the loop over the slots keeps [id] and
    [handler_pid]. *)
Definition reset_slot (p : Player) : Player :=
  mkPlayer (id p) "" 0 PLAYER_DISCONNECTED (handler_pid p).

Fixpoint reset_loop (slots : list Z) : M W unit :=
  match slots with
  | [] => ret tt
  | i :: slots' => update_player i reset_slot ;; reset_loop slots'
  end.

Definition slots : list Z := [0; 1; 2; 3; 4].

Definition reset_game_state : M W unit :=
  spin_lock GameLock ;;
  update_game (λ gs, mkGame GAME_WAITING_FOR_PLAYERS 0 (-1) (-1) (players gs) 0
                       (server_shutdown gs)) ;;
  reset_loop slots ;;
  spin_unlock GameLock ;;
  enqueue_log "Game state reset for new game" [].

(** The search of [main] for the first slot that is Disconnected. *)
Fixpoint slot_scan (ps : list Player) (slots : list Z) : option Z :=
  match slots with
  | [] => Some (-1)
  | i :: slots' =>
      match arr_get ps i with
      | Some p =>
          if bool_decide (state p = PLAYER_DISCONNECTED) then Some i
          else slot_scan ps slots'
      | None => None
      end
  end.

(** One round of the accept loop of [main] up to the pipes: it resets a
    finished game, and otherwise returns the slot whose pipes it opens,
    if there is one. *)
Definition main_iteration : M W (option Z) :=
  spin_lock GameLock ;;
  gs <- read_game ;;
  slot <- lift_opt (slot_scan (players gs) slots) ;;
  let game_finished := bool_decide (game_state gs = GAME_FINISHED) in
  spin_unlock GameLock ;;
  if game_finished then reset_game_state ;; ret None
  else if slot <? 0 then ret None
  else ret (Some slot).

(** [setup_shared_memory]: the three segments as the server creates
    them. *)
Definition initial_player (i : Z) : Player := mkPlayer i "" 0 PLAYER_DISCONNECTED 0.

Definition setup_shared_memory : W :=
  mkWorld
    (mkGame GAME_WAITING_FOR_PLAYERS 0 (-1) (-1) (initial_player <$> slots) 0 0)
    (mkLogQueue (replicate 100 ("", [])) 0 0 0 0)
    (mkScores (replicate 100 (mkScore "" 0)) 0)
    [] free_locks [] [].

(** *** The server as a transition system *)

(** The critical sections of the handler processes, the scheduler thread
    and [main], in any interleaving.  [advance_turn] is a step of its own
    because the handler releases the game lock before it calls it.
    [ActForked] is the store to [handler_pid] that [main] does, without
    a lock, after [fork]. *)
Inductive Action :=
  | ActForked (slot pid : Z)
  | ActJoin (player_id : Z) (msg : GameMessage)
  | ActRoll (player_id : Z)
  | ActAdvanceTurn
  | ActQuit (player_id : Z)
  | ActDisconnect (player_id : Z)
  | ActScheduler
  | ActMain.

Definition run_action (a : Action) : M W unit :=
  match a with
  | ActForked slot pid =>
      update_player slot (λ p, mkPlayer (id p) (name p) (score p) (state p) pid)
  | ActJoin player_id msg => handle_MSG_JOIN player_id msg ;; ret tt
  | ActRoll player_id => roll_locked player_id ;; ret tt
  | ActAdvanceTurn => advance_turn
  | ActQuit player_id => handle_MSG_QUIT player_id ;; ret tt
  | ActDisconnect player_id => handle_disconnect player_id
  | ActScheduler => scheduler_iteration
  | ActMain => main_iteration ;; ret tt
  end.

(** The states the server can be in: from [setup_shared_memory], any
    sequence of critical sections, each with the values [rand()] returns
    to its process, which are not negative. *)
Inductive reachable : W → Prop :=
  | reach_setup : reachable setup_shared_memory
  | reach_step w a rs w' :
      reachable w →
      Forall (λ r, 0 <= r) rs →
      run_action a (with_rand_stream rs w) = Ok tt w' →
      reachable w'.

Definition wf_game (g : SharedGameState) : Prop := length (players g) = 5%nat.

Definition wf_world (w : W) : Prop :=
  wf_game (game w) ∧ wf_log (log_queue w) ∧ wf_scores (scores w) ∧ locks w = free_locks.

Definition score_of (g : SharedGameState) (i : Z) : option Z :=
  score <$> arr_get (players g) i.

(** *** Vocabulary of the statements *)

Definition rejected_world (w : W) : W :=
  with_lock_trace (lock_trace w ++ [Acquire GameLock; Release GameLock]) w.

(** What a sub-program leaves alone. *)
Definition quiet (w w' : W) : Prop :=
  locks w' = locks w ∧ wf_log (log_queue w') ∧ wf_scores (scores w')
  ∧ rand_stream w' = rand_stream w.

Definition turn_passed (next : Z) (g : SharedGameState) : SharedGameState :=
  if 0 <=? next then set_current_turn next g else g.

(** The ledger row of a player, by name. *)
Definition stats_of (player_name : string) (rows : list ScoreEntry) : option ScoreEntry :=
  find (λ e, String.eqb (entry_name e) player_name) rows.

(** The slot as [case MSG_JOIN] leaves it. *)
Definition joined (msg : GameMessage) (p : Player) : Player :=
  mkPlayer (id p) (strncpy_name (msg_player_name msg)) 0 PLAYER_WAITING (handler_pid p).

Definition late_join (pid : Z) (msg : GameMessage) (p : Player) (g : SharedGameState)
    : SharedGameState :=
  set_num_players (int_add (num_players g) 1)
    (set_players (<[Z.to_nat pid := joined msg p]> (players g)) g).

Definition state_at (g : SharedGameState) (i : Z) : option PlayerState :=
  state <$> arr_get (players g) i.

(** Running a list of critical sections, each with its random values. *)
Fixpoint run_actions (l : list (Action * list Z)) (w : W) : option W :=
  match l with
  | [] => Some w
  | (a, rs) :: l' =>
      match run_action a (with_rand_stream rs w) with
      | Ok _ w' => run_actions l' w'
      | Err _ => None
      end
  end.

(** Slot [pid] stands aside: the game has started, the slot is not
    Active and the turn is not on it. *)
Definition sidelined (pid : Z) (g : SharedGameState) : Prop :=
  game_state g ≠ GAME_WAITING_FOR_PLAYERS
  ∧ state_at g pid ≠ Some PLAYER_ACTIVE
  ∧ current_turn g ≠ pid.

(** The game as [reset_game_state] leaves it. *)
Definition fresh_game (g : SharedGameState) : SharedGameState :=
  mkGame GAME_WAITING_FOR_PLAYERS 0 (-1) (-1) (reset_slot <$> players g) 0
         (server_shutdown g).

(** What holds of the scores between critical sections: a score is
    between 0 and the 111 that a roll of 12 from 99 gives, and while the
    game is not finished no score has reached [WINNING_SCORE] and no
    winner is set. *)
Definition scores_inv (g : SharedGameState) : Prop :=
  wf_game g
  ∧ Forall (λ p, 0 <= score p <= WINNING_SCORE + 11) (players g)
  ∧ (game_state g ≠ GAME_FINISHED →
       winner_id g = -1 ∧ Forall (λ p, score p < WINNING_SCORE) (players g))
  ∧ (winner_id g = -1 ∨ 0 <= winner_id g < MAX_PLAYERS).
End Dice.

(** ** Concrete states *)

Module Examples.

Definition blank_log : LogQueue := mkLogQueue (replicate 100 ("", [])) 0 0 0 0.

(** A filled grid that obeys the Sudoku rules, and the generator that
    returns it whatever the random values. *)
Definition pattern (r c : Z) : Z := (r * 3 + r / 3 + c) `mod` 9 + 1.

Definition pattern_generator (rs : list Z) : (Z → Z → Z) * list Z := (pattern, rs).

(** The same grid as an array of numbers, and with the first two cells
    of its first row emptied. *)
Definition pattern_grid : list (list Z) :=
  (λ r, (λ c, pattern r c) <$> Sudoku.indices9) <$> Sudoku.indices9.

Definition open_pair_grid : list (list Z) :=
  <[0%nat := [0; 0; 3; 4; 5; 6; 7; 8; 9]]> pattern_grid.

(** [n] values of a linear congruential generator, as [rand()] is one. *)
Fixpoint random_values (n : nat) (seed : Z) : list Z :=
  match n with
  | O => []
  | S n' =>
      let next := (seed * 1103515245 + 12345) `mod` 2147483648 in
      next / 65536 :: random_values n' next
  end.

(** A world for code that only draws random values. *)
Definition dice_cup (rs : list Z) : World unit unit :=
  mkWorld tt blank_log (mkScores [] 0) [] free_locks [] rs.

(** A queue with one line waiting at index 98, and a world for code that
    only logs. *)
Definition one_line_log : LogQueue :=
  mkLogQueue (<[98%nat := ("Server started", [])]> (replicate 100 ("", []))) 98 99 1 0.

Definition log_cup (q : LogQueue) : World unit unit :=
  mkWorld tt q (mkScores [] 0) [] free_locks [] [].

Definition two_lines : list LogMsg :=
  [("Client connected to slot %d", [ArgInt 0]); ("Player %d joined", [ArgInt 1])].

(** Random values that make [generate_puzzle] pick the first 40 cells in
    row order. *)
Definition first_cells (n : nat) : list Z :=
  flat_map (λ k, [Z.of_nat k / 9; Z.of_nat k `mod` 9]) (seq 0 n).

Module Sudoku.
Import Sudoku.

Definition blank_scores : SharedScores ScoreEntry :=
  mkScores (replicate 100 (mkScore "" 0 0 0)) 0.

Definition solved_row (r : Z) : list SudokuCell :=
  (λ c, mkCell (pattern r c) (pattern r c) 1 (-1)) <$> indices9.

(** Every cell fixed except the top left one, which is open. *)
Definition last_cell_grid : list (list SudokuCell) :=
  (<[0%nat := mkCell EMPTY_CELL (pattern 0 0) 0 (-1)]> (solved_row 0))
    :: (solved_row <$> [1; 2; 3; 4; 5; 6; 7; 8]).

Definition three_players (s0 s1 s2 : Z) : list Player :=
  [mkPlayer 0 "Alice" s0 2 0 PLAYER_ACTIVE 101;
   mkPlayer 1 "Bob" s1 1 0 PLAYER_ACTIVE 102;
   mkPlayer 2 "Carol" s2 0 0 PLAYER_ACTIVE 103;
   initial_player 3; initial_player 4].

(** Three players in a game with one cell left; it is Alice's turn. *)
Definition last_cell_world (s0 s1 s2 : Z) : W :=
  mkWorld (mkGame GAME_IN_PROGRESS 3 0 (-1) last_cell_grid 1 (three_players s0 s1 s2) 3 0 0)
          blank_log blank_scores [] free_locks [] [].

Definition place_msg (row col value : Z) : GameMessage :=
  mkMsg MSG_PLACE 0 "" row col value 0 0 ("", []) [] 0 [] 0 0.

Definition join_msg (who : string) : GameMessage :=
  mkMsg MSG_JOIN 0 who 0 0 0 0 0 ("", []) [] 0 [] 0 0.

(** The state of [last_cell_world 20 10 0] once Alice has filled the last
    cell, before anyone has finalized the game. *)
Definition completed_world : W :=
  mkWorld (mkGame GAME_IN_PROGRESS 3 0 (-1)
             (<[0%nat := <[0%nat := mkCell 1 1 0 0]> (solved_row 0)]> last_cell_grid) 0
             (<[0%nat := mkPlayer 0 "Alice" 30 3 0 PLAYER_ACTIVE 101]> (three_players 20 10 0))
             3 0 0)
          blank_log blank_scores [] free_locks [] [].

(** Alone in the game: Bob and Carol have left. *)
Definition alone_world : W :=
  mkWorld (mkGame GAME_IN_PROGRESS 1 0 (-1) last_cell_grid 1
             [mkPlayer 0 "Alice" 20 2 0 PLAYER_ACTIVE 101;
              mkPlayer 1 "Bob" 10 1 0 PLAYER_DISCONNECTED 102;
              mkPlayer 2 "Carol" 0 0 0 PLAYER_DISCONNECTED 103;
              initial_player 3; initial_player 4] 3 0 0)
          blank_log blank_scores [] free_locks [] [].

(** Alice and Bob wait for a third player. *)
Definition two_waiting_world : W :=
  mkWorld (mkGame GAME_WAITING_FOR_PLAYERS 2 (-1) (-1)
             (replicate 9 (replicate 9 (mkCell EMPTY_CELL 0 0 (-1)))) 0
             [mkPlayer 0 "Alice" 0 0 0 PLAYER_WAITING 101;
              mkPlayer 1 "Bob" 0 0 0 PLAYER_WAITING 102;
              initial_player 2; initial_player 3; initial_player 4] 0 0 0)
          blank_log blank_scores [] free_locks [] (first_cells 40).

(** Three players join, the game starts with Alice to move, and Alice
    quits. *)
Definition alice_quits : list (Action * list Z) :=
  [(ActJoin 0 (join_msg "Alice"), []);
   (ActJoin 1 (join_msg "Bob"), []);
   (ActJoin 2 (join_msg "Carol"), first_cells 40);
   (ActQuit 0, [])].

(** Three players join and the game starts with Alice to move. *)
Definition three_joined : list (Action * list Z) :=
  [(ActJoin 0 (join_msg "Alice"), []);
   (ActJoin 1 (join_msg "Bob"), []);
   (ActJoin 2 (join_msg "Carol"), first_cells 40)].

(** Then the client of slot 0 sends Join again and places a 1 in the
    first cell. *)
Definition alice_rejoins : list (Action * list Z) :=
  three_joined
    ++ [(ActJoin 0 (join_msg "Alice"), []); (ActPlace 0 (place_msg 0 0 1), [])].
End Sudoku.

Module Dice.
Import Dice.

Definition blank_scores : SharedScores ScoreEntry :=
  mkScores (replicate 100 (mkScore "" 0)) 0.

Definition three_players (s0 s1 s2 : Z) : list Player :=
  [mkPlayer 0 "Alice" s0 PLAYER_ACTIVE 101;
   mkPlayer 1 "Bob" s1 PLAYER_ACTIVE 102;
   mkPlayer 2 "Carol" s2 PLAYER_ACTIVE 103;
   mkPlayer 3 "" 0 PLAYER_DISCONNECTED 0;
   mkPlayer 4 "" 0 PLAYER_DISCONNECTED 0].

(** A game in progress, Alice to roll, with the coming values of
    [rand()]. *)
Definition rolling_world (s0 : Z) (rs : list Z) : W :=
  mkWorld (mkGame GAME_IN_PROGRESS 3 0 (-1) (three_players s0 10 0) 0 0)
          blank_log blank_scores [] free_locks [] rs.

Definition join_msg (who : string) : GameMessage := mkMsg MSG_JOIN 0 who 0 ("", []).

(** The game Alice has just won, before [main] looks at it. *)
Definition won_world : W :=
  mkWorld (mkGame GAME_FINISHED 3 0 0 (three_players 104 10 0) 0 0)
          blank_log blank_scores [] free_locks [] [].
End Dice.
End Examples.

(** * Proofs

    ** Integers, arrays and the rules of the weakest precondition *)

Lemma int_wrap_id z : in_int z → int_wrap z = z.
Proof.
  unfold in_int, INT_MIN, INT_MAX, int_wrap. intros H.
  rewrite Z.mod_small by lia. lia.
Qed.

Lemma int_add_exact a b : in_int (a + b) → int_add a b = a + b.
Proof. apply int_wrap_id. Qed.

Lemma int_sub_exact a b : in_int (a - b) → int_sub a b = a - b.
Proof. apply int_wrap_id. Qed.

Section WpRules.
Context {W : Type}.
Implicit Types w : W.

Lemma wp_bind {A B} (m : M W A) (k : A → M W B) Q w :
  wp m (λ a w', wp (k a) Q w') w → wp (bind m k) Q w.
Proof. unfold wp, bind. destruct (m w); auto. Qed.

Lemma wp_ret {A} (a : A) (Q : A → W → Prop) w : Q a w → wp (ret a) Q w.
Proof. auto. Qed.

Lemma wp_mono {A} (m : M W A) (Q Q' : A → W → Prop) w :
  wp m Q w → (∀ a w', Q a w' → Q' a w') → wp m Q' w.
Proof. unfold wp. destruct (m w); auto. Qed.

Lemma wp_run {A} (m : M W A) (Q : A → W → Prop) w :
  wp m Q w ↔ ∃ a w', m w = Ok a w' ∧ Q a w'.
Proof.
  unfold wp. destruct (m w) as [a w'|f]; split.
  - eauto.
  - intros (a' & w'' & [= -> ->] & HQ). done.
  - done.
  - intros (a' & w'' & [=] & _).
Qed.

Lemma wp_run_tt (m : M W unit) (Q : W → Prop) w :
  wp m (λ _ w', Q w') w → ∃ w', m w = Ok tt w' ∧ Q w'.
Proof. intros ([] & w' & Hrun & HQ)%wp_run. eauto. Qed.

Lemma wp_run_to {A} (m : M W A) (P : A → Prop) (w w0 : W) :
  wp m (λ a w', w' = w0 ∧ P a) w → ∃ a, m w = Ok a w0 ∧ P a.
Proof. intros (a & w' & Hrun & -> & HP)%wp_run. eauto. Qed.

Lemma wp_lift_opt {A} (o : option A) a (Q : A → W → Prop) w :
  o = Some a → Q a w → wp (lift_opt o) Q w.
Proof. intros ->. auto. Qed.

Lemma wp_lift {A} (r : Fault + A) a (Q : A → W → Prop) w :
  r = inr a → Q a w → wp (lift r) Q w.
Proof. intros ->. auto. Qed.

Lemma wp_modify (f : W → W) (Q : unit → W → Prop) w : Q tt (f w) → wp (modify f) Q w.
Proof. auto. Qed.

Lemma wp_get (Q : W → W → Prop) w : Q w w → wp get Q w.
Proof. auto. Qed.
End WpRules.

Lemma arr_set_ok {A} (a : list A) i x :
  0 <= i < Z.of_nat (length a) → arr_set a i x = Some (<[Z.to_nat i := x]> a).
Proof.
  intros H. unfold arr_set.
  destruct (0 <=? i) eqn:H1; [|apply Z.leb_gt in H1; lia].
  destruct (i <? Z.of_nat (length a)) eqn:H2; [done|apply Z.ltb_ge in H2; lia].
Qed.

Lemma arr_get_nat {A} (a : list A) i : 0 <= i → arr_get a i = a !! Z.to_nat i.
Proof. intros H. unfold arr_get. destruct (i <? 0) eqn:H1; [apply Z.ltb_lt in H1; lia|done]. Qed.

Lemma arr_get_Some {A} (a : list A) i x :
  arr_get a i = Some x → 0 <= i < Z.of_nat (length a).
Proof.
  unfold arr_get. destruct (i <? 0) eqn:H1; [done|]. apply Z.ltb_ge in H1.
  intros H%lookup_lt_Some. lia.
Qed.

Lemma arr_get_is_Some {A} (a : list A) i :
  0 <= i < Z.of_nat (length a) → ∃ x, arr_get a i = Some x.
Proof.
  intros H. rewrite arr_get_nat by lia.
  destruct (lookup_lt_is_Some_2 a (Z.to_nat i)) as [x Hx]; [lia|eauto].
Qed.

Lemma arr_get_set_eq {A} (a : list A) i x :
  0 <= i < Z.of_nat (length a) → arr_get (<[Z.to_nat i := x]> a) i = Some x.
Proof. intros H. rewrite arr_get_nat by lia. apply list_lookup_insert_eq. lia. Qed.

Lemma arr_get_set_ne {A} (a : list A) i j x :
  0 <= i → i ≠ j → arr_get (<[Z.to_nat i := x]> a) j = arr_get a j.
Proof.
  intros Hi Hne. unfold arr_get. destruct (j <? 0) eqn:Hj; [done|]. apply Z.ltb_ge in Hj.
  apply list_lookup_insert_ne. lia.
Qed.

Section ShmRules.
Context {G E : Type}.
Implicit Types w : (World G E).

Lemma wp_read_game (Q : G → World G E → Prop) w : Q (game w) w → wp read_game Q w.
Proof. auto. Qed.

Lemma wp_write_game g (Q : unit → World G E → Prop) w : Q tt (with_game g w) → wp (write_game g) Q w.
Proof. auto. Qed.

Lemma wp_read_scores (Q : SharedScores E → World G E → Prop) w : Q (scores w) w → wp read_scores Q w.
Proof. auto. Qed.

Lemma wp_write_scores s (Q : unit → World G E → Prop) w :
  Q tt (with_scores s w) → wp (write_scores s) Q w.
Proof. auto. Qed.

Lemma wp_spin_lock l (Q : unit → World G E → Prop) w :
  lock_word l (locks w) = 0 →
  Q tt (with_lock_trace (lock_trace w ++ [Acquire l])
          (with_locks (set_lock_word l 1 (locks w)) w)) →
  wp (spin_lock l) Q w.
Proof. unfold wp, spin_lock. intros ->. auto. Qed.

Lemma wp_spin_unlock l (Q : unit → World G E → Prop) w :
  Q tt (with_lock_trace (lock_trace w ++ [Release l])
          (with_locks (set_lock_word l 0 (locks w)) w)) →
  wp (spin_unlock l) Q w.
Proof. auto. Qed.

Lemma wp_rand r rs (Q : Z → World G E → Prop) w :
  rand_stream w = r :: rs → Q r (with_rand_stream rs w) → wp rand Q w.
Proof. unfold wp, rand. intros ->. auto. Qed.

Lemma enqueue_log_run fmt args w :
  log_lock (locks w) = 0 → wf_log (log_queue w) →
  enqueue_log fmt args w = Ok tt (logged (fmt, args) w).
Proof.
  intros Hl [Hlen Htail]. destruct w as [g q sc f [gl ll sl] t rs].
  cbn in Hl, Hlen, Htail. subst ll.
  unfold enqueue_log, bind, spin_lock, read_log, logged, log_push. cbn.
  destruct (q_count q <? LOG_QUEUE_SIZE) eqn:Hc; cbn.
  - rewrite arr_set_ok by (unfold LOG_QUEUE_SIZE in *; lia).
    unfold spin_unlock, with_log_queue, with_lock_trace, with_locks. cbn.
    by rewrite <- app_assoc.
  - unfold spin_unlock, with_log_queue, with_lock_trace, with_locks. cbn.
    by rewrite <- app_assoc.
Qed.

Lemma wp_enqueue_log fmt args (Q : unit → World G E → Prop) w :
  log_lock (locks w) = 0 → wf_log (log_queue w) →
  Q tt (logged (fmt, args) w) → wp (enqueue_log fmt args) Q w.
Proof. intros Hl Hq HQ. unfold wp. by rewrite enqueue_log_run. Qed.

Lemma wf_log_push m q : wf_log q → wf_log (log_push m q).
Proof.
  intros [Hlen Htail]. unfold log_push. destruct (q_count q <? LOG_QUEUE_SIZE); [|done].
  split; cbn.
  - by rewrite length_insert.
  - unfold LOG_QUEUE_SIZE in *. 
    pose proof (Z.rem_bound_pos (q_tail q + 1) 100). lia.
Qed.
End ShmRules.

(** ** Round robin *)

Section RoundRobinFacts.
Context {P : Type} (state_of : P → PlayerState).

Lemma is_active_flag (b : bool) : is_active state_of_flag b = b.
Proof. by destruct b. Qed.

Lemma arr_get_fmap {A B} (f : A → B) (a : list A) i :
  arr_get (f <$> a) i = f <$> arr_get a i.
Proof. unfold arr_get. destruct (i <? 0); [done|]. apply list_lookup_fmap. Qed.

Lemma next_active_loop_flags fuel (ps : list P) idx start :
  next_active_loop state_of fuel ps idx start
  = next_active_loop state_of_flag fuel (is_active state_of <$> ps) idx start.
Proof.
  revert idx. induction fuel as [|fuel IH]; intros idx; [done|].
  cbn [next_active_loop]. rewrite arr_get_fmap.
  destruct (arr_get ps idx) as [p|]; [|done]. cbn [fmap option_fmap option_map].
  rewrite is_active_flag. destruct (is_active state_of p); [done|].
  cbv zeta. destruct (_ =? start); [done|]. apply IH.
Qed.

Lemma get_next_active_player_flags (ps : list P) current :
  get_next_active_player state_of ps current
  = get_next_active_player state_of_flag (is_active state_of <$> ps) current.
Proof. apply next_active_loop_flags. Qed.

Lemma active_slots_flags (ps : list P) :
  active_slots state_of ps = active_slots state_of_flag (is_active state_of <$> ps).
Proof.
  unfold active_slots. rewrite length_fmap. apply list_filter_iff. intros i.
  rewrite arr_get_fmap. destruct (arr_get ps i) as [p|]; [|done].
  cbn. by rewrite is_active_flag.
Qed.

Lemma turn_orbit_flags n (ps : list P) current :
  turn_orbit state_of n ps current
  = turn_orbit state_of_flag n (is_active state_of <$> ps) current.
Proof.
  revert current. induction n as [|n IH]; intros current; [done|].
  cbn [turn_orbit]. rewrite get_next_active_player_flags.
  destruct (get_next_active_player _ _ _) as [f|next]; [done|]. by rewrite IH.
Qed.
End RoundRobinFacts.

Lemma five_flags (m : list bool) :
  length m = 5%nat → ∃ b0 b1 b2 b3 b4, m = [b0; b1; b2; b3; b4].
Proof.
  intros H. do 5 (destruct m as [|? m]; [done|]). destruct m; [|done]. eauto 10.
Qed.

Lemma start_cases c : -1 <= c < MAX_PLAYERS → c = -1 ∨ c = 0 ∨ c = 1 ∨ c = 2 ∨ c = 3 ∨ c = 4.
Proof. unfold MAX_PLAYERS. lia. Qed.

Ltac by_computation := refine (bool_decide_unpack _ _); vm_compute; exact I.

Lemma round_robin_flags m c :
  length m = 5%nat → -1 <= c < MAX_PLAYERS → round_robin_ok m c.
Proof.
  intros (b0 & b1 & b2 & b3 & b4 & ->)%five_flags Hc%start_cases.
  unfold round_robin_ok.
  destruct b0, b1, b2, b3, b4;
    destruct Hc as [->|[->|[->|[->|[->| ->]]]]];
    vm_compute active_slots; vm_compute get_next_active_player;
    vm_compute turn_orbit;
    (eexists _, _; split; [reflexivity|]);
    (split; [split; by_computation|]);
    (split; [by_computation|]);
    (split; [by intros s [= <-]|]);
    (split; [reflexivity|]);
    (split; [by_computation|]);
    (split; by_computation).
Qed.

Section RoundRobinAll.
Context {P : Type} (state_of : P → PlayerState).

Lemma active_slot_lookup (ps : list P) i :
  i ∈ active_slots state_of ps ↔
  ∃ p, arr_get ps i = Some p ∧ state_of p = PLAYER_ACTIVE.
Proof.
  unfold active_slots. rewrite list_elem_of_filter. split.
  - intros [Hact _]. destruct (arr_get ps i) as [p|]; [|done].
    exists p. split; [done|]. by apply bool_decide_eq_true in Hact.
  - intros (p & Hp & Hact). split.
    + rewrite Hp. cbn. by apply bool_decide_eq_true.
    + apply arr_get_Some in Hp. apply list_elem_of_fmap. exists (Z.to_nat i).
      split; [lia|]. apply elem_of_seq. lia.
Qed.

(** Whatever the array and the start, a slot that is returned is Active. *)
Lemma next_active_loop_sound fuel (ps : list P) idx start r :
  next_active_loop state_of fuel ps idx start = inr r →
  r = -1 ∨ ∃ p, arr_get ps r = Some p ∧ state_of p = PLAYER_ACTIVE.
Proof.
  revert idx. induction fuel as [|fuel IH]; intros idx; [done|].
  cbn [next_active_loop]. destruct (arr_get ps idx) as [p|] eqn:Hp; [|done].
  unfold is_active. case_bool_decide as Hact.
  - intros [= <-]. right. eauto.
  - cbv zeta. destruct (_ =? start); [intros [= <-]; by left|]. apply IH.
Qed.

Lemma get_next_active_player_sound (ps : list P) c r :
  get_next_active_player state_of ps c = inr r →
  r = -1 ∨ ∃ p, arr_get ps r = Some p ∧ state_of p = PLAYER_ACTIVE.
Proof. apply next_active_loop_sound. Qed.

Lemma get_next_active_player_spec (ps : list P) c :
  length ps = 5%nat → -1 <= c < MAX_PLAYERS →
  ∃ r, get_next_active_player state_of ps c = inr r
       ∧ (r = -1 ↔ active_slots state_of ps = [])
       ∧ (r ≠ -1 → r ∈ active_slots state_of ps)
       ∧ (∀ s, active_slots state_of ps = [s] → r = s).
Proof.
  intros Hlen Hc.
  destruct (round_robin_flags (is_active state_of <$> ps) c) as (r & orb & H1 & H2 & H3 & H4 & _);
    [by rewrite length_fmap|done|].
  exists r. rewrite get_next_active_player_flags, active_slots_flags. auto.
Qed.

Lemma get_next_active_player_range (ps : list P) c :
  length ps = 5%nat → -1 <= c < MAX_PLAYERS →
  ∃ r, get_next_active_player state_of ps c = inr r
       ∧ (r = -1 ∨ ∃ p, arr_get ps r = Some p ∧ state_of p = PLAYER_ACTIVE).
Proof.
  intros Hlen Hc.
  destruct (get_next_active_player_spec ps c) as (r & Hr & _ & Hin & _); [done..|].
  exists r. split; [done|]. destruct (decide (r = -1)) as [|Hne]; [by left|right].
  by apply active_slot_lookup, Hin.
Qed.

(** The start of the scan is all that the functions keep of [current]. *)
Lemma get_next_active_player_start (ps : list P) c :
  -1 <= c < INT_MAX →
  get_next_active_player state_of ps c
  = get_next_active_player state_of ps (Z.rem (c + 1) MAX_PLAYERS - 1).
Proof.
  intros Hc. unfold get_next_active_player, MAX_PLAYERS, INT_MAX in *.
  pose proof (Z.rem_bound_pos (c + 1) 5).
  rewrite !int_add_exact by (unfold in_int, INT_MIN, INT_MAX; lia).
  replace (Z.rem (c + 1) 5 - 1 + 1) with (Z.rem (c + 1) 5) by lia.
  by rewrite (Z.rem_small (Z.rem (c + 1) 5)) by lia.
Qed.

Lemma turn_orbit_start n (ps : list P) c :
  -1 <= c < INT_MAX →
  turn_orbit state_of n ps c = turn_orbit state_of n ps (Z.rem (c + 1) MAX_PLAYERS - 1).
Proof.
  intros Hc. destruct n as [|n]; [done|]. cbn [turn_orbit].
  by rewrite <- get_next_active_player_start.
Qed.

Lemma start_in_range c :
  -1 <= c < INT_MAX → -1 <= Z.rem (c + 1) MAX_PLAYERS - 1 < MAX_PLAYERS.
Proof.
  intros Hc. unfold MAX_PLAYERS. pose proof (Z.rem_bound_pos (c + 1) 5). lia.
Qed.
End RoundRobinAll.

Section RoundRobinClaims.
Context {P : Type} (state_of : P → PlayerState).

Lemma active_slots_NoDup (ps : list P) : NoDup (active_slots state_of ps).
Proof.
  unfold active_slots. apply NoDup_filter, NoDup_fmap_2; [|apply NoDup_seq].
  intros x y. lia.
Qed.

Lemma active_slots_nil (ps : list P) :
  active_slots state_of ps = [] ↔
  ∀ i p, arr_get ps i = Some p → state_of p ≠ PLAYER_ACTIVE.
Proof.
  split.
  - intros Hnil i p Hp Hact.
    assert (i ∈ active_slots state_of ps) as Hin by (apply active_slot_lookup; eauto).
    rewrite Hnil in Hin. by apply elem_of_nil in Hin.
  - intros Hnone. destruct (active_slots state_of ps) as [|i l] eqn:Hl; [done|].
    assert (i ∈ active_slots state_of ps) as Hin by (rewrite Hl; left).
    apply active_slot_lookup in Hin as (p & Hp & Hact). by destruct (Hnone i p).
Qed.

Lemma active_slots_singleton (ps : list P) s :
  (∀ i, (∃ p, arr_get ps i = Some p ∧ state_of p = PLAYER_ACTIVE) ↔ i = s) →
  active_slots state_of ps = [s].
Proof.
  intros Hone. pose proof (active_slots_NoDup ps) as Hnd.
  assert (∀ i, i ∈ active_slots state_of ps ↔ i = s) as Hin.
  { intros i. by rewrite active_slot_lookup. }
  destruct (active_slots state_of ps) as [|a l].
  - specialize (Hin s). destruct Hin as [_ Hin]. specialize (Hin eq_refl).
    by apply elem_of_nil in Hin.
  - assert (a = s) as -> by (apply Hin; left).
    destruct l as [|b l]; [done|].
    assert (b = s) as -> by (apply Hin; right; left).
    apply NoDup_cons in Hnd as [Hnot _]. destruct Hnot. left.
Qed.

Lemma round_robin_in_range (ps : list P) (c : Z) :
  length ps = 5%nat → -1 <= c < MAX_PLAYERS →
  ∃ r orb,
    get_next_active_player state_of ps c = inr r
    ∧ (r = -1 ↔ ∀ i p, arr_get ps i = Some p → state_of p ≠ PLAYER_ACTIVE)
    ∧ turn_orbit state_of (length (active_slots state_of ps)) ps c = inr orb
    ∧ NoDup orb
    ∧ (∀ i, i ∈ orb ↔ ∃ p, arr_get ps i = Some p ∧ state_of p = PLAYER_ACTIVE)
    ∧ head orb = (if decide (r = -1) then None else Some r)
    ∧ ((∃ p, arr_get ps c = Some p ∧ state_of p = PLAYER_ACTIVE) → last orb = Some c).
Proof.
  intros Hlen Hc.
  destruct (round_robin_flags (is_active state_of <$> ps) c)
    as (r & orb & Hr & Hnone & Hin & _ & Horb & Hperm & Hnd & Hlast);
    [by rewrite length_fmap|done|].
  rewrite <- get_next_active_player_flags in Hr.
  rewrite <- !active_slots_flags in *. rewrite <- turn_orbit_flags in Horb.
  exists r, orb. split; [done|]. split; [by rewrite Hnone, active_slots_nil|].
  split; [done|]. split; [done|]. split.
  { intros i. by rewrite Hperm, active_slot_lookup. }
  split.
  - destruct (active_slots state_of ps) as [|a l] eqn:Hact.
    + apply Permutation_nil_r in Hperm as ->. rewrite (proj2 Hnone eq_refl). done.
    + cbn [length turn_orbit] in Horb. rewrite Hr in Horb.
      destruct (turn_orbit _ _ _ _) as [|rest]; [done|]. injection Horb as <-.
      cbn. destruct Hnone as [Hnone _]. case_decide; [by specialize (Hnone ltac:(done))|done].
  - intros Hcact. by apply Hlast, active_slot_lookup.
Qed.

(** Claim C7.  For every configuration of the five slots and every
    starting value from -1 on: [get_next_active_player] returns -1
    exactly when no slot is Active, and as many successive calls as there
    are Active slots visit every Active slot, each once, and no other
    slot; they begin with the result of the first call and, when the
    starting slot is Active, end on it. *)
Theorem round_robin_visits_active_once (ps : list P) (c : Z) :
  length ps = 5%nat → -1 <= c < INT_MAX →
  ∃ r orb,
    get_next_active_player state_of ps c = inr r
    ∧ (r = -1 ↔ ∀ i p, arr_get ps i = Some p → state_of p ≠ PLAYER_ACTIVE)
    ∧ turn_orbit state_of (length (active_slots state_of ps)) ps c = inr orb
    ∧ NoDup orb
    ∧ (∀ i, i ∈ orb ↔ ∃ p, arr_get ps i = Some p ∧ state_of p = PLAYER_ACTIVE)
    ∧ head orb = (if decide (r = -1) then None else Some r)
    ∧ ((∃ p, arr_get ps c = Some p ∧ state_of p = PLAYER_ACTIVE) → last orb = Some c).
Proof.
  intros Hlen Hc. destruct (decide (c < MAX_PLAYERS)) as [Hin|Hout].
  - apply round_robin_in_range; [done|lia].
  - destruct (round_robin_in_range ps (Z.rem (c + 1) MAX_PLAYERS - 1) Hlen
                (start_in_range c Hc))
      as (r & orb & Hr & Hnone & Horb & Hnd & Hmem & Hhead & _).
    exists r, orb. rewrite get_next_active_player_start, turn_orbit_start by done.
    split_and!; try done.
    intros (p & Hp%arr_get_Some & _). rewrite Hlen in Hp. unfold MAX_PLAYERS in Hout. lia.
Qed.

Lemma sole_active_next (ps : list P) (s c : Z) :
  length ps = 5%nat → -1 <= c < INT_MAX →
  (∀ i, (∃ p, arr_get ps i = Some p ∧ state_of p = PLAYER_ACTIVE) ↔ i = s) →
  get_next_active_player state_of ps c = inr s.
Proof.
  intros Hlen Hc Hone. rewrite get_next_active_player_start by done.
  destruct (get_next_active_player_spec state_of ps (Z.rem (c + 1) MAX_PLAYERS - 1))
    as (r & Hr & _ & _ & Hs); [done|by apply start_in_range|].
  rewrite Hr. f_equal. by apply Hs, active_slots_singleton.
Qed.
End RoundRobinClaims.

(** ** Symbolic execution *)

Ltac wsimpl :=
  cbn [game log_queue scores scores_file locks lock_trace rand_stream
       with_game with_log_queue with_scores with_scores_file with_locks
       with_lock_trace with_rand_stream lock_word set_lock_word
       game_lock log_lock scores_lock free_locks logged fst snd] in *.

Ltac wstep :=
  lazymatch goal with
  | |- wp (bind _ _) _ _ => apply wp_bind
  | |- wp (ret _) _ _ => apply wp_ret
  | |- wp read_game _ _ => apply wp_read_game
  | |- wp (write_game _) _ _ => apply wp_write_game
  | |- wp read_scores _ _ => apply wp_read_scores
  | |- wp (write_scores _) _ _ => apply wp_write_scores
  | |- wp (modify _) _ _ => apply wp_modify
  | |- wp get _ _ => apply wp_get
  | |- wp (spin_lock _) _ _ => apply wp_spin_lock; [wsimpl; try done|]
  | |- wp (spin_unlock _) _ _ => apply wp_spin_unlock
  | |- wp (enqueue_log _ _) _ _ =>
      apply wp_enqueue_log; [wsimpl; try done|wsimpl; eauto using wf_log_push|]
  | |- wp (lift _) _ _ => eapply wp_lift; [solve [wsimpl; first [eassumption | reflexivity]]|]
  end; wsimpl.

(** Side conditions of array accesses. *)
Ltac arr_side :=
  solve [ eassumption
        | apply arr_set_ok; rewrite ?length_insert; lia
        | rewrite arr_get_set_eq by (rewrite ?length_insert; lia); reflexivity
        | rewrite arr_get_set_eq by (rewrite ?length_insert; lia); eassumption ].

(** ** The Sudoku server *)

Module SudokuFacts.
Import Sudoku.

Ltac gsimpl :=
  cbn [game_state num_players current_turn winner_id grid cells_remaining players
       turn_signal game_reset_requested server_shutdown
       set_game_state set_num_players set_current_turn set_winner_id set_grid
       set_cells_remaining set_players set_turn_signal
       id name score correct_placements wrong_placements state handler_pid
       set_name set_score set_correct_placements set_wrong_placements set_state
       value solution is_fixed placed_by
       msg_type msg_text set_msg_type set_msg_text set_msg_move set_msg_outcome
       set_msg_player_id copy_state_to_message] in *.

Ltac gstep :=
  lazymatch goal with
  | |- wp (update_game _) _ _ => unfold update_game
  | |- wp (read_player _) _ _ => unfold read_player
  | |- wp (update_player _ _) _ _ => unfold update_player
  | |- wp (lift_opt _) _ _ => eapply wp_lift_opt; [wsimpl; gsimpl; arr_side|]
  | |- _ => wstep
  end; gsimpl.

Lemma in_grid_range row col :
  0 <= row < GRID_SIZE → 0 <= col < GRID_SIZE →
  (row <? 0) || (row >=? GRID_SIZE) || (col <? 0) || (col >=? GRID_SIZE) = false.
Proof.
  intros. rewrite !Z.geb_leb.
  destruct (Z.ltb_spec row 0), (Z.leb_spec GRID_SIZE row),
           (Z.ltb_spec col 0), (Z.leb_spec GRID_SIZE col); try lia; reflexivity.
Qed.

Lemma in_value_range v : 1 <= v <= 9 → (v <? 1) || (v >? 9) = false.
Proof.
  intros. rewrite Z.gtb_ltb.
  destruct (Z.ltb_spec v 1), (Z.ltb_spec 9 v); try lia; reflexivity.
Qed.

(** *** Grid access *)

Lemma grid_get_set g row col cell x :
  grid_get g row col = Some cell →
  ∃ g', grid_set g row col x = Some g'
        ∧ grid_get g' row col = Some x
        ∧ length g' = length g
        ∧ (Forall (λ r, length r = 9%nat) g → Forall (λ r, length r = 9%nat) g').
Proof.
  unfold grid_get, grid_set. destruct (arr_get g row) as [r|] eqn:Hr; [|done].
  intros Hc. pose proof (arr_get_Some _ _ _ Hr) as Hrow.
  pose proof (arr_get_Some _ _ _ Hc) as Hcol.
  rewrite (arr_set_ok r) by done. rewrite (arr_set_ok g) by done.
  eexists. split; [done|]. rewrite arr_get_set_eq by done.
  rewrite arr_get_set_eq by done. split; [done|]. split; [apply length_insert|].
  intros Hall. apply Forall_insert; [done|]. rewrite length_insert.
  rewrite arr_get_nat in Hr by lia.
  by apply (Forall_lookup_1 _ _ _ _ Hall Hr).
Qed.

(** *** Sub-programs *)

Lemma advance_turn_spec (w : W) :
  locks w = free_locks → wf_log (log_queue w) →
  length (players (game w)) = 5%nat →
  -1 <= current_turn (game w) < MAX_PLAYERS →
  wp advance_turn
     (λ _ w', ∃ next,
          get_next_active_player state (players (game w)) (current_turn (game w)) = inr next
          ∧ game w' = turn_passed next (game w) ∧ quiet w w') w.
Proof.
  intros Hl Hlog Hlen Hct. destruct w as [g q sc f ls t rs]; wsimpl; subst ls.
  destruct (get_next_active_player_range state (players g) (current_turn g))
    as (next & Hnext & Hcase); [done..|].
  unfold advance_turn. repeat gstep. unfold turn_passed.
  destruct (0 <=? next) eqn:Hn.
  - destruct Hcase as [->|(np & Hnp & _)]; [done|].
    repeat gstep. exists next. rewrite Hn. unfold quiet. wsimpl.
    split_and!; eauto using wf_log_push.
  - repeat gstep. exists next. rewrite Hn. unfold quiet. wsimpl. split_and!; eauto.
Qed.

Lemma broadcast_turn_notification_spec (w : W) :
  locks w = free_locks →
  length (players (game w)) = 5%nat →
  wp broadcast_turn_notification
     (λ _ w', game w' = game w ∧ log_queue w' = log_queue w ∧ locks w' = free_locks
              ∧ scores w' = scores w ∧ scores_file w' = scores_file w
              ∧ rand_stream w' = rand_stream w) w.
Proof.
  intros Hl Hlen. destruct w as [g q sc f ls t rs]; wsimpl; subst ls.
  unfold broadcast_turn_notification. repeat gstep.
  destruct (negb _); [by repeat gstep|].
  destruct (_ || _) eqn:Hr; [by repeat gstep|].
  apply orb_false_iff in Hr as [H1%Z.ltb_ge H2]. rewrite Z.geb_leb in H2.
  apply Z.leb_gt in H2.
  destruct (arr_get_is_Some (players g) (current_turn g)) as [cur Hcur].
  { rewrite Hlen. unfold MAX_PLAYERS in *. lia. }
  by repeat gstep.
Qed.

Ltac fin :=
  unfold quiet, wf_game; wsimpl; gsimpl; split_and!;
  rewrite ?length_insert, ?arr_get_set_eq by lia;
  eauto using wf_log_push; try done; try lia.

Ltac fin_over :=
  lazymatch goal with
  | Hover : (_ <=? 0) = true, Hw : winner_loop _ _ _ _ = _ |- _ =>
      apply Z.leb_le in Hover; rewrite ?Hw; cbn [snd]; try tauto
  | Hover : (_ <=? 0) = false |- _ =>
      apply Z.leb_gt in Hover; try (split; [done|lia]); try done
  end.

(** *** The winner loop *)

Lemma winner_loop_range ps i m0 w0 :
  snd (winner_loop ps i m0 w0) = w0
  ∨ i <= snd (winner_loop ps i m0 w0) < i + Z.of_nat (length ps).
Proof.
  revert i m0 w0. induction ps as [|p ps IH]; intros i m0 w0; [by left|].
  cbn [winner_loop length]. destruct (_ && _).
  - right. destruct (IH (i + 1) (score p) i) as [->|]; lia.
  - destruct (IH (i + 1) m0 w0) as [->|]; [by left|right; lia].
Qed.

Lemma winner_loop_none ps i :
  Forall (λ p, state p = PLAYER_ACTIVE → score p <= -1000) ps →
  winner_loop ps i (-1000) (-1) = (-1000, -1).
Proof.
  revert i. induction ps as [|p ps IH]; intros i Hall; [done|].
  apply Forall_cons in Hall as [Hp Hall]. cbn [winner_loop].
  unfold is_active. case_bool_decide as Hact; cbn [andb]; [|by apply IH].
  destruct (Z.gtb_spec (score p) (-1000)); [specialize (Hp Hact); lia|by apply IH].
Qed.

(** The game-over check at the end of [case MSG_PLACE]. *)
Ltac finish_tail pid :=
  destruct (_ <=? 0) eqn:Hover;
  [ destruct (winner_loop _ 0 (-1000) (-1)) as [max_score winner] eqn:Hw;
    match type of Hw with winner_loop ?ps _ _ _ = _ =>
      pose proof (winner_loop_range ps 0 (-1000) (-1)) as Hrange;
      rewrite Hw, ?length_insert in Hrange; cbn [snd] in Hrange;
      repeat gstep;
      destruct (winner =? pid) eqn:Hwp;
      [ repeat gstep
      | destruct (0 <=? winner) eqn:Hw0;
        [ apply Z.leb_le in Hw0;
          destruct (arr_get_is_Some ps winner) as [best Hbest];
          [ rewrite ?length_insert; lia | repeat gstep ]
        | repeat gstep ] ]
    end
  | repeat gstep ].

Lemma place_locked_valid pid msg (w : W) p cell :
  wf_world w →
  game_state (game w) = GAME_IN_PROGRESS →
  current_turn (game w) = pid →
  0 <= msg_row msg < GRID_SIZE → 0 <= msg_col msg < GRID_SIZE →
  1 <= msg_value msg <= 9 →
  arr_get (players (game w)) pid = Some p →
  grid_get (grid (game w)) (msg_row msg) (msg_col msg) = Some cell →
  is_fixed cell = 0 → value cell = EMPTY_CELL →
  wp (place_locked pid msg)
     (λ r w',
        quiet w w' ∧ wf_game (game w') ∧ current_turn (game w') = pid
        ∧ (snd r = false ↔ cells_remaining (game w') <= 0)
        ∧ (snd r = false →
             game_state (game w') = GAME_FINISHED
             ∧ winner_id (game w') = snd (winner_loop (players (game w')) 0 (-1000) (-1)))
        ∧ if msg_value msg =? solution cell then
            grid_get (grid (game w')) (msg_row msg) (msg_col msg)
              = Some (mkCell (msg_value msg) (solution cell) (is_fixed cell) pid)
            ∧ cells_remaining (game w') = int_sub (cells_remaining (game w)) 1
            ∧ players (game w')
              = <[Z.to_nat pid := set_correct_placements (int_add (correct_placements p) 1)
                                    (set_score (int_add (score p) POINTS_CORRECT) p)]>
                  (players (game w))
          else
            grid (game w') = grid (game w)
            ∧ cells_remaining (game w') = cells_remaining (game w)
            ∧ players (game w')
              = <[Z.to_nat pid := set_wrong_placements (int_add (wrong_placements p) 1)
                                    (set_score (int_add (score p) POINTS_WRONG) p)]>
                  (players (game w))) w.
Proof.
  intros (Hg & Hlog & Hsc & Hl) Hip Hct Hrow Hcol Hval Hp Hcell Hfix Hval0.
  destruct w as [g q sc f ls t rs]; wsimpl; subst ls.
  destruct Hg as (Hlen & Hrows & Hcols).
  pose proof (arr_get_Some _ _ _ Hp) as Hpid.
  unfold place_locked.
  repeat gstep. rewrite Hip. rewrite bool_decide_eq_true_2 by done. cbn [negb].
  rewrite Hct, Z.eqb_refl. cbn [negb].
  rewrite in_grid_range, in_value_range by done.
  repeat gstep. rewrite Hfix, Hval0. cbn [Z.eqb negb EMPTY_CELL].
  gstep.
  destruct (msg_value msg =? solution cell) eqn:Hsol.
  - destruct (grid_get_set (grid g) _ _ _
                (mkCell (msg_value msg) (solution cell) 0 pid) Hcell)
      as (g' & Hset & Hget' & Hlen' & Hall').
    repeat gstep. finish_tail pid; fin; fin_over.
  - repeat gstep. finish_tail pid; fin; fin_over.
Qed.

Lemma turn_passed_frame next g :
  grid (turn_passed next g) = grid g
  ∧ cells_remaining (turn_passed next g) = cells_remaining g
  ∧ players (turn_passed next g) = players g
  ∧ game_state (turn_passed next g) = game_state g
  ∧ winner_id (turn_passed next g) = winner_id g
  ∧ num_players (turn_passed next g) = num_players g.
Proof. unfold turn_passed. by destruct (0 <=? next). Qed.

(** A move that the checks under the lock turn down: the response and
    nothing but the lock trace changes. *)

Ltac rejected :=
  unfold rejected_world; wsimpl; gsimpl; rewrite <- ?app_assoc; done.

Lemma place_not_in_progress pid msg (w : W) :
  locks w = free_locks →
  game_state (game w) ≠ GAME_IN_PROGRESS →
  ∃ resp, handle_MSG_PLACE pid msg w = Ok resp (rejected_world w)
          ∧ msg_type resp = MSG_ERROR
          ∧ msg_text resp = ("Game not in progress", [])%string.
Proof.
  intros Hl Hip. destruct w as [g q sc f ls t rs]; wsimpl; subst ls.
  apply wp_run_to. unfold handle_MSG_PLACE, place_locked. repeat gstep.
  rewrite bool_decide_eq_false_2 by done. cbn [negb]. repeat gstep. rejected.
Qed.

Lemma place_not_your_turn pid msg (w : W) :
  locks w = free_locks →
  length (players (game w)) = 5%nat →
  game_state (game w) = GAME_IN_PROGRESS →
  0 <= current_turn (game w) < MAX_PLAYERS →
  current_turn (game w) ≠ pid →
  ∃ resp, handle_MSG_PLACE pid msg w = Ok resp (rejected_world w)
          ∧ msg_type resp = MSG_WAIT.
Proof.
  intros Hl Hlen Hip Hrange Hct. destruct w as [g q sc f ls t rs]; wsimpl; subst ls.
  destruct (arr_get_is_Some (players g) (current_turn g)) as [cur Hcur].
  { rewrite Hlen. unfold MAX_PLAYERS in *. lia. }
  apply wp_run_to. unfold handle_MSG_PLACE, place_locked. repeat gstep.
  rewrite Hip, bool_decide_eq_true_2 by done. cbn [negb].
  destruct (Z.eqb_spec (current_turn g) pid); [done|]. cbn [negb].
  repeat gstep. rejected.
Qed.

Lemma place_cell_taken pid msg (w : W) cell :
  locks w = free_locks →
  game_state (game w) = GAME_IN_PROGRESS →
  current_turn (game w) = pid →
  0 <= msg_row msg < GRID_SIZE → 0 <= msg_col msg < GRID_SIZE →
  1 <= msg_value msg <= 9 →
  grid_get (grid (game w)) (msg_row msg) (msg_col msg) = Some cell →
  is_fixed cell ≠ 0 ∨ value cell ≠ EMPTY_CELL →
  ∃ resp, handle_MSG_PLACE pid msg w = Ok resp (rejected_world w)
          ∧ msg_type resp = MSG_ERROR.
Proof.
  intros Hl Hip Hct Hrow Hcol Hval Hcell Hrej.
  destruct w as [g q sc f ls t rs]; wsimpl; subst ls.
  apply wp_run_to. unfold handle_MSG_PLACE, place_locked. repeat gstep.
  rewrite Hip, bool_decide_eq_true_2 by done. cbn [negb].
  rewrite Hct, Z.eqb_refl. cbn [negb].
  rewrite in_grid_range, in_value_range by done. repeat gstep.
  destruct (Z.eqb_spec (is_fixed cell) 0) as [Hf|Hf]; cbn [negb].
  - destruct (Z.eqb_spec (value cell) EMPTY_CELL) as [Hv|Hv]; cbn [negb]; [tauto|].
    repeat gstep. rejected.
  - repeat gstep. rejected.
Qed.

(** Claim C1.  A Place request by the player whose slot is [current_turn],
    in a game in progress, with row and column in 0..8 and value in 1..9.
    If the cell is fixed or already filled, the response is an Error and
    the game state is unchanged.  If the value is the cell's solution, the
    cell holds the value and is attributed to the mover, [cells_remaining]
    is one less and the mover's score is 10 more.  Otherwise the grid and
    [cells_remaining] are unchanged and the mover's score is 5 less.  The
    bounds on the score and on [cells_remaining] keep the C arithmetic
    from overflowing. *)
Theorem place_resolution (pid : Z) (msg : GameMessage) (w : W) (p : Player) (cell : SudokuCell) :
  wf_world w →
  game_state (game w) = GAME_IN_PROGRESS →
  current_turn (game w) = pid →
  0 <= msg_row msg < GRID_SIZE → 0 <= msg_col msg < GRID_SIZE →
  1 <= msg_value msg <= 9 →
  arr_get (players (game w)) pid = Some p →
  grid_get (grid (game w)) (msg_row msg) (msg_col msg) = Some cell →
  INT_MIN + 5 <= score p <= INT_MAX - 10 →
  INT_MIN < cells_remaining (game w) <= INT_MAX →
  ∃ resp w',
    handle_MSG_PLACE pid msg w = Ok resp w'
    ∧ (is_fixed cell ≠ 0 ∨ value cell ≠ EMPTY_CELL →
         msg_type resp = MSG_ERROR ∧ game w' = game w)
    ∧ (is_fixed cell = 0 → value cell = EMPTY_CELL → msg_value msg = solution cell →
         grid_get (grid (game w')) (msg_row msg) (msg_col msg)
           = Some (mkCell (msg_value msg) (solution cell) 0 pid)
         ∧ cells_remaining (game w') = cells_remaining (game w) - 1
         ∧ score_of (game w') pid = Some (score p + 10))
    ∧ (is_fixed cell = 0 → value cell = EMPTY_CELL → msg_value msg ≠ solution cell →
         grid (game w') = grid (game w)
         ∧ cells_remaining (game w') = cells_remaining (game w)
         ∧ score_of (game w') pid = Some (score p - 5)).
Proof.
  intros Hwf Hip Hct Hrow Hcol Hval Hp Hcell Hscore Hcr.
  destruct (decide (is_fixed cell = 0 ∧ value cell = EMPTY_CELL)) as [[Hf Hv]|Hrej].
  - apply wp_run. unfold handle_MSG_PLACE. apply wp_bind.
    eapply wp_mono; [by eapply place_locked_valid|].
    intros [resp goes_on] w1 ((Hl1 & Hlog1 & _) & (Hlen1 & _) & Hct1 & _ & _ & Hres).
    cbn [fst snd]. apply wp_bind.
    assert (wp (if goes_on then advance_turn;; broadcast_turn_notification else ret ())
               (λ _ w', grid (game w') = grid (game w1)
                        ∧ cells_remaining (game w') = cells_remaining (game w1)
                        ∧ players (game w') = players (game w1)) w1) as Hrest.
    { destruct goes_on; [|by apply wp_ret].
      apply wp_bind. eapply wp_mono.
      { apply advance_turn_spec; try done. rewrite Hct1.
        apply arr_get_Some in Hp. destruct Hwf as ((Hlen & _) & _).
        rewrite Hlen in Hp. unfold MAX_PLAYERS. lia. }
      intros [] w2 (next & _ & Hg2 & Hl2 & _). cbv beta.
      eapply wp_mono.
      { apply broadcast_turn_notification_spec; [done|].
        rewrite Hg2. destruct (turn_passed_frame next (game w1)) as (_ & _ & -> & _). done. }
      intros [] w3 (Hg3 & _). cbv beta. rewrite Hg3, Hg2.
      destruct (turn_passed_frame next (game w1)) as (-> & -> & -> & _). done. }
    eapply wp_mono; [exact Hrest|]. intros [] w2 (Hgrid & Hcells & Hplayers).
    apply wp_ret. unfold score_of. rewrite Hgrid, Hcells, Hplayers.
    pose proof (arr_get_Some _ _ _ Hp) as Hpid.
    split; [tauto|]. split.
    + intros _ _ Hsol. apply Z.eqb_eq in Hsol. rewrite Hsol in Hres.
      destruct Hres as (-> & -> & ->). rewrite Hf, arr_get_set_eq by done.
      rewrite int_sub_exact by (unfold in_int; lia). split; [done|]. split; [done|].
      cbn. rewrite int_add_exact; [done|]. unfold in_int, POINTS_CORRECT. lia.
    + intros _ _ Hsol. apply Z.eqb_neq in Hsol. rewrite Hsol in Hres.
      destruct Hres as (-> & -> & ->). rewrite arr_get_set_eq by done.
      split; [done|]. split; [done|].
      cbn. rewrite int_add_exact; [done|]. unfold in_int, POINTS_WRONG. lia.
  - assert (is_fixed cell ≠ 0 ∨ value cell ≠ EMPTY_CELL) as Hrej'.
    { destruct (decide (is_fixed cell = 0)); [right|left]; tauto. }
    destruct Hwf as (_ & _ & _ & Hl).
    destruct (place_cell_taken pid msg w cell) as (resp & Hrun & Hty); [done..|].
    exists resp, (rejected_world w). split; [done|].
    split; [done|]. split; intros; tauto.
Qed.

(** *** Ledger updates *)

Lemma find_entry_range player_name es i :
  find_entry player_name es i = -1
  ∨ i <= find_entry player_name es i < i + Z.of_nat (length es).
Proof.
  revert i. induction es as [|e es IH]; intros i; [by left|].
  cbn [find_entry length]. destruct (String.eqb _ _); [right; lia|].
  destruct (IH (i + 1)) as [->|]; [by left|right; lia].
Qed.

Lemma save_scores_spec (w : W) :
  scores_lock (locks w) = 0 → wf_scores (scores w) →
  wp save_scores (λ _ w', ledger_only w w' ∧ scores w' = scores w) w.
Proof.
  intros Hs Hsc. destruct w as [g q sc f [gl ll sl] t rs]; wsimpl; subst.
  unfold save_scores. repeat gstep. unfold ledger_only. fin.
Qed.

Lemma update_player_stats_spec player_name is_winner correct wrong (w : W) :
  scores_lock (locks w) = 0 → wf_scores (scores w) →
  wp (update_player_stats player_name is_winner correct wrong) (λ _ w', ledger_only w w') w.
Proof.
  intros Hs [Hlen Hcnt]. destruct w as [g q [es n] f [gl ll sl] t rs].
  wsimpl; cbn [sc_entries sc_count] in *; subst. unfold MAX_SCORES in *.
  unfold update_player_stats. repeat gstep. cbn [sc_entries sc_count].
  pose proof (find_entry_range player_name (take (Z.to_nat n) es) 0) as Hfound.
  rewrite length_take in Hfound.
  set (found := find_entry _ _ _) in *.
  destruct (0 <=? found) eqn:H0.
  - apply Z.leb_le in H0. destruct Hfound as [?|Hfound]; [lia|].
    destruct (arr_get_is_Some es found) as [e He]; [lia|].
    repeat gstep. eapply wp_mono.
    { apply save_scores_spec; wsimpl; try done.
      split; cbn [sc_entries sc_count]; [by rewrite length_insert|unfold MAX_SCORES; lia]. }
    intros [] w' ((Hg & Hq & Hl & Hr & Hs) & _). unfold ledger_only. fin.
  - destruct (n <? MAX_SCORES) eqn:Hn.
    + apply Z.ltb_lt in Hn. unfold MAX_SCORES in Hn. repeat gstep. eapply wp_mono.
      { apply save_scores_spec; wsimpl; try done.
        split; cbn [sc_entries sc_count]; [by rewrite length_insert|].
        unfold MAX_SCORES. rewrite int_add_exact by (unfold in_int, INT_MIN, INT_MAX; lia). lia. }
      intros [] w' ((Hg & Hq & Hl & Hr & Hs) & _). unfold ledger_only. fin.
    + repeat gstep. eapply wp_mono.
      { apply save_scores_spec; wsimpl; try done. }
      intros [] w' ((Hg & Hq & Hl & Hr & Hs) & _). unfold ledger_only. fin.
Qed.

Lemma stats_loop_spec ps i winner (w : W) :
  scores_lock (locks w) = 0 → wf_scores (scores w) →
  wp (stats_loop ps i winner) (λ _ w', ledger_only w w') w.
Proof.
  revert i w. induction ps as [|p ps IH]; intros i w Hs Hsc.
  - apply wp_ret. unfold ledger_only. done.
  - cbn [stats_loop]. apply wp_bind.
    assert (wp (if is_active state p
                then update_player_stats (name p) (i =? winner)
                       (correct_placements p) (wrong_placements p)
                else ret ()) (λ _ w', ledger_only w w') w) as Hhead.
    { destruct (is_active state p); [by apply update_player_stats_spec|].
      apply wp_ret. unfold ledger_only. done. }
    eapply wp_mono; [exact Hhead|]. intros [] w1 (Hg & Hq & Hl & Hr & Hsc1).
    eapply wp_mono; [apply IH; [by rewrite Hl|done]|].
    intros [] w2 (Hg2 & Hq2 & Hl2 & Hr2 & Hsc2). unfold ledger_only.
    rewrite Hg2, Hq2, Hl2, Hr2. done.
Qed.

(** *** The scheduler *)

Lemma sched_turn_frame g :
  players (sched_turn g) = players g ∧ cells_remaining (sched_turn g) = cells_remaining g
  ∧ grid (sched_turn g) = grid g ∧ winner_id (sched_turn g) = winner_id g.
Proof.
  unfold sched_turn. destruct (_ && _); [|done].
  destruct (arr_get _ _); [|done]. destruct (is_active _ _); [done|].
  destruct (get_next_active_player _ _ _); [done|]. by destruct (0 <=? _).
Qed.

Lemma scheduler_iteration_spec (w : W) :
  wf_world w →
  wp scheduler_iteration
     (λ _ w',
        game w' = sched_game (game w) ∧ locks w' = free_locks
        ∧ wf_log (log_queue w') ∧ wf_scores (scores w')
        ∧ (snd (winner_loop (players (game w)) 0 (-1000) (-1)) < 0 →
             scores w' = scores w ∧ scores_file w' = scores_file w)) w.
Proof.
  intros ((Hlen & _) & Hlog & Hsc & Hl).
  destruct w as [g q sc f ls t rs]; wsimpl; subst ls.
  unfold scheduler_iteration, sched_game. repeat gstep.
  case_bool_decide as Hip; [|repeat gstep; fin].
  apply wp_bind.
  (* the turn check *)
  eapply wp_mono.
  { instantiate (1 := λ _ w', game w' = sched_turn g
                      ∧ locks w' = mkLocks 1 0 0 ∧ wf_log (log_queue w')
                      ∧ scores w' = sc ∧ scores_file w' = f).
    unfold sched_turn. destruct (_ && _) eqn:Hrange; [|repeat gstep; fin].
    apply andb_true_iff in Hrange as [H0%Z.leb_le H5%Z.ltb_lt].
    destruct (arr_get_is_Some (players g) (current_turn g)) as [cur Hcur].
    { rewrite Hlen. unfold MAX_PLAYERS in *. lia. }
    rewrite Hcur. repeat gstep. destruct (is_active state cur); cbn [negb]; [repeat gstep; fin|].
    destruct (get_next_active_player_range state (players g) (current_turn g))
      as (next & Hnext & Hcase); [done|lia|]. rewrite Hnext.
    repeat gstep. destruct (0 <=? next) eqn:Hn.
    - destruct Hcase as [->|(np & Hnp & _)]; [done|]. repeat gstep. fin.
    - repeat gstep. fin. }
  intros [] w1 (Hg1 & Hl1 & Hlog1 & Hsc1 & Hf1).
  destruct w1 as [g1 q1 sc1 f1 ls1 t1 rs1]; wsimpl; subst.
  destruct (sched_turn_frame g) as (Hps & Hcr & _).
  unfold sched_complete. repeat gstep. destruct (_ <=? 0) eqn:Hover; [|repeat gstep; fin].
  rewrite Hps.
  destruct (winner_loop (players g) 0 (-1000) (-1)) as [max_score winner] eqn:Hw.
  pose proof (winner_loop_range (players g) 0 (-1000) (-1)) as Hrange.
  rewrite Hw in Hrange. cbn [snd] in *. repeat gstep.
  destruct (0 <=? winner) eqn:Hw0; [|repeat gstep; fin].
  apply Z.leb_le in Hw0.
  destruct (arr_get_is_Some (players g) winner) as [best Hbest]; [lia|].
  rewrite <- Hps in Hbest. repeat gstep.
  eapply wp_mono; [apply stats_loop_spec; wsimpl; done|].
  intros [] w2 (Hg2 & Hq2 & Hl2 & Hr2 & Hsc2). repeat gstep. wsimpl.
  rewrite Hg2, Hq2, Hl2. fin.
Qed.

(** Claim C10.  The winner loop starts from a best score of -1000 and
    keeps strictly greater scores only.  When every Active player's score
    is at most -1000 it ends with winner -1, whoever is Active; then the
    scheduler's completion path sets [winner_id] to -1 and leaves the
    ledger and its file as they are, and a handler that completes the
    puzzle sets [winner_id] to -1 as well. *)
Theorem winner_floor :
  (∀ ps : list Player,
      Forall (λ p, state p = PLAYER_ACTIVE → score p <= -1000) ps →
      winner_loop ps 0 (-1000) (-1) = (-1000, -1))
  ∧ (∀ w : W,
      wf_world w →
      game_state (game w) = GAME_IN_PROGRESS →
      cells_remaining (game w) <= 0 →
      Forall (λ p, state p = PLAYER_ACTIVE → score p <= -1000) (players (game w)) →
      ∃ w', scheduler_iteration w = Ok tt w'
            ∧ game_state (game w') = GAME_FINISHED
            ∧ winner_id (game w') = -1
            ∧ scores w' = scores w ∧ scores_file w' = scores_file w)
  ∧ (∀ (w : W) pid msg p cell,
      wf_world w →
      game_state (game w) = GAME_IN_PROGRESS →
      current_turn (game w) = pid →
      0 <= msg_row msg < GRID_SIZE → 0 <= msg_col msg < GRID_SIZE →
      1 <= msg_value msg <= 9 →
      arr_get (players (game w)) pid = Some p →
      grid_get (grid (game w)) (msg_row msg) (msg_col msg) = Some cell →
      is_fixed cell = 0 → value cell = EMPTY_CELL → msg_value msg = solution cell →
      cells_remaining (game w) = 1 →
      Forall (λ p, state p = PLAYER_ACTIVE → score p <= -1000) (players (game w)) →
      INT_MIN <= score p → score p + POINTS_CORRECT <= -1000 →
      ∃ resp w', handle_MSG_PLACE pid msg w = Ok resp w'
                 ∧ game_state (game w') = GAME_FINISHED
                 ∧ winner_id (game w') = -1
                 ∧ scores w' = scores w).
Proof.
  split; [intros ps; apply winner_loop_none|]. split.
  - intros w Hwf Hip Hcr Hall. apply wp_run_tt.
    eapply wp_mono; [by apply scheduler_iteration_spec|].
    intros [] w' (Hg & _ & _ & _ & Hledger). cbv beta.
    rewrite (winner_loop_none _ 0 Hall) in Hledger. cbn [snd] in Hledger.
    destruct Hledger as [-> ->]; [lia|].
    rewrite Hg. unfold sched_game. rewrite bool_decide_eq_true_2 by done.
    unfold sched_complete. destruct (sched_turn_frame (game w)) as (-> & -> & _).
    destruct (Z.leb_spec (cells_remaining (game w)) 0); [|lia].
    rewrite (winner_loop_none _ 0 Hall). done.
  - intros w pid msg p cell Hwf Hip Hct Hrow Hcol Hval Hp Hcell Hf Hv Hsol Hcr Hall Hmin Hlow.
    apply wp_run. unfold handle_MSG_PLACE. apply wp_bind.
    eapply wp_mono; [by eapply place_locked_valid|].
    intros [resp goes_on] w1 ((_ & _ & Hsc1 & _) & _ & _ & Hgo & Hfin & Hres).
    cbn [fst snd] in *. apply Z.eqb_eq in Hsol. rewrite Hsol in Hres.
    destruct Hres as (_ & Hcr1 & Hps1). rewrite Hcr in Hcr1. change (int_sub 1 1) with 0 in Hcr1.
    destruct Hgo as [_ Hgo]. rewrite Hgo in * by lia.
    destruct Hfin as [Hst Hwin]; [done|]. apply wp_bind, wp_ret, wp_ret.
    split; [done|]. split; [|done]. rewrite Hwin, Hps1.
    rewrite winner_loop_none; [done|]. apply Forall_insert; [done|].
    intros _. cbn. rewrite int_add_exact; [done|].
    unfold in_int, INT_MIN, INT_MAX, POINTS_CORRECT in *. lia.
Qed.

(** *** Joining *)

Section Join.
Variable generate_full_grid : list Z → (Z → Z → Z) * list Z.

End Join.
End SudokuFacts.

(** ** The dice server *)

Module DiceFacts.
Import Dice.

Ltac gsimpl :=
  cbn [game_state num_players current_turn winner_id players
       game_reset_requested server_shutdown
       set_game_state set_num_players set_current_turn set_winner_id set_players
       id name score state handler_pid set_name set_score set_state
       entry_name wins
       msg_type msg_text msg_value msg_player_id msg_player_name
       sc_entries sc_count] in *.

Ltac gstep :=
  lazymatch goal with
  | |- wp (update_game _) _ _ => unfold update_game
  | |- wp (read_player _) _ _ => unfold read_player
  | |- wp (update_player _ _) _ _ => unfold update_player
  | |- wp (lift_opt _) _ _ => eapply wp_lift_opt; [wsimpl; gsimpl; arr_side|]
  | |- wp rand _ _ => eapply wp_rand; [wsimpl; eassumption || reflexivity|]
  | |- _ => wstep
  end; gsimpl.

Ltac fin :=
  wsimpl; gsimpl; split_and!;
  rewrite ?length_insert, ?arr_get_set_eq by lia;
  eauto using wf_log_push; try done; try lia.

Ltac rejected :=
  unfold rejected_world; wsimpl; gsimpl; rewrite <- ?app_assoc; done.

Lemma roll_not_in_progress pid (w : W) :
  locks w = free_locks →
  game_state (game w) ≠ GAME_IN_PROGRESS →
  ∃ resp, handle_MSG_ROLL pid w = Ok resp (rejected_world w)
          ∧ msg_type resp = MSG_ERROR
          ∧ msg_text resp = ("Game not in progress", [])%string.
Proof.
  intros Hl Hip. destruct w as [g q sc f ls t rs]; wsimpl; subst ls.
  apply wp_run_to. unfold handle_MSG_ROLL. repeat gstep.
  rewrite bool_decide_eq_false_2 by done. cbn [negb]. repeat gstep. rejected.
Qed.

Lemma roll_not_your_turn pid (w : W) :
  locks w = free_locks →
  length (players (game w)) = 5%nat →
  game_state (game w) = GAME_IN_PROGRESS →
  0 <= current_turn (game w) < MAX_PLAYERS →
  current_turn (game w) ≠ pid →
  ∃ resp, handle_MSG_ROLL pid w = Ok resp (rejected_world w)
          ∧ msg_type resp = MSG_WAIT.
Proof.
  intros Hl Hlen Hip Hrange Hct. destruct w as [g q sc f ls t rs]; wsimpl; subst ls.
  destruct (arr_get_is_Some (players g) (current_turn g)) as [cur Hcur].
  { rewrite Hlen. unfold MAX_PLAYERS in *. lia. }
  apply wp_run_to. unfold handle_MSG_ROLL. repeat gstep.
  rewrite Hip, bool_decide_eq_true_2 by done. cbn [negb].
  destruct (Z.eqb_spec (current_turn g) pid); [done|]. cbn [negb].
  repeat gstep. rejected.
Qed.

Lemma dice_advance_turn_spec (w : W) :
  locks w = free_locks → wf_log (log_queue w) → wf_scores (scores w) →
  length (players (game w)) = 5%nat →
  -1 <= current_turn (game w) < MAX_PLAYERS →
  wp advance_turn
     (λ _ w', ∃ next,
          get_next_active_player state (players (game w)) (current_turn (game w)) = inr next
          ∧ game w' = turn_passed next (game w) ∧ quiet w w') w.
Proof.
  intros Hl Hlog Hsc Hlen Hct. destruct w as [g q sc f ls t rs]; wsimpl; subst ls.
  destruct (get_next_active_player_range state (players g) (current_turn g))
    as (next & Hnext & Hcase); [done..|].
  unfold advance_turn. repeat gstep. unfold turn_passed.
  destruct (0 <=? next) eqn:Hn.
  - destruct Hcase as [->|(np & Hnp & _)]; [done|].
    repeat gstep. exists next. rewrite Hn. unfold quiet. fin.
  - repeat gstep. exists next. rewrite Hn. unfold quiet. fin.
Qed.

Lemma dice_find_entry_range player_name es i :
  find_entry player_name es i = -1
  ∨ i <= find_entry player_name es i < i + Z.of_nat (length es).
Proof.
  revert i. induction es as [|e es IH]; intros i; [by left|].
  cbn [find_entry length]. destruct (String.eqb _ _); [right; lia|].
  destruct (IH (i + 1)) as [->|]; [by left|right; lia].
Qed.

Lemma dice_save_scores_spec (w : W) :
  scores_lock (locks w) = 0 → log_lock (locks w) = 0 →
  wf_log (log_queue w) → wf_scores (scores w) →
  wp save_scores (λ _ w', game w' = game w ∧ scores w' = scores w ∧ quiet w w') w.
Proof.
  intros Hs Hlg Hlog Hsc. destruct w as [g q sc f [gl ll sl] t rs]; wsimpl; subst.
  unfold save_scores. repeat gstep. unfold quiet. fin.
Qed.

Lemma update_score_spec player_name (w : W) :
  scores_lock (locks w) = 0 → log_lock (locks w) = 0 →
  wf_log (log_queue w) → wf_scores (scores w) →
  wp (update_score player_name) (λ _ w', game w' = game w ∧ quiet w w') w.
Proof.
  intros Hs Hlg Hlog [Hlen Hcnt]. destruct w as [g q [es n] f [gl ll sl] t rs].
  wsimpl; gsimpl; subst. unfold MAX_SCORES in *.
  unfold update_score. repeat gstep.
  pose proof (dice_find_entry_range player_name (take (Z.to_nat n) es) 0) as Hfound.
  rewrite length_take in Hfound.
  set (found := find_entry _ _ _) in *.
  destruct (0 <=? found) eqn:H0.
  - apply Z.leb_le in H0. destruct Hfound as [?|Hfound]; [lia|].
    destruct (arr_get_is_Some es found) as [e He]; [lia|].
    repeat gstep. eapply wp_mono.
    { apply dice_save_scores_spec; wsimpl; gsimpl; try done.
      split; gsimpl; [by rewrite length_insert|unfold MAX_SCORES; lia]. }
    intros [] w' (Hg & _ & Hl & Hq & Hs & Hr). unfold quiet. fin.
  - destruct (n <? MAX_SCORES) eqn:Hn.
    + apply Z.ltb_lt in Hn. unfold MAX_SCORES in Hn. repeat gstep. eapply wp_mono.
      { apply dice_save_scores_spec; wsimpl; gsimpl; try done.
        split; gsimpl; [by rewrite length_insert|].
        unfold MAX_SCORES. rewrite int_add_exact by (unfold in_int, INT_MIN, INT_MAX; lia). lia. }
      intros [] w' (Hg & _ & Hl & Hq & Hs & Hr). unfold quiet. fin.
    + repeat gstep. eapply wp_mono.
      { apply dice_save_scores_spec; wsimpl; gsimpl; try done. }
      intros [] w' (Hg & _ & Hl & Hq & Hs & Hr). unfold quiet. fin.
Qed.

Lemma die_exact r : 0 <= r → int_add (Z.rem r 6) 1 = Z.rem r 6 + 1 ∧ 1 <= Z.rem r 6 + 1 <= 6.
Proof.
  intros Hr. pose proof (Z.rem_bound_pos r 6). split; [|lia].
  apply int_add_exact. unfold in_int, INT_MIN, INT_MAX. lia.
Qed.

Lemma dice_turn_passed_frame next g :
  players (turn_passed next g) = players g
  ∧ game_state (turn_passed next g) = game_state g
  ∧ winner_id (turn_passed next g) = winner_id g
  ∧ num_players (turn_passed next g) = num_players g.
Proof. unfold turn_passed. by destruct (0 <=? next). Qed.

(** Claim C2.  A Roll request by the player whose slot is [current_turn],
    in a game in progress; [r1] and [r2] are the two values [rand()]
    returns, so the dice are [r1 % 6 + 1] and [r2 % 6 + 1].  Two ones set
    the mover's score to 0 whatever it was; any other pair adds the sum of
    the dice; and a resulting score of [WINNING_SCORE] or more ends the
    game with the mover as winner.  The bound on the score keeps the C
    addition from overflowing. *)
Theorem roll_resolution (pid : Z) (w : W) (p : Player) (r1 r2 : Z) (rest : list Z) :
  wf_world w →
  game_state (game w) = GAME_IN_PROGRESS →
  current_turn (game w) = pid →
  arr_get (players (game w)) pid = Some p →
  rand_stream w = r1 :: r2 :: rest → 0 <= r1 → 0 <= r2 →
  INT_MIN <= score p <= INT_MAX - 12 →
  let a := Z.rem r1 6 + 1 in
  let b := Z.rem r2 6 + 1 in
  ∃ resp w',
    handle_MSG_ROLL pid w = Ok resp w'
    ∧ (a = 1 ∧ b = 1 → score_of (game w') pid = Some 0)
    ∧ (¬ (a = 1 ∧ b = 1) → score_of (game w') pid = Some (score p + (a + b)))
    ∧ (∀ s, score_of (game w') pid = Some s → WINNING_SCORE <= s →
         game_state (game w') = GAME_FINISHED ∧ winner_id (game w') = pid).
Proof.
  intros (Hlen & Hlog & Hsc & Hl) Hip Hct Hp Hrand Hr1 Hr2 Hscore a b.
  destruct w as [g q sc f ls t rs]; wsimpl; subst ls rs. unfold wf_game in Hlen.
  pose proof (arr_get_Some _ _ _ Hp) as Hpid.
  destruct (die_exact r1 Hr1) as [Ha Ha'], (die_exact r2 Hr2) as [Hb Hb'].
  assert (1 <= a <= 6 ∧ 1 <= b <= 6) as [Ha6 Hb6] by done.
  change (Z.rem r1 6 + 1) with a in Ha. change (Z.rem r2 6 + 1) with b in Hb.
  clearbody a b.
  unfold INT_MIN, INT_MAX in Hscore.
  apply wp_run. unfold handle_MSG_ROLL. repeat gstep.
  rewrite Hip, bool_decide_eq_true_2 by done. cbn [negb].
  rewrite Hct, Z.eqb_refl. cbn [negb]. repeat gstep.
  rewrite Ha, Hb. rewrite (int_add_exact a b) by (unfold in_int, INT_MIN, INT_MAX; lia).
  destruct ((a =? 1) && (b =? 1)) eqn:Hsnake.
  - apply andb_true_iff in Hsnake as [Ha1%Z.eqb_eq Hb1%Z.eqb_eq].
    repeat gstep. cbn [Z.geb Z.compare WINNING_SCORE]. repeat gstep.
    eapply wp_mono.
    { apply dice_advance_turn_spec; wsimpl; gsimpl; rewrite ?length_insert;
        eauto using wf_log_push. unfold MAX_PLAYERS. lia. }
    intros [] w' (next & _ & Hg' & _). repeat gstep. rewrite Hg'.
    destruct (dice_turn_passed_frame next
                (set_players (<[Z.to_nat pid:=set_score 0 p]> (players g)) g))
      as (Hps & Hgs & Hwin & _).
    unfold score_of. rewrite Hps. gsimpl. rewrite arr_get_set_eq by lia. cbn.
    split_and!; [done|tauto|]. intros s [= <-] Hs. unfold WINNING_SCORE in Hs. lia.
  - assert (¬ (a = 1 ∧ b = 1)) as Hns.
    { intros [-> ->]. done. }
    repeat gstep.
    rewrite (int_add_exact (score p)) by (unfold in_int, INT_MIN, INT_MAX; lia).
    destruct (score p + (a + b) >=? WINNING_SCORE) eqn:Hwin.
    + rewrite Z.geb_leb in Hwin. apply Z.leb_le in Hwin. repeat gstep.
      eapply wp_mono.
      { apply update_score_spec; wsimpl; gsimpl; eauto using wf_log_push. }
      intros [] w' (Hg' & Hl' & _). repeat gstep. wsimpl. rewrite Hg'. gsimpl.
      unfold score_of. gsimpl. rewrite arr_get_set_eq by lia. cbn.
      split_and!; [tauto|done|done].
    + rewrite Z.geb_leb in Hwin. apply Z.leb_gt in Hwin. repeat gstep.
      eapply wp_mono.
      { apply dice_advance_turn_spec; wsimpl; gsimpl; rewrite ?length_insert;
          eauto using wf_log_push. unfold MAX_PLAYERS. lia. }
      intros [] w' (next & _ & Hg' & _). repeat gstep. rewrite Hg'.
      destruct (dice_turn_passed_frame next
                  (set_players (<[Z.to_nat pid:=set_score (score p + (a + b)) p]> (players g)) g))
        as (Hps & Hgs & Hwin' & _).
      unfold score_of. rewrite Hps. gsimpl. rewrite arr_get_set_eq by lia. cbn.
      split_and!; [tauto|done|]. intros s [= <-] Hs. lia.
Qed.

(** *** Joining *)

End DiceFacts.

(** ** Claims about both servers *)

(** Claim C9.  When exactly one slot is Active, [get_next_active_player]
    returns that slot from every starting value from -1 on, its own
    included; so
    [advance_turn] after a move by that player leaves [current_turn] on the
    mover and still increments [turn_signal] (as a C [int]). *)
Theorem sole_active_keeps_turn (w : Sudoku.W) (pid : Z) :
  Sudoku.wf_world w →
  (∀ i, Sudoku.state_at (game w) i = Some PLAYER_ACTIVE ↔ i = pid) →
  (∀ c, -1 <= c < INT_MAX →
        get_next_active_player Sudoku.state (Sudoku.players (game w)) c = inr pid)
  ∧ (Sudoku.current_turn (game w) = pid →
     ∃ w', Sudoku.advance_turn w = Ok tt w'
           ∧ Sudoku.current_turn (game w') = pid
           ∧ Sudoku.turn_signal (game w') = int_add (Sudoku.turn_signal (game w)) 1).
Proof.
  intros Hwf Hone.
  assert (∀ i, (∃ p, arr_get (Sudoku.players (game w)) i = Some p
                     ∧ Sudoku.state p = PLAYER_ACTIVE) ↔ i = pid) as Hone'.
  { intros i. rewrite <- Hone. unfold Sudoku.state_at.
    destruct (arr_get _ i) as [p|]; cbn; [|split; [intros (? & [=] & _)|done]].
    split; [intros (p0 & [= <-] & Hs); by rewrite Hs|intros [= Hs]; eauto]. }
  destruct Hwf as ((Hlen & _) & Hlog & _ & Hl).
  assert (0 <= pid < MAX_PLAYERS) as Hpid.
  { destruct (proj2 (Hone' pid) eq_refl) as (p & Hp%arr_get_Some & _).
    rewrite Hlen in Hp. unfold MAX_PLAYERS. lia. }
  split; [intros c Hc; by apply sole_active_next|].
  intros Hct. apply wp_run_tt.
  eapply wp_mono; [apply SudokuFacts.advance_turn_spec; try done; lia|].
  intros [] w' (next & Hnext & Hg & _). cbv beta.
  rewrite (sole_active_next _ _ pid) in Hnext by (done || unfold MAX_PLAYERS, INT_MAX in *; lia).
  injection Hnext as <-.
  rewrite Hg. unfold Sudoku.turn_passed.
  destruct (Z.leb_spec 0 pid); [done|lia].
Qed.

(** Claim C3, evaluated where Alice fills the last cell with the scores at
    20, 10 and 0.  The handler and the scheduler leave the same game state,
    Finished with Alice as winner.  The scheduler also records the three
    Active players in the ledger and its file; the handler records nobody,
    and a scheduler round after the handler has finished the game records
    nobody either. *)
Theorem handler_finalization_skips_ledger :
  ∃ resp w1 w2,
    Sudoku.handle_MSG_PLACE 0 (Examples.Sudoku.place_msg 0 0 1)
      (Examples.Sudoku.last_cell_world 20 10 0) = Ok resp w1
    ∧ Sudoku.scheduler_iteration Examples.Sudoku.completed_world = Ok tt w2
    ∧ game w1 = game w2
    ∧ Sudoku.game_state (game w1) = GAME_FINISHED
    ∧ Sudoku.winner_id (game w1) = 0
    ∧ scores w1 = Examples.Sudoku.blank_scores
    ∧ scores_file w1 = []
    ∧ sc_count (scores w2) = 3
    ∧ scores_file w2 = [Sudoku.mkScore "Alice" 1 3 0; Sudoku.mkScore "Bob" 0 1 0;
                        Sudoku.mkScore "Carol" 0 0 0]
    ∧ ∃ w3, Sudoku.scheduler_iteration w1 = Ok tt w3
            ∧ scores w3 = Examples.Sudoku.blank_scores ∧ scores_file w3 = [].
Proof.
  eexists _, _, _. split; [vm_compute; reflexivity|].
  split; [vm_compute; reflexivity|].
  do 7 (split; [vm_compute; reflexivity|]).
  eexists. split; [vm_compute; reflexivity|]. split; vm_compute; reflexivity.
Qed.

(** Claim C6.  A move sent while the game is not in progress gets an Error
    response ("Game not in progress"), and a move sent by a slot other than
    [current_turn] gets a Wait response; in both cases the game state, the
    log queue, the ledger and the lock words are as before.  This holds for
    Place in the Sudoku server and for Roll in the dice server.  In a game
    in progress [current_turn] is a slot index, which the Wait response
    reads the name of. *)
Theorem move_out_of_order_rejected :
  (∀ pid msg (w : Sudoku.W),
      Sudoku.wf_world w →
      (Sudoku.game_state (game w) ≠ GAME_IN_PROGRESS →
       ∃ resp w', Sudoku.handle_MSG_PLACE pid msg w = Ok resp w'
                  ∧ Sudoku.msg_type resp = Sudoku.MSG_ERROR
                  ∧ Sudoku.msg_text resp = ("Game not in progress", [])%string
                  ∧ game w' = game w ∧ log_queue w' = log_queue w
                  ∧ scores w' = scores w ∧ locks w' = locks w)
      ∧ (Sudoku.game_state (game w) = GAME_IN_PROGRESS →
         0 <= Sudoku.current_turn (game w) < MAX_PLAYERS →
         Sudoku.current_turn (game w) ≠ pid →
         ∃ resp w', Sudoku.handle_MSG_PLACE pid msg w = Ok resp w'
                    ∧ Sudoku.msg_type resp = Sudoku.MSG_WAIT
                    ∧ game w' = game w ∧ log_queue w' = log_queue w
                    ∧ scores w' = scores w ∧ locks w' = locks w))
  ∧ (∀ pid (w : Dice.W),
      Dice.wf_world w →
      (Dice.game_state (game w) ≠ GAME_IN_PROGRESS →
       ∃ resp w', Dice.handle_MSG_ROLL pid w = Ok resp w'
                  ∧ Dice.msg_type resp = Dice.MSG_ERROR
                  ∧ Dice.msg_text resp = ("Game not in progress", [])%string
                  ∧ game w' = game w ∧ log_queue w' = log_queue w
                  ∧ scores w' = scores w ∧ locks w' = locks w)
      ∧ (Dice.game_state (game w) = GAME_IN_PROGRESS →
         0 <= Dice.current_turn (game w) < MAX_PLAYERS →
         Dice.current_turn (game w) ≠ pid →
         ∃ resp w', Dice.handle_MSG_ROLL pid w = Ok resp w'
                    ∧ Dice.msg_type resp = Dice.MSG_WAIT
                    ∧ game w' = game w ∧ log_queue w' = log_queue w
                    ∧ scores w' = scores w ∧ locks w' = locks w)).
Proof.
  split.
  - intros pid msg w ((Hlen & _) & _ & _ & Hl). split.
    + intros Hip. destruct (SudokuFacts.place_not_in_progress pid msg w Hl Hip)
        as (resp & Hrun & Hty & Htx).
      exists resp, (Sudoku.rejected_world w). by destruct w.
    + intros Hip Hr Hct.
      destruct (SudokuFacts.place_not_your_turn pid msg w Hl Hlen Hip Hr Hct)
        as (resp & Hrun & Hty).
      exists resp, (Sudoku.rejected_world w). by destruct w.
  - intros pid w (Hlen & _ & _ & Hl). split.
    + intros Hip. destruct (DiceFacts.roll_not_in_progress pid w Hl Hip)
        as (resp & Hrun & Hty & Htx).
      exists resp, (Dice.rejected_world w). by destruct w.
    + intros Hip Hr Hct.
      destruct (DiceFacts.roll_not_your_turn pid w Hl Hlen Hip Hr Hct)
        as (resp & Hrun & Hty).
      exists resp, (Dice.rejected_world w). by destruct w.
Qed.

(** ** Lock discipline *)

Lemma follows_order_app h t1 t2 :
  follows_order h (t1 ++ t2)
  = match follows_order h t1 with
    | Some h1 => follows_order h1 t2
    | None => None
    end.
Proof.
  revert h. induction t1 as [|[l|l] t1 IH]; intros h; cbn [app follows_order]; [done|..].
  - destruct (may_acquire h l); [apply IH|done].
  - destruct h as [|l' h]; [done|]. case_decide; [apply IH|done].
Qed.

Lemma follows_order_bound h t h' :
  ordered h → follows_order h t = Some h' →
  ordered h' ∧ (max_held h t <= 2)%nat ∧ held_after h t = h'.
Proof.
  revert h. induction t as [|[l|l] t IH]; intros h Hord; cbn [follows_order max_held held_after].
  - intros [= <-]. split; [done|]. split; [|done].
    destruct Hord as [->|[[l ->]| ->]]; cbn; lia.
  - destruct (may_acquire h l) eqn:Hm; [|done]. intros Ht.
    assert (ordered (l :: h) ∧ (length h <= 2)%nat) as [Hord' Hlen].
    { destruct Hord as [->|[[l0 ->]| ->]]; cbn in Hm |- *.
      - split; [right; left; eauto|lia].
      - destruct l0, l; try done; (split; [|lia]); unfold ordered; auto.
      - done. }
    destruct (IH _ Hord' Ht) as (? & ? & ?). split; [done|]. split; [lia|done].
  - destruct h as [|l' h]; [done|]. case_decide as Heq; [subst l'|done]. intros Ht.
    assert (remove Lock_eq_dec l (l :: h) = h ∧ ordered h ∧ (length (l :: h) <= 2)%nat)
      as (Hrem & Hord' & Hlen).
    { destruct Hord as [[=]|[[l0 [= <- ->]]|[= -> ->]]];
        (split; [cbn; try destruct (Lock_eq_dec l l); done|]);
        (split; [|cbn; lia]); unfold ordered; eauto. }
    rewrite Hrem. destruct (IH _ Hord' Ht) as (? & ? & ?). split; [done|]. split; [lia|done].
Qed.

(** At every point of a trace that follows the order, the locks held are
    none, one, or the log lock on top of the game lock. *)
Lemma follows_order_prefix t t1 t2 :
  follows_order [] t = Some [] → t = t1 ++ t2 → ordered (held_after [] t1).
Proof.
  intros Ho ->. rewrite follows_order_app in Ho.
  destruct (follows_order [] t1) as [h1|] eqn:Ho1; [|done].
  destruct (follows_order_bound [] t1 h1 (or_introl eq_refl) Ho1) as (Hord & _ & ->). done.
Qed.

Lemma follows_order_round t :
  follows_order [] t = Some [] →
  (max_held [] t <= 2)%nat ∧ ∀ t1 t2, t = t1 ++ t2 → ordered (held_after [] t1).
Proof.
  intros Ho. split.
  - by destruct (follows_order_bound [] t [] (or_introl eq_refl) Ho) as (_ & ? & _).
  - intros t1 t2. by apply follows_order_prefix.
Qed.

Section LockRules.
Context {G E : Type}.

Lemma ls_ret {A} h (a : A) : lock_safe (G:=G) (E:=E) h h (ret a).
Proof. intros w a' w' [= <- <-]. exists []. by rewrite app_nil_r. Qed.

Lemma ls_bind {A B} h h1 h2 (m : M (World G E) A) (k : A → M (World G E) B) :
  lock_safe h h1 m → (∀ a, lock_safe h1 h2 (k a)) → lock_safe h h2 (bind m k).
Proof.
  intros Hm Hk w b w'. unfold bind. destruct (m w) as [a w1|] eqn:Hrun; [|done].
  intros Hrun2. destruct (Hm _ _ _ Hrun) as (t1 & Ht1 & Ho1).
  destruct (Hk a _ _ _ Hrun2) as (t2 & Ht2 & Ho2).
  exists (t1 ++ t2). rewrite Ht2, Ht1, app_assoc. split; [done|].
  by rewrite follows_order_app, Ho1.
Qed.

Lemma ls_if {A} h h' (b : bool) (m1 m2 : M (World G E) A) :
  lock_safe h h' m1 → lock_safe h h' m2 → lock_safe h h' (if b then m1 else m2).
Proof. by destruct b. Qed.

Lemma ls_pure {A} h (m : M (World G E) A) :
  (∀ w a w', m w = Ok a w' → lock_trace w' = lock_trace w) → lock_safe h h m.
Proof. intros Hm w a w' Hrun. exists []. by rewrite app_nil_r, (Hm _ _ _ Hrun). Qed.

Lemma ls_read_game h : lock_safe (G:=G) (E:=E) h h read_game.
Proof. apply ls_pure. by intros w a w' [= <- <-]. Qed.

Lemma ls_write_game h g : lock_safe (G:=G) (E:=E) h h (write_game g).
Proof. apply ls_pure. by intros w a w' [= <- <-]. Qed.

Lemma ls_read_scores h : lock_safe (G:=G) (E:=E) h h read_scores.
Proof. apply ls_pure. by intros w a w' [= <- <-]. Qed.

Lemma ls_write_scores h s : lock_safe (G:=G) (E:=E) h h (write_scores s).
Proof. apply ls_pure. by intros w a w' [= <- <-]. Qed.

Lemma ls_read_log h : lock_safe (G:=G) (E:=E) h h read_log.
Proof. apply ls_pure. by intros w a w' [= <- <-]. Qed.

Lemma ls_write_log h q : lock_safe (G:=G) (E:=E) h h (write_log q).
Proof. apply ls_pure. by intros w a w' [= <- <-]. Qed.

Lemma ls_get h : lock_safe (G:=G) (E:=E) h h get.
Proof. apply ls_pure. by intros w a w' [= <- <-]. Qed.

Lemma ls_set_rand h rs : lock_safe (G:=G) (E:=E) h h (modify (with_rand_stream rs)).
Proof. apply ls_pure. by intros w a w' [= <- <-]. Qed.

Lemma ls_set_file h f : lock_safe (G:=G) (E:=E) h h (modify (with_scores_file f)).
Proof. apply ls_pure. by intros w a w' [= <- <-]. Qed.

Lemma ls_rand h : lock_safe (G:=G) (E:=E) h h rand.
Proof.
  apply ls_pure. intros w a w'. unfold rand. destruct (rand_stream w); [done|].
  by intros [= <- <-].
Qed.

Lemma ls_lift_opt {A} h (o : option A) : lock_safe (G:=G) (E:=E) h h (lift_opt o).
Proof. apply ls_pure. destruct o; [|done]. by intros w a' w' [= <- <-]. Qed.

Lemma ls_lift {A} h (r : Fault + A) : lock_safe (G:=G) (E:=E) h h (lift r).
Proof. apply ls_pure. destruct r; [done|]. by intros w a' w' [= <- <-]. Qed.

Lemma ls_spin_lock h l :
  may_acquire h l = true → lock_safe (G:=G) (E:=E) h (l :: h) (spin_lock l).
Proof.
  intros Hm w a w'. unfold spin_lock. destruct (_ =? 0); [|done].
  intros [= <- <-]. exists [Acquire l]. split; [done|]. cbn. by rewrite Hm.
Qed.

Lemma ls_spin_unlock h l : lock_safe (G:=G) (E:=E) (l :: h) h (spin_unlock l).
Proof.
  intros w a w' [= <- <-]. exists [Release l]. split; [done|]. cbn. by case_decide.
Qed.
End LockRules.

Section AddsRules.
Context {G E : Type}.

Lemma la_bind {A B} t1 t2 (m : M (World G E) A) (k : A → M (World G E) B) :
  lock_adds t1 m → (∀ a, lock_adds t2 (k a)) → lock_adds (t1 ++ t2) (bind m k).
Proof.
  intros Hm Hk w b w'. unfold bind. destruct (m w) as [a w1|] eqn:Hrun; [|done].
  intros Hrun2. by rewrite (Hk a _ _ _ Hrun2), (Hm _ _ _ Hrun), app_assoc.
Qed.

Lemma la_bind_pure {A B} t (m : M (World G E) A) (k : A → M (World G E) B) :
  lock_adds [] m → (∀ a, lock_adds t (k a)) → lock_adds t (bind m k).
Proof. apply (la_bind [] t). Qed.

Lemma la_ret {A} (a : A) : lock_adds (G:=G) (E:=E) [] (ret a).
Proof. intros w a' w' [= <- <-]. by rewrite app_nil_r. Qed.

Lemma la_if {A} t (b : bool) (m1 m2 : M (World G E) A) :
  lock_adds t m1 → lock_adds t m2 → lock_adds t (if b then m1 else m2).
Proof. by destruct b. Qed.

Lemma la_read_log : lock_adds (G:=G) (E:=E) [] read_log.
Proof. intros w a w' [= <- <-]. by rewrite app_nil_r. Qed.

Lemma la_write_log q : lock_adds (G:=G) (E:=E) [] (write_log q).
Proof. intros w a w' [= <- <-]. by rewrite app_nil_r. Qed.

Lemma la_read_scores : lock_adds (G:=G) (E:=E) [] read_scores.
Proof. intros w a w' [= <- <-]. by rewrite app_nil_r. Qed.

Lemma la_set_file f : lock_adds (G:=G) (E:=E) [] (modify (with_scores_file f)).
Proof. intros w a w' [= <- <-]. by rewrite app_nil_r. Qed.

Lemma la_lift_opt {A} (o : option A) : lock_adds (G:=G) (E:=E) [] (lift_opt o).
Proof. destruct o; [|done]. intros w a' w' [= <- <-]. by rewrite app_nil_r. Qed.

Lemma la_fail {A} f : lock_adds (G:=G) (E:=E) (A:=A) [] (fail f).
Proof. by intros w a w'. Qed.

Lemma la_spin_lock l : lock_adds (G:=G) (E:=E) [Acquire l] (spin_lock l).
Proof. intros w a w'. unfold spin_lock. destruct (_ =? 0); [|done]. by intros [= <- <-]. Qed.

Lemma la_spin_unlock l : lock_adds (G:=G) (E:=E) [Release l] (spin_unlock l).
Proof. by intros w a w' [= <- <-]. Qed.

Lemma la_logger_loop fuel : lock_adds (G:=G) (E:=E) [] (logger_loop fuel).
Proof.
  induction fuel as [|fuel IH]; cbn [logger_loop].
  - apply la_bind_pure; [apply la_read_log|intros q].
    apply la_if; [apply la_fail|apply la_ret].
  - apply la_bind_pure; [apply la_read_log|intros q].
    apply la_if; [|apply la_ret].
    apply la_bind_pure; [apply la_lift_opt|intros ?].
    apply la_bind_pure; [apply la_write_log|intros ?].
    apply la_bind_pure; [apply IH|intros ?]. apply la_ret.
Qed.

Lemma la_enqueue_log fmt args :
  lock_adds (G:=G) (E:=E) [Acquire LogLock; Release LogLock] (enqueue_log fmt args).
Proof.
  unfold enqueue_log.
  apply (la_bind [Acquire LogLock] [Release LogLock]); [apply la_spin_lock|intros ?].
  apply la_bind_pure; [apply la_read_log|intros ?].
  apply la_bind_pure; [|intros ?; apply la_spin_unlock].
  apply la_if; [|apply la_ret].
  apply la_bind_pure; [apply la_lift_opt|intros ?]. apply la_write_log.
Qed.

(** Raising [shutdown] in the queue. *)
Lemma la_raise_shutdown :
  lock_adds (G:=G) (E:=E) [Acquire LogLock; Release LogLock]
    (spin_lock LogLock ;;
     q <- read_log ;;
     write_log (mkLogQueue (q_entries q) (q_head q) (q_tail q) (q_count q) 1) ;;
     spin_unlock LogLock).
Proof.
  apply (la_bind [Acquire LogLock] [Release LogLock]); [apply la_spin_lock|intros ?].
  apply la_bind_pure; [apply la_read_log|intros ?].
  apply la_bind_pure; [apply la_write_log|intros ?; apply la_spin_unlock].
Qed.

Lemma la_logger_iteration :
  lock_adds (G:=G) (E:=E) [Acquire LogLock; Release LogLock] logger_iteration.
Proof.
  unfold logger_iteration.
  apply (la_bind [Acquire LogLock] [Release LogLock]); [apply la_spin_lock|intros ?].
  apply la_bind_pure; [apply la_read_log|intros ?].
  apply la_bind_pure; [apply la_logger_loop|intros ?].
  apply la_bind_pure; [apply la_read_log|intros ?].
  apply (la_bind [Release LogLock] []); [apply la_spin_unlock|intros ?; apply la_ret].
Qed.
End AddsRules.

Ltac ls_step :=
  lazymatch goal with
  | |- lock_safe _ _ (bind _ _) => eapply ls_bind; [|intros ?]
  | |- lock_safe _ _ (ret _) => apply ls_ret
  | |- lock_safe _ _ (if _ then _ else _) => apply ls_if
  | |- lock_safe _ _ (let '(_, _) := ?e in _) => destruct e
  | |- lock_safe _ _ read_game => apply ls_read_game
  | |- lock_safe _ _ (write_game _) => apply ls_write_game
  | |- lock_safe _ _ read_scores => apply ls_read_scores
  | |- lock_safe _ _ (write_scores _) => apply ls_write_scores
  | |- lock_safe _ _ read_log => apply ls_read_log
  | |- lock_safe _ _ (write_log _) => apply ls_write_log
  | |- lock_safe _ _ get => apply ls_get
  | |- lock_safe _ _ (modify (with_rand_stream _)) => apply ls_set_rand
  | |- lock_safe _ _ (modify (with_scores_file _)) => apply ls_set_file
  | |- lock_safe _ _ rand => apply ls_rand
  | |- lock_safe _ _ (lift_opt _) => apply ls_lift_opt
  | |- lock_safe _ _ (lift _) => apply ls_lift
  | |- lock_safe _ _ (spin_lock _) => apply ls_spin_lock; reflexivity
  | |- lock_safe _ _ (spin_unlock _) => apply ls_spin_unlock
  end.

Lemma ls_enqueue_log {G E} h fmt args :
  may_acquire h LogLock = true → lock_safe (G:=G) (E:=E) h h (enqueue_log fmt args).
Proof.
  intros Hm. unfold enqueue_log.
  eapply ls_bind; [by apply ls_spin_lock|intros ?]. repeat ls_step.
Qed.

Module SudokuLocks.
Import Sudoku.

Ltac ls_sudoku :=
  lazymatch goal with
  | |- lock_safe _ _ (update_game _) => unfold update_game
  | |- lock_safe _ _ (read_player _) => unfold read_player
  | |- lock_safe _ _ (update_player _ _) => unfold update_player
  | |- lock_safe _ _ (enqueue_log _ _) => apply ls_enqueue_log; reflexivity
  | |- _ => ls_step
  end.

Lemma ls_save_scores h :
  may_acquire h ScoresLock = true → lock_safe h h save_scores.
Proof.
  intros Hm. unfold save_scores.
  eapply ls_bind; [by apply ls_spin_lock|intros ?]. repeat ls_sudoku.
Qed.

Ltac ls_all :=
  repeat first
    [ apply ls_save_scores; reflexivity
    | ls_sudoku ].

Lemma ls_advance_turn : lock_safe [] [] advance_turn.
Proof. unfold advance_turn. ls_all. Qed.

Lemma ls_broadcast_turn_notification : lock_safe [] [] broadcast_turn_notification.
Proof. unfold broadcast_turn_notification. ls_all. Qed.

Lemma ls_place_locked pid msg : lock_safe [] [] (place_locked pid msg).
Proof. unfold place_locked. ls_all. Qed.

Lemma ls_handle_MSG_PLACE pid msg : lock_safe [] [] (handle_MSG_PLACE pid msg).
Proof.
  unfold handle_MSG_PLACE.
  eapply ls_bind; [apply ls_place_locked|intros ?].
  eapply ls_bind; [|intros ?; apply ls_ret].
  apply ls_if; [|apply ls_ret].
  eapply ls_bind; [apply ls_advance_turn|intros ?; apply ls_broadcast_turn_notification].
Qed.

Lemma ls_handle_MSG_GAME_STATE pid : lock_safe [] [] (handle_MSG_GAME_STATE pid).
Proof. unfold handle_MSG_GAME_STATE. ls_all. Qed.

Lemma ls_handle_MSG_QUIT pid : lock_safe [] [] (handle_MSG_QUIT pid).
Proof. unfold handle_MSG_QUIT. ls_all. Qed.

Lemma ls_handle_disconnect pid : lock_safe [] [] (handle_disconnect pid).
Proof. unfold handle_disconnect. ls_all. Qed.

Lemma ls_main_shutdown : lock_safe [] [] main_shutdown.
Proof. unfold main_shutdown. ls_all. Qed.

Lemma la_save_scores :
  lock_adds [Acquire ScoresLock; Release ScoresLock] save_scores.
Proof.
  unfold save_scores.
  apply (la_bind [Acquire ScoresLock] [Release ScoresLock]); [apply la_spin_lock|intros ?].
  apply la_bind_pure; [apply la_read_scores|intros ?].
  apply la_bind_pure; [apply la_set_file|intros ?; apply la_spin_unlock].
Qed.

Lemma la_main_shutdown :
  lock_adds [Acquire LogLock; Release LogLock; Acquire ScoresLock; Release ScoresLock;
             Acquire LogLock; Release LogLock] main_shutdown.
Proof.
  unfold main_shutdown.
  apply (la_bind [Acquire LogLock; Release LogLock]); [apply la_enqueue_log|intros ?].
  apply (la_bind [Acquire ScoresLock; Release ScoresLock]); [apply la_save_scores|intros ?].
  apply la_raise_shutdown.
Qed.

Lemma la_sigint_handler :
  lock_adds [Acquire ScoresLock; Release ScoresLock; Acquire LogLock; Release LogLock]
    sigint_handler.
Proof.
  unfold sigint_handler.
  apply (la_bind [Acquire ScoresLock; Release ScoresLock]); [apply la_save_scores|intros ?].
  apply la_raise_shutdown.
Qed.

Lemma ls_logger_loop fuel : lock_safe (G:=SharedGameState) (E:=ScoreEntry) [LogLock] [LogLock] (logger_loop fuel).
Proof.
  induction fuel as [|fuel IH]; cbn [logger_loop].
  - eapply ls_bind; [apply ls_read_log|intros q].
    apply ls_if; [|apply ls_ret]. by intros w a w'.
  - eapply ls_bind; [apply ls_read_log|intros q].
    apply ls_if; [|apply ls_ret].
    eapply ls_bind; [apply ls_lift_opt|intros ?].
    eapply ls_bind; [apply ls_write_log|intros ?].
    eapply ls_bind; [apply IH|intros ?]. apply ls_ret.
Qed.

Lemma ls_logger_iteration :
  lock_safe (G:=SharedGameState) (E:=ScoreEntry) [] [] logger_iteration.
Proof.
  unfold logger_iteration.
  repeat first [apply ls_logger_loop | ls_sudoku].
Qed.

Section Join.
Variable generate_full_grid : list Z → (Z → Z → Z) * list Z.

Lemma ls_generate_puzzle difficulty :
  lock_safe [GameLock] [GameLock] (generate_puzzle generate_full_grid difficulty).
Proof.
  unfold generate_puzzle. eapply ls_bind; [apply ls_get|intros w].
  destruct (generate_full_grid (rand_stream w)). ls_all.
Qed.

Lemma ls_join_locked pid msg : lock_safe [] [] (join_locked generate_full_grid pid msg).
Proof.
  unfold join_locked.
  repeat first [apply ls_generate_puzzle | ls_sudoku].
Qed.

Lemma ls_handle_MSG_JOIN pid msg :
  lock_safe [] [] (handle_MSG_JOIN generate_full_grid pid msg).
Proof.
  unfold handle_MSG_JOIN.
  repeat first [apply ls_join_locked | apply ls_broadcast_turn_notification | ls_sudoku].
Qed.

Lemma ls_handle_client_step pid input :
  lock_safe [] [] (handle_client_step generate_full_grid pid input).
Proof.
  unfold handle_client_step. destruct input as [msg|].
  - repeat first
      [ apply ls_handle_MSG_JOIN | apply ls_handle_MSG_PLACE
      | apply ls_handle_MSG_GAME_STATE | apply ls_handle_MSG_QUIT | ls_sudoku ].
  - eapply ls_bind; [apply ls_handle_disconnect|intros ?; apply ls_ret].
Qed.
End Join.
End SudokuLocks.

(** Claim C4 as stated fails: the first Join logs the new player while the
    handler holds the game-state lock, so two locks are held at once. *)
Lemma two_locks_held_in_join :
  ¬ (∀ gen pid input (w : Sudoku.W) r w',
        Sudoku.handle_client_step gen pid input w = Ok r w' →
        ∀ t, lock_trace w' = lock_trace w ++ t → (max_held [] t <= 1)%nat).
Proof.
  intros H.
  destruct (Sudoku.handle_client_step Examples.pattern_generator 0
              (Some (Examples.Sudoku.join_msg "Alice")) Sudoku.setup_shared_memory)
    as [r w'|] eqn:Hrun; [|by vm_compute in Hrun].
  specialize (H _ _ _ _ _ _ Hrun (lock_trace w') eq_refl).
  vm_compute in Hrun. injection Hrun as <- <-. vm_compute in H. lia.
Qed.

(** ** Effects on the game state alone, and the reachable states *)

Section GameRules.
Context {G E : Type}.

Lemma glp_ret {A} (a : A) (Q : A → G → Prop) g0 : Q a g0 → glp (E:=E) (ret a) Q g0.
Proof. intros HQ w a' w' <- [= <- <-]. done. Qed.

Lemma glp_bind {A B} (m : M (World G E) A) (k : A → M (World G E) B) Q g0 :
  glp m (λ a g1, glp (k a) Q g1) g0 → glp (bind m k) Q g0.
Proof.
  intros Hm w b w' Hg. unfold bind. destruct (m w) as [a w1|] eqn:Hrun; [|done].
  intros Hk. by eapply (Hm _ _ _ Hg Hrun).
Qed.

Lemma glp_mono {A} (m : M (World G E) A) (Q Q' : A → G → Prop) g0 :
  glp m Q g0 → (∀ a g, Q a g → Q' a g) → glp m Q' g0.
Proof. intros Hm HQ w a w' Hg Hrun. eauto. Qed.

Lemma glp_frame {A} (m : M (World G E) A) (Q : A → G → Prop) g0 :
  game_frame m → (∀ a, Q a g0) → glp m Q g0.
Proof. intros Hf HQ w a w' <- Hrun. rewrite (Hf _ _ _ Hrun). done. Qed.

Lemma frame_ret {A} (a : A) : game_frame (ret (W:=(World G E)) a).
Proof. by intros w a' w' [= <- <-]. Qed.

Lemma frame_bind {A B} (m : M (World G E) A) (k : A → M (World G E) B) :
  game_frame m → (∀ a, game_frame (k a)) → game_frame (bind m k).
Proof.
  intros Hm Hk w b w'. unfold bind. destruct (m w) as [a w1|] eqn:Hrun; [|done].
  intros Hrun2. by rewrite (Hk _ _ _ _ Hrun2), (Hm _ _ _ Hrun).
Qed.

Lemma frame_if {A} (b : bool) (m1 m2 : M (World G E) A) :
  game_frame m1 → game_frame m2 → game_frame (if b then m1 else m2).
Proof. by destruct b. Qed.

Lemma frame_spin_lock l : game_frame (spin_lock (G:=G) (E:=E) l).
Proof. intros w a w'. unfold spin_lock. destruct (_ =? 0); [|done]. by intros [= <- <-]. Qed.

Lemma frame_spin_unlock l : game_frame (spin_unlock (G:=G) (E:=E) l).
Proof. by intros w a w' [= <- <-]. Qed.

Lemma frame_read_log : game_frame (read_log (G:=G) (E:=E)).
Proof. by intros w a w' [= <- <-]. Qed.

Lemma frame_write_log q : game_frame (write_log (G:=G) (E:=E) q).
Proof. by intros w a w' [= <- <-]. Qed.

Lemma frame_read_scores : game_frame (read_scores (G:=G) (E:=E)).
Proof. by intros w a w' [= <- <-]. Qed.

Lemma frame_write_scores s : game_frame (write_scores (G:=G) (E:=E) s).
Proof. by intros w a w' [= <- <-]. Qed.

Lemma frame_set_rand rs : game_frame (modify (W:=(World G E)) (with_rand_stream rs)).
Proof. by intros w a w' [= <- <-]. Qed.

Lemma frame_set_file f : game_frame (modify (W:=(World G E)) (with_scores_file f)).
Proof. by intros w a w' [= <- <-]. Qed.

Lemma frame_lift_opt {A} (o : option A) : game_frame (lift_opt (W:=(World G E)) o).
Proof. destruct o; [|done]. by intros w a' w' [= <- <-]. Qed.

Lemma frame_rand : game_frame (rand (G:=G) (E:=E)).
Proof.
  intros w a w'. unfold rand. destruct (rand_stream w); [done|]. by intros [= <- <-].
Qed.

Lemma frame_enqueue_log fmt args : game_frame (enqueue_log (G:=G) (E:=E) fmt args).
Proof.
  unfold enqueue_log.
  repeat first [ apply frame_bind; [|intros ?] | apply frame_if | apply frame_spin_lock
               | apply frame_spin_unlock | apply frame_read_log | apply frame_write_log
               | apply frame_lift_opt | apply frame_ret ].
Qed.

Lemma glp_read_game (Q : G → G → Prop) g0 : Q g0 g0 → glp (E:=E) read_game Q g0.
Proof. intros HQ w a w' <- [= <- <-]. done. Qed.

Lemma glp_write_game g (Q : unit → G → Prop) g0 : Q tt g → glp (E:=E) (write_game g) Q g0.
Proof. intros HQ w a w' _ [= <- <-]. done. Qed.

Lemma glp_get (Q : (World G E) → G → Prop) g0 : (∀ w, game w = g0 → Q w g0) → glp get Q g0.
Proof. intros HQ w a w' Hg [= <- <-]. rewrite Hg. by apply HQ. Qed.

Lemma glp_lift_opt {A} (o : option A) (Q : A → G → Prop) g0 :
  (∀ a, o = Some a → Q a g0) → glp (E:=E) (lift_opt o) Q g0.
Proof. intros HQ w a w' <-. destruct o; [|done]. intros [= <- <-]. by apply HQ. Qed.

Lemma glp_lift {A} (r : Fault + A) (Q : A → G → Prop) g0 :
  (∀ a, r = inr a → Q a g0) → glp (E:=E) (lift r) Q g0.
Proof. intros HQ w a w' <-. destruct r; [done|]. intros [= <- <-]. by apply HQ. Qed.
End GameRules.

Ltac frame_step :=
  first [ apply frame_bind; [|intros ?] | apply frame_if | apply frame_ret
        | apply frame_spin_lock | apply frame_spin_unlock
        | apply frame_read_log | apply frame_write_log
        | apply frame_read_scores | apply frame_write_scores
        | apply frame_set_rand | apply frame_set_file
        | apply frame_lift_opt | apply frame_rand | apply frame_enqueue_log ].

Ltac gl_step :=
  lazymatch goal with
  | |- glp (bind _ _) _ _ => apply glp_bind
  | |- glp (ret _) _ _ => apply glp_ret
  | |- glp read_game _ _ => apply glp_read_game
  | |- glp (write_game _) _ _ => apply glp_write_game
  | |- glp get _ _ => apply glp_get; intros ? ?
  | |- glp (lift_opt _) _ _ => apply glp_lift_opt; intros ? ?
  | |- glp (lift _) _ _ => apply glp_lift; intros ? ?
  | |- glp (spin_lock _) _ _ => apply glp_frame; [apply frame_spin_lock|intros []]
  | |- glp (spin_unlock _) _ _ => apply glp_frame; [apply frame_spin_unlock|intros []]
  | |- glp (enqueue_log _ _) _ _ => apply glp_frame; [apply frame_enqueue_log|intros []]
  | |- glp (modify (with_rand_stream _)) _ _ => apply glp_frame; [apply frame_set_rand|intros []]
  end.

Module SudokuInv.
Import Sudoku.

Ltac gsimpl :=
  cbn [game_state num_players current_turn winner_id grid cells_remaining players
       turn_signal game_reset_requested server_shutdown
       set_game_state set_num_players set_current_turn set_winner_id set_grid
       set_cells_remaining set_players set_turn_signal
       id name score correct_placements wrong_placements state handler_pid
       set_name set_score set_correct_placements set_wrong_placements set_state
       set_handler_pid fst snd] in *.

Lemma frame_save_scores : game_frame save_scores.
Proof. unfold save_scores. repeat frame_step. Qed.

Lemma frame_update_player_stats n b c w' : game_frame (update_player_stats n b c w').
Proof. unfold update_player_stats. repeat first [apply frame_save_scores | frame_step]. Qed.

Lemma frame_stats_loop ps i winner : game_frame (stats_loop ps i winner).
Proof.
  revert i. induction ps as [|p ps IH]; intros i; [apply frame_ret|].
  cbn [stats_loop]. apply frame_bind; [|intros ?; apply IH].
  apply frame_if; [apply frame_update_player_stats|apply frame_ret].
Qed.

Ltac g_step :=
  lazymatch goal with
  | |- glp (update_game _) _ _ => unfold update_game
  | |- glp (read_player _) _ _ => unfold read_player
  | |- glp (update_player _ _) _ _ => unfold update_player
  | |- glp (stats_loop _ _ _) _ _ => apply glp_frame; [apply frame_stats_loop|intros []]
  | |- glp (if ?b then _ else _) _ _ => destruct b eqn:?
  | |- glp (let '(_, _) := ?e in _) _ _ => destruct e eqn:?
  | |- _ => gl_step
  end; gsimpl.

Lemma turn_step_refl g : turn_inv g → turn_step g g.
Proof. intros Hinv. split; [done|]. split; [done|]. done. Qed.

Lemma arr_set_inv {A} (a a' : list A) i x :
  arr_set a i x = Some a' → a' = <[Z.to_nat i := x]> a ∧ 0 <= i < Z.of_nat (length a).
Proof.
  unfold arr_set. destruct (_ && _) eqn:Hr; [|done]. intros [= <-].
  apply andb_true_iff in Hr as [?%Z.leb_le ?%Z.ltb_lt]. done.
Qed.

Ltac norm_arr :=
  repeat match goal with
         | H : arr_set _ _ _ = Some _ |- _ => apply arr_set_inv in H as [-> ?]
         end.

Ltac norm_phase :=
  repeat match goal with
         | H : negb (bool_decide _) = false |- _ =>
             apply negb_false_iff, bool_decide_eq_true in H
         | H : negb (bool_decide _) = true |- _ =>
             apply negb_true_iff, bool_decide_eq_false in H
         | H : bool_decide _ = true |- _ => apply bool_decide_eq_true in H
         | H : bool_decide _ = false |- _ => apply bool_decide_eq_false in H
         end.

(** A critical section that leaves the turn where it is and does not
    start the game. *)
Lemma turn_step_same_turn g g' :
  turn_inv g →
  length (players g') = 5%nat →
  current_turn g' = current_turn g →
  (game_state g = GAME_WAITING_FOR_PLAYERS ↔ game_state g' = GAME_WAITING_FOR_PLAYERS) →
  (game_state g' = GAME_WAITING_FOR_PLAYERS →
     Forall (λ p, state p ≠ PLAYER_ACTIVE) (players g')) →
  turn_step g g'.
Proof.
  intros (Hlen & Hw & Hr) Hlen' Hct Hphase Hall. split; [|split].
  - split; [done|]. rewrite Hct. split.
    + intros Hw'. split; [apply Hw, Hphase, Hw'|by apply Hall].
    + intros Hn. apply Hr. by rewrite Hphase.
  - intros Hw0 Hw1. by destruct Hw1; apply Hphase.
  - by rewrite Hct.
Qed.

Ltac same_turn :=
  norm_arr; norm_phase;
  apply turn_step_same_turn; gsimpl; rewrite ?length_insert;
  [ done
  | lazymatch goal with Hinv : turn_inv _ |- _ => by destruct Hinv end
  | done
  | try (split; congruence)
  | try (intros; congruence) ].

Lemma place_step g pid msg :
  turn_inv g → glp (place_locked pid msg) (λ _ g', turn_step g g') g.
Proof.
  intros Hinv. unfold place_locked. repeat g_step.
  all: try by apply turn_step_refl.
  all: same_turn.
Qed.

Lemma game_state_step g pid :
  turn_inv g → glp (handle_MSG_GAME_STATE pid) (λ _ g', turn_step g g') g.
Proof. intros Hinv. unfold handle_MSG_GAME_STATE. repeat g_step. by apply turn_step_refl. Qed.

Lemma broadcast_step g :
  turn_inv g → glp broadcast_turn_notification (λ _ g', turn_step g g') g.
Proof.
  intros Hinv. unfold broadcast_turn_notification. repeat g_step.
  all: by apply turn_step_refl.
Qed.

Lemma quit_step g pid :
  turn_inv g → glp (handle_MSG_QUIT pid) (λ _ g', turn_step g g') g.
Proof.
  intros Hinv. unfold handle_MSG_QUIT. repeat g_step. same_turn.
  intros Hw. destruct Hinv as (_ & Hinv & _). destruct (Hinv Hw) as [_ Hall].
  by apply Forall_insert.
Qed.

Lemma disconnect_step g pid :
  turn_inv g → glp (handle_disconnect pid) (λ _ g', turn_step g g') g.
Proof.
  intros Hinv. unfold handle_disconnect. repeat g_step. same_turn.
  intros Hw. destruct Hinv as (_ & Hinv & _). destruct (Hinv Hw) as [_ Hall].
  by apply Forall_insert.
Qed.

Lemma forked_step g slot pid :
  turn_inv g → glp (update_player slot (set_handler_pid pid)) (λ _ g', turn_step g g') g.
Proof.
  intros Hinv. repeat g_step. same_turn.
  intros Hw. destruct Hinv as (_ & Hinv & _). destruct (Hinv Hw) as [_ Hall].
  apply Forall_insert; [done|]. cbn.
  match goal with H : arr_get _ _ = Some ?p |- _ =>
    apply arr_get_Some in H as Hrange; rewrite arr_get_nat in H by lia;
    apply (Forall_lookup_1 _ _ _ _ Hall H) end.
Qed.

(** A critical section of a started game that keeps the players and moves
    the turn, if at all, to an Active slot. *)
Lemma turn_step_pass g g' :
  turn_inv g →
  game_state g' ≠ GAME_WAITING_FOR_PLAYERS →
  players g' = players g →
  (current_turn g' = current_turn g ∧ game_state g ≠ GAME_WAITING_FOR_PLAYERS
   ∨ ∃ p, arr_get (players g) (current_turn g') = Some p ∧ state p = PLAYER_ACTIVE) →
  turn_step g g'.
Proof.
  intros (Hlen & Hw & Hr) Hphase Hps Hturn.
  assert (game_state g ≠ GAME_WAITING_FOR_PLAYERS) as Hstarted.
  { destruct Hturn as [[_ ?]|(p & Hp & Hact)]; [done|]. intros Hw0.
    destruct (Hw Hw0) as [_ Hall]. apply arr_get_Some in Hp as Hrange.
    rewrite arr_get_nat in Hp by lia.
    by apply (Forall_lookup_1 _ _ _ _ Hall Hp). }
  split; [|split].
  - split; [by rewrite Hps|]. split; [done|]. intros _.
    destruct Hturn as [[-> _]|(p & Hp%arr_get_Some & _)]; [by apply Hr|].
    rewrite Hlen in Hp. unfold MAX_PLAYERS. lia.
  - done.
  - intros Hne. destruct Hturn as [[? _]|(p & Hp & Hact)]; [done|].
    unfold state_at. rewrite Hps, Hp. cbn. by rewrite Hact.
Qed.

Lemma phase_in_progress g : game_state g = GAME_IN_PROGRESS → game_state g ≠ GAME_WAITING_FOR_PLAYERS.
Proof. by intros ->. Qed.

Lemma advance_step g :
  turn_inv g → glp advance_turn (λ _ g', turn_step g g') g.
Proof.
  intros Hinv. unfold advance_turn. repeat g_step; [|by apply turn_step_refl].
  match goal with H : get_next_active_player _ _ _ = inr _ |- _ =>
    apply get_next_active_player_sound in H as [->|Hact]; [done|] end.
  destruct (decide (game_state g = GAME_WAITING_FOR_PLAYERS)) as [Hw|Hs].
  - destruct Hinv as (_ & Hinv & _). destruct (Hinv Hw) as [_ Hall].
    destruct Hact as (p & Hp & Hact). apply arr_get_Some in Hp as Hrange.
    rewrite arr_get_nat in Hp by lia.
    by destruct (Forall_lookup_1 _ _ _ _ Hall Hp).
  - apply turn_step_pass; gsimpl; auto.
Qed.

Lemma scheduler_step g :
  turn_inv g → glp scheduler_iteration (λ _ g', turn_step g g') g.
Proof.
  intros Hinv. unfold scheduler_iteration. repeat g_step.
  all: norm_phase.
  all: repeat match goal with
         | H : get_next_active_player _ _ _ = inr ?n, H0 : (0 <=? ?n) = true |- _ =>
             apply get_next_active_player_sound in H as [->|?]; [done|]
         end.
  all: try by apply turn_step_refl.
  all: apply turn_step_pass; gsimpl; auto using phase_in_progress.
Qed.

Section Join.
Variable generate_full_grid : list Z → (Z → Z → Z) * list Z.

Lemma join_step g pid msg :
  turn_inv g →
  glp (join_locked generate_full_grid pid msg) (λ _ g', turn_step g g') g.
Proof.
  intros Hinv. unfold join_locked, generate_puzzle. repeat g_step.
  - (* the game starts *)
    norm_arr.
    match goal with H : _ && _ = true |- _ =>
      apply andb_true_iff in H as [Hmin%Z.leb_le Hw%bool_decide_eq_true] end.
    gsimpl. destruct Hinv as (Hlen & Hwait & _).
    match goal with H : get_next_active_player _ ?ps _ = inr ?n |- _ =>
      rename H into Hnext; set (ps' := ps) in *; rename n into next end.
    assert (length ps' = 5%nat) as Hlen'.
    { unfold ps'. by rewrite length_fmap, length_insert. }
    destruct (get_next_active_player_spec state ps' (-1)) as (r & Hr & Hnone & Hin & _);
      [done|unfold MAX_PLAYERS; lia|].
    rewrite Hnext in Hr. injection Hr as <-.
    assert (pid ∈ active_slots state ps') as Hpid.
    { apply active_slot_lookup. unfold ps'. rewrite arr_get_fmap.
      rewrite arr_get_set_eq by done. cbn. eexists. split; [done|].
      unfold promote. cbn. done. }
    assert (next ≠ -1) as Hne.
    { intros ->. destruct Hnone as [Hnone _]. rewrite Hnone in Hpid by done.
      by apply elem_of_nil in Hpid. }
    apply Hin, active_slot_lookup in Hne as (p & Hp & Hact).
    split; [|split]; gsimpl.
    + split; [done|]. split; [done|]. intros _. gsimpl.
      apply arr_get_Some in Hp. rewrite Hlen' in Hp. unfold MAX_PLAYERS. lia.
    + done.
    + intros _. unfold state_at. gsimpl. fold ps'. rewrite Hp. cbn. by rewrite Hact.
  - (* the game does not start *)
    norm_arr.
    match goal with H : _ && _ = false |- _ => clear H end.
    apply turn_step_same_turn; gsimpl; rewrite ?length_insert; try done.
    + by destruct Hinv.
    + intros Hw. destruct Hinv as (_ & Hinv & _). destruct (Hinv Hw) as [_ Hall].
      by apply Forall_insert.
Qed.

Lemma action_step a g :
  turn_inv g → glp (run_action generate_full_grid a) (λ _ g', turn_step g g') g.
Proof.
  intros Hinv. destruct a; cbn [run_action].
  - by apply forked_step.
  - apply glp_bind. eapply glp_mono; [by apply join_step|].
    intros ? g' ?. by apply glp_ret.
  - apply glp_bind. eapply glp_mono; [by apply place_step|].
    intros ? g' ?. by apply glp_ret.
  - by apply advance_step.
  - by apply broadcast_step.
  - apply glp_bind. eapply glp_mono; [by apply game_state_step|].
    intros ? g' ?. by apply glp_ret.
  - apply glp_bind. eapply glp_mono; [by apply quit_step|].
    intros ? g' ?. by apply glp_ret.
  - by apply disconnect_step.
  - by apply scheduler_step.
Qed.

Lemma reachable_turn_inv w :
  reachable generate_full_grid w → turn_inv (game w).
Proof.
  induction 1 as [|w a rs w' _ IH Hrun].
  - split; [done|]. split; [|done]. intros _. split; [done|].
    repeat constructor; done.
  - by destruct (action_step a (game w) IH (with_rand_stream rs w) _ _ eq_refl Hrun).
Qed.

(** Claim C5, as the code has it.  In every reachable state
    [current_turn] is -1 while the game waits for players and otherwise
    a slot index; a critical section that sets it for the first time
    leaves [num_players] at [MIN_PLAYERS] or more; and whenever a
    critical section changes it, the new value is the slot of a player
    who is Active at that moment. *)
Theorem turn_moves_only_to_active w :
  reachable generate_full_grid w →
  (game_state (game w) = GAME_WAITING_FOR_PLAYERS → current_turn (game w) = -1)
  ∧ -1 <= current_turn (game w) < MAX_PLAYERS
  ∧ ∀ a rs w',
      run_action generate_full_grid a (with_rand_stream rs w) = Ok tt w' →
      (current_turn (game w) = -1 → current_turn (game w') ≠ -1 →
         MIN_PLAYERS <= num_players (game w'))
      ∧ (current_turn (game w') ≠ current_turn (game w) →
         state_at (game w') (current_turn (game w')) = Some PLAYER_ACTIVE).
Proof.
  intros Hreach. pose proof (reachable_turn_inv w Hreach) as Hinv.
  pose proof Hinv as (Hlen & Hw & Hr).
  split; [by intros [? _]%Hw|]. split.
  { destruct (decide (game_state (game w) = GAME_WAITING_FOR_PLAYERS)) as [[-> _]%Hw|?%Hr];
      unfold MAX_PLAYERS in *; lia. }
  intros a rs w' Hrun.
  destruct (action_step a (game w) Hinv (with_rand_stream rs w) _ _ eq_refl Hrun) as ((_ & Hw' & Hr') & Hstart & Hturn).
  split; [|done]. intros Hnone Hset. apply Hstart.
  - destruct (decide (game_state (game w) = GAME_WAITING_FOR_PLAYERS)) as [|?%Hr]; [done|lia].
  - intros [? _]%Hw'. done.
Qed.
End Join.

Lemma reachable_run_actions gen l w w' :
  reachable gen w → run_actions gen l w = Some w' → reachable gen w'.
Proof.
  revert w. induction l as [|[a rs] l IH]; intros w Hreach; cbn [run_actions].
  - by intros [= <-].
  - destruct (run_action gen a (with_rand_stream rs w)) as [[] w1|] eqn:Hrun; [|done].
    apply IH. by eapply reach_step.
Qed.

(** Claim C5 as stated fails: after three players have joined and the one
    whose turn it is quits, [current_turn] is her slot and the slot is
    Disconnected. *)
Lemma turn_left_on_quitter :
  ¬ (∀ gen w, reachable gen w →
       current_turn (game w) ≠ -1 →
       state_at (game w) (current_turn (game w)) = Some PLAYER_ACTIVE).
Proof.
  intros H.
  destruct (run_actions Examples.pattern_generator Examples.Sudoku.alice_quits setup_shared_memory)
    as [w|] eqn:Hrun; [|by vm_compute in Hrun].
  pose proof (reachable_run_actions _ _ _ _ (reach_setup _) Hrun) as Hreach.
  specialize (H _ _ Hreach). vm_compute in Hrun. injection Hrun as <-.
  vm_compute in H. by specialize (H ltac:(discriminate)).
Qed.
End SudokuInv.

(** * The lock order in the states the server reaches *)

Section LockRulesAt.
Context {G E : Type}.

Lemma lsa_of_ls {A} g h h' (m : M (World G E) A) : lock_safe h h' m → lock_safe_at g h h' m.
Proof. intros Hm w a w' _ Hrun. by eapply Hm. Qed.

Lemma lsa_bind {A B} g h h1 h2 (m : M (World G E) A) (k : A → M (World G E) B)
    (Q : A → G → Prop) :
  lock_safe_at g h h1 m → glp m Q g →
  (∀ a g1, Q a g1 → lock_safe_at g1 h1 h2 (k a)) →
  lock_safe_at g h h2 (bind m k).
Proof.
  intros Hm HQ Hk w b w' Hg. unfold bind. destruct (m w) as [a w1|] eqn:Hrun; [|done].
  intros Hrun2. destruct (Hm _ _ _ Hg Hrun) as (t1 & Ht1 & Ho1).
  destruct (Hk a (game w1) (HQ _ _ _ Hg Hrun) _ _ _ eq_refl Hrun2) as (t2 & Ht2 & Ho2).
  exists (t1 ++ t2). rewrite Ht2, Ht1, app_assoc. split; [done|].
  by rewrite follows_order_app, Ho1.
Qed.
End LockRulesAt.

Module SudokuLockInv.
Import Sudoku SudokuInv SudokuLocks.

(** *** A game in progress has a cell left *)

Ltac in_play_tac :=
  lazymatch goal with
  | Hinv : in_play ?g |- in_play _ =>
      unfold in_play in *; gsimpl; intros ?;
      repeat match goal with
             | H : (_ <=? 0) = false |- _ => apply Z.leb_gt in H
             end;
      first [ discriminate | congruence | lia | by apply Hinv ]
  end.

Lemma place_in_play g pid msg :
  in_play g → glp (place_locked pid msg) (λ _ g', in_play g') g.
Proof.
  intros Hinv. unfold place_locked. repeat g_step.
  all: norm_arr; norm_phase. all: in_play_tac.
Qed.

Lemma sched_in_play g :
  in_play g → glp scheduler_iteration (λ _ g', in_play g') g.
Proof.
  intros Hinv. unfold scheduler_iteration. repeat g_step.
  all: norm_arr; norm_phase. all: in_play_tac.
Qed.

Lemma advance_in_play g : in_play g → glp advance_turn (λ _ g', in_play g') g.
Proof. intros Hinv. unfold advance_turn. repeat g_step. all: in_play_tac. Qed.

Lemma broadcast_in_play g :
  in_play g → glp broadcast_turn_notification (λ _ g', in_play g') g.
Proof. intros Hinv. unfold broadcast_turn_notification. repeat g_step. all: in_play_tac. Qed.

Lemma game_state_in_play g pid :
  in_play g → glp (handle_MSG_GAME_STATE pid) (λ _ g', in_play g') g.
Proof. intros Hinv. unfold handle_MSG_GAME_STATE. repeat g_step. all: in_play_tac. Qed.

Lemma quit_in_play g pid :
  in_play g → glp (handle_MSG_QUIT pid) (λ _ g', in_play g') g.
Proof. intros Hinv. unfold handle_MSG_QUIT. repeat g_step. norm_arr. in_play_tac. Qed.

Lemma disconnect_in_play g pid :
  in_play g → glp (handle_disconnect pid) (λ _ g', in_play g') g.
Proof. intros Hinv. unfold handle_disconnect. repeat g_step. norm_arr. in_play_tac. Qed.

Lemma forked_in_play g slot pid :
  in_play g → glp (update_player slot (set_handler_pid pid)) (λ _ g', in_play g') g.
Proof. intros Hinv. repeat g_step. norm_arr. in_play_tac. Qed.

Section Join.
Variable generate_full_grid : list Z → (Z → Z → Z) * list Z.

Lemma join_in_play g pid msg :
  in_play g → glp (join_locked generate_full_grid pid msg) (λ _ g', in_play g') g.
Proof.
  intros Hinv. unfold join_locked, generate_puzzle. repeat g_step.
  all: norm_arr; norm_phase.
  - unfold in_play. gsimpl. intros _. reflexivity.
  - in_play_tac.
Qed.

Lemma action_in_play a g :
  in_play g → glp (run_action generate_full_grid a) (λ _ g', in_play g') g.
Proof.
  intros Hinv. destruct a; cbn [run_action].
  - by apply forked_in_play.
  - apply glp_bind. eapply glp_mono; [by apply join_in_play|].
    intros ? g' ?. by apply glp_ret.
  - apply glp_bind. eapply glp_mono; [by apply place_in_play|].
    intros ? g' ?. by apply glp_ret.
  - by apply advance_in_play.
  - by apply broadcast_in_play.
  - apply glp_bind. eapply glp_mono; [by apply game_state_in_play|].
    intros ? g' ?. by apply glp_ret.
  - apply glp_bind. eapply glp_mono; [by apply quit_in_play|].
    intros ? g' ?. by apply glp_ret.
  - by apply disconnect_in_play.
  - by apply sched_in_play.
Qed.

Lemma reachable_in_play w : reachable generate_full_grid w → in_play (game w).
Proof.
  induction 1 as [|w a rs w' _ IH Hrun].
  - intros Hip. discriminate Hip.
  - exact (action_in_play a (game w) IH (with_rand_stream rs w) _ _ eq_refl Hrun).
Qed.
End Join.

(** *** The round of the scheduler *)

(** The turn check leaves [cells_remaining] as it is. *)
Lemma sched_turn_keeps_cells g (current : Z) :
  glp (if (0 <=? current) && (current <? MAX_PLAYERS) then
         p <- read_player current ;;
         if negb (is_active state p) then
           next <- lift (get_next_active_player state (players g) current) ;;
           if 0 <=? next then
             update_game (λ gs, set_turn_signal (int_add (turn_signal gs) 1)
                                  (set_current_turn next gs)) ;;
             np <- read_player next ;;
             enqueue_log "Scheduler: Turn passed to Player %d (%s)"
                         [ArgInt (int_add next 1); ArgStr (name np)]
           else
             update_game (set_game_state GAME_FINISHED) ;;
             enqueue_log "Scheduler: No active players, game ended" []
         else ret tt
       else ret tt)
      (λ _ g', cells_remaining g' = cells_remaining g) g.
Proof. repeat g_step; done. Qed.

Lemma lsa_scheduler_iteration g :
  in_play g → lock_safe_at g [] [] scheduler_iteration.
Proof.
  intros Hlive. unfold scheduler_iteration.
  eapply (lsa_bind _ _ _ _ _ _ (λ _ g1, g1 = g)).
  { apply lsa_of_ls. ls_step. }
  { apply glp_frame; [apply frame_spin_lock|done]. }
  intros [] ? ->.
  eapply (lsa_bind _ _ _ _ _ _ (λ a g1, a = g ∧ g1 = g)).
  { apply lsa_of_ls. ls_step. }
  { by apply glp_read_game. }
  intros gs ? [-> ->].
  eapply (lsa_bind _ _ _ _ _ _ (λ _ _, True)); [| |intros; apply lsa_of_ls; ls_step].
  2: { by intros w a w' _ _. }
  destruct (bool_decide (game_state g = GAME_IN_PROGRESS)) eqn:Hip;
    [|apply lsa_of_ls, ls_ret].
  apply bool_decide_eq_true in Hip. specialize (Hlive Hip).
  eapply (lsa_bind _ _ _ _ _ _ (λ _ g1, cells_remaining g1 = cells_remaining g)).
  { apply lsa_of_ls. ls_all. }
  { apply sched_turn_keeps_cells. }
  intros [] g1 Hc.
  eapply (lsa_bind _ _ _ _ _ _ (λ a g2, a = g1 ∧ g2 = g1)).
  { apply lsa_of_ls. ls_step. }
  { by apply glp_read_game. }
  intros gs ? [-> ->]. rewrite Hc.
  destruct (Z.leb_spec (cells_remaining g) 0); [lia|]. apply lsa_of_ls, ls_ret.
Qed.

(** *** Every critical section *)

Lemma lsa_action gen a (w : W) :
  reachable gen w → lock_safe_at (game w) [] [] (run_action gen a).
Proof.
  intros Hreach. destruct a; cbn [run_action].
  - apply lsa_of_ls. ls_all.
  - apply lsa_of_ls. eapply ls_bind; [apply ls_join_locked|intros ?; apply ls_ret].
  - apply lsa_of_ls. eapply ls_bind; [apply ls_place_locked|intros ?; apply ls_ret].
  - apply lsa_of_ls, ls_advance_turn.
  - apply lsa_of_ls, ls_broadcast_turn_notification.
  - apply lsa_of_ls. eapply ls_bind; [apply ls_handle_MSG_GAME_STATE|intros ?; apply ls_ret].
  - apply lsa_of_ls. eapply ls_bind; [apply ls_handle_MSG_QUIT|intros ?; apply ls_ret].
  - apply lsa_of_ls, ls_handle_disconnect.
  - apply lsa_scheduler_iteration. by eapply reachable_in_play.
Qed.
End SudokuLockInv.

(** Claim C4, as the code has it.  In every state whose game state is one
    the server reaches, whatever the log queue, the ledger, the scores file
    and the random values are, each critical section of a client handler
    and each round of the scheduler follows the order [follows_order]: a lock is taken with no lock held,
    except that the log-queue lock is also taken with the game-state lock
    held; a lock is released before the one taken before it.  So at every
    point of the round the locks held are none, one, or the log-queue lock
    on top of the game-state lock: never the score-ledger lock with another
    one, and never three.  The same holds of a whole round of a client
    handler from any state.  The end of [main] and a round of the logger
    thread take one lock at a time, and [sigint_handler] takes the
    score-ledger lock and then the log-queue lock, one after the other.
    The rounds are those that run from their first lock to their last
    release; what [sigint_handler] adds to the locks of a thread it
    interrupts inside a round is not stated here. *)
Theorem lock_nesting_follows_order :
  (∀ gen a (w0 w w' : Sudoku.W),
      Sudoku.reachable gen w0 →
      game w = game w0 →
      Sudoku.run_action gen a w = Ok tt w' →
      ∃ t, lock_trace w' = lock_trace w ++ t
           ∧ follows_order [] t = Some [] ∧ (max_held [] t <= 2)%nat
           ∧ ∀ t1 t2, t = t1 ++ t2 → ordered (held_after [] t1))
  ∧ (∀ gen pid input (w : Sudoku.W) r w',
      Sudoku.handle_client_step gen pid input w = Ok r w' →
      ∃ t, lock_trace w' = lock_trace w ++ t
           ∧ follows_order [] t = Some [] ∧ (max_held [] t <= 2)%nat
           ∧ ∀ t1 t2, t = t1 ++ t2 → ordered (held_after [] t1))
  ∧ (∀ (w w' : Sudoku.W),
      Sudoku.main_shutdown w = Ok tt w' →
      ∃ t, lock_trace w' = lock_trace w ++ t
           ∧ follows_order [] t = Some [] ∧ (max_held [] t <= 1)%nat)
  ∧ (∀ (w : Sudoku.W) r w',
      logger_iteration w = Ok r w' →
      lock_trace w' = lock_trace w ++ [Acquire LogLock; Release LogLock])
  ∧ (∀ (w w' : Sudoku.W),
      Sudoku.sigint_handler w = Ok tt w' →
      lock_trace w' = lock_trace w
        ++ [Acquire ScoresLock; Release ScoresLock; Acquire LogLock; Release LogLock]).
Proof.
  split; [|split; [|split; [|split]]].
  - intros gen a w0 w w' Hreach Hgame Hrun.
    destruct (SudokuLockInv.lsa_action gen a w0 Hreach w _ _ Hgame Hrun) as (t & Ht & Ho).
    exists t. split; [done|]. split; [done|]. by apply follows_order_round.
  - intros gen pid input w r w' Hrun.
    destruct (SudokuLocks.ls_handle_client_step gen pid input _ _ _ Hrun) as (t & Ht & Ho).
    exists t. split; [done|]. split; [done|]. by apply follows_order_round.
  - intros w w' Hrun. eexists. split; [exact (SudokuLocks.la_main_shutdown _ _ _ Hrun)|].
    split; [reflexivity|]. cbn. lia.
  - intros w r w' Hrun. exact (la_logger_iteration _ _ _ Hrun).
  - intros w w' Hrun. exact (SudokuLocks.la_sigint_handler _ _ _ Hrun).
Qed.

(** * A slot that joins a started game *)


Module SudokuLate.
Import Sudoku SudokuInv.

(** A critical section keeps a slot aside when it does not reopen the
    game, does not make the slot Active, and leaves the turn where it is
    or moves it to an Active slot. *)
Lemma sidelined_keep pid g g' :
  sidelined pid g →
  game_state g' ≠ GAME_WAITING_FOR_PLAYERS →
  (state_at g' pid = Some PLAYER_ACTIVE → state_at g pid = Some PLAYER_ACTIVE) →
  (current_turn g' = current_turn g
   ∨ state_at g' (current_turn g') = Some PLAYER_ACTIVE) →
  sidelined pid g'.
Proof.
  intros (Hph & Hst & Hct) Hph' Hst' Hturn. split; [done|]. split; [by auto|].
  destruct Hturn as [->|Hact]; [done|]. intros Heq. rewrite Heq in Hact. auto.
Qed.

Lemma state_at_insert g i j (x p : Player) :
  0 <= i →
  arr_get (players g) i = Some p →
  (state x = state p ∨ state x ≠ PLAYER_ACTIVE) →
  state <$> arr_get (<[Z.to_nat i := x]> (players g)) j = Some PLAYER_ACTIVE →
  state_at g j = Some PLAYER_ACTIVE.
Proof.
  intros Hi Hp Hx. unfold state_at. destruct (decide (i = j)) as [<-|Hne].
  - rewrite arr_get_set_eq by (by apply arr_get_Some in Hp). rewrite Hp. cbn.
    intros [= Hact]. destruct Hx as [<-|Hx]; [by rewrite Hact|done].
  - by rewrite arr_get_set_ne.
Qed.

Ltac aside :=
  norm_arr; norm_phase;
  lazymatch goal with H : sidelined _ _ |- _ =>
    apply (sidelined_keep _ _ _ H); unfold state_at; gsimpl;
    [ first [ done | congruence | by destruct H ]
    | first [ done
            | eapply state_at_insert; [lia|eassumption|];
              first [ by left | by right ] ]
    | first [ by left | idtac ] ]
  end.










Section Join.
Variable generate_full_grid : list Z → (Z → Z → Z) * list Z.



End Join.
End SudokuLate.

Module DiceSteps.
Import Dice.

Ltac gsimpl := DiceFacts.gsimpl; cbn [fst snd] in *.

Lemma frame_dice_save_scores : game_frame save_scores.
Proof. unfold save_scores. repeat frame_step. Qed.

Lemma frame_update_score n : game_frame (update_score n).
Proof. unfold update_score. repeat first [apply frame_dice_save_scores | frame_step]. Qed.

Ltac g_step :=
  lazymatch goal with
  | |- glp (update_game _) _ _ => unfold update_game
  | |- glp (read_player _) _ _ => unfold read_player
  | |- glp (update_player _ _) _ _ => unfold update_player
  | |- glp (update_score _) _ _ => apply glp_frame; [apply frame_update_score|intros []]
  | |- glp (if ?b then _ else _) _ _ => destruct b eqn:?
  | |- _ => gl_step
  end; gsimpl.

Ltac norm_arr :=
  repeat match goal with
         | H : arr_set _ _ _ = Some _ |- _ => apply SudokuInv.arr_set_inv in H as [-> ?]
         end.

Ltac norm_phase :=
  repeat match goal with
         | H : negb (bool_decide _) = false |- _ =>
             apply negb_false_iff, bool_decide_eq_true in H
         | H : negb (bool_decide _) = true |- _ =>
             apply negb_true_iff, bool_decide_eq_false in H
         | H : bool_decide _ = true |- _ => apply bool_decide_eq_true in H
         | H : bool_decide _ = false |- _ => apply bool_decide_eq_false in H
         end.
End DiceSteps.

Module DiceLate.
Import Dice DiceSteps.

Lemma dice_sidelined_keep pid g g' :
  sidelined pid g →
  game_state g' ≠ GAME_WAITING_FOR_PLAYERS →
  (state_at g' pid = Some PLAYER_ACTIVE → state_at g pid = Some PLAYER_ACTIVE) →
  (current_turn g' = current_turn g
   ∨ state_at g' (current_turn g') = Some PLAYER_ACTIVE) →
  sidelined pid g'.
Proof.
  intros (Hph & Hst & Hct) Hph' Hst' Hturn. split; [done|]. split; [by auto|].
  destruct Hturn as [->|Hact]; [done|]. intros Heq. rewrite Heq in Hact. auto.
Qed.

Lemma dice_state_at_insert g i j (x p : Player) :
  0 <= i →
  arr_get (players g) i = Some p →
  (state x = state p ∨ state x ≠ PLAYER_ACTIVE) →
  state <$> arr_get (<[Z.to_nat i := x]> (players g)) j = Some PLAYER_ACTIVE →
  state_at g j = Some PLAYER_ACTIVE.
Proof.
  intros Hi Hp Hx. unfold state_at. destruct (decide (i = j)) as [<-|Hne].
  - rewrite arr_get_set_eq by (by apply arr_get_Some in Hp). rewrite Hp. cbn.
    intros [= Hact]. destruct Hx as [<-|Hx]; [by rewrite Hact|done].
  - by rewrite arr_get_set_ne.
Qed.

Ltac aside :=
  norm_arr; norm_phase;
  lazymatch goal with H : sidelined _ _ |- _ =>
    apply (dice_sidelined_keep _ _ _ H); unfold state_at; gsimpl;
    [ first [ done | congruence | by destruct H ]
    | first [ done
            | eapply dice_state_at_insert; [lia|eassumption|];
              first [ by left | by right ] ]
    | first [ by left | idtac ] ]
  end.










Lemma glp_any {A} (m : M W A) g : glp m (λ _ _, True) g.
Proof. by intros w a w' _ _. Qed.



End DiceLate.



(** The move of the Waiting slot is then taken: its score is the 10 points
    of a correct placement. *)
Lemma late_joiner_moves :
  ∃ w, Sudoku.run_actions Examples.pattern_generator Examples.Sudoku.alice_rejoins
         Sudoku.setup_shared_memory = Some w
       ∧ Sudoku.game_state (game w) = GAME_IN_PROGRESS
       ∧ Sudoku.state_at (game w) 0 = Some PLAYER_WAITING
       ∧ Sudoku.score_of (game w) 0 = Some 10.
Proof. eexists. split; [by vm_compute|]. by vm_compute. Qed.

(** * The log queue *)

Section LogQueueFacts.
Context {G E : Type}.
Implicit Types w : World G E.
Implicit Types q : LogQueue.

Lemma log_inv_wf q : log_inv q → wf_log q.
Proof.
  intros (Hlen & Hh & Hc & Ht). split; [done|]. rewrite Ht.
  unfold LOG_QUEUE_SIZE in *. apply Z.mod_pos_bound. lia.
Qed.

Lemma length_queue_contents q :
  log_inv q → length (queue_contents q) = Z.to_nat (q_count q).
Proof.
  intros (Hlen & Hh & Hc & Ht). unfold queue_contents.
  rewrite length_take, length_rotate, Hlen. unfold LOG_QUEUE_SIZE in *. lia.
Qed.

Lemma rotate_nat_add_Z (h i : Z) :
  0 <= h → 0 <= i →
  rotate_nat_add (Z.to_nat h) (Z.to_nat i) 100 = Z.to_nat ((h + i) `mod` 100).
Proof. intros Hh Hi. unfold rotate_nat_add. f_equal. f_equal; lia. Qed.

Lemma int_add_1 z : 0 <= z <= 100 → int_add z 1 = z + 1.
Proof. intros ?. apply int_add_exact. unfold in_int, INT_MIN, INT_MAX. lia. Qed.

Lemma int_sub_1 z : 0 <= z <= 100 → int_sub z 1 = z - 1.
Proof. intros ?. apply int_sub_exact. unfold in_int, INT_MIN, INT_MAX. lia. Qed.

(** A line that fits goes to the end of the queue. *)
Lemma log_push_contents m q :
  log_inv q → q_count q < LOG_QUEUE_SIZE →
  log_inv (log_push m q) ∧ queue_contents (log_push m q) = queue_contents q ++ [m].
Proof.
  intros (Hlen & Hh & Hc & Ht) Hroom. unfold log_push.
  rewrite (proj2 (Z.ltb_lt _ _) Hroom). unfold LOG_QUEUE_SIZE in *.
  assert (0 <= q_tail q < 100) as Htail by (rewrite Ht; apply Z.mod_pos_bound; lia).
  rewrite int_add_1 by lia.
  split.
  - unfold log_inv, LOG_QUEUE_SIZE. cbn [q_entries q_head q_tail q_count q_shutdown].
    split_and!; try lia.
    + by rewrite length_insert.
    + rewrite Z.rem_mod_nonneg by lia. rewrite Ht.
      rewrite Z.add_mod_idemp_l by lia. f_equal. lia.
  - unfold queue_contents. cbn [q_entries q_head q_tail q_count q_shutdown].
    replace (Z.to_nat (q_count q + 1)) with (S (Z.to_nat (q_count q))) by lia.
    rewrite Ht, <- rotate_nat_add_Z by lia. rewrite <- Hlen.
    rewrite rotate_insert_l by lia.
    erewrite take_S_r;
      [|apply list_lookup_insert_eq; rewrite length_rotate; lia].
    f_equal. by rewrite take_insert_ge by lia.
Qed.

(** A line that does not fit is dropped. *)
Lemma log_push_full m q : LOG_QUEUE_SIZE <= q_count q → log_push m q = q.
Proof. intros Hfull. unfold log_push. by rewrite (proj2 (Z.ltb_ge _ _) Hfull). Qed.

Lemma log_push_take m q :
  log_inv q →
  log_inv (log_push m q)
  ∧ queue_contents (log_push m q) = take 100 (queue_contents q ++ [m]).
Proof.
  intros Hinv. pose proof (length_queue_contents q Hinv) as Hlen.
  pose proof Hinv as (_ & _ & Hc & _). unfold LOG_QUEUE_SIZE in *.
  destruct (decide (q_count q < 100)) as [Hroom|Hfull].
  - destruct (log_push_contents m q Hinv Hroom) as [? ->]. split; [done|].
    rewrite take_ge; [done|]. rewrite length_app, Hlen. cbn. lia.
  - rewrite log_push_full by (unfold LOG_QUEUE_SIZE; lia). split; [done|].
    rewrite take_app_le by lia. rewrite take_ge; [done|lia].
Qed.

Lemma log_pop_contents q :
  log_inv q → 0 < q_count q →
  ∃ e, arr_get (q_entries q) (q_head q) = Some e
       ∧ log_inv (log_pop q)
       ∧ queue_contents q = e :: queue_contents (log_pop q).
Proof.
  intros (Hlen & Hh & Hc & Ht) Hpos. unfold LOG_QUEUE_SIZE in *.
  destruct (arr_get_is_Some (q_entries q) (q_head q)) as [e He]; [lia|].
  exists e. split; [done|].
  assert (int_add (q_head q) 1 = q_head q + 1) as Hadd by (apply int_add_1; lia).
  assert (int_sub (q_count q) 1 = q_count q - 1) as Hsub by (apply int_sub_1; lia).
  assert (Z.rem (q_head q + 1) 100 = (q_head q + 1) `mod` 100) as Hrem
    by (apply Z.rem_mod_nonneg; lia).
  pose proof (Z.mod_pos_bound (q_head q + 1) 100 ltac:(lia)) as Hb.
  split.
  - unfold log_pop, log_inv, LOG_QUEUE_SIZE. cbn [q_entries q_head q_tail q_count q_shutdown].
    rewrite ?Hadd, ?Hsub, ?Hrem. split_and!; try done; try lia.
    rewrite Ht, Z.add_mod_idemp_l by lia. f_equal. lia.
  - unfold queue_contents, log_pop, LOG_QUEUE_SIZE.
    cbn [q_entries q_head q_tail q_count q_shutdown]. rewrite Hadd, Hsub, Hrem.
    apply list_eq. intros i.
    rewrite arr_get_nat in He by lia.
    destruct i as [|i].
    + cbn [lookup list_lookup].
      rewrite lookup_take_lt by lia. rewrite lookup_rotate_r by lia.
      change 0%nat with (Z.to_nat 0). rewrite Hlen, rotate_nat_add_Z by lia.
      rewrite Z.add_0_r, Z.mod_small by lia. done.
    + change ((e :: ?l) !! S i) with (l !! i).
      destruct (decide (S i < Z.to_nat (q_count q))%nat) as [Hi|Hi].
      * rewrite !lookup_take_lt by lia. rewrite !lookup_rotate_r by lia.
        rewrite Hlen. f_equal.
        replace (S i) with (Z.to_nat (Z.of_nat i + 1)) by lia.
        replace i with (Z.to_nat (Z.of_nat i)) at 2 by lia.
        rewrite !rotate_nat_add_Z by lia. f_equal.
        rewrite Z.add_mod_idemp_l by lia. f_equal. lia.
      * rewrite !lookup_take_ge by lia. done.
Qed.

(** The inner loop of the logger writes the waiting lines, oldest first,
    and leaves the queue empty. *)
Lemma logger_loop_run (n : nat) : ∀ (fuel : nat) w,
  log_inv (log_queue w) → Z.to_nat (q_count (log_queue w)) = n → (n ≤ fuel)%nat →
  ∃ q', logger_loop fuel w = Ok (queue_contents (log_queue w)) (with_log_queue q' w)
        ∧ log_inv q' ∧ q_count q' = 0
        ∧ q_head q' = q_tail (log_queue w) ∧ q_tail q' = q_tail (log_queue w)
        ∧ q_entries q' = q_entries (log_queue w)
        ∧ q_shutdown q' = q_shutdown (log_queue w).
Proof.
  induction n as [|n IH]; intros fuel w Hinv Hn Hfuel.
  - pose proof Hinv as (Hlen & Hh & Hc & Ht). unfold LOG_QUEUE_SIZE in *.
    assert (q_count (log_queue w) = 0) as H0 by lia.
    exists (log_queue w).
    assert (logger_loop fuel w = Ok [] w) as ->.
    { destruct fuel; cbn; unfold bind, read_log; rewrite H0; done. }
    unfold queue_contents. rewrite H0. cbn. destruct w; cbn in *.
    split_and!; try done.
    rewrite Ht, H0, Z.add_0_r, Z.mod_small; lia.
  - destruct fuel as [|fuel]; [lia|].
    assert (0 < q_count (log_queue w)) as Hpos by lia.
    destruct (log_pop_contents _ Hinv Hpos) as (e & He & Hinv' & Hcont).
    destruct (IH fuel (with_log_queue (log_pop (log_queue w)) w)) as (q' & Hrun & Hq');
      [done| |lia|].
    { cbn [log_queue with_log_queue log_pop q_count].
      pose proof Hinv as (_ & _ & Hc & _). unfold LOG_QUEUE_SIZE in *.
      rewrite int_sub_1 by lia. lia. }
    exists q'. cbn [logger_loop]. unfold bind at 1. unfold read_log at 1.
    rewrite (proj2 (Z.ltb_lt _ _) Hpos).
    unfold bind at 1. unfold lift_opt. rewrite He. cbn [ret].
    unfold bind at 1. unfold write_log, modify. fold (log_pop (log_queue w)).
    unfold bind at 1. rewrite Hrun. cbn [ret].
    rewrite Hcont. split; [by destruct w|]. done.
Qed.
End LogQueueFacts.

(** Extra X1.  A call of [enqueue_log] on a queue with room appends its
    line behind the lines already waiting; on a full queue it drops the
    line without a trace.  Either way the circular buffer keeps its shape
    and nothing outside the queue changes. *)
Theorem enqueue_log_appends_or_drops {G E} (fmt : string) (args : list LogArg) (w : World G E) :
  log_lock (locks w) = 0 → log_inv (log_queue w) →
  ∃ w', enqueue_log fmt args w = Ok tt w'
        ∧ log_inv (log_queue w') ∧ log_only w w'
        ∧ (q_count (log_queue w) < LOG_QUEUE_SIZE →
             queue_contents (log_queue w') = queue_contents (log_queue w) ++ [(fmt, args)])
        ∧ (q_count (log_queue w) = LOG_QUEUE_SIZE → log_queue w' = log_queue w).
Proof.
  intros Hl Hinv. exists (logged (fmt, args) w).
  split; [by apply enqueue_log_run; [|apply log_inv_wf]|].
  unfold logged. cbn. split_and!.
  - by apply log_push_take.
  - unfold log_only. cbn. split_and!; done.
  - intros Hroom. by apply log_push_contents.
  - intros Hfull. apply log_push_full. lia.
Qed.

(** Extra X2.  One round of the logger thread writes every waiting line,
    oldest first, and leaves the queue empty with [head] on [tail]; it
    reports that it may exit exactly when [shutdown] is set, so no line
    queued before the shutdown is lost. *)
Theorem logger_drains_in_order {G E} (w : World G E) :
  log_lock (locks w) = 0 → log_inv (log_queue w) →
  ∃ w', logger_iteration w = Ok (queue_contents (log_queue w),
                                negb (q_shutdown (log_queue w) =? 0)) w'
        ∧ log_inv (log_queue w') ∧ log_only w w'
        ∧ queue_contents (log_queue w') = []
        ∧ q_count (log_queue w') = 0
        ∧ q_head (log_queue w') = q_tail (log_queue w')
        ∧ q_tail (log_queue w') = q_tail (log_queue w).
Proof.
  intros Hl Hinv. unfold logger_iteration.
  unfold bind at 1. unfold spin_lock. cbn [lock_word]. rewrite Hl. cbn [Z.eqb].
  unfold bind at 1. unfold read_log at 1.
  set (w1 := with_lock_trace _ _).
  destruct (logger_loop_run (Z.to_nat (q_count (log_queue w1))) (Z.to_nat (q_count (log_queue w1))) w1)
    as (q' & Hrun & Hinv' & Hc & Hh & Ht & He & Hs); [done..|].
  unfold bind at 1. cbn [log_queue w1 with_lock_trace with_locks] in Hrun |- *.
  rewrite Hrun. unfold bind at 1. unfold read_log at 1.
  cbn [log_queue with_log_queue]. rewrite Hc, Hs. cbn [Z.eqb]. rewrite andb_true_r.
  unfold bind, spin_unlock, ret. eexists. split; [reflexivity|].
  cbn. split_and!; try done.
  - unfold log_only. cbn. split_and!; try done. destruct (locks w); cbn in *. by subst.
  - unfold queue_contents. by rewrite Hc.
  - congruence.
Qed.

Lemma take_take_app {A} (n : nat) (l l' : list A) :
  take n (take n l ++ l') = take n (l ++ l').
Proof.
  destruct (decide (n ≤ length l)%nat) as [Hle|Hgt].
  - rewrite !take_app_le by (rewrite ?length_take; lia). by rewrite take_take, Nat.min_id.
  - by rewrite (take_ge l) by lia.
Qed.

Lemma enqueue_all_run {G E} (ms : list LogMsg) : ∀ (w : World G E),
  log_lock (locks w) = 0 → log_inv (log_queue w) →
  ∃ w', enqueue_all ms w = Ok tt w'
        ∧ log_inv (log_queue w') ∧ log_only w w'
        ∧ queue_contents (log_queue w') = take 100 (queue_contents (log_queue w) ++ ms).
Proof.
  induction ms as [|m ms IH]; intros w Hl Hinv.
  - exists w. cbn. split_and!; try done.
    rewrite app_nil_r, take_ge; [done|].
    rewrite length_queue_contents by done.
    destruct Hinv as (_ & _ & Hc & _). unfold LOG_QUEUE_SIZE in *. lia.
  - cbn [enqueue_all]. unfold bind. destruct m as [fmt args]. cbn [fst snd].
    rewrite enqueue_log_run; [|done|by apply log_inv_wf].
    destruct (log_push_take (fmt, args) (log_queue w) Hinv) as [Hinv1 Hc1].
    destruct (IH (logged (fmt, args) w)) as (w' & Hrun & Hinv' & Hframe & Hc'); [done..|].
    rewrite Hrun.
    exists w'. split; [done|]. split; [done|]. split.
    + destruct Hframe as (? & ? & ? & ? & ?). unfold log_only. split_and!; done.
    + rewrite Hc'. cbn [logged log_queue with_lock_trace with_log_queue].
      rewrite Hc1, take_take_app. by rewrite <- app_assoc.
Qed.

(** Extra X3.  Lines logged one after the other reach the log file in the
    order of the calls: after any number of calls of [enqueue_log], the
    next round of the logger writes the lines that were waiting followed
    by the new ones, cut off after [LOG_QUEUE_SIZE] lines in all. *)
Theorem log_lines_keep_their_order {G E} (ms : list LogMsg) (w : World G E) :
  log_lock (locks w) = 0 → log_inv (log_queue w) →
  ∃ w1 w2 stop,
    enqueue_all ms w = Ok tt w1
    ∧ logger_iteration w1 = Ok (take 100 (queue_contents (log_queue w) ++ ms), stop) w2
    ∧ queue_contents (log_queue w2) = [].
Proof.
  intros Hl Hinv.
  destruct (enqueue_all_run ms w Hl Hinv) as (w1 & Hrun & Hinv1 & Hframe & Hc).
  assert (log_lock (locks w1) = 0) as Hl1.
  { destruct Hframe as (_ & _ & _ & _ & ->). done. }
  unfold logger_iteration.
  exists w1.
  assert (∃ w2 stop, logger_iteration w1 = Ok (queue_contents (log_queue w1), stop) w2
                     ∧ queue_contents (log_queue w2) = []) as (w2 & stop & Hrun2 & Hempty).
  { clear Hrun Hframe Hc. unfold logger_iteration.
    unfold bind at 1. unfold spin_lock. cbn [lock_word]. rewrite Hl1. cbn [Z.eqb].
    unfold bind at 1. unfold read_log at 1.
    set (w1' := with_lock_trace _ _).
    destruct (logger_loop_run (Z.to_nat (q_count (log_queue w1'))) (Z.to_nat (q_count (log_queue w1'))) w1')
      as (q' & Hrun & Hinv' & Hc & _); [done..|].
    unfold bind at 1. cbn [log_queue w1' with_lock_trace with_locks] in Hrun |- *.
    rewrite Hrun. unfold bind, read_log, spin_unlock, ret. do 2 eexists.
    split; [reflexivity|]. cbn. unfold queue_contents. by rewrite Hc. }
  exists w2, stop. rewrite <- Hc. done.
Qed.

(** * Generation of the solution grid *)

(** Rules of [wpr]. *)
Section WprRules.
Context {W : Type}.
Implicit Types w : W.

Lemma wpr_bind {A B} (m : M W A) (k : A → M W B) Q w :
  wpr m (λ a w', wpr (k a) Q w') w → wpr (bind m k) Q w.
Proof. unfold wpr, bind. destruct (m w); auto. Qed.

Lemma wpr_ret {A} (a : A) (Q : A → W → Prop) w : Q a w → wpr (ret a) Q w.
Proof. auto. Qed.

Lemma wpr_mono {A} (m : M W A) (Q Q' : A → W → Prop) w :
  wpr m Q w → (∀ a w', Q a w' → Q' a w') → wpr m Q' w.
Proof. unfold wpr. destruct (m w); auto. Qed.

Lemma wp_wpr {A} (m : M W A) (Q : A → W → Prop) w : wp m Q w → wpr m Q w.
Proof. unfold wp, wpr. destruct (m w); [auto|done]. Qed.

Lemma wpr_lift_opt {A} (o : option A) a (Q : A → W → Prop) w :
  o = Some a → Q a w → wpr (lift_opt o) Q w.
Proof. intros ->. auto. Qed.

Lemma wpr_run {A} (m : M W A) (Q : A → W → Prop) w a w' :
  wpr m Q w → m w = Ok a w' → Q a w'.
Proof. unfold wpr. intros H Hrun. by rewrite Hrun in H. Qed.

Lemma bind_Ok {A B} (m : M W A) (k : A → M W B) w a w1 :
  m w = Ok a w1 → bind m k w = k a w1.
Proof. unfold bind. by intros ->. Qed.

Lemma lift_opt_Ok {A} (o : option A) a w : o = Some a → lift_opt o w = Ok a w.
Proof. by intros ->. Qed.
End WprRules.

Lemma wpr_rand {G E} (Q : Z → World G E → Prop) (w : World G E) :
  (∀ r rs, rand_stream w = r :: rs → Q r (with_rand_stream rs w)) → wpr rand Q w.
Proof. intros HQ. unfold wpr, rand. destruct (rand_stream w); [done|]. by apply HQ. Qed.

Module GeneratorFacts.
Import Generator.

Lemma cell_at_in_grid g r c v : wf_grid g → cell_at g r c = Some v → in_grid r c.
Proof.
  intros [Hlen Hrows]. unfold cell_at.
  destruct (arr_get g r) as [row|] eqn:Hr; [|done]. intros Hc.
  apply arr_get_Some in Hr as Hrr. apply arr_get_Some in Hc as Hcc.
  rewrite arr_get_nat in Hr by lia.
  rewrite (Forall_lookup_1 _ _ _ _ Hrows Hr) in Hcc. unfold in_grid. lia.
Qed.

Lemma cell_at_is_Some g r c : wf_grid g → in_grid r c → ∃ v, cell_at g r c = Some v.
Proof.
  intros [Hlen Hrows] [Hr Hc]. unfold cell_at.
  destruct (arr_get_is_Some g r) as [row Hrow]; [lia|]. rewrite Hrow.
  apply arr_get_is_Some. rewrite arr_get_nat in Hrow by lia.
  rewrite (Forall_lookup_1 _ _ _ _ Hrows Hrow). lia.
Qed.

Lemma cell_put_ok g r c v :
  wf_grid g → in_grid r c →
  ∃ g', cell_put g r c v = Some g' ∧ wf_grid g'
        ∧ cell_at g' r c = Some v
        ∧ ∀ r' c', ¬ (r' = r ∧ c' = c) → cell_at g' r' c' = cell_at g r' c'.
Proof.
  intros [Hlen Hrows] [Hr Hc]. unfold cell_put.
  destruct (arr_get_is_Some g r) as [row Hrow]; [lia|]. rewrite Hrow.
  rewrite arr_get_nat in Hrow by lia.
  pose proof (Forall_lookup_1 _ _ _ _ Hrows Hrow) as Hlrow. cbn beta in Hlrow.
  rewrite arr_set_ok by lia. rewrite arr_set_ok by lia.
  eexists. split; [done|]. split; [split|split].
  - by rewrite length_insert.
  - apply Forall_insert; [done|]. by rewrite length_insert.
  - unfold cell_at. rewrite arr_get_set_eq by lia. apply arr_get_set_eq. lia.
  - intros r' c' Hne. unfold cell_at.
    destruct (decide (r' = r)) as [->|Hrne].
    + rewrite arr_get_set_eq by lia. rewrite (arr_get_nat g r) by lia. rewrite Hrow.
      apply arr_get_set_ne; [lia|]. intros ->. by apply Hne.
    + by rewrite arr_get_set_ne by (lia || done).
Qed.

(** Writing back what a cell held undoes a write. *)
Lemma cell_put_back g r c v v0 g1 :
  cell_at g r c = Some v0 → cell_put g r c v = Some g1 → cell_put g1 r c v0 = Some g.
Proof.
  unfold cell_at, cell_put.
  destruct (arr_get g r) as [row|] eqn:Hrow; [|done]. intros Hv0.
  destruct (arr_set row c v) as [row'|] eqn:Hrow'; [|done]. intros Hg1.
  apply arr_get_Some in Hrow as Hr. apply arr_get_Some in Hv0 as Hc.
  rewrite arr_set_ok in Hrow' by lia. injection Hrow' as <-.
  rewrite arr_set_ok in Hg1 by lia. injection Hg1 as <-.
  rewrite arr_get_set_eq by lia.
  rewrite arr_set_ok by (rewrite length_insert; lia).
  rewrite arr_set_ok by (rewrite length_insert; lia).
  rewrite !list_insert_insert_eq. f_equal.
  rewrite arr_get_nat in Hrow by lia. rewrite arr_get_nat in Hv0 by lia.
  rewrite (list_insert_id row) by done. by apply list_insert_id.
Qed.

(** *** The cells [is_valid_placement] reads *)

Lemma occurs_spec g cells num :
  wf_grid g → Forall (λ rc, in_grid rc.1 rc.2) cells →
  ∃ b, occurs g cells num = Some b
       ∧ (b = true ↔ ∃ rc, rc ∈ cells ∧ cell_at g rc.1 rc.2 = Some num).
Proof.
  intros Hwf. induction 1 as [|[r c] cells Hin _ IH]; cbn [occurs].
  - exists false. split; [done|]. split; [done|]. intros (rc & []%elem_of_nil & _).
  - destruct (cell_at_is_Some g r c Hwf Hin) as [v Hv]. rewrite Hv.
    destruct (v =? num) eqn:Heq.
    + apply Z.eqb_eq in Heq as ->. exists true. split; [done|]. split; [|done].
      intros _. exists (r, c). split; [left|done].
    + apply Z.eqb_neq in Heq. destruct IH as (b & -> & Hb). exists b. split; [done|].
      rewrite Hb. split.
      * intros (rc & Hrc & Hnum). exists rc. split; [by right|done].
      * intros (rc & Hrc & Hnum). apply elem_of_cons in Hrc as [->|Hrc]; [|eauto].
        cbn in Hnum. congruence.
Qed.

Lemma index_cases z : 0 <= z < 9 → z ∈ Sudoku.indices9.
Proof.
  intros H. assert (z = 0 ∨ z = 1 ∨ z = 2 ∨ z = 3 ∨ z = 4 ∨ z = 5 ∨ z = 6 ∨ z = 7 ∨ z = 8)
    as Hz by lia.
  unfold Sudoku.indices9. rewrite !elem_of_cons. tauto.
Qed.

Lemma index_range z : z ∈ Sudoku.indices9 → 0 <= z < 9.
Proof. unfold Sudoku.indices9. rewrite !elem_of_cons, elem_of_nil. lia. Qed.

Lemma in_all_cells r c : (r, c) ∈ all_cells ↔ in_grid r c.
Proof.
  unfold all_cells, in_grid. rewrite list_elem_of_bind. split.
  - intros (r' & Hc & Hr). apply list_elem_of_bind in Hc as (c' & Hrc & Hc).
    apply list_elem_of_singleton in Hrc as [= -> ->].
    split; by apply index_range.
  - intros [Hr Hc]. exists r. split; [|by apply index_cases].
    apply list_elem_of_bind. exists c. split; [by left|by apply index_cases].
Qed.

Lemma unit_cells_decided :
  forallb (λ '(r, c),
    forallb (λ '(r', c'),
      Bool.eqb (bool_decide ((r', c') ∈ unit_cells r c))
        (bool_decide (r' = r) || bool_decide (c' = c)
         || (bool_decide (r' / 3 = r / 3) && bool_decide (c' / 3 = c / 3))))
      all_cells
    && forallb (λ '(r', c'), bool_decide (0 <= r' < 9) && bool_decide (0 <= c' < 9))
         (unit_cells r c)) all_cells = true.
Proof. by vm_compute. Qed.

Lemma in_unit_cells r c r' c' :
  in_grid r c →
  (r', c') ∈ unit_cells r c ↔ in_grid r' c' ∧ same_unit r c r' c'.
Proof.
  intros Hin. pose proof unit_cells_decided as H.
  rewrite forallb_forall in H. apply in_all_cells, list_elem_of_In in Hin.
  specialize (H _ Hin). cbn beta iota in H. apply andb_true_iff in H as [H1 H2].
  rewrite forallb_forall in H1, H2. split.
  - intros Hu. assert (in_grid r' c') as Hin'.
    { apply list_elem_of_In in Hu. specialize (H2 _ Hu). cbn beta iota in H2.
      apply andb_true_iff in H2 as [?%bool_decide_eq_true ?%bool_decide_eq_true]. done. }
    split; [done|]. apply in_all_cells, list_elem_of_In in Hin'.
    specialize (H1 _ Hin'). cbn beta iota in H1. rewrite bool_decide_eq_true_2 in H1 by done.
    apply eqb_prop in H1. symmetry in H1.
    apply orb_true_iff in H1 as [H1|H1].
    + apply orb_true_iff in H1 as [?%bool_decide_eq_true|?%bool_decide_eq_true].
      * by left.
      * right. by left.
    + apply andb_true_iff in H1 as [?%bool_decide_eq_true ?%bool_decide_eq_true].
      right. by right.
  - intros [Hin' Hsame]. apply in_all_cells, list_elem_of_In in Hin'.
    specialize (H1 _ Hin'). cbn beta iota in H1.
    assert ((bool_decide (r' = r) || bool_decide (c' = c)
             || (bool_decide (r' / 3 = r / 3) && bool_decide (c' / 3 = c / 3)))%bool = true)
      as Hb.
    { destruct Hsame as [->|[->|[Hr Hc]]].
      - by rewrite bool_decide_eq_true_2.
      - rewrite (bool_decide_eq_true_2 (c = c)) by done. by rewrite orb_true_r.
      - rewrite (bool_decide_eq_true_2 _ Hr), (bool_decide_eq_true_2 _ Hc).
        by rewrite orb_true_r. }
    rewrite Hb in H1. apply eqb_prop in H1. by apply bool_decide_eq_true in H1.
Qed.

Lemma unit_cells_in_grid r c :
  in_grid r c → Forall (λ rc, in_grid rc.1 rc.2) (unit_cells r c).
Proof.
  intros Hin. apply Forall_forall. intros [r' c'] Hu.
  by apply (in_unit_cells r c r' c' Hin) in Hu as [? _].
Qed.

Lemma is_valid_placement_unit g row col num :
  wf_grid g → in_grid row col →
  ∃ ok, is_valid_placement g row col num = Some ok
        ∧ (ok = 0 ∨ ok = 1)
        ∧ (ok = 1 ↔ ∀ r c, in_grid r c → same_unit row col r c → cell_at g r c ≠ Some num).
Proof.
  intros Hwf Hin.
  pose proof (unit_cells_in_grid row col Hin) as Hall. unfold unit_cells in Hall.
  apply Forall_app in Hall as [Hrow Hall]. apply Forall_app in Hall as [Hcol Hbox].
  destruct (occurs_spec g _ num Hwf Hrow) as (b1 & H1 & Hb1).
  destruct (occurs_spec g _ num Hwf Hcol) as (b2 & H2 & Hb2).
  destruct (occurs_spec g _ num Hwf Hbox) as (b3 & H3 & Hb3).
  assert (∀ r c, in_grid r c → same_unit row col r c → cell_at g r c = Some num →
                 b1 = true ∨ b2 = true ∨ b3 = true) as Hfound.
  { intros r c Hrc Hsame Hnum.
    assert ((r, c) ∈ unit_cells row col) as Hu by by apply in_unit_cells.
    unfold unit_cells in Hu. rewrite !elem_of_app in Hu.
    destruct Hu as [Hu|[Hu|Hu]]; [left; apply Hb1|right; left; apply Hb2|right; right; apply Hb3];
      by exists (r, c). }
  assert (∀ cells : list (Z * Z),
            (∃ rc, rc ∈ cells ∧ cell_at g rc.1 rc.2 = Some num) →
            (∀ rc, rc ∈ cells → rc ∈ unit_cells row col) →
                   ¬ ∀ r c, in_grid r c → same_unit row col r c → cell_at g r c ≠ Some num)
    as Hno.
  { intros cells ([r c] & Hrc & Hnum) Hsub Hfree.
    apply Hsub, in_unit_cells in Hrc as [? ?]; [|done]. by eapply Hfree. }
  unfold is_valid_placement. rewrite H1. cbn [mbind option_bind].
  destruct b1.
  { exists 0. split; [done|]. split; [by left|]. split; [done|]. intros Hfree. exfalso.
    eapply Hno; [by apply Hb1| |done]. intros rc ?. unfold unit_cells. rewrite !elem_of_app. tauto. }
  rewrite H2. cbn [mbind option_bind]. destruct b2.
  { exists 0. split; [done|]. split; [by left|]. split; [done|]. intros Hfree. exfalso.
    eapply Hno; [by apply Hb2| |done]. intros rc ?. unfold unit_cells. rewrite !elem_of_app. tauto. }
  rewrite H3. cbn [mbind option_bind]. destruct b3.
  { exists 0. split; [done|]. split; [by left|]. split; [done|]. intros Hfree. exfalso.
    eapply Hno; [by apply Hb3| |done]. intros rc ?. unfold unit_cells. rewrite !elem_of_app. tauto. }
  exists 1. split; [done|]. split; [by right|]. split; [|done].
  intros _ r c Hrc Hsame Hnum.
  destruct (Hfound r c Hrc Hsame Hnum) as [?|[?|?]]; done.
Qed.

(** *** [shuffle_array] *)

Lemma with_rand_stream_id {G E} (w : World G E) : with_rand_stream (rand_stream w) w = w.
Proof. by destruct w. Qed.

Lemma with_rand_stream_twice {G E} (w : World G E) rs rs' :
  with_rand_stream rs (with_rand_stream rs' w) = with_rand_stream rs w.
Proof. done. Qed.

Lemma shuffle_loop_run {G E} (n : nat) : ∀ (arr : list Z) (w : World G E) rs rest,
  rand_stream w = rs ++ rest → length rs = n → Forall (λ r, 0 <= r) rs →
  (n ≤ length arr - 1)%nat → Z.of_nat n < INT_MAX →
  ∃ arr', shuffle_loop n arr w = Ok arr' (with_rand_stream rest w)
          ∧ arr' ≡ₚ arr ∧ drop (S n) arr' = drop (S n) arr.
Proof.
  induction n as [|n IH]; intros arr w rs rest Hrs Hlen Hpos Hn Hmax.
  - destruct rs; [|done]. cbn in Hrs. exists arr. cbn. rewrite <- Hrs.
    by rewrite with_rand_stream_id.
  - destruct rs as [|r rs]; [done|]. apply Forall_cons in Hpos as [Hr Hpos].
    cbn [shuffle_loop]. unfold bind at 1. unfold rand. rewrite Hrs. cbn [app].
    set (i := Z.of_nat (S n)).
    assert (int_add i 1 = i + 1) as ->.
    { apply int_add_exact. unfold in_int, INT_MIN, INT_MAX in *. lia. }
    set (j := Z.rem r (i + 1)).
    assert (0 <= j <= i) as Hj.
    { pose proof (Z.rem_bound_pos r (i + 1)). lia. }
    destruct (arr_get_is_Some arr i) as [temp Htemp]; [lia|].
    destruct (arr_get_is_Some arr j) as [aj Haj]; [lia|].
    unfold bind at 1. rewrite Htemp. cbn [lift_opt ret].
    unfold bind at 1. rewrite Haj. cbn [lift_opt ret].
    unfold bind at 1. rewrite arr_set_ok by lia. cbn [lift_opt ret].
    unfold bind at 1. rewrite arr_set_ok by (rewrite length_insert; lia). cbn [lift_opt ret].
    destruct (IH (<[Z.to_nat j := temp]> (<[Z.to_nat i := aj]> arr))
                (with_rand_stream (rs ++ rest) w) rs rest)
      as (arr' & Hrun & Hperm & Hdrop); [done|by injection Hlen|done| |lia|].
    { rewrite !length_insert. lia. }
    exists arr'. rewrite Hrun. split; [done|].
    rewrite arr_get_nat in Htemp, Haj by lia.
    split.
    + rewrite Hperm. by apply Permutation_insert_swap.
    + apply (f_equal (drop 1)) in Hdrop. rewrite !drop_drop in Hdrop.
      replace (S n + 1)%nat with (S (S n)) in Hdrop by lia. rewrite Hdrop.
      rewrite !drop_insert_lt by lia. done.
Qed.

(** *** The first empty cell *)

Lemma first_empty_cells g cells :
  wf_grid g → Forall (λ rc, in_grid rc.1 rc.2) cells →
  (first_empty g cells = Some None
   ∧ ∀ rc, rc ∈ cells → cell_at g rc.1 rc.2 ≠ Some 0)
  ∨ (∃ r c, first_empty g cells = Some (Some (r, c))
            ∧ in_grid r c ∧ cell_at g r c = Some 0).
Proof.
  intros Hwf. induction 1 as [|[r c] cells Hin _ IH]; cbn [first_empty].
  - left. split; [done|]. by intros rc ?%elem_of_nil.
  - destruct (cell_at_is_Some g r c Hwf Hin) as [v Hv]. rewrite Hv.
    unfold Sudoku.EMPTY_CELL. destruct (v =? 0) eqn:Heq.
    + apply Z.eqb_eq in Heq as ->. right. by exists r, c.
    + apply Z.eqb_neq in Heq. destruct IH as [[-> Hnone]|IH]; [|by right].
      left. split; [done|]. intros rc [->|Hrc]%elem_of_cons; [|by apply Hnone].
      cbn. congruence.
Qed.

Lemma first_empty_spec g :
  wf_grid g →
  (first_empty g all_cells = Some None ∧ no_empty g)
  ∨ (∃ r c, first_empty g all_cells = Some (Some (r, c))
            ∧ in_grid r c ∧ cell_at g r c = Some 0).
Proof.
  intros Hwf. destruct (first_empty_cells g all_cells Hwf) as [[Hf Hnone]|?]; [|left|by right].
  { apply Forall_forall. intros [r c]. apply in_all_cells. }
  split; [done|]. intros r c Hin.
  destruct (cell_at_is_Some g r c Hwf Hin) as [v Hv]. exists v. split; [done|].
  intros ->. by apply (Hnone (r, c)); [apply in_all_cells|].
Qed.

(** *** The number of empty cells *)

Lemma filter_length_one {A} (P Q : A → Prop) `{∀ x, Decision (P x)} `{∀ x, Decision (Q x)}
    (l : list A) (x : A) :
  NoDup l → x ∈ l → P x → ¬ Q x → (∀ y, y ≠ x → P y ↔ Q y) →
  length (filter P l) = S (length (filter Q l)).
Proof.
  intros Hnd Hx HP HQ Hother. induction Hnd as [|y l Hy Hnd IH]; [by apply elem_of_nil in Hx|].
  apply elem_of_cons in Hx as [<-|Hx].
  - rewrite filter_cons_True by done. rewrite filter_cons_False by done. cbn. f_equal.
    clear IH. induction l as [|z l IHl]; [done|].
    apply not_elem_of_cons in Hy as [Hne Hy]. apply NoDup_cons in Hnd as [_ Hnd].
    rewrite !filter_cons. specialize (Hother z ltac:(done)).
    destruct (decide (P z)), (decide (Q z)); cbn; try tauto; by rewrite IHl.
  - assert (y ≠ x) as Hne by (intros ->; done).
    rewrite !filter_cons. specialize (Hother y Hne).
    destruct (decide (P y)), (decide (Q y)); cbn; try tauto; by rewrite IH.
Qed.

Lemma all_cells_NoDup : NoDup all_cells.
Proof. refine (bool_decide_unpack _ _). by vm_compute. Qed.

Lemma empty_count_put g r c v g1 :
  wf_grid g → in_grid r c → cell_at g r c = Some 0 → v ≠ 0 →
  cell_at g1 r c = Some v →
  (∀ r' c', ¬ (r' = r ∧ c' = c) → cell_at g1 r' c' = cell_at g r' c') →
  empty_count g = S (empty_count g1).
Proof.
  intros Hwf Hin H0 Hv H1 Hother. unfold empty_count, Sudoku.EMPTY_CELL.
  apply (filter_length_one _ _ all_cells (r, c)).
  - apply all_cells_NoDup.
  - by apply in_all_cells.
  - done.
  - cbn. rewrite H1. congruence.
  - intros [r' c'] Hne. cbn. rewrite Hother; [done|]. intros [-> ->]. done.
Qed.

(** *** Random values drawn *)

Lemma drew_refl {G E} (w : World G E) : drew w w.
Proof. exists []. split; [done|]. by rewrite with_rand_stream_id. Qed.

Lemma drew_trans {G E} (w1 w2 w3 : World G E) : drew w1 w2 → drew w2 w3 → drew w1 w3.
Proof.
  intros (u1 & H1 & E1) (u2 & H2 & E2). exists (u1 ++ u2). split.
  - by rewrite H1, H2, app_assoc.
  - rewrite E2 at 1. rewrite E1 at 1. done.
Qed.

Lemma drew_nonneg {G E} (w w' : World G E) :
  drew w w' → Forall (λ r, 0 <= r) (rand_stream w) → Forall (λ r, 0 <= r) (rand_stream w').
Proof. intros (u & -> & _) [_ ?]%Forall_app. done. Qed.

Lemma drew_rand {G E} (w : World G E) r rs :
  rand_stream w = r :: rs → drew w (with_rand_stream rs w).
Proof. intros Hrs. exists [r]. split; [done|]. done. Qed.

Lemma shuffle_loop_wpr {G E} (n : nat) : ∀ (arr : list Z) (w : World G E),
  Forall (λ r, 0 <= r) (rand_stream w) →
  (n ≤ length arr - 1)%nat → Z.of_nat n < INT_MAX →
  wpr (shuffle_loop n arr) (λ arr' w', arr' ≡ₚ arr ∧ drew w w') w.
Proof.
  induction n as [|n IH]; intros arr w Hpos Hn Hmax.
  - apply wpr_ret. split; [done|apply drew_refl].
  - cbn [shuffle_loop]. apply wpr_bind, wpr_rand. intros r rs Hrs.
    rewrite Hrs in Hpos. apply Forall_cons in Hpos as [Hr Hpos].
    set (i := Z.of_nat (S n)).
    assert (int_add i 1 = i + 1) as ->.
    { apply int_add_exact. unfold in_int, INT_MIN, INT_MAX in *. lia. }
    set (j := Z.rem r (i + 1)).
    assert (0 <= j <= i) as Hj.
    { pose proof (Z.rem_bound_pos r (i + 1)). lia. }
    destruct (arr_get_is_Some arr i) as [temp Htemp]; [lia|].
    destruct (arr_get_is_Some arr j) as [aj Haj]; [lia|].
    apply wpr_bind. eapply wpr_lift_opt; [done|].
    apply wpr_bind. eapply wpr_lift_opt; [done|].
    apply wpr_bind. eapply wpr_lift_opt; [by apply arr_set_ok; lia|].
    apply wpr_bind. eapply wpr_lift_opt; [by apply arr_set_ok; rewrite length_insert; lia|].
    eapply wpr_mono; [apply IH|].
    + done.
    + rewrite !length_insert. lia.
    + lia.
    + intros arr' w' [Hperm Hdrew]. cbn beta. split.
      * rewrite Hperm. rewrite arr_get_nat in Htemp, Haj by lia.
        by apply Permutation_insert_swap.
      * eapply drew_trans; [by apply (drew_rand w r rs)|done].
Qed.

(** *** The search *)

Lemma same_unit_sym r c r' c' : same_unit r c r' c' → same_unit r' c' r c.
Proof. unfold same_unit. intros [->|[->|[-> ->]]]; auto. Qed.

(** A number put where [is_valid_placement] allows it keeps the grid
    free of repetitions. *)
Lemma consistent_put g row col num g1 :
  wf_grid g → in_grid row col → cell_at g row col = Some 0 → num ≠ 0 →
  (∀ r c, in_grid r c → same_unit row col r c → cell_at g r c ≠ Some num) →
  wf_grid g1 → cell_at g1 row col = Some num →
  (∀ r' c', ¬ (r' = row ∧ c' = col) → cell_at g1 r' c' = cell_at g r' c') →
  consistent g → consistent g1.
Proof.
  intros Hwf Hin H0 Hnum Hfree Hwf1 H1 Hother Hcons r c r' c' v Hv Hv0 Hv' Hsame.
  destruct (decide (r = row ∧ c = col)) as [[-> ->]|Hne];
    destruct (decide (r' = row ∧ c' = col)) as [[-> ->]|Hne']; [done| | |].
  - rewrite H1 in Hv. injection Hv as <-. rewrite Hother in Hv' by done.
    exfalso. eapply Hfree; [|done..]. apply (cell_at_in_grid g r' c' num Hwf Hv').
  - rewrite H1 in Hv'. injection Hv' as <-. rewrite Hother in Hv by done.
    exfalso. eapply Hfree; [|by apply same_unit_sym|done].
    apply (cell_at_in_grid g r c num Hwf Hv).
  - rewrite Hother in Hv, Hv' by done. by eapply Hcons.
Qed.

Lemma extends_put g row col g1 :
  cell_at g row col = Some 0 →
  (∀ r' c', ¬ (r' = row ∧ c' = col) → cell_at g1 r' c' = cell_at g r' c') →
  extends g g1.
Proof.
  intros H0 Hother r c v Hv Hv0. rewrite Hother; [done|]. intros [-> ->]. congruence.
Qed.

Lemma extends_trans g1 g2 g3 : extends g1 g2 → extends g2 g3 → extends g1 g3.
Proof. intros H12 H23 r c v Hv Hv0. apply H23; [|done]. by apply H12. Qed.

Lemma in_range_put g row col num g1 :
  1 <= num <= 9 → cell_at g1 row col = Some num →
  (∀ r' c', ¬ (r' = row ∧ c' = col) → cell_at g1 r' c' = cell_at g r' c') →
  in_range g → in_range g1.
Proof.
  intros Hnum H1 Hother Hr r c v Hv.
  destruct (decide (r = row ∧ c = col)) as [[-> ->]|Hne].
  - rewrite H1 in Hv. injection Hv as <-. lia.
  - rewrite Hother in Hv by done. by eapply Hr.
Qed.

Section Search.
Context {G E : Type}.
Implicit Types w : World G E.

Lemma try_numbers_outcome (again : list (list Z) → M (World G E) (Z * list (list Z)))
    row col g :
  wf_grid g → in_grid row col → cell_at g row col = Some 0 →
  (∀ g1 w1, wf_grid g1 → empty_count g = S (empty_count g1) →
            Forall (λ r, 0 <= r) (rand_stream w1) →
            wpr (again g1) (λ r w', outcome g1 r ∧ drew w1 w') w1) →
  ∀ nums w, Forall (λ n, 1 <= n <= 9) nums → Forall (λ r, 0 <= r) (rand_stream w) →
    wpr (try_numbers again row col nums g) (λ r w', outcome g r ∧ drew w w') w.
Proof.
  intros Hwf Hin H0 Hagain. induction nums as [|num nums IH]; intros w Hnums Hpos.
  { apply wpr_ret. split; [by left|apply drew_refl]. }
  apply Forall_cons in Hnums as [Hnum Hnums]. cbn [try_numbers].
  destruct (is_valid_placement_unit g row col num Hwf Hin) as (ok & Hok & Hcases & Hfree).
  apply wpr_bind. eapply wpr_lift_opt; [done|].
  destruct Hcases as [->| ->]; cbn [Z.eqb negb]; [by apply IH|].
  destruct (cell_put_ok g row col num Hwf Hin) as (g1 & Hput & Hwf1 & H1 & Hother).
  apply wpr_bind. eapply wpr_lift_opt; [done|].
  apply wpr_bind. eapply wpr_mono.
  { apply (Hagain g1 w); [done| |done].
    eapply (empty_count_put g row col num); [done..|lia|done|done]. }
  intros r w1 [Hout Hdrew1]. cbn beta.
  destruct Hout as [[Hr0 Hrg]|(Hr1 & Hwfr & Hfull & Hext & Hcons & Hrange)].
  - rewrite Hr0, Hrg. cbn [Z.eqb negb].
    apply wpr_bind. eapply wpr_lift_opt; [by eapply cell_put_back|].
    eapply wpr_mono; [apply IH; [done|by eapply drew_nonneg]|].
    intros r' w' [Hout Hdrew]. split; [done|by eapply drew_trans].
  - rewrite Hr1. cbn [Z.eqb negb]. apply wpr_ret. split; [|done].
    right. cbn [fst snd]. split_and!; try done.
    + eapply extends_trans; [by eapply extends_put|done].
    + intros Hc. apply Hcons. eapply (consistent_put g row col num); try done; [lia|].
      by apply Hfree.
    + intros Hr. apply Hrange. by eapply (in_range_put g row col num).
Qed.

Lemma nums_in_range nums : nums ≡ₚ nums_1_to_9 → Forall (λ n, 1 <= n <= 9) nums.
Proof.
  intros ->. unfold nums_1_to_9. repeat (apply Forall_cons; split; [lia|]). done.
Qed.

Lemma generate_full_grid_outcome (fuel : nat) : ∀ g w,
  wf_grid g → (empty_count g < fuel)%nat → Forall (λ r, 0 <= r) (rand_stream w) →
  wpr (generate_full_grid fuel g) (λ r w', outcome g r ∧ drew w w') w.
Proof.
  induction fuel as [|fuel IH]; intros g w Hwf Hfuel Hpos; [lia|].
  cbn [generate_full_grid]. apply wpr_bind.
  destruct (first_empty_spec g Hwf) as [[Hf Hfull]|(row & col & Hf & Hin & H0)].
  - eapply wpr_lift_opt; [done|]. apply wpr_ret. split; [|apply drew_refl].
    right. cbn [fst snd]. split_and!; try done. by intros r c v.
  - eapply wpr_lift_opt; [done|]. apply wpr_bind. unfold shuffle_array.
    eapply wpr_mono.
    { apply shuffle_loop_wpr; [done|by vm_compute|by vm_compute]. }
    intros nums w1 [Hperm Hdrew1]. cbn beta.
    eapply wpr_mono.
    { apply try_numbers_outcome; [done..| |by apply nums_in_range|by eapply drew_nonneg].
      intros g1 w2 Hwf1 Hcount Hpos2. apply IH; [done|lia|done]. }
    intros r w' [Hout Hdrew]. split; [done|by eapply drew_trans].
Qed.

(** The number the solution [s] has in an empty cell of [g] may be put
    there. *)
Lemma solution_value_valid g s row col v :
  wf_grid g → solved s → extends g s → in_grid row col →
  cell_at g row col = Some 0 → cell_at s row col = Some v →
  ∀ r c, in_grid r c → same_unit row col r c → cell_at g r c ≠ Some v.
Proof.
  intros Hwf (Hwfs & Hfulls & Hcons) Hext Hin H0 Hv r c Hrc Hsame Hg.
  destruct (Hfulls row col Hin) as (v' & Hv' & Hrange). rewrite Hv in Hv'.
  injection Hv' as <-.
  assert (v ≠ 0) as Hv0 by lia.
  pose proof (Hext r c v Hg Hv0) as Hs.
  destruct (Hcons row col r c v Hv Hv0 Hs Hsame) as [-> ->]. congruence.
Qed.

Lemma extends_put_solution g s row col v g1 :
  extends g s → cell_at s row col = Some v → cell_at g1 row col = Some v →
  (∀ r' c', ¬ (r' = row ∧ c' = col) → cell_at g1 r' c' = cell_at g r' c') →
  extends g1 s.
Proof.
  intros Hext Hs H1 Hother r c x Hx Hx0.
  destruct (decide (r = row ∧ c = col)) as [[-> ->]|Hne].
  - congruence.
  - rewrite Hother in Hx by done. by apply Hext.
Qed.

Lemma try_numbers_complete (again : list (list Z) → M (World G E) (Z * list (list Z)))
    row col g s v :
  wf_grid g → in_grid row col → cell_at g row col = Some 0 →
  solved s → extends g s → cell_at s row col = Some v →
  (∀ g1 w1, wf_grid g1 → empty_count g = S (empty_count g1) →
            Forall (λ r, 0 <= r) (rand_stream w1) →
            wpr (again g1) (λ r w', outcome g1 r ∧ drew w1 w') w1) →
  (∀ g1 w1, wf_grid g1 → empty_count g = S (empty_count g1) →
            Forall (λ r, 0 <= r) (rand_stream w1) → extends g1 s →
            wpr (again g1) (λ r _, r.1 = 1) w1) →
  ∀ nums w, v ∈ nums → Forall (λ r, 0 <= r) (rand_stream w) →
    wpr (try_numbers again row col nums g) (λ r _, r.1 = 1) w.
Proof.
  intros Hwf Hin H0 Hs Hext Hv Hagain Hright.
  pose proof (solution_value_valid g s row col v Hwf Hs Hext Hin H0 Hv) as Hvalid.
  assert (v ≠ 0) as Hv0.
  { destruct Hs as (_ & Hfull & _). destruct (Hfull row col Hin) as (v' & Hv' & ?).
    rewrite Hv in Hv'. injection Hv' as <-. lia. }
  induction nums as [|num nums IH]; intros w Hnums Hpos.
  { by apply elem_of_nil in Hnums. }
  cbn [try_numbers].
  destruct (is_valid_placement_unit g row col num Hwf Hin) as (ok & Hok & Hcases & Hfree).
  apply wpr_bind. eapply wpr_lift_opt; [done|].
  destruct Hcases as [->| ->]; cbn [Z.eqb negb].
  { apply IH; [|done]. apply elem_of_cons in Hnums as [->|?]; [|done].
    assert (0 = 1) by by apply Hfree. done. }
  destruct (cell_put_ok g row col num Hwf Hin) as (g1 & Hput & Hwf1 & H1 & Hother).
  assert (num ≠ 0 → empty_count g = S (empty_count g1)) as Hcount.
  { intros ?. by eapply (empty_count_put g row col num). }
  apply wpr_bind. eapply wpr_lift_opt; [done|].
  apply wpr_bind.
  destruct (decide (num = v)) as [->|Hne].
  - eapply wpr_mono.
    { apply Hright; [done|by apply Hcount|done|]. by eapply extends_put_solution. }
    intros r w1 Hr1. cbn beta. rewrite Hr1. cbn [Z.eqb negb]. by apply wpr_ret.
  - apply elem_of_cons in Hnums as [?|Hnums]; [done|].
    assert (num ≠ 0) as Hnum0.
    { intros ->. by eapply (proj1 Hfree eq_refl row col); [|left|]. }
    eapply wpr_mono.
    { apply Hagain; [done|by apply Hcount|done]. }
    intros r w1 [Hout Hdrew1]. cbn beta.
    destruct Hout as [[Hr0 Hrg]|(Hr1 & _)].
    + rewrite Hr0, Hrg. cbn [Z.eqb negb].
      apply wpr_bind. eapply wpr_lift_opt; [by eapply cell_put_back|].
      apply IH; [done|by eapply drew_nonneg].
    + rewrite Hr1. cbn [Z.eqb negb]. by apply wpr_ret.
Qed.

Lemma generate_full_grid_finds (fuel : nat) : ∀ g s w,
  wf_grid g → (empty_count g < fuel)%nat → Forall (λ r, 0 <= r) (rand_stream w) →
  solved s → extends g s →
  wpr (generate_full_grid fuel g) (λ r _, r.1 = 1) w.
Proof.
  induction fuel as [|fuel IH]; intros g s w Hwf Hfuel Hpos Hs Hext; [lia|].
  cbn [generate_full_grid]. apply wpr_bind.
  destruct (first_empty_spec g Hwf) as [[Hf Hfull]|(row & col & Hf & Hin & H0)].
  - eapply wpr_lift_opt; [done|]. by apply wpr_ret.
  - eapply wpr_lift_opt; [done|]. apply wpr_bind. unfold shuffle_array.
    eapply wpr_mono.
    { apply shuffle_loop_wpr; [done|by vm_compute|by vm_compute]. }
    intros nums w1 [Hperm Hdrew1]. cbn beta.
    pose proof Hs as (_ & Hfulls & _).
    destruct (Hfulls row col Hin) as (v & Hv & Hrange).
    eapply (try_numbers_complete _ row col g s v); try done.
    + intros g1 w2 Hwf1 Hcount Hpos2. apply generate_full_grid_outcome; [done|lia|done].
    + intros g1 w2 Hwf1 Hcount Hpos2 Hext1. eapply IH; [done|lia|done..].
    + rewrite Hperm. unfold nums_1_to_9.
      assert (v = 1 ∨ v = 2 ∨ v = 3 ∨ v = 4 ∨ v = 5 ∨ v = 6 ∨ v = 7 ∨ v = 8 ∨ v = 9)
        as Hcases by lia.
      rewrite !elem_of_cons. tauto.
    + by eapply drew_nonneg.
Qed.

(** *** The values a call draws *)

Lemma draws_bound_nonneg k : 0 <= draws_bound k.
Proof. induction k; cbn [draws_bound]; lia. Qed.

Lemma try_numbers_returns (again : list (list Z) → M (World G E) (Z * list (list Z)))
    row col g (B : Z) :
  wf_grid g → in_grid row col → cell_at g row col = Some 0 → 0 <= B →
  (∀ g1 w1, wf_grid g1 → empty_count g = S (empty_count g1) →
            Forall (λ r, 0 <= r) (rand_stream w1) →
            B <= Z.of_nat (length (rand_stream w1)) →
            ∃ r w', again g1 w1 = Ok r w' ∧ outcome g1 r ∧ drew w1 w'
                    ∧ Z.of_nat (length (rand_stream w1))
                      <= Z.of_nat (length (rand_stream w')) + B) →
  ∀ nums w, Forall (λ n, 1 <= n <= 9) nums → Forall (λ r, 0 <= r) (rand_stream w) →
    Z.of_nat (length nums) * B <= Z.of_nat (length (rand_stream w)) →
    ∃ r w', try_numbers again row col nums g w = Ok r w'
            ∧ Z.of_nat (length (rand_stream w))
              <= Z.of_nat (length (rand_stream w')) + Z.of_nat (length nums) * B.
Proof.
  intros Hwf Hin H0 HB Hagain. induction nums as [|num nums IH]; intros w Hnums Hpos Hlen.
  { eexists _, w. split; [reflexivity|]. cbn [length]. lia. }
  apply Forall_cons in Hnums as [Hnum Hnums]. cbn [try_numbers].
  rewrite length_cons, Nat2Z.inj_succ in *.
  destruct (is_valid_placement_unit g row col num Hwf Hin) as (ok & Hok & Hcases & Hfree).
  rewrite (bind_Ok _ _ w ok w) by by apply lift_opt_Ok.
  destruct Hcases as [->| ->]; cbn [Z.eqb negb].
  { destruct (IH w Hnums Hpos) as (r & w' & Hrun & Hl); [nia|].
    exists r, w'. split; [done|nia]. }
  destruct (cell_put_ok g row col num Hwf Hin) as (g1 & Hput & Hwf1 & H1 & Hother).
  rewrite (bind_Ok _ _ w g1 w) by by apply lift_opt_Ok.
  destruct (Hagain g1 w) as (r & w1 & Hrun1 & Hout & Hdrew1 & Hl1); [done| |done|nia|].
  { eapply (empty_count_put g row col num); [done..|lia|done|done]. }
  rewrite (bind_Ok _ _ w r w1 Hrun1).
  destruct Hout as [[Hr0 Hrg]|(Hr1 & _)].
  - rewrite Hr0, Hrg. cbn [Z.eqb negb].
    rewrite (bind_Ok _ _ w1 g w1) by (apply lift_opt_Ok; by eapply cell_put_back).
    destruct (IH w1 Hnums) as (r' & w' & Hrun & Hl); [by eapply drew_nonneg|nia|].
    exists r', w'. split; [done|nia].
  - rewrite Hr1. cbn [Z.eqb negb]. eexists _, w1. split; [reflexivity|]. nia.
Qed.

Lemma generate_full_grid_returns (fuel : nat) : ∀ g w,
  wf_grid g → (empty_count g < fuel)%nat → Forall (λ r, 0 <= r) (rand_stream w) →
  draws_bound (empty_count g) <= Z.of_nat (length (rand_stream w)) →
  ∃ r w', generate_full_grid fuel g w = Ok r w'
          ∧ Z.of_nat (length (rand_stream w))
            <= Z.of_nat (length (rand_stream w')) + draws_bound (empty_count g).
Proof.
  induction fuel as [|fuel IH]; intros g w Hwf Hfuel Hpos Hlen; [lia|].
  cbn [generate_full_grid].
  destruct (first_empty_spec g Hwf) as [[Hf Hfull]|(row & col & Hf & Hin & H0)].
  - rewrite (bind_Ok _ _ w None w) by by apply lift_opt_Ok.
    eexists _, w. split; [reflexivity|].
    pose proof (draws_bound_nonneg (empty_count g)). lia.
  - rewrite (bind_Ok _ _ w (Some (row, col)) w) by by apply lift_opt_Ok.
    destruct (cell_put_ok g row col 1 Hwf Hin) as (g0 & _ & _ & H10 & Hother0).
    pose proof (empty_count_put g row col 1 g0 Hwf Hin H0 ltac:(lia) H10 Hother0) as Hk.
    rewrite Hk in Hlen, Hfuel |- *. cbn [draws_bound] in Hlen |- *.
    pose proof (draws_bound_nonneg (empty_count g0)) as HB.
    destruct (shuffle_loop_run 8 nums_1_to_9 w (take 8 (rand_stream w))
                (drop 8 (rand_stream w)))
      as (nums & Hsh & Hperm & _);
      [by rewrite take_drop|rewrite length_take; lia|by apply Forall_take
      |by vm_compute|by vm_compute|].
    unfold shuffle_array. change (Z.to_nat (int_sub 9 1)) with 8%nat.
    rewrite (bind_Ok _ _ w nums _ Hsh).
    destruct (try_numbers_returns (generate_full_grid fuel) row col g
                (draws_bound (empty_count g0)) Hwf Hin H0 HB) with
      (nums := nums) (w := with_rand_stream (drop 8 (rand_stream w)) w)
      as (r & w' & Hrun & Hl).
    + intros g1 w1 Hwf1 Hcount Hpos1 Hlen1.
      assert (empty_count g1 = empty_count g0) as Hk1 by lia.
      destruct (IH g1 w1 Hwf1) as (r & w' & Hrun & Hl); [lia|done|by rewrite Hk1|].
      pose proof (generate_full_grid_outcome fuel g1 w1 Hwf1 ltac:(lia) Hpos1) as Hw.
      destruct (wpr_run _ _ _ _ _ Hw Hrun) as [Hout Hdrew].
      exists r, w'. rewrite Hk1 in Hl. done.
    + by apply nums_in_range.
    + cbn [rand_stream with_rand_stream]. by apply Forall_drop.
    + apply Permutation_length in Hperm. rewrite Hperm.
      cbn [rand_stream with_rand_stream nums_1_to_9 length]. rewrite length_drop. lia.
    + exists r, w'. split; [done|].
      apply Permutation_length in Hperm. rewrite Hperm in Hl.
      cbn [rand_stream with_rand_stream nums_1_to_9 length] in Hl.
      rewrite length_drop in Hl. lia.
Qed.

(** A grid that can be completed holds numbers from 0 to 9 without a
    repetition. *)
Lemma completable_in_range g : wf_grid g → completable g → in_range g ∧ consistent g.
Proof.
  intros Hwf (s & (Hwfs & Hfull & Hcons) & Hext). split.
  - intros r c v Hv. destruct (decide (v = 0)) as [->|Hv0]; [lia|].
    pose proof (Hext r c v Hv Hv0) as Hs.
    destruct (Hfull r c (cell_at_in_grid s r c v Hwfs Hs)) as (v' & Hv' & ?).
    rewrite Hs in Hv'. injection Hv' as <-. lia.
  - intros r c r' c' v Hv Hv0 Hv' Hsame.
    eapply (Hcons r c r' c' v); [by apply Hext|done|by apply Hext|done].
Qed.

Lemma outcome_solved g r :
  in_range g → consistent g → outcome g r → r.1 = 1 → solved r.2 ∧ extends g r.2.
Proof.
  intros Hr Hc [[H0 _]|(_ & Hwfr & Hfull & Hext & Hcons & Hrange)] H1; [congruence|].
  split; [|done]. split; [done|]. split; [|by apply Hcons].
  intros row col Hin. destruct (Hfull row col Hin) as (v & Hv & Hv0).
  exists v. split; [done|]. pose proof (Hrange Hr row col v Hv).
  unfold Sudoku.EMPTY_CELL in Hv0. lia.
Qed.
End Search.

(** *** Checking a filled grid *)

Lemma solvedb_sound s : solvedb s = true → solved s.
Proof.
  unfold solvedb. intros [[Hlen Hrows]%andb_true_iff Hcells]%andb_true_iff.
  apply bool_decide_eq_true in Hlen.
  assert (wf_grid s) as Hwf.
  { split; [done|]. apply Forall_forall. intros row Hrow.
    rewrite forallb_forall in Hrows. apply list_elem_of_In in Hrow.
    by apply Hrows, bool_decide_eq_true in Hrow. }
  rewrite forallb_forall in Hcells.
  assert (∀ r c, in_grid r c →
            ∃ v, cell_at s r c = Some v ∧ 1 <= v <= 9
                 ∧ ∀ r' c', (r', c') ∈ unit_cells r c →
                            (r', c') = (r, c) ∨ cell_at s r' c' ≠ Some v) as Hall.
  { intros r c Hin. apply in_all_cells, list_elem_of_In in Hin.
    specialize (Hcells _ Hin). cbn beta iota in Hcells.
    destruct (cell_at s r c) as [v|]; [|done]. exists v. split; [done|].
    apply andb_true_iff in Hcells as [[?%Z.leb_le ?%Z.leb_le]%andb_true_iff Hpeers].
    split; [lia|]. intros r' c' Hu. rewrite forallb_forall in Hpeers.
    apply list_elem_of_In in Hu. specialize (Hpeers _ Hu). cbn beta iota in Hpeers.
    apply orb_true_iff in Hpeers as [?%bool_decide_eq_true|Hne]; [by left|right].
    by apply negb_true_iff, bool_decide_eq_false in Hne. }
  split; [done|]. split.
  - intros r c Hin. destruct (Hall r c Hin) as (v & ? & ? & _). eauto.
  - intros r c r' c' v Hv Hv0 Hv' Hsame.
    pose proof (cell_at_in_grid s r c v Hwf Hv) as Hin.
    pose proof (cell_at_in_grid s r' c' v Hwf Hv') as Hin'.
    destruct (Hall r c Hin) as (v1 & Hv1 & _ & Hpeers).
    rewrite Hv in Hv1. injection Hv1 as <-.
    destruct (Hpeers r' c') as [[= -> ->]|?]; [by apply in_unit_cells|done|done].
Qed.

Lemma blank_wf : wf_grid blank.
Proof. split; [done|]. by repeat constructor. Qed.

Lemma blank_completable : completable blank.
Proof.
  exists Examples.pattern_grid. split; [by apply solvedb_sound; vm_compute|].
  intros r c v Hv Hv0. exfalso.
  pose proof (cell_at_in_grid blank r c v blank_wf Hv) as [Hr Hc].
  assert (r ∈ Sudoku.indices9) as Hri by by apply index_cases.
  assert (c ∈ Sudoku.indices9) as Hci by by apply index_cases.
  unfold Sudoku.indices9 in Hri, Hci. rewrite !elem_of_cons, elem_of_nil in Hri, Hci.
  destruct Hri as [->|[->|[->|[->|[->|[->|[->|[->|[->|[]]]]]]]]]];
    destruct Hci as [->|[->|[->|[->|[->|[->|[->|[->|[->|[]]]]]]]]]];
    vm_compute in Hv; congruence.
Qed.

Lemma open_pair_completable : completable Examples.open_pair_grid.
Proof.
  assert (wf_grid Examples.open_pair_grid) as Hwf.
  { split; [done|]. by repeat constructor. }
  exists Examples.pattern_grid. split; [by apply solvedb_sound; vm_compute|].
  intros r c v Hv Hv0.
  pose proof (cell_at_in_grid _ r c v Hwf Hv) as [Hr Hc].
  assert (r ∈ Sudoku.indices9) as Hri by by apply index_cases.
  assert (c ∈ Sudoku.indices9) as Hci by by apply index_cases.
  unfold Sudoku.indices9 in Hri, Hci. rewrite !elem_of_cons, elem_of_nil in Hri, Hci.
  destruct Hri as [->|[->|[->|[->|[->|[->|[->|[->|[->|[]]]]]]]]]];
    destruct Hci as [->|[->|[->|[->|[->|[->|[->|[->|[->|[]]]]]]]]]];
    vm_compute in Hv; injection Hv as <-; first [done | reflexivity].
Qed.

(** Extra X4.  On a 9 by 9 grid and a cell inside it,
    [is_valid_placement] returns 1 when no cell of the row, the column or
    the 3 by 3 box of the cell holds the number, and 0 otherwise; it reads
    no cell outside the grid. *)
Theorem is_valid_placement_checks_units (g : list (list Z)) (row col num : Z) :
  wf_grid g → in_grid row col →
  ∃ ok, is_valid_placement g row col num = Some ok
        ∧ (ok = 0 ∨ ok = 1)
        ∧ (ok = 1 ↔ ∀ r c, in_grid r c → same_unit row col r c → cell_at g r c ≠ Some num).
Proof. apply is_valid_placement_unit. Qed.

(** Extra X5.  [shuffle_array(arr, n)] draws [n - 1] random values and
    leaves a permutation of the array, with the elements from index [n]
    on where they were; for [n] of 1 or less it draws nothing and changes
    nothing. *)
Theorem shuffle_array_permutes {G E} (arr : list Z) (n : Z) (w : World G E)
    (rs rest : list Z) :
  INT_MIN < n <= INT_MAX → n <= Z.of_nat (length arr) →
  rand_stream w = rs ++ rest → length rs = Z.to_nat (n - 1) → Forall (λ r, 0 <= r) rs →
  ∃ arr', shuffle_array arr n w = Ok arr' (with_rand_stream rest w)
          ∧ arr' ≡ₚ arr
          ∧ drop (Z.to_nat n) arr' = drop (Z.to_nat n) arr
          ∧ (n <= 1 → arr' = arr).
Proof.
  intros Hn Hlen Hrs Hlrs Hpos. unfold shuffle_array.
  rewrite int_sub_exact by (unfold in_int, INT_MIN, INT_MAX in *; lia).
  destruct (shuffle_loop_run (Z.to_nat (n - 1)) arr w rs rest)
    as (arr' & Hrun & Hperm & Hdrop); [done..|lia|unfold INT_MAX in *; lia|].
  exists arr'. split; [done|]. split; [done|].
  destruct (decide (n <= 1)) as [Hsmall|Hbig].
  - replace (Z.to_nat (n - 1)) with 0%nat in Hrun by lia. cbn in Hrun.
    injection Hrun as <- _. done.
  - split; [|lia]. by replace (Z.to_nat n) with (S (Z.to_nat (n - 1))) by lia.
Qed.

(** Extra X6.  A call of [generate_full_grid] on a 9 by 9 grid returns,
    after at most [draws_bound k] calls of [rand()] when [k] cells are
    empty.  It returns 0 with the grid exactly as it was, or 1 with a
    grid that has no empty cell left and keeps the numbers it had; if the
    grid held numbers from 0 to 9 without a repetition in any row, column
    or box, the filled grid obeys the Sudoku rules.  Only the random
    stream is consumed. *)
Theorem generate_full_grid_fills_or_restores {G E} (fuel : nat) (g : list (list Z))
    (w : World G E) :
  wf_grid g → (empty_count g < fuel)%nat → Forall (λ r, 0 <= r) (rand_stream w) →
  draws_bound (empty_count g) <= Z.of_nat (length (rand_stream w)) →
  ∃ r w', generate_full_grid fuel g w = Ok r w'
          ∧ drew w w'
          ∧ Z.of_nat (length (rand_stream w)) - Z.of_nat (length (rand_stream w'))
            <= draws_bound (empty_count g)
          ∧ ((r.1 = 0 ∧ r.2 = g)
             ∨ (r.1 = 1 ∧ wf_grid r.2 ∧ no_empty r.2 ∧ extends g r.2
                ∧ (in_range g → consistent g → solved r.2))).
Proof.
  intros Hwf Hfuel Hpos Hlen.
  destruct (generate_full_grid_returns fuel g w Hwf Hfuel Hpos Hlen) as (r & w' & Hrun & Hl).
  pose proof (generate_full_grid_outcome fuel g w Hwf Hfuel Hpos) as Hw.
  destruct (wpr_run _ _ _ _ _ Hw Hrun) as [Hout Hdrew].
  exists r, w'. split; [done|]. split; [done|]. split; [lia|].
  destruct Hout as [?|(H1 & Hwfr & Hfull & Hext & Hcons & Hrange)]; [by left|right].
  split; [done|]. split; [done|]. split; [done|]. split; [done|]. intros Hr Hc.
  apply (outcome_solved g r Hr Hc); [|done]. right. done.
Qed.

(** Extra X7.  The search of [generate_full_grid] is complete: on a grid
    that can be completed to a solved Sudoku it returns 1, with a grid
    that obeys the Sudoku rules and keeps the numbers given. *)
Theorem generate_full_grid_finds_completion {G E} (fuel : nat) (g : list (list Z))
    (w : World G E) :
  wf_grid g → completable g →
  (empty_count g < fuel)%nat → Forall (λ r, 0 <= r) (rand_stream w) →
  draws_bound (empty_count g) <= Z.of_nat (length (rand_stream w)) →
  ∃ r w', generate_full_grid fuel g w = Ok r w'
          ∧ r.1 = 1 ∧ solved r.2 ∧ extends g r.2.
Proof.
  intros Hwf Hcomp Hfuel Hpos Hlen.
  destruct (generate_full_grid_returns fuel g w Hwf Hfuel Hpos Hlen) as (r & w' & Hrun & _).
  pose proof (generate_full_grid_outcome fuel g w Hwf Hfuel Hpos) as Hw.
  destruct (wpr_run _ _ _ _ _ Hw Hrun) as [Hout _].
  destruct (completable_in_range g Hwf Hcomp) as [Hr Hc].
  destruct Hcomp as (s & Hs & Hext).
  pose proof (wpr_run _ _ _ _ _ (generate_full_grid_finds fuel g s w Hwf Hfuel Hpos Hs Hext)
                Hrun) as H1.
  cbn beta in H1. exists r, w'. split; [done|]. split; [done|].
  by apply (outcome_solved g r).
Qed.

(** Extra X8.  From the empty grid, as [generate_puzzle] calls it,
    [generate_full_grid] returns 1 with a grid that obeys the Sudoku
    rules, whatever values [rand()] returns: for every sequence
    [rand_fn] of values, some number of them is enough.  A recursion
    depth of 82 is enough. *)
Theorem generate_full_grid_from_blank {G E} (fuel : nat) (rand_fn : nat → Z)
    (w : World G E) :
  (82 ≤ fuel)%nat → (∀ i, 0 <= rand_fn i) →
  ∃ n, ∀ rest, Forall (λ r, 0 <= r) rest →
    ∃ r w', generate_full_grid fuel blank
              (with_rand_stream ((rand_fn <$> seq 0 n) ++ rest) w) = Ok r w'
            ∧ r.1 = 1 ∧ solved r.2.
Proof.
  intros Hfuel Hrand.
  assert (empty_count blank = 81%nat) as Hcount by by vm_compute.
  pose proof (draws_bound_nonneg 81) as HB.
  remember (draws_bound 81) as B eqn:HeqB.
  remember (Z.to_nat B) as n eqn:Heqn.
  exists n. intros rest Hrest.
  set (w0 := with_rand_stream ((rand_fn <$> seq 0 n) ++ rest) w).
  assert (Forall (λ r, 0 <= r) (rand_stream w0)) as Hpos.
  { unfold w0. cbn [rand_stream with_rand_stream]. apply Forall_app. split; [|done].
    apply Forall_fmap, Forall_forall. intros i _. apply Hrand. }
  assert (draws_bound (empty_count blank) <= Z.of_nat (length (rand_stream w0))) as Hlen.
  { rewrite Hcount, <- HeqB. unfold w0. cbn [rand_stream with_rand_stream].
    rewrite length_app, length_fmap, length_seq. lia. }
  assert (empty_count blank < fuel)%nat as Hlt by lia.
  clearbody w0. clear Heqn.
  destruct (generate_full_grid_returns fuel blank w0 blank_wf Hlt Hpos Hlen)
    as (r & w' & Hrun & _).
  pose proof (generate_full_grid_outcome fuel blank w0 blank_wf Hlt Hpos) as Hw.
  destruct (wpr_run _ _ _ _ _ Hw Hrun) as [Hout _].
  destruct (completable_in_range blank blank_wf blank_completable) as [Hr Hc].
  destruct blank_completable as (s & Hs & Hext).
  pose proof (wpr_run _ _ _ _ _
                (generate_full_grid_finds fuel blank s w0 blank_wf Hlt Hpos Hs Hext) Hrun)
    as H1.
  cbn beta in H1. exists r, w'. split; [done|]. split; [done|].
  by apply (outcome_solved blank r).
Qed.
End GeneratorFacts.

(** * The score ledgers *)

(** Lookup by a key in a list of rows. *)
Section Find.
Context {A : Type} (p : A → bool).


Lemma find_insert_other (l : list A) k e e' :
  l !! k = Some e → p e = false → p e' = false → find p (<[k := e']> l) = find p l.
Proof.
  revert k. induction l as [|y l IH]; intros [|k]; cbn; try done.
  - intros [= ->] -> ->. done.
  - intros Hk He He'. destruct (p y); [done|]. by apply IH.
Qed.

Lemma find_insert_first (l : list A) k e' :
  (k < length l)%nat → (∀ j x, (j < k)%nat → l !! j = Some x → p x = false) → p e' = true →
  find p (<[k := e']> l) = Some e'.
Proof.
  revert k. induction l as [|y l IH]; intros [|k]; cbn; try lia.
  - intros _ _ ->. done.
  - intros Hk Hbefore He'. rewrite (Hbefore 0%nat y) by (done || lia).
    apply IH; [lia| |done]. intros j x Hj Hx. apply (Hbefore (S j) x); [lia|done].
Qed.

Lemma find_app_one (l : list A) e' :
  find p (l ++ [e']) = match find p l with
                       | Some x => Some x
                       | None => if p e' then Some e' else None
                       end.
Proof. induction l as [|y l IH]; cbn; [done|]. by destruct (p y). Qed.
End Find.


Lemma take_insert_row {A} (es : list A) (n k : nat) (e : A) :
  (k < n)%nat → take n (<[k := e]> es) = <[k := e]> (take n es).
Proof. intros ?. by apply take_insert_lt. Qed.

Lemma take_insert_next {A} (es : list A) (n : nat) (e : A) :
  (n < length es)%nat → take (S n) (<[n := e]> es) = take n es ++ [e].
Proof.
  intros Hn. erewrite take_S_r; [|by apply list_lookup_insert_eq].
  by rewrite take_insert_ge by lia.
Qed.

Module SudokuLedger.
Import Sudoku SudokuFacts.

(** The index [find_entry] returns is that of the first row with the
    name. *)
Lemma find_entry_first player_name (es : list ScoreEntry) (i : Z) :
  find_entry player_name es i = -1 ∧ stats_of player_name es = None
  ∨ ∃ (k : nat) e,
      find_entry player_name es i = i + Z.of_nat k
      ∧ es !! k = Some e ∧ entry_name e = player_name
      ∧ stats_of player_name es = Some e
      ∧ ∀ j x, (j < k)%nat → es !! j = Some x → entry_name x ≠ player_name.
Proof.
  revert i. induction es as [|e es IH]; intros i; cbn [find_entry stats_of find].
  - by left.
  - destruct (String.eqb (entry_name e) player_name) eqn:Heq.
    + right. exists 0%nat, e. apply String.eqb_eq in Heq.
      split; [lia|]. split; [done|]. split; [done|]. split; [done|]. intros j x ?. lia.
    + apply String.eqb_neq in Heq.
      destruct (IH (i + 1)) as [[Hnone Hs]|(k & e0 & Hk & He0 & Hname & Hs & Hbefore)].
      * by left.
      * right. exists (S k), e0.
        split; [lia|]. split; [done|]. split; [done|]. split; [done|].
        intros [|j] x Hj; cbn; [by intros [= <-]|]. apply Hbefore. lia.
Qed.

Lemma save_scores_file (w : W) :
  scores_lock (locks w) = 0 → wf_scores (scores w) →
  wp save_scores (λ _ w', ledger_only w w' ∧ scores w' = scores w
                          ∧ scores_file w' = ledger_rows (scores w)) w.
Proof.
  intros Hs Hsc. destruct w as [g q sc f [gl ll sl] t rs]; wsimpl; subst.
  unfold save_scores. repeat gstep. unfold ledger_only. fin.
Qed.

(** What a call of [update_player_stats] does to the rows in use. *)
Lemma update_player_stats_rows player_name is_winner correct wrong (w : W) :
  scores_lock (locks w) = 0 → wf_scores (scores w) →
  ∃ w', update_player_stats player_name is_winner correct wrong w = Ok tt w'
        ∧ ledger_only w w'
        ∧ scores_file w' = ledger_rows (scores w')
        ∧ ((∃ (k : nat) e,
              ledger_rows (scores w) !! k = Some e ∧ entry_name e = player_name
              ∧ stats_of player_name (ledger_rows (scores w)) = Some e
              ∧ (∀ j x, (j < k)%nat → ledger_rows (scores w) !! j = Some x →
                        entry_name x ≠ player_name)
              ∧ ledger_rows (scores w')
                = <[k := credited is_winner correct wrong e]> (ledger_rows (scores w)))
           ∨ (stats_of player_name (ledger_rows (scores w)) = None
              ∧ sc_count (scores w) < MAX_SCORES
              ∧ ledger_rows (scores w')
                = ledger_rows (scores w) ++ [first_row player_name is_winner correct wrong])
           ∨ (stats_of player_name (ledger_rows (scores w)) = None
              ∧ sc_count (scores w) = MAX_SCORES
              ∧ scores w' = scores w)).
Proof.
  intros Hs [Hlen Hcnt]. destruct w as [g q [es n] f [gl ll sl] t rs].
  wsimpl; cbn [sc_entries sc_count] in *; subst. unfold MAX_SCORES in *.
  apply wp_run_tt.
  unfold update_player_stats. repeat gstep. cbn [sc_entries sc_count].
  unfold ledger_rows. cbn [scores sc_entries sc_count].
  destruct (find_entry_first player_name (take (Z.to_nat n) es) 0)
    as [[Hnone Hstats]|(k & e & Hk & He & Hname & Hstats & Hbefore)].
  - rewrite Hnone. cbn [Z.leb Z.compare].
    destruct (n <? MAX_SCORES) eqn:Hn; unfold MAX_SCORES in Hn.
    + apply Z.ltb_lt in Hn. repeat gstep. eapply wp_mono.
      { apply save_scores_file; wsimpl; try done.
        split; cbn [sc_entries sc_count]; [by rewrite length_insert|].
        unfold MAX_SCORES. rewrite int_add_exact by (unfold in_int, INT_MIN, INT_MAX; lia). lia. }
      intros [] w' ((Hg & Hq & Hl & Hr & Hsc) & Hsame & Hfile). wsimpl.
      rewrite Hsame, Hfile. unfold ledger_rows. cbn [sc_entries sc_count].
      rewrite int_add_exact by (unfold in_int, INT_MIN, INT_MAX; lia).
      split; [unfold ledger_only; fin; by rewrite Hsame|]. split; [done|].
      right. left. split; [done|]. split; [done|].
      replace (Z.to_nat (n + 1)) with (S (Z.to_nat n)) by lia.
      apply take_insert_next. lia.
    + apply Z.ltb_ge in Hn. repeat gstep. eapply wp_mono.
      { apply save_scores_file; wsimpl; try done. }
      intros [] w' ((Hg & Hq & Hl & Hr & Hsc) & Hsame & Hfile). wsimpl.
      rewrite Hsame, Hfile. unfold ledger_rows. cbn [sc_entries sc_count].
      split; [unfold ledger_only; fin; by rewrite Hsame|]. split; [done|].
      right. right. split; [done|]. split; [lia|done].
  - rewrite Hk. apply lookup_take_Some in He as [He Hkn].
    assert ((0 <=? 0 + Z.of_nat k) = true) as -> by (apply Z.leb_le; lia).
    assert (arr_get es (0 + Z.of_nat k) = Some e) as Hget.
    { rewrite arr_get_nat by lia. by replace (Z.to_nat (0 + Z.of_nat k)) with k by lia. }
    repeat gstep. eapply wp_mono.
    { apply save_scores_file; wsimpl; try done.
      split; cbn [sc_entries sc_count]; [by rewrite length_insert|unfold MAX_SCORES; lia]. }
    intros [] w' ((Hg & Hq & Hl & Hr & Hsc) & Hsame & Hfile). wsimpl.
    rewrite Hsame, Hfile. unfold ledger_rows. cbn [sc_entries sc_count].
    split; [unfold ledger_only; fin; by rewrite Hsame|]. split; [done|].
    left. exists k, e. split; [by apply lookup_take_Some|]. split; [done|].
    split; [done|]. split; [done|].
    replace (Z.to_nat (0 + Z.of_nat k)) with k by lia.
    by apply take_insert_row.
Qed.

(** Extra X9.  [update_player_stats] keeps one ledger row per name: when
    a row of the player exists (the first with the name counts), the
    game is added to it, a win as one more win; when none exists and the
    ledger has room, a row with the name cut to 31 characters is added
    at the end; when none exists and all [MAX_SCORES] rows are taken, the
    result is dropped.  The rows of other names stay as they are, and in
    every case the scores file is rewritten with the rows in use. *)
Theorem update_player_stats_by_name (player_name : string) (is_winner : bool)
    (correct wrong : Z) (w : W) :
  scores_lock (locks w) = 0 → wf_scores (scores w) →
  ∃ w', update_player_stats player_name is_winner correct wrong w = Ok tt w'
        ∧ ledger_only w w'
        ∧ scores_file w' = ledger_rows (scores w')
        ∧ match stats_of player_name (ledger_rows (scores w)) with
          | Some e =>
              stats_of player_name (ledger_rows (scores w'))
                = Some (credited is_winner correct wrong e)
              ∧ length (ledger_rows (scores w')) = length (ledger_rows (scores w))
          | None =>
              if sc_count (scores w) <? MAX_SCORES
              then ledger_rows (scores w')
                   = ledger_rows (scores w) ++ [first_row player_name is_winner correct wrong]
              else scores w' = scores w
          end
        ∧ ∀ other, other ≠ player_name → other ≠ strncpy_name player_name →
            stats_of other (ledger_rows (scores w')) = stats_of other (ledger_rows (scores w)).
Proof.
  intros Hs Hsc.
  destruct (update_player_stats_rows player_name is_winner correct wrong w Hs Hsc)
    as (w' & Hrun & Hframe & Hfile & Hrows).
  exists w'. split; [done|]. split; [done|]. split; [done|].
  destruct Hrows as [(k & e & He & Hname & Hstats & Hbefore & ->)
                    |[(Hstats & Hroom & ->)|(Hstats & Hfull & ->)]].
  - rewrite Hstats. split; [split|].
    + apply find_insert_first.
      * by apply lookup_lt_Some in He.
      * intros j x Hj Hx. apply String.eqb_neq. by eapply Hbefore.
      * cbn. by apply String.eqb_eq.
    + by rewrite length_insert.
    + intros other Hne _. unfold stats_of. eapply find_insert_other; [done|..].
      * apply String.eqb_neq. congruence.
      * cbn. apply String.eqb_neq. congruence.
  - rewrite Hstats. rewrite (proj2 (Z.ltb_lt _ _) Hroom). split; [done|].
    intros other _ Hne. unfold stats_of. rewrite find_app_one.
    fold (stats_of other (ledger_rows (scores w))).
    destruct (stats_of other _); [done|]. cbn.
    by rewrite (proj2 (String.eqb_neq _ _)) by congruence.
  - rewrite Hstats. rewrite (proj2 (Z.ltb_ge _ _)) by lia. done.
Qed.

End SudokuLedger.

Module DiceLedger.
Import Dice DiceFacts.

Lemma dice_find_entry_first player_name (es : list ScoreEntry) (i : Z) :
  find_entry player_name es i = -1 ∧ stats_of player_name es = None
  ∨ ∃ (k : nat) e,
      find_entry player_name es i = i + Z.of_nat k
      ∧ es !! k = Some e ∧ entry_name e = player_name
      ∧ stats_of player_name es = Some e
      ∧ ∀ j x, (j < k)%nat → es !! j = Some x → entry_name x ≠ player_name.
Proof.
  revert i. induction es as [|e es IH]; intros i; cbn [find_entry stats_of find].
  - by left.
  - destruct (String.eqb (entry_name e) player_name) eqn:Heq.
    + right. exists 0%nat, e. apply String.eqb_eq in Heq.
      split; [lia|]. split; [done|]. split; [done|]. split; [done|]. intros j x ?. lia.
    + apply String.eqb_neq in Heq.
      destruct (IH (i + 1)) as [[Hnone Hs]|(k & e0 & Hk & He0 & Hname & Hs & Hbefore)].
      * by left.
      * right. exists (S k), e0.
        split; [lia|]. split; [done|]. split; [done|]. split; [done|].
        intros [|j] x Hj; cbn; [by intros [= <-]|]. apply Hbefore. lia.
Qed.

Lemma dice_save_scores_file (w : W) :
  scores_lock (locks w) = 0 → log_lock (locks w) = 0 →
  wf_log (log_queue w) → wf_scores (scores w) →
  wp save_scores
     (λ _ w', game w' = game w ∧ scores w' = scores w ∧ quiet w w'
              ∧ scores_file w' = ledger_rows (scores w)
              ∧ log_queue w'
                = log_push ("Saved %d score entries to %s"%string,
                            [ArgInt (sc_count (scores w)); ArgStr "scores.txt"])
                    (log_queue w)) w.
Proof.
  intros Hs Hlg Hlog Hsc. destruct w as [g q sc f [gl ll sl] t rs]; wsimpl; subst.
  unfold save_scores. repeat gstep. unfold quiet. fin.
Qed.

(** Extra X11.  [update_score] of the dice server keeps one row per name
    like its Sudoku sibling: one more win for the first row with the
    name, a new row with one win when there is none and the ledger has
    room, nothing when it is full; the rows of other names stay, the
    scores file is rewritten with the rows in use and the save is
    logged. *)
Theorem update_score_by_name (player_name : string) (w : W) :
  scores_lock (locks w) = 0 → log_lock (locks w) = 0 →
  wf_log (log_queue w) → wf_scores (scores w) →
  ∃ w', update_score player_name w = Ok tt w'
        ∧ game w' = game w ∧ quiet w w'
        ∧ scores_file w' = ledger_rows (scores w')
        ∧ log_queue w'
          = log_push ("Saved %d score entries to %s"%string,
                      [ArgInt (sc_count (scores w')); ArgStr "scores.txt"]) (log_queue w)
        ∧ match stats_of player_name (ledger_rows (scores w)) with
          | Some e =>
              stats_of player_name (ledger_rows (scores w'))
                = Some (mkScore (entry_name e) (int_add (wins e) 1))
              ∧ length (ledger_rows (scores w')) = length (ledger_rows (scores w))
          | None =>
              if sc_count (scores w) <? MAX_SCORES
              then ledger_rows (scores w')
                   = ledger_rows (scores w) ++ [mkScore (strncpy_name player_name) 1]
              else scores w' = scores w
          end
        ∧ ∀ other, other ≠ player_name → other ≠ strncpy_name player_name →
            stats_of other (ledger_rows (scores w')) = stats_of other (ledger_rows (scores w)).
Proof.
  intros Hs Hlg Hlog [Hlen Hcnt]. destruct w as [g q [es n] f [gl ll sl] t rs].
  wsimpl; gsimpl; subst. unfold MAX_SCORES in *.
  apply wp_run_tt.
  unfold update_score. repeat gstep.
  unfold ledger_rows. cbn [scores sc_entries sc_count].
  destruct (dice_find_entry_first player_name (take (Z.to_nat n) es) 0)
    as [[Hnone Hstats]|(k & e & Hk & He & Hname & Hstats & Hbefore)].
  - rewrite Hnone, Hstats. cbn [Z.leb Z.compare].
    destruct (n <? MAX_SCORES) eqn:Hn; unfold MAX_SCORES in Hn.
    + apply Z.ltb_lt in Hn. repeat gstep. eapply wp_mono.
      { apply dice_save_scores_file; wsimpl; gsimpl; try done.
        split; gsimpl; [by rewrite length_insert|].
        unfold MAX_SCORES. rewrite int_add_exact by (unfold in_int, INT_MIN, INT_MAX; lia). lia. }
      intros [] w' (Hg & Hsame & Hquiet & Hfile & Hq). wsimpl.
      rewrite Hsame, Hfile, Hq. unfold ledger_rows. gsimpl.
      rewrite int_add_exact by (unfold in_int, INT_MIN, INT_MAX; lia).
      replace (Z.to_nat (n + 1)) with (S (Z.to_nat n)) by lia.
      rewrite take_insert_next by lia.
      split; [done|]. split.
      { destruct Hquiet as (? & ? & ? & ?). unfold quiet. fin. }
      split; [done|]. split; [done|]. unfold MAX_SCORES.
      rewrite (proj2 (Z.ltb_lt _ _) Hn). split; [done|].
      intros other _ Hne. unfold stats_of. rewrite find_app_one.
      fold (stats_of other (take (Z.to_nat n) es)).
      destruct (stats_of other _); [done|]. cbn.
      by rewrite (proj2 (String.eqb_neq _ _)) by congruence.
    + apply Z.ltb_ge in Hn. repeat gstep. eapply wp_mono.
      { apply dice_save_scores_file; wsimpl; gsimpl; try done. }
      intros [] w' (Hg & Hsame & Hquiet & Hfile & Hq). wsimpl.
      rewrite Hsame, Hfile, Hq. unfold ledger_rows. gsimpl.
      split; [done|]. split.
      { destruct Hquiet as (? & ? & ? & ?). unfold quiet. fin. }
      split; [done|]. split; [done|]. unfold MAX_SCORES.
      rewrite (proj2 (Z.ltb_ge _ _) Hn). done.
  - rewrite Hk, Hstats. apply lookup_take_Some in He as [He Hkn].
    assert ((0 <=? 0 + Z.of_nat k) = true) as -> by (apply Z.leb_le; lia).
    assert (arr_get es (0 + Z.of_nat k) = Some e) as Hget.
    { rewrite arr_get_nat by lia. by replace (Z.to_nat (0 + Z.of_nat k)) with k by lia. }
    repeat gstep. eapply wp_mono.
    { apply dice_save_scores_file; wsimpl; gsimpl; try done.
      split; gsimpl; [by rewrite length_insert|unfold MAX_SCORES; lia]. }
    intros [] w' (Hg & Hsame & Hquiet & Hfile & Hq). wsimpl.
    rewrite Hsame, Hfile, Hq. unfold ledger_rows. gsimpl.
    replace (Z.to_nat (0 + Z.of_nat k)) with k by lia.
    rewrite take_insert_row by done.
    split; [done|]. split.
    { destruct Hquiet as (? & ? & ? & ?). unfold quiet. fin. }
    split; [done|]. split; [done|]. split; [split|].
    + apply find_insert_first.
      * rewrite length_take. lia.
      * intros j x Hj Hx. apply String.eqb_neq. by eapply Hbefore.
      * cbn. by apply String.eqb_eq.
    + by rewrite length_insert.
    + intros other Hne _. unfold stats_of. eapply find_insert_other.
      * by apply lookup_take_Some.
      * apply String.eqb_neq. congruence.
      * cbn. apply String.eqb_neq. congruence.
Qed.
End DiceLedger.

(** * Moves and rounds of the Sudoku server *)

Module SudokuMoves.
Import Sudoku SudokuFacts.

(** Extra X12.  A Place request by the player to move whose row or column
    is outside 0..8, or whose number is outside 1..9, is answered with an
    Error and changes nothing: the cell is not read, the score stays and
    the turn does not advance. *)
Theorem place_out_of_range_rejected (pid : Z) (msg : GameMessage) (w : W) :
  locks w = free_locks →
  game_state (game w) = GAME_IN_PROGRESS →
  current_turn (game w) = pid →
  ¬ (0 <= msg_row msg < GRID_SIZE ∧ 0 <= msg_col msg < GRID_SIZE ∧ 1 <= msg_value msg <= 9) →
  ∃ resp, handle_MSG_PLACE pid msg w = Ok resp (rejected_world w)
          ∧ msg_type resp = MSG_ERROR
          ∧ (¬ (0 <= msg_row msg < GRID_SIZE ∧ 0 <= msg_col msg < GRID_SIZE) →
               fst (msg_text resp) = "Invalid position (%d,%d)"%string)
          ∧ (0 <= msg_row msg < GRID_SIZE ∧ 0 <= msg_col msg < GRID_SIZE →
               msg_text resp = ("Invalid number %d (must be 1-9)"%string,
                                [ArgInt (msg_value msg)])).
Proof.
  intros Hl Hip Hct Hbad. destruct w as [g q sc f ls t rs]; wsimpl; subst ls.
  apply wp_run_to. unfold handle_MSG_PLACE, place_locked. repeat gstep.
  rewrite Hip, bool_decide_eq_true_2 by done. cbn [negb].
  rewrite Hct, Z.eqb_refl. cbn [negb]. unfold GRID_SIZE in *.
  destruct ((msg_row msg <? 0) || (msg_row msg >=? 9) || (msg_col msg <? 0)
            || (msg_col msg >=? 9)) eqn:Hpos.
  - repeat gstep. split; [rejected|]. split; [done|]. split; [done|].
    intros Hin. rewrite !orb_true_iff in Hpos.
    rewrite !Z.ltb_lt, !Z.geb_leb, !Z.leb_le in Hpos. lia.
  - rewrite !orb_false_iff in Hpos. rewrite !Z.ltb_ge, !Z.geb_leb, !Z.leb_gt in Hpos.
    destruct ((msg_value msg <? 1) || (msg_value msg >? 9)) eqn:Hval.
    + repeat gstep. split; [rejected|]. split; [done|]. split; [|done]. intros Hn. lia.
    + rewrite !orb_false_iff in Hval. rewrite Z.ltb_ge, Z.gtb_ltb, Z.ltb_ge in Hval. lia.
Qed.

Lemma sched_game_in_progress g :
  length (players g) = 5%nat →
  game_state g = GAME_IN_PROGRESS → 0 <= current_turn g < MAX_PLAYERS →
  ∃ next,
    get_next_active_player state (players g) (current_turn g) = inr next
    ∧ players (sched_game g) = players g
    ∧ num_players (sched_game g) = num_players g
    ∧ (game_state (sched_game g) = GAME_IN_PROGRESS ↔
         0 < cells_remaining g ∧ active_slots state (players g) ≠ [])
    ∧ (game_state (sched_game g) = GAME_IN_PROGRESS →
         state_at (sched_game g) (current_turn (sched_game g)) = Some PLAYER_ACTIVE)
    ∧ (state_at g (current_turn g) = Some PLAYER_ACTIVE →
         current_turn (sched_game g) = current_turn g)
    ∧ (state_at g (current_turn g) ≠ Some PLAYER_ACTIVE → 0 <= next →
         current_turn (sched_game g) = next).
Proof.
  intros Hlen Hip Hct.
  destruct (get_next_active_player_spec state (players g) (current_turn g))
    as (next & Hnext & Hnone & Hin & _); [done|lia|].
  exists next. split; [done|].
  unfold sched_game. rewrite Hip, bool_decide_eq_true_2 by done.
  unfold sched_turn.
  rewrite (proj2 (Z.leb_le _ _)) by lia. rewrite (proj2 (Z.ltb_lt _ _)) by lia. cbn [andb].
  destruct (arr_get_is_Some (players g) (current_turn g)) as [p Hp];
    [unfold MAX_PLAYERS in *; lia|].
  rewrite Hp, Hnext. unfold state_at at 2 3. rewrite Hp. cbn [fmap option_fmap option_map].
  unfold is_active. unfold sched_complete.
  assert (∀ q, arr_get (players g) (current_turn g) = Some q → q = p) as Hsame
    by (intros q Hq; congruence).
  destruct (decide (state p = PLAYER_ACTIVE)) as [Hact|Hact].
  - rewrite bool_decide_eq_true_2 by done.
    assert (active_slots state (players g) ≠ []) as Hsome.
    { intros Hnil. assert (current_turn g ∈ active_slots state (players g)) as Hin'.
      { apply active_slot_lookup. eauto. }
      rewrite Hnil in Hin'. by apply elem_of_nil in Hin'. }
    destruct (cells_remaining g <=? 0) eqn:Hc;
      [apply Z.leb_le in Hc|apply Z.leb_gt in Hc]; gsimpl; rewrite ?Hip.
    all: split; [done|]; split; [done|]; split; [split; [done || lia|intros [? ?]; done || lia]|].
    all: split; [try done; intros _; unfold state_at; rewrite Hp; cbn; by rewrite Hact|].
    all: split; [done|intros Hn; by rewrite Hact in Hn].
  - rewrite bool_decide_eq_false_2 by done.
    destruct (0 <=? next) eqn:Hn0.
    + apply Z.leb_le in Hn0.
      assert (next ≠ -1) as Hne by lia.
      assert (active_slots state (players g) ≠ []) as Hsome.
      { intros Hnil. apply Hnone in Hnil. lia. }
      apply Hin, active_slot_lookup in Hne as (np & Hnp & Hnact).
      gsimpl. destruct (cells_remaining g <=? 0) eqn:Hc;
        [apply Z.leb_le in Hc|apply Z.leb_gt in Hc]; gsimpl; rewrite ?Hip.
      all: split; [done|]; split; [done|];
        split; [split; [done || lia|intros [? ?]; done || lia]|].
      all: split; [try done; intros _; unfold state_at; gsimpl; rewrite Hnp; cbn;
                   by rewrite Hnact|].
      all: split; [intros Hp'; congruence|done].
    + apply Z.leb_gt in Hn0.
      assert (next = -1) as Hm1.
      { destruct (decide (next = -1)) as [|Hne]; [done|].
        apply Hin, active_slot_lookup in Hne as (np & Hnp%arr_get_Some & _). lia. }
      apply Hnone in Hm1.
      gsimpl. destruct (cells_remaining g <=? 0) eqn:Hc;
        [apply Z.leb_le in Hc|apply Z.leb_gt in Hc]; gsimpl.
      all: split; [done|]; split; [done|];
        split; [split; [done|intros [? ?]; done || lia]|].
      all: split; [done|].
      all: split; [intros Hp'; congruence|intros; lia].
Qed.

(** Extra X13.  One round of the scheduler repairs the turn: in a game in
    progress whose [current_turn] is a slot index, the round leaves the
    game in progress exactly when cells remain and some player is Active,
    and then [current_turn] is the slot of an Active player; it stays
    where it was when that player is Active.  The round never changes the
    players or their number. *)
Theorem scheduler_repairs_turn (w : W) :
  wf_world w →
  game_state (game w) = GAME_IN_PROGRESS →
  0 <= current_turn (game w) < MAX_PLAYERS →
  ∃ w', scheduler_iteration w = Ok tt w'
        ∧ locks w' = free_locks
        ∧ players (game w') = players (game w)
        ∧ num_players (game w') = num_players (game w)
        ∧ (game_state (game w') = GAME_IN_PROGRESS ↔
             0 < cells_remaining (game w) ∧ active_slots state (players (game w)) ≠ [])
        ∧ (game_state (game w') = GAME_IN_PROGRESS →
             state_at (game w') (current_turn (game w')) = Some PLAYER_ACTIVE)
        ∧ (state_at (game w) (current_turn (game w)) = Some PLAYER_ACTIVE →
             current_turn (game w') = current_turn (game w)).
Proof.
  intros Hwf Hip Hct. pose proof Hwf as ((Hlen & _) & _).
  apply wp_run_tt. eapply wp_mono; [by apply scheduler_iteration_spec|].
  intros [] w' (Hg & Hl & _). cbn beta. rewrite Hg.
  destruct (sched_game_in_progress (game w) Hlen Hip Hct)
    as (next & _ & Hps & Hnp & Hphase & Hturn & Hsame & _).
  done.
Qed.

Lemma leave_then_schedule (leave : M W unit) pid (w : W) p :
  wf_world w →
  game_state (game w) = GAME_IN_PROGRESS →
  current_turn (game w) = pid →
  arr_get (players (game w)) pid = Some p →
  0 < cells_remaining (game w) →
  wp leave (λ _ w1, wf_world w1
                    ∧ game w1 = set_num_players (int_sub (num_players (game w)) 1)
                                  (set_players (<[Z.to_nat pid := set_state PLAYER_DISCONNECTED p]>
                                                  (players (game w))) (game w))) w →
  ∃ w1 w2 next,
    leave w = Ok tt w1
    ∧ scheduler_iteration w1 = Ok tt w2
    ∧ get_next_active_player state (players (game w1)) pid = inr next
    ∧ players (game w2) = <[Z.to_nat pid := set_state PLAYER_DISCONNECTED p]> (players (game w))
    ∧ num_players (game w2) = int_sub (num_players (game w)) 1
    ∧ (0 <= next →
         game_state (game w2) = GAME_IN_PROGRESS ∧ current_turn (game w2) = next
         ∧ state_at (game w2) next = Some PLAYER_ACTIVE)
    ∧ (next < 0 → game_state (game w2) = GAME_FINISHED).
Proof.
  intros Hwf Hip Hct Hp Hcells Hleave. pose proof Hwf as ((Hlen & _) & _).
  apply arr_get_Some in Hp as Hpid. rewrite Hlen in Hpid.
  apply wp_run_tt in Hleave as (w1 & Hrun1 & Hwf1 & Hg1).
  pose proof Hwf1 as ((Hlen1 & _) & _).
  assert (game_state (game w1) = GAME_IN_PROGRESS) as Hip1 by by rewrite Hg1.
  assert (current_turn (game w1) = pid) as Hct1 by by rewrite Hg1.
  assert (0 <= current_turn (game w1) < MAX_PLAYERS) as Hr1
    by (unfold MAX_PLAYERS; lia).
  destruct (sched_game_in_progress (game w1) Hlen1 Hip1 Hr1)
    as (next & Hnext & Hps & Hnp & Hphase & Hturn & _ & Hmove).
  destruct (wp_run_tt scheduler_iteration
              (λ w2, game w2 = sched_game (game w1)) w1) as (w2 & Hrun2 & Hg2).
  { eapply wp_mono; [by apply scheduler_iteration_spec|]. by intros [] w2 (? & _). }
  exists w1, w2, next. rewrite Hct1 in Hnext.
  split; [done|]. split; [done|]. split; [done|]. rewrite Hg2, Hps, Hnp.
  split; [by rewrite Hg1|]. split; [by rewrite Hg1|].
  assert (state_at (game w1) (current_turn (game w1)) ≠ Some PLAYER_ACTIVE) as Hgone.
  { rewrite Hct1, Hg1. unfold state_at. gsimpl. rewrite arr_get_set_eq by lia. done. }
  destruct (get_next_active_player_spec state (players (game w1)) pid)
    as (r & Hr & Hnone & Hin & _); [done|unfold MAX_PLAYERS; lia|].
  rewrite Hnext in Hr. injection Hr as <-.
  assert (0 < cells_remaining (game w1)) as Hcells1 by by rewrite Hg1.
  split.
  - intros H0. specialize (Hmove Hgone H0).
    assert (game_state (sched_game (game w1)) = GAME_IN_PROGRESS) as Hstill.
    { apply Hphase. split; [done|]. intros Hnil. apply Hnone in Hnil. lia. }
    split; [done|]. split; [done|]. rewrite <- Hmove. by apply Hturn.
  - intros Hneg.
    assert (game_state (sched_game (game w1)) ≠ GAME_IN_PROGRESS) as Hover.
    { intros Hstill. apply Hphase in Hstill as [_ Hsome]. apply Hsome, Hnone.
      destruct (decide (next = -1)) as [|Hne]; [done|].
      apply Hin, active_slot_lookup in Hne as (np & Hnp'%arr_get_Some & _). lia. }
    destruct (game_state (sched_game (game w1))) eqn:Hst; try done.
    (* the scheduler never returns to waiting *)
    exfalso. revert Hst. unfold sched_game. rewrite Hip1, bool_decide_eq_true_2 by done.
    unfold sched_complete, sched_turn.
    repeat first [ destruct (_ <=? _) | destruct (_ && _) | destruct (arr_get _ _)
                 | destruct (is_active _ _) | destruct (get_next_active_player _ _ _) ];
      gsimpl; congruence.
Qed.

(** Extra X14.  When the player whose turn it is quits or disconnects in
    a game with cells left, the next round of the scheduler passes the
    turn to the next Active player in round-robin order after the
    leaver, and ends the game when no player is Active any more. *)
Theorem turn_passes_after_leave (pid : Z) (w : W) (p : Player) :
  wf_world w →
  game_state (game w) = GAME_IN_PROGRESS →
  current_turn (game w) = pid →
  arr_get (players (game w)) pid = Some p →
  0 < cells_remaining (game w) →
  let ps := <[Z.to_nat pid := set_state PLAYER_DISCONNECTED p]> (players (game w)) in
  ∃ next,
    get_next_active_player state ps pid = inr next
    ∧ (∃ resp w1 w2,
          handle_MSG_QUIT pid w = Ok resp w1 ∧ scheduler_iteration w1 = Ok tt w2
          ∧ msg_type resp = MSG_PLAYER_LEFT
          ∧ players (game w2) = ps
          ∧ (0 <= next →
               game_state (game w2) = GAME_IN_PROGRESS ∧ current_turn (game w2) = next
               ∧ state_at (game w2) next = Some PLAYER_ACTIVE)
          ∧ (next < 0 → game_state (game w2) = GAME_FINISHED))
    ∧ (∃ w1 w2,
          handle_disconnect pid w = Ok tt w1 ∧ scheduler_iteration w1 = Ok tt w2
          ∧ players (game w2) = ps
          ∧ (0 <= next →
               game_state (game w2) = GAME_IN_PROGRESS ∧ current_turn (game w2) = next
               ∧ state_at (game w2) next = Some PLAYER_ACTIVE)
          ∧ (next < 0 → game_state (game w2) = GAME_FINISHED)).
Proof.
  intros Hwf Hip Hct Hp Hcells ps.
  pose proof Hwf as ((Hlen & Hg9 & Hrows) & Hlog & Hsc & Hl).
  apply arr_get_Some in Hp as Hpid. rewrite Hlen in Hpid.
  destruct (get_next_active_player_spec state ps pid) as (next & Hnext & _);
    [by unfold ps; rewrite length_insert|unfold MAX_PLAYERS; lia|].
  exists next. split; [done|].
  assert (wp (handle_MSG_QUIT pid)
            (λ resp w1, msg_type resp = MSG_PLAYER_LEFT ∧ wf_world w1
                        ∧ game w1 = set_num_players (int_sub (num_players (game w)) 1)
                                      (set_players ps (game w))) w) as Hquit.
  { destruct w as [g q sc f ls t rs]; wsimpl; subst ls.
    unfold handle_MSG_QUIT. repeat gstep. split; [done|]. split; [|done].
    unfold wf_world, wf_game. fin. }
  assert (wp (handle_disconnect pid)
            (λ _ w1, wf_world w1
                     ∧ game w1 = set_num_players (int_sub (num_players (game w)) 1)
                                   (set_players ps (game w))) w) as Hdisc.
  { destruct w as [g q sc f ls t rs]; wsimpl; subst ls.
    unfold handle_disconnect. repeat gstep. split; [|done].
    unfold wf_world, wf_game. fin. }
  split.
  - destruct (leave_then_schedule (handle_MSG_QUIT pid ;; ret tt) pid w p)
      as (w1 & w2 & next' & Hrun1 & Hrun2 & Hnext' & Hps & _ & Hmove & Hend); try done.
    { apply wp_bind. eapply wp_mono; [exact Hquit|]. intros resp w1 (_ & ? & ?).
      by apply wp_ret. }
    apply wp_run in Hquit as (resp & w1' & Hq & Hty & _ & Hg1).
    unfold bind in Hrun1. rewrite Hq in Hrun1. injection Hrun1 as <-.
    rewrite Hg1 in Hnext'. cbn [players set_players set_num_players] in Hnext'.
    rewrite Hnext in Hnext'. injection Hnext' as <-.
    exists resp, w1', w2. done.
  - destruct (leave_then_schedule (handle_disconnect pid) pid w p)
      as (w1 & w2 & next' & Hrun1 & Hrun2 & Hnext' & Hps & _ & Hmove & Hend); try done.
    apply wp_run in Hdisc as ([] & w1' & Hq & _ & Hg1).
    rewrite Hq in Hrun1. injection Hrun1 as <-.
    rewrite Hg1 in Hnext'. cbn [players set_players set_num_players] in Hnext'.
    rewrite Hnext in Hnext'. injection Hnext' as <-.
    exists w1', w2. done.
Qed.
(** The winner loop ends on the first of the Active slots with the
    greatest score above the starting one, if there is any. *)
Lemma winner_loop_best ps : ∀ i m0 w0,
  (winner_loop ps i m0 w0 = (m0, w0)
   ∧ Forall (λ p, state p = PLAYER_ACTIVE → score p <= m0) ps)
  ∨ (∃ (k : nat) p,
        ps !! k = Some p ∧ winner_loop ps i m0 w0 = (score p, i + Z.of_nat k)
        ∧ state p = PLAYER_ACTIVE ∧ m0 < score p
        ∧ ∀ (j : nat) q, ps !! j = Some q → state q = PLAYER_ACTIVE →
            score q <= score p ∧ ((j < k)%nat → score q < score p)).
Proof.
  induction ps as [|p ps IH]; intros i m0 w0; [by left|].
  cbn [winner_loop]. unfold is_active.
  destruct (bool_decide (state p = PLAYER_ACTIVE) && (score p >? m0)) eqn:Hhead.
  - apply andb_true_iff in Hhead as [Hact%bool_decide_eq_true Hgt].
    rewrite Z.gtb_ltb in Hgt. apply Z.ltb_lt in Hgt.
    destruct (IH (i + 1) (score p) i) as [[Hrun Hall]|(k & p' & Hk & Hrun & Hact' & Hgt' & Hbest)].
    + right. exists 0%nat, p. split; [done|]. rewrite Hrun, Z.add_0_r.
      split; [done|]. split; [done|]. split; [done|].
      intros [|j] q Hq Hqa; cbn in Hq.
      * injection Hq as <-. split; [lia|lia].
      * split; [|lia]. by apply (Forall_lookup_1 _ _ _ _ Hall Hq).
    + right. exists (S k), p'. split; [done|]. rewrite Hrun.
      split; [f_equal; lia|]. split; [done|]. split; [lia|].
      intros [|j] q Hq Hqa; cbn in Hq.
      * injection Hq as <-. lia.
      * destruct (Hbest j q Hq Hqa). split; [done|]. intros ?. lia.
  - assert (state p = PLAYER_ACTIVE → score p <= m0) as Hlow.
    { intros Hact. apply andb_false_iff in Hhead as [Hf|Hf].
      - by apply bool_decide_eq_false in Hf.
      - rewrite Z.gtb_ltb in Hf. apply Z.ltb_ge in Hf. done. }
    destruct (IH (i + 1) m0 w0) as [[Hrun Hall]|(k & p' & Hk & Hrun & Hact' & Hgt' & Hbest)].
    + left. split; [done|]. by apply Forall_cons.
    + right. exists (S k), p'. split; [done|]. rewrite Hrun.
      split; [f_equal; lia|]. split; [done|]. split; [done|].
      intros [|j] q Hq Hqa; cbn in Hq.
      * injection Hq as <-. specialize (Hlow Hqa). lia.
      * destruct (Hbest j q Hq Hqa). split; [done|]. intros ?. lia.
Qed.

(** Extra X19.  When no cell remains in a game in progress, a round of
    the scheduler finishes the game and declares the winner: the Active
    player with the greatest score, the lowest slot among equals, provided
    that score is above -1000; with no such player [winner_id] is -1. *)
Theorem scheduler_declares_best (w : W) :
  wf_world w →
  game_state (game w) = GAME_IN_PROGRESS →
  cells_remaining (game w) <= 0 →
  ∃ w', scheduler_iteration w = Ok tt w'
        ∧ game_state (game w') = GAME_FINISHED
        ∧ players (game w') = players (game w)
        ∧ ((winner_id (game w') = -1
            ∧ Forall (λ p, state p = PLAYER_ACTIVE → score p <= -1000) (players (game w)))
           ∨ (∃ best,
                 arr_get (players (game w)) (winner_id (game w')) = Some best
                 ∧ state best = PLAYER_ACTIVE ∧ -1000 < score best
                 ∧ ∀ j q, arr_get (players (game w)) j = Some q → state q = PLAYER_ACTIVE →
                     score q <= score best
                     ∧ (j < winner_id (game w') → score q < score best))).
Proof.
  intros Hwf Hip Hcr. apply wp_run_tt.
  eapply wp_mono; [by apply scheduler_iteration_spec|].
  intros [] w' (Hg & _). cbn beta. rewrite Hg.
  unfold sched_game. rewrite Hip, bool_decide_eq_true_2 by done.
  unfold sched_complete. destruct (sched_turn_frame (game w)) as (Hps & Hc & _).
  rewrite Hc, Hps. rewrite (proj2 (Z.leb_le _ _)) by done. gsimpl.
  split; [done|]. split; [done|].
  destruct (winner_loop_best (players (game w)) 0 (-1000) (-1))
    as [[Hrun Hall]|(k & best & Hk & Hrun & Hact & Hgt & Hbest)]; rewrite Hrun; cbn [snd].
  - by left.
  - right. exists best. rewrite Z.add_0_l.
    split; [by rewrite arr_get_nat, Nat2Z.id by lia|]. split; [done|]. split; [done|].
    intros j q Hq Hqa. apply arr_get_Some in Hq as Hj. rewrite arr_get_nat in Hq by lia.
    destruct (Hbest _ q Hq Hqa) as [Hle Hlt]. split; [done|]. intros ?. apply Hlt. lia.
Qed.
End SudokuMoves.

(** * The puzzle *)

Lemma wpr_lift {W A} (r : Fault + A) (Q : A → W → Prop) (w : W) :
  match r with inr a => Q a w | inl f => f = NoRandom end → wpr (lift r) Q w.
Proof. by destruct r. Qed.

(** Symbolic execution up to the supply of random values. *)
Ltac rstep :=
  lazymatch goal with
  | |- wpr (bind _ _) _ _ => apply wpr_bind
  | |- wpr (ret _) _ _ => apply wpr_ret
  | |- wpr _ _ _ => apply wp_wpr; SudokuFacts.gstep
  | |- wp _ _ _ => SudokuFacts.gstep
  end.

Module PuzzleFacts.
Import Sudoku SudokuFacts Puzzle.
Import Generator (in_grid, all_cells).
Import GeneratorFacts.

(** *** Access to the cells *)

Lemma grid_get_in_grid g r c cell : wf_cells g → grid_get g r c = Some cell → in_grid r c.
Proof.
  intros [Hlen Hrows]. unfold grid_get.
  destruct (arr_get g r) as [row|] eqn:Hr; [|done]. intros Hc.
  apply arr_get_Some in Hr as Hrr. apply arr_get_Some in Hc as Hcc.
  rewrite arr_get_nat in Hr by lia.
  pose proof (Forall_lookup_1 _ _ _ _ Hrows Hr) as Hl. cbn beta in Hl.
  unfold in_grid. lia.
Qed.

Lemma grid_get_is_Some g r c : wf_cells g → in_grid r c → ∃ cell, grid_get g r c = Some cell.
Proof.
  intros [Hlen Hrows] [Hr Hc]. unfold grid_get.
  destruct (arr_get_is_Some g r) as [row Hrow]; [lia|]. rewrite Hrow.
  apply arr_get_is_Some. rewrite arr_get_nat in Hrow by lia.
  pose proof (Forall_lookup_1 _ _ _ _ Hrows Hrow) as Hl. cbn beta in Hl. lia.
Qed.

Lemma grid_set_ok g r c x :
  wf_cells g → in_grid r c →
  ∃ g', grid_set g r c x = Some g' ∧ wf_cells g'
        ∧ grid_get g' r c = Some x
        ∧ ∀ r' c', ¬ (r' = r ∧ c' = c) → grid_get g' r' c' = grid_get g r' c'.
Proof.
  intros [Hlen Hrows] [Hr Hc]. unfold grid_set.
  destruct (arr_get_is_Some g r) as [row Hrow]; [lia|]. rewrite Hrow.
  rewrite arr_get_nat in Hrow by lia.
  pose proof (Forall_lookup_1 _ _ _ _ Hrows Hrow) as Hlrow. cbn beta in Hlrow.
  rewrite arr_set_ok by lia. rewrite arr_set_ok by lia.
  eexists. split; [done|]. split; [split|split].
  - by rewrite length_insert.
  - apply Forall_insert; [done|]. by rewrite length_insert.
  - unfold grid_get. rewrite arr_get_set_eq by lia. apply arr_get_set_eq. lia.
  - intros r' c' Hne. unfold grid_get.
    destruct (decide (r' = r)) as [->|Hrne].
    + rewrite arr_get_set_eq by lia. rewrite (arr_get_nat g r) by lia. rewrite Hrow.
      apply arr_get_set_ne; [lia|]. intros ->. by apply Hne.
    + by rewrite arr_get_set_ne by (lia || done).
Qed.

Lemma grid_set_inv g r c x g' cell :
  wf_cells g → grid_get g r c = Some cell → grid_set g r c x = Some g' →
  wf_cells g' ∧ grid_get g' r c = Some x
  ∧ ∀ r' c', ¬ (r' = r ∧ c' = c) → grid_get g' r' c' = grid_get g r' c'.
Proof.
  intros Hwf Hget Hset. pose proof (grid_get_in_grid g r c cell Hwf Hget) as Hin.
  destruct (grid_set_ok g r c x Hwf Hin) as (g1 & Hset1 & H).
  rewrite Hset in Hset1. by injection Hset1 as <-.
Qed.

(** Emptying a cell adds one to the open cells; filling one takes one
    off. *)
Lemma open_cells_emptied g g1 r c cell :
  in_grid r c → grid_get g r c = Some cell → value cell ≠ EMPTY_CELL →
  (∃ cell1, grid_get g1 r c = Some cell1 ∧ value cell1 = EMPTY_CELL) →
  (∀ r' c', ¬ (r' = r ∧ c' = c) → grid_get g1 r' c' = grid_get g r' c') →
  open_cells g1 = S (open_cells g).
Proof.
  intros Hin Hget Hval (cell1 & Hget1 & Hval1) Hother. unfold open_cells.
  apply (filter_length_one _ _ all_cells (r, c)).
  - apply all_cells_NoDup.
  - by apply in_all_cells.
  - cbn. by rewrite Hget1, <- Hval1.
  - cbn. rewrite Hget. cbn. congruence.
  - intros [r' c'] Hne. cbn. rewrite Hother; [done|]. intros [-> ->]. done.
Qed.

Lemma open_cells_filled g g1 r c cell :
  in_grid r c → grid_get g r c = Some cell → value cell = EMPTY_CELL →
  (∃ cell1, grid_get g1 r c = Some cell1 ∧ value cell1 ≠ EMPTY_CELL) →
  (∀ r' c', ¬ (r' = r ∧ c' = c) → grid_get g1 r' c' = grid_get g r' c') →
  open_cells g = S (open_cells g1).
Proof.
  intros Hin Hget Hval (cell1 & Hget1 & Hval1) Hother. unfold open_cells.
  apply (filter_length_one _ _ all_cells (r, c)).
  - apply all_cells_NoDup.
  - by apply in_all_cells.
  - cbn. by rewrite Hget, <- Hval.
  - cbn. rewrite Hget1. cbn. congruence.
  - intros [r' c'] Hne. cbn. rewrite Hother; [done|]. intros [-> ->]. done.
Qed.

(** *** The removal loop of [generate_puzzle] *)

Lemma remove_cells_spec (sol : Z → Z → Z) (n : Z) : ∀ (len : nat) rs g removed,
  (length rs ≤ len)%nat → wf_cells g → fresh_puzzle sol g →
  0 <= removed <= n → n <= INT_MAX →
  match remove_cells rs g removed n with
  | inr (g', rs') =>
      wf_cells g' ∧ fresh_puzzle sol g'
      ∧ open_cells g' = (open_cells g + Z.to_nat (n - removed))%nat
      ∧ ∃ used, rs = used ++ rs'
  | inl f => f = NoRandom ∨ ¬ Forall (λ r, 0 <= r) rs
  end.
Proof.
  induction len as [|len IH]; intros rs g removed Hlen Hwf Hfresh Hrem Hn.
  - destruct rs; [|cbn in Hlen; lia]. cbn [remove_cells].
    destruct (removed <? n) eqn:Hlt; [by left|]. apply Z.ltb_ge in Hlt.
    split; [done|]. split; [done|]. split; [lia|]. by exists [].
  - destruct rs as [|r1 [|r2 rs]]; cbn [remove_cells];
      (destruct (removed <? n) eqn:Hlt;
       [apply Z.ltb_lt in Hlt
       |apply Z.ltb_ge in Hlt; split; [done|]; split; [done|]; split; [lia|]; by exists []]);
      [by left|by left|].
    cbv zeta. unfold GRID_SIZE.
    destruct (grid_get g (Z.rem r1 9) (Z.rem r2 9)) as [cell|] eqn:Hget.
    2:{ right. intros Hpos. apply Forall_cons in Hpos as [Hr1 Hpos].
        apply Forall_cons in Hpos as [Hr2 _].
        destruct (grid_get_is_Some g (Z.rem r1 9) (Z.rem r2 9) Hwf) as [? Hsome]; [|congruence].
        pose proof (Z.rem_bound_pos r1 9). pose proof (Z.rem_bound_pos r2 9).
        unfold in_grid. lia. }
    pose proof (grid_get_in_grid _ _ _ _ Hwf Hget) as Hin.
    destruct (negb (value cell =? EMPTY_CELL)) eqn:Hval.
    + apply negb_true_iff, Z.eqb_neq in Hval.
      destruct (grid_set_ok g (Z.rem r1 9) (Z.rem r2 9)
                  (mkCell EMPTY_CELL (solution cell) 0 (placed_by cell)) Hwf Hin)
        as (g1 & Hset & Hwf1 & Hget1 & Hother).
      rewrite Hset.
      assert (fresh_puzzle sol g1) as Hfresh1.
      { intros r c Hrc. destruct (decide (r = Z.rem r1 9 ∧ c = Z.rem r2 9)) as [[-> ->]|Hne].
        - eexists. split; [done|].
          destruct (Hfresh _ _ Hrc) as (cell' & Hget' & Hsol & Hby & _).
          rewrite Hget in Hget'. injection Hget' as <-.
          split; [done|]. split; [done|]. right. done.
        - rewrite Hother by done. by apply Hfresh. }
      assert (open_cells g1 = S (open_cells g)) as Hopen.
      { eapply open_cells_emptied; try done. eexists. split; [done|]. done. }
      assert (int_add removed 1 = removed + 1) as ->.
      { apply int_add_exact. unfold in_int, INT_MIN, INT_MAX in *. lia. }
      specialize (IH rs g1 (removed + 1) ltac:(cbn in Hlen; lia) Hwf1 Hfresh1 ltac:(lia) Hn).
      destruct (remove_cells rs g1 (removed + 1) n) as [f|[g' rs']].
      * destruct IH as [->|Hneg]; [by left|right].
        intros Hpos. apply Hneg. apply Forall_cons in Hpos as [_ Hpos].
        by apply Forall_cons in Hpos as [_ Hpos].
      * destruct IH as (Hwf' & Hfresh' & Hopen' & used & ->).
        split; [done|]. split; [done|]. split; [lia|]. by exists (r1 :: r2 :: used).
    + specialize (IH rs g removed ltac:(cbn in Hlen; lia) Hwf Hfresh Hrem Hn).
      destruct (remove_cells rs g removed n) as [f|[g' rs']].
      * destruct IH as [->|Hneg]; [by left|right].
        intros Hpos. apply Hneg. apply Forall_cons in Hpos as [_ Hpos].
        by apply Forall_cons in Hpos as [_ Hpos].
      * destruct IH as (Hwf' & Hfresh' & Hopen' & used & ->).
        split; [done|]. split; [done|]. split; [lia|]. by exists (r1 :: r2 :: used).
Qed.

(** *** The grid before the removal *)

Lemma indices9_lookup z : 0 <= z < 9 → arr_get indices9 z = Some z.
Proof.
  intros H. assert (z = 0 ∨ z = 1 ∨ z = 2 ∨ z = 3 ∨ z = 4 ∨ z = 5 ∨ z = 6 ∨ z = 7 ∨ z = 8)
    as Hz by lia.
  destruct Hz as [->|[->|[->|[->|[->|[->|[->|[->| ->]]]]]]]]; done.
Qed.

Lemma full_grid_get (sol : Z → Z → Z) r c :
  in_grid r c →
  grid_get ((λ r, (λ c, mkCell (sol r c) (sol r c) 1 (-1)) <$> indices9) <$> indices9) r c
  = Some (mkCell (sol r c) (sol r c) 1 (-1)).
Proof.
  intros [Hr Hc]. unfold grid_get. rewrite arr_get_fmap, indices9_lookup by done.
  cbn [fmap option_fmap option_map]. rewrite arr_get_fmap, indices9_lookup by done. done.
Qed.

Lemma full_grid_wf (sol : Z → Z → Z) :
  wf_cells ((λ r, (λ c, mkCell (sol r c) (sol r c) 1 (-1)) <$> indices9) <$> indices9).
Proof.
  split; [done|]. apply Forall_fmap, Forall_forall. intros r _. done.
Qed.

Lemma full_grid_fresh (sol : Z → Z → Z) :
  fresh_puzzle sol ((λ r, (λ c, mkCell (sol r c) (sol r c) 1 (-1)) <$> indices9) <$> indices9).
Proof.
  intros r c Hin. eexists. split; [by apply full_grid_get|].
  split; [done|]. split; [done|]. by left.
Qed.

Lemma length_filter_none {A} (P : A → Prop) `{∀ x, Decision (P x)} (l : list A) :
  (∀ x, x ∈ l → ¬ P x) → length (filter P l) = 0%nat.
Proof.
  induction l as [|x l IH]; [done|]. intros Hnone.
  rewrite filter_cons_False by (apply Hnone; left).
  apply IH. intros y Hy. apply Hnone. by right.
Qed.

Lemma full_grid_open (sol : Z → Z → Z) :
  (∀ r c, in_grid r c → sol r c ≠ 0) →
  open_cells ((λ r, (λ c, mkCell (sol r c) (sol r c) 1 (-1)) <$> indices9) <$> indices9)
  = 0%nat.
Proof.
  intros Hsol. unfold open_cells. apply length_filter_none. intros [r c] Hin%in_all_cells.
  cbn beta. cbn [fst snd]. rewrite full_grid_get by done. cbn. intros [= H0]. by eapply Hsol.
Qed.

Lemma cells_to_remove_exact d :
  -6 <= d <= 1000 →
  (if int_add 30 (int_wrap (d * 5)) >? 55 then 55 else int_add 30 (int_wrap (d * 5)))
  = Z.min (30 + 5 * d) 55.
Proof.
  intros Hd. rewrite int_wrap_id by (unfold in_int, INT_MIN, INT_MAX; lia).
  rewrite int_add_exact by (unfold in_int, INT_MIN, INT_MAX; lia).
  destruct (30 + d * 5 >? 55) eqn:Hgt.
  - apply Z.gtb_lt in Hgt. lia.
  - rewrite Z.gtb_ltb in Hgt. apply Z.ltb_ge in Hgt. lia.
Qed.

Lemma first_turn_flags (m : list bool) :
  length m = 5%nat →
  get_next_active_player state_of_flag m (-1)
  = inr (default (-1) (head (active_slots state_of_flag m))).
Proof.
  intros (b0 & b1 & b2 & b3 & b4 & ->)%five_flags.
  by destruct b0, b1, b2, b3, b4.
Qed.

(** The first turn goes to the lowest Active slot. *)
Lemma first_turn {P} (state_of : P → PlayerState) (ps : list P) :
  length ps = 5%nat →
  get_next_active_player state_of ps (-1)
  = inr (default (-1) (head (active_slots state_of ps))).
Proof.
  intros Hlen. rewrite get_next_active_player_flags, active_slots_flags.
  apply first_turn_flags. by rewrite length_fmap.
Qed.

Section Generate.
Variable generate_full_grid : list Z → (Z → Z → Z) * list Z.

Lemma generate_puzzle_wpr (difficulty : Z) (w : W) (Q : unit → W → Prop) :
  log_lock (locks w) = 0 → wf_log (log_queue w) →
  -6 <= difficulty <= 1000 →
  Forall (λ r, 0 <= r) (generate_full_grid (rand_stream w)).2 →
  (∀ g' rs',
      let n := Z.min (30 + 5 * difficulty) 55 in
      let sol := (generate_full_grid (rand_stream w)).1 in
      wf_cells g' → fresh_puzzle sol g' →
      (fills generate_full_grid → open_cells g' = Z.to_nat n) →
      Q tt (logged ("Generated puzzle with %d empty cells (difficulty: %d)"%string,
                    [ArgInt n; ArgInt difficulty])
              (with_game (set_cells_remaining n (set_grid g' (game w)))
                 (with_rand_stream rs' w)))) →
  wpr (generate_puzzle generate_full_grid difficulty) Q w.
Proof.
  intros Hl Hlog Hd Hpos HQ. unfold generate_puzzle.
  rstep. rstep.
  destruct (generate_full_grid (rand_stream w)) as [sol rs] eqn:Hgen.
  cbn [fst snd] in *. rewrite cells_to_remove_exact by done.
  set (n := Z.min (30 + 5 * difficulty) 55) in *.
  apply wpr_bind, wpr_lift.
  pose proof (remove_cells_spec sol n (length rs) rs _ 0 ltac:(done)
                (full_grid_wf sol) (full_grid_fresh sol)
                ltac:(unfold n; lia) ltac:(unfold n, INT_MAX; lia)) as Hrem.
  destruct (remove_cells rs _ 0 n) as [f|[g' rs']].
  { destruct Hrem as [?|?]; done. }
  destruct Hrem as (Hwf' & Hfresh' & Hopen' & _).
  repeat rstep. cbn [fst snd]. apply HQ; try done.
  intros Hfills. rewrite Hopen', full_grid_open; [lia|].
  intros r c Hin. specialize (Hfills (rand_stream w) r c Hin). by rewrite Hgen in Hfills.
Qed.

(** Extra X15.  [generate_puzzle] leaves a grid in which every cell
    knows the number the generator gave it and either shows it and is
    fixed or is empty and open; with a generator that fills its grid,
    exactly min(30 + 5 * difficulty, 55) cells are empty, and
    [cells_remaining] is that number.  Nothing else in the game state
    changes.  The loop stops only for want of random values. *)
Theorem generate_puzzle_counts_open_cells (difficulty : Z) (w : W) :
  log_lock (locks w) = 0 → wf_log (log_queue w) →
  fills generate_full_grid →
  -6 <= difficulty <= 1000 →
  Forall (λ r, 0 <= r) (generate_full_grid (rand_stream w)).2 →
  wpr (generate_puzzle generate_full_grid difficulty)
      (λ _ w',
         let n := Z.min (30 + 5 * difficulty) 55 in
         cells_remaining (game w') = n
         ∧ open_cells (grid (game w')) = Z.to_nat n
         ∧ wf_cells (grid (game w'))
         ∧ fresh_puzzle (generate_full_grid (rand_stream w)).1 (grid (game w'))
         ∧ game w' = set_cells_remaining n (set_grid (grid (game w')) (game w))
         ∧ scores w' = scores w ∧ scores_file w' = scores_file w
         ∧ locks w' = locks w) w.
Proof.
  intros Hl Hlog Hfills Hd Hpos. apply generate_puzzle_wpr; [exact Hl|exact Hlog|exact Hd|exact Hpos|].
  intros g' rs' n sol Hwf' Hfresh' Hopen'. wsimpl. gsimpl.
  split; [reflexivity|]. split; [exact (Hopen' Hfills)|]. split; [exact Hwf'|].
  split; [exact Hfresh'|]. split; [reflexivity|]. split; [reflexivity|].
  split; [reflexivity|].
  clear Hfresh' Hopen' Hwf' Hpos Hfills.
  destruct (locks w) as [gl ll sl]. cbn [log_lock] in Hl. subst ll. reflexivity.
Qed.

(** Extra X16.  The Join that brings [num_players] to [MIN_PLAYERS]
    while the game waits starts it: the game is in progress, every
    slot that was Waiting, the joiner's included, is Active, the first
    turn goes to the lowest Active slot, [turn_signal] is raised, and
    the puzzle of difficulty 2 is in place with 40 open cells.  The
    handler stops short of this only for want of random values. *)
Theorem join_starts_game (pid : Z) (msg : GameMessage) (w : W) (p : Player) :
  wf_world w → fills generate_full_grid →
  game_state (game w) = GAME_WAITING_FOR_PLAYERS →
  MIN_PLAYERS - 1 <= num_players (game w) < INT_MAX →
  arr_get (players (game w)) pid = Some p →
  Forall (λ r, 0 <= r) (generate_full_grid (rand_stream w)).2 →
  wpr (handle_MSG_JOIN generate_full_grid pid msg)
      (λ resp w',
         let ps := promote <$> <[Z.to_nat pid := joined msg p]> (players (game w)) in
         msg_type resp = MSG_GAME_START
         ∧ game_state (game w') = GAME_IN_PROGRESS
         ∧ players (game w') = ps
         ∧ num_players (game w') = num_players (game w) + 1
         ∧ head (active_slots state ps) = Some (current_turn (game w'))
         ∧ state_at (game w') (current_turn (game w')) = Some PLAYER_ACTIVE
         ∧ state_at (game w') pid = Some PLAYER_ACTIVE
         ∧ turn_signal (game w') = int_add (turn_signal (game w)) 1
         ∧ cells_remaining (game w') = 40
         ∧ open_cells (grid (game w')) = 40%nat
         ∧ fresh_puzzle (generate_full_grid (rand_stream w)).1 (grid (game w'))
         ∧ locks w' = free_locks) w.
Proof.
  intros ((Hlen & _) & Hlog & Hsc & Hl) Hfills Hphase Hnum Hp Hpos.
  destruct w as [g q sc f ls t rs]; wsimpl; subst ls.
  pose proof (arr_get_Some _ _ _ Hp) as Hpid. rewrite Hlen in Hpid.
  set (ps := promote <$> <[Z.to_nat pid := joined msg p]> (players g)).
  assert (length ps = 5%nat) as Hlps by by unfold ps; rewrite length_fmap, length_insert.
  assert (arr_get ps pid = Some (set_state PLAYER_ACTIVE (joined msg p))) as Hjoiner.
  { unfold ps. rewrite arr_get_fmap, arr_get_set_eq by lia. done. }
  assert (pid ∈ active_slots state ps) as Hin.
  { apply active_slot_lookup. eauto. }
  destruct (active_slots state ps) as [|first rest] eqn:Hslots;
    [by apply elem_of_nil in Hin|].
  assert (first ∈ active_slots state ps) as Hfirst by (rewrite Hslots; left).
  apply active_slot_lookup in Hfirst as (fp & Hfp & Hfact).
  pose proof (first_turn state ps Hlps) as Hturn. rewrite Hslots in Hturn.
  change (default (-1) (head (first :: rest))) with first in Hturn.
  unfold handle_MSG_JOIN, join_locked. repeat rstep.
  rewrite int_add_exact by (unfold in_int, INT_MIN, INT_MAX, MIN_PLAYERS in *; lia).
  rewrite (proj2 (Z.leb_le _ _)) by lia.
  rewrite Hphase, bool_decide_eq_true_2 by done. cbn [andb].
  repeat rstep. apply wpr_bind, generate_puzzle_wpr; wsimpl; try done.
  { eauto using wf_log_push. }
  intros g' rs' Hwf' Hfresh' Hopen'. wsimpl.
  repeat rstep. fold ps. repeat rstep.
  rewrite bool_decide_eq_true_2 by done.
  apply arr_get_Some in Hfp as Hfr. rewrite Hlps in Hfr.
  rewrite (proj2 (Z.leb_le _ _)) by lia. cbn [andb].
  apply wp_wpr. eapply wp_mono.
  { apply broadcast_turn_notification_spec; wsimpl; gsimpl; done. }
  intros [] w' (Hg & _ & Hl' & _). apply wp_ret. rewrite Hg. wsimpl. gsimpl.
  split; [done|]. split; [done|]. split; [done|]. split; [done|]. split; [done|].
  unfold state_at. wsimpl. gsimpl.
  change (promote <$> <[Z.to_nat pid := _]> (players g)) with ps.
  rewrite Hfp, Hjoiner. cbn [fmap option_fmap option_map state set_state]. rewrite Hfact.
  split; [done|]. split; [done|]. split; [done|]. split; [done|].
  split; [by apply Hopen'|]. done.
Qed.
End Generate.
End PuzzleFacts.

(** * The books of the Sudoku game *)

(** Arithmetic of [int_wrap] modulo 2^32. *)
Lemma int_wrap_shift z : ∃ k, int_wrap z = z + k * 4294967296.
Proof.
  unfold int_wrap. exists (- ((z + 2147483648) / 4294967296)).
  pose proof (Z.div_mod (z + 2147483648) 4294967296 ltac:(lia)). lia.
Qed.

Lemma int_wrap_congr a b k : a = b + k * 4294967296 → int_wrap a = int_wrap b.
Proof.
  intros ->. unfold int_wrap. f_equal.
  replace (b + k * 4294967296 + 2147483648) with (b + 2147483648 + k * 4294967296) by lia.
  apply Z_mod_plus_full.
Qed.

Module BooksFacts.
Import Sudoku SudokuFacts Puzzle PuzzleFacts.
Import Generator (in_grid, all_cells).
Import SudokuInv.

Lemma score_matches_correct p :
  score_matches p →
  score_matches (set_correct_placements (int_add (correct_placements p) 1)
                   (set_score (int_add (score p) POINTS_CORRECT) p)).
Proof.
  unfold score_matches, POINTS_CORRECT, POINTS_WRONG, int_add. cbn. intros ->.
  destruct (int_wrap_shift (10 * correct_placements p + -5 * wrong_placements p)) as [k1 ->].
  destruct (int_wrap_shift (correct_placements p + 1)) as [k2 ->].
  apply (int_wrap_congr _ _ (k1 - 10 * k2)). lia.
Qed.

Lemma score_matches_wrong p :
  score_matches p →
  score_matches (set_wrong_placements (int_add (wrong_placements p) 1)
                   (set_score (int_add (score p) POINTS_WRONG) p)).
Proof.
  unfold score_matches, POINTS_CORRECT, POINTS_WRONG, int_add. cbn. intros ->.
  destruct (int_wrap_shift (10 * correct_placements p + -5 * wrong_placements p)) as [k1 ->].
  destruct (int_wrap_shift (wrong_placements p + 1)) as [k2 ->].
  apply (int_wrap_congr _ _ (k1 + 5 * k2)). lia.
Qed.

Lemma score_matches_state s p : score_matches p → score_matches (set_state s p).
Proof. done. Qed.

Lemma score_matches_pid v p : score_matches p → score_matches (set_handler_pid v p).
Proof. done. Qed.

Lemma score_matches_promote p : score_matches p → score_matches (promote p).
Proof. unfold promote. by destruct (bool_decide _). Qed.

Lemma score_matches_joined n p :
  score_matches (set_wrong_placements 0 (set_correct_placements 0 (set_score 0
                   (set_state PLAYER_WAITING (set_name n p))))).
Proof. done. Qed.

Section Books.
Variable generate_full_grid : list Z → (Z → Z → Z) * list Z.

(** A critical section that leaves the grid and its count alone. *)
Lemma books_inv_keep g g' :
  books_inv generate_full_grid g →
  length (players g') = 5%nat → Forall score_matches (players g') →
  grid g' = grid g → cells_remaining g' = cells_remaining g →
  (game_state g' ≠ GAME_WAITING_FOR_PLAYERS → game_state g ≠ GAME_WAITING_FOR_PLAYERS) →
  books_inv generate_full_grid g'.
Proof.
  intros ((Hlen & Hg9 & Hrows) & Hsc & Hcells & Hcount) Hlen' Hsc' Hgrid Hcr Hphase.
  unfold books_inv, wf_game. rewrite Hgrid, Hcr. split_and!; try done.
  intros Hf Hs. apply Hcount; [done|]. by apply Hphase.
Qed.

Lemma players_of_inv g :
  books_inv generate_full_grid g →
  length (players g) = 5%nat ∧ Forall score_matches (players g).
Proof. by intros ((? & _) & ? & _). Qed.

Lemma Forall_arr_get {A} (P : A → Prop) (l : list A) i x :
  Forall P l → arr_get l i = Some x → P x.
Proof.
  intros Hall Hx. apply arr_get_Some in Hx as Hr. rewrite arr_get_nat in Hx by lia.
  by eapply Forall_lookup_1.
Qed.

Ltac keep :=
  lazymatch goal with
  | Hinv : books_inv _ ?g |- books_inv _ _ =>
      let Hl := fresh "Hl" in let Hs := fresh "Hs" in
      destruct (players_of_inv g Hinv) as [Hl Hs];
      norm_arr; norm_phase;
      apply (books_inv_keep g); gsimpl; rewrite ?length_insert, ?length_fmap;
      [ done | done
      | try done;
        repeat first [ apply Forall_insert | apply Forall_fmap ]; try done
      | done | done
      | try done; try congruence ]
  end.

Lemma game_state_books g pid :
  books_inv generate_full_grid g →
  glp (handle_MSG_GAME_STATE pid) (λ _ g', books_inv generate_full_grid g') g.
Proof. intros Hinv. unfold handle_MSG_GAME_STATE. repeat g_step. done. Qed.

Lemma broadcast_books g :
  books_inv generate_full_grid g →
  glp broadcast_turn_notification (λ _ g', books_inv generate_full_grid g') g.
Proof. intros Hinv. unfold broadcast_turn_notification. repeat g_step; done. Qed.

Lemma advance_books g :
  books_inv generate_full_grid g →
  glp advance_turn (λ _ g', books_inv generate_full_grid g') g.
Proof. intros Hinv. unfold advance_turn. repeat g_step; done. Qed.

Lemma quit_books g pid :
  books_inv generate_full_grid g →
  glp (handle_MSG_QUIT pid) (λ _ g', books_inv generate_full_grid g') g.
Proof.
  intros Hinv. unfold handle_MSG_QUIT. repeat g_step. keep.
  apply score_matches_state. by eapply Forall_arr_get.
Qed.

Lemma disconnect_books g pid :
  books_inv generate_full_grid g →
  glp (handle_disconnect pid) (λ _ g', books_inv generate_full_grid g') g.
Proof.
  intros Hinv. unfold handle_disconnect. repeat g_step. keep.
  apply score_matches_state. by eapply Forall_arr_get.
Qed.

Lemma forked_books g slot pid :
  books_inv generate_full_grid g →
  glp (update_player slot (set_handler_pid pid)) (λ _ g', books_inv generate_full_grid g') g.
Proof.
  intros Hinv. repeat g_step. keep.
  apply score_matches_pid. by eapply Forall_arr_get.
Qed.

Lemma scheduler_books g :
  books_inv generate_full_grid g →
  glp scheduler_iteration (λ _ g', books_inv generate_full_grid g') g.
Proof.
  intros Hinv. unfold scheduler_iteration. repeat g_step; try done.
  all: keep.
Qed.

Lemma books_inv_filled g pid row col v cell g1 p :
  books_inv generate_full_grid g →
  game_state g = GAME_IN_PROGRESS →
  grid_get (grid g) row col = Some cell →
  value cell = EMPTY_CELL → v = solution cell → v ≠ 0 →
  grid_set (grid g) row col (mkCell v (solution cell) (is_fixed cell) pid) = Some g1 →
  arr_get (players g) pid = Some p →
  books_inv generate_full_grid
    (set_players (<[Z.to_nat pid := set_correct_placements (int_add (correct_placements p) 1)
                                      (set_score (int_add (score p) POINTS_CORRECT) p)]>
                    (players g))
       (set_cells_remaining (int_sub (cells_remaining g) 1) (set_grid g1 g))).
Proof.
  intros ((Hlen & Hg9 & Hrows) & Hsc & Hcells & Hcount) Hip Hget Hval Hv Hv0 Hset Hp.
  assert (wf_cells (grid g)) as Hwf by done.
  destruct (grid_set_inv _ _ _ _ _ _ Hwf Hget Hset) as ((Hg9' & Hrows') & Hget1 & Hother).
  pose proof (grid_get_in_grid _ _ _ _ Hwf Hget) as Hin.
  unfold books_inv, wf_game. gsimpl. rewrite length_insert. split_and!; try done.
  - apply Forall_insert; [done|]. apply score_matches_correct. by eapply Forall_arr_get.
  - intros r c x Hx. destruct (decide (r = row ∧ c = col)) as [[-> ->]|Hne].
    + rewrite Hget1 in Hx. injection Hx as <-. by right.
    + rewrite Hother in Hx by done. by eapply Hcells.
  - intros Hf _. destruct (Hcount Hf) as [Hcr Hle]; [by rewrite Hip|].
    assert (open_cells (grid g) = S (open_cells g1)) as Hopen.
    { eapply open_cells_filled; try done. eexists. split; [done|]. done. }
    rewrite int_sub_exact by (unfold in_int, INT_MIN, INT_MAX; lia). lia.
Qed.

Lemma place_books g pid msg :
  books_inv generate_full_grid g →
  glp (place_locked pid msg) (λ _ g', books_inv generate_full_grid g') g.
Proof.
  intros Hinv. unfold place_locked. repeat g_step; try done.
  all: norm_arr; norm_phase.
  all: repeat match goal with
         | H : negb (_ =? _) = false |- _ => apply negb_false_iff, Z.eqb_eq in H
         | H : (_ =? _) = true |- _ => apply Z.eqb_eq in H
         | H : _ || _ = false |- _ => apply orb_false_iff in H as [? ?]
         | H : (_ <? _) = false |- _ => apply Z.ltb_ge in H
         end.
  all: lazymatch goal with
       | |- context [set_grid ?a0 ?g] =>
           lazymatch goal with
           | Hp : arr_get (players g) ?pid = Some ?a1 |- _ =>
               assert (books_inv generate_full_grid
                         (set_players
                            (<[Z.to_nat pid :=
                                 set_correct_placements (int_add (correct_placements a1) 1)
                                   (set_score (int_add (score a1) POINTS_CORRECT) a1)]>
                               (players g))
                            (set_cells_remaining (int_sub (cells_remaining g) 1)
                               (set_grid a0 g))))
                 as Hfilled by (eapply books_inv_filled; try done; lia);
               first [ exact Hfilled
                     | apply (books_inv_keep _ _ Hfilled); gsimpl; try done;
                       first [ by destruct Hfilled as ((? & _) & _)
                             | by destruct Hfilled as (_ & ? & _)
                             | intros _; congruence ] ]
           end
       | |- _ => keep; apply score_matches_wrong; by eapply Forall_arr_get
       end.
Qed.

Lemma join_books g pid msg :
  books_inv generate_full_grid g →
  glp (join_locked generate_full_grid pid msg) (λ _ g', books_inv generate_full_grid g') g.
Proof.
  intros Hinv. unfold join_locked, generate_puzzle. repeat g_step.
  all: norm_arr; norm_phase.
  - rewrite (cells_to_remove_exact 2) in * by lia.
    change (Z.min (30 + 5 * 2) 55) with 40 in *.
    match goal with
    | Hrem : remove_cells ?rs ?full 0 40 = inr ?r |- _ =>
        pose proof (remove_cells_spec z 40 (length rs) rs full 0 ltac:(done)
                      (full_grid_wf z) (full_grid_fresh z) ltac:(lia)
                      ltac:(unfold INT_MAX; lia)) as Hspec;
        rewrite Hrem in Hspec; destruct r as [g' rs'];
        destruct Hspec as ((Hg9 & Hrows) & Hfresh & Hopen & _)
    end.
    destruct (players_of_inv g Hinv) as [Hl Hs].
    unfold books_inv, wf_game. gsimpl. rewrite length_fmap, length_insert.
    split_and!; try done.
    + apply Forall_fmap, Forall_insert; [|done].
      eapply Forall_impl; [exact Hs|]. intros p. apply score_matches_promote.
    + intros r c cell Hcell.
      pose proof (grid_get_in_grid g' r c cell ltac:(done) Hcell) as Hin.
      destruct (Hfresh r c Hin) as (cell' & Hcell' & Hsol & _ & [[Hv _]|[Hv _]]).
      * rewrite Hcell in Hcell'. injection Hcell' as <-. right. congruence.
      * rewrite Hcell in Hcell'. injection Hcell' as <-. by left.
    + intros Hf _. split; [|lia]. rewrite Hopen, full_grid_open; [lia|].
      intros r c Hin. specialize (Hf (rand_stream w) r c Hin). by rewrite Heqp in Hf.
  - keep.
Qed.

Lemma action_books a g :
  books_inv generate_full_grid g →
  glp (run_action generate_full_grid a) (λ _ g', books_inv generate_full_grid g') g.
Proof.
  intros Hinv. destruct a; cbn [run_action].
  - by apply forked_books.
  - apply glp_bind. eapply glp_mono; [by apply join_books|].
    intros ? g' ?. by apply glp_ret.
  - apply glp_bind. eapply glp_mono; [by apply place_books|].
    intros ? g' ?. by apply glp_ret.
  - by apply advance_books.
  - by apply broadcast_books.
  - apply glp_bind. eapply glp_mono; [by apply game_state_books|].
    intros ? g' ?. by apply glp_ret.
  - apply glp_bind. eapply glp_mono; [by apply quit_books|].
    intros ? g' ?. by apply glp_ret.
  - by apply disconnect_books.
  - by apply scheduler_books.
Qed.

Lemma reachable_books w :
  reachable generate_full_grid w → books_inv generate_full_grid (game w).
Proof.
  induction 1 as [|w a rs w' _ IH Hrun].
  - unfold setup_shared_memory. cbn [game]. unfold books_inv, wf_game.
    cbn [players grid game_state cells_remaining].
    split; [split; [reflexivity|split; [reflexivity|]]|split; [|split]].
    + apply Forall_replicate. reflexivity.
    + apply Forall_fmap, Forall_forall. intros i _. reflexivity.
    + intros r c cell Hcell. left.
      assert (cell = mkCell EMPTY_CELL 0 0 (-1)) as ->; [|done].
      unfold grid_get in Hcell.
      destruct (arr_get _ r) as [row|] eqn:Hrow; [|done].
      apply arr_get_Some in Hrow as Hr. rewrite arr_get_nat in Hrow by lia.
      apply lookup_replicate in Hrow as [-> _].
      apply arr_get_Some in Hcell as Hc. rewrite arr_get_nat in Hcell by lia.
      by apply lookup_replicate in Hcell as [-> _].
    + intros _ Hs. by destruct Hs.
  - exact (action_books a (game w) IH (with_rand_stream rs w) _ _ eq_refl Hrun).
Qed.

(** Extra X17.  In every state the Sudoku server can reach, the score
    of every slot is what its counted placements are worth: 10 for each
    correct one less 5 for each wrong one, as a C [int]. *)
Theorem scores_match_placements (w : W) (i : Z) (p : Player) :
  reachable generate_full_grid w →
  arr_get (players (game w)) i = Some p →
  score p = int_wrap (10 * correct_placements p - 5 * wrong_placements p).
Proof.
  intros Hreach Hp. destruct (reachable_books w Hreach) as (_ & Hsc & _).
  pose proof (Forall_arr_get _ _ _ _ Hsc Hp) as Hm. unfold score_matches in Hm.
  rewrite Hm. unfold POINTS_CORRECT, POINTS_WRONG. f_equal. lia.
Qed.

(** Extra X18.  In every reachable state the grid is 9 by 9 and a cell
    shows either nothing or its own solution: a wrong number never
    reaches the grid.  With a generator that fills its grid, once the
    game has started [cells_remaining] is the number of cells that show
    nothing, at most 40, so it reaches 0 exactly when the grid is
    full. *)
Theorem grid_shows_only_solutions (w : W) :
  reachable generate_full_grid w →
  wf_game (game w)
  ∧ (∀ r c cell, grid_get (grid (game w)) r c = Some cell →
       value cell = EMPTY_CELL ∨ value cell = solution cell)
  ∧ (fills generate_full_grid →
     game_state (game w) ≠ GAME_WAITING_FOR_PLAYERS →
     cells_remaining (game w) = Z.of_nat (open_cells (grid (game w)))
     ∧ 0 <= cells_remaining (game w) <= 40).
Proof.
  intros Hreach. destruct (reachable_books w Hreach) as (Hwf & _ & Hcells & Hcount).
  split; [done|]. split; [done|]. intros Hf Hs. destruct (Hcount Hf Hs) as [Hc Hle].
  split; [done|]. lia.
Qed.
End Books.
End BooksFacts.

(** * Rounds of the dice server *)

Module DiceMoves.
Import Dice DiceFacts.

(** Extra X20.  One round of the dice scheduler: in a game in progress
    whose [current_turn] is a slot index, the turn stays with a player
    who is Active and passes to the next Active player in round-robin
    order otherwise; the game goes on exactly when no winner is set and
    some player is Active, and is Finished otherwise.  The round changes
    no player, score or count. *)
Theorem dice_scheduler_repairs_turn (w : W) :
  wf_world w →
  game_state (game w) = GAME_IN_PROGRESS →
  0 <= current_turn (game w) < MAX_PLAYERS →
  ∃ next,
    get_next_active_player state (players (game w)) (current_turn (game w)) = inr next
    ∧ ∃ w', scheduler_iteration w = Ok tt w'
        ∧ locks w' = free_locks
        ∧ players (game w') = players (game w)
        ∧ num_players (game w') = num_players (game w)
        ∧ winner_id (game w') = winner_id (game w)
        ∧ (game_state (game w') = GAME_IN_PROGRESS ∨ game_state (game w') = GAME_FINISHED)
        ∧ (game_state (game w') = GAME_IN_PROGRESS ↔
             winner_id (game w) < 0 ∧ active_slots state (players (game w)) ≠ [])
        ∧ (game_state (game w') = GAME_IN_PROGRESS →
             state_at (game w') (current_turn (game w')) = Some PLAYER_ACTIVE)
        ∧ (state_at (game w) (current_turn (game w)) = Some PLAYER_ACTIVE →
             current_turn (game w') = current_turn (game w))
        ∧ (state_at (game w) (current_turn (game w)) ≠ Some PLAYER_ACTIVE → 0 <= next →
             current_turn (game w') = next).
Proof.
  intros (Hlen & Hlog & Hsc & Hl) Hip Hct. unfold wf_game in Hlen.
  destruct (get_next_active_player_spec state (players (game w)) (current_turn (game w)))
    as (next & Hnext & Hnone & Hin & _); [done|lia|].
  exists next. split; [done|].
  destruct w as [g q sc f ls t rs]; wsimpl; subst ls.
  destruct (arr_get_is_Some (players g) (current_turn g)) as [cur Hcur];
    [unfold MAX_PLAYERS in *; lia|].
  apply wp_run_tt. unfold scheduler_iteration. repeat gstep.
  rewrite Hip, bool_decide_eq_true_2 by done.
  rewrite (proj2 (Z.leb_le _ _)) by lia. rewrite (proj2 (Z.ltb_lt _ _)) by lia. cbn [andb].
  repeat gstep.
  assert (state_at g (current_turn g) = Some (state cur)) as Hst
    by (unfold state_at; by rewrite Hcur).
  rewrite Hst. unfold is_active.
  destruct (decide (state cur = PLAYER_ACTIVE)) as [Hact|Hact].
  - rewrite bool_decide_eq_true_2 by done. cbn [negb].
    assert (active_slots state (players g) ≠ []) as Hsome.
    { intros Hnil. assert (current_turn g ∈ active_slots state (players g)) as Hin'.
      { apply active_slot_lookup. eauto. }
      rewrite Hnil in Hin'. by apply elem_of_nil in Hin'. }
    repeat gstep. destruct (winner_id g >=? 0) eqn:Hw; rewrite Z.geb_leb in Hw;
      [apply Z.leb_le in Hw|apply Z.leb_gt in Hw]; repeat gstep.
    + split; [done|]. split; [done|]. split; [done|]. split; [done|]. split; [by right|].
      split; [split; [done|intros [? _]; lia]|]. split; [done|]. split; [done|].
      intros Hne. by rewrite Hact in Hne.
    + split; [done|]. split; [done|]. split; [done|]. split; [done|]. split; [by left|].
      split; [done|]. split; [intros _; by rewrite Hst, Hact|]. split; [done|].
      intros Hne. by rewrite Hact in Hne.
  - rewrite bool_decide_eq_false_2 by done. cbn [negb]. repeat gstep.
    destruct (0 <=? next) eqn:Hn0; [apply Z.leb_le in Hn0|apply Z.leb_gt in Hn0].
    + assert (next ≠ -1) as Hne by lia.
      assert (active_slots state (players g) ≠ []) as Hsome.
      { intros Hnil. apply Hnone in Hnil. lia. }
      apply Hin, active_slot_lookup in Hne as (np & Hnp & Hnact).
      repeat gstep. destruct (winner_id g >=? 0) eqn:Hw; rewrite Z.geb_leb in Hw;
        [apply Z.leb_le in Hw|apply Z.leb_gt in Hw]; repeat gstep.
      * split; [done|]. split; [done|]. split; [done|]. split; [done|]. split; [by right|].
        split; [split; [done|intros [? _]; lia]|]. split; [done|].
        split; [intros [= ?]; done|done].
      * split; [done|]. split; [done|]. split; [done|]. split; [done|]. split; [by left|].
        split; [done|]. split; [intros _; unfold state_at; gsimpl; by rewrite Hnp; cbn; rewrite Hnact|].
        split; [intros [= ?]; done|done].
    + assert (next = -1) as Hm1.
      { destruct (decide (next = -1)) as [|Hne]; [done|].
        apply Hin, active_slot_lookup in Hne as (np & Hnp%arr_get_Some & _). lia. }
      apply Hnone in Hm1.
      repeat gstep. destruct (winner_id g >=? 0) eqn:Hw; rewrite Z.geb_leb in Hw;
        [apply Z.leb_le in Hw|apply Z.leb_gt in Hw]; repeat gstep.
      all: split; [done|]; split; [done|]; split; [done|]; split; [done|]; split; [by right|].
      all: split; [split; [done|intros [_ ?]; done]|]; split; [done|].
      all: split; [intros [= ?]; done|intros; lia].
Qed.
(** *** The accept loop *)

Lemma slot_scan_spec (ps : list Player) :
  length ps = 5%nat →
  ∃ slot, slot_scan ps slots = Some slot
          ∧ ((slot = -1 ∧ Forall (λ p, state p ≠ PLAYER_DISCONNECTED) ps)
             ∨ (∃ p, arr_get ps slot = Some p ∧ state p = PLAYER_DISCONNECTED
                     ∧ ∀ j q, arr_get ps j = Some q → j < slot →
                         state q ≠ PLAYER_DISCONNECTED)).
Proof.
  intros Hlen. destruct ps as [|p0 [|p1 [|p2 [|p3 [|p4 [|]]]]]]; try done. clear Hlen.
  unfold slots. cbn [slot_scan].
  change (arr_get [p0; p1; p2; p3; p4] 0) with (Some p0).
  change (arr_get [p0; p1; p2; p3; p4] 1) with (Some p1).
  change (arr_get [p0; p1; p2; p3; p4] 2) with (Some p2).
  change (arr_get [p0; p1; p2; p3; p4] 3) with (Some p3).
  change (arr_get [p0; p1; p2; p3; p4] 4) with (Some p4).
  assert (∀ j q, arr_get [p0; p1; p2; p3; p4] j = Some q →
            (j = 0 ∧ q = p0) ∨ (j = 1 ∧ q = p1) ∨ (j = 2 ∧ q = p2)
            ∨ (j = 3 ∧ q = p3) ∨ (j = 4 ∧ q = p4)) as Hcases.
  { intros j q Hq. apply arr_get_Some in Hq as Hj. cbn [length] in Hj.
    assert (j = 0 ∨ j = 1 ∨ j = 2 ∨ j = 3 ∨ j = 4) as [->|[->|[->|[->| ->]]]] by lia;
      cbn in Hq; injection Hq as <-; tauto. }
  destruct (decide (state p0 = PLAYER_DISCONNECTED));
    [rewrite (bool_decide_eq_true_2 (state p0 = _)) by done
    |rewrite (bool_decide_eq_false_2 (state p0 = _)) by done;
     destruct (decide (state p1 = PLAYER_DISCONNECTED));
     [rewrite (bool_decide_eq_true_2 (state p1 = _)) by done
     |rewrite (bool_decide_eq_false_2 (state p1 = _)) by done;
      destruct (decide (state p2 = PLAYER_DISCONNECTED));
      [rewrite (bool_decide_eq_true_2 (state p2 = _)) by done
      |rewrite (bool_decide_eq_false_2 (state p2 = _)) by done;
       destruct (decide (state p3 = PLAYER_DISCONNECTED));
       [rewrite (bool_decide_eq_true_2 (state p3 = _)) by done
       |rewrite (bool_decide_eq_false_2 (state p3 = _)) by done;
        destruct (decide (state p4 = PLAYER_DISCONNECTED));
        [rewrite (bool_decide_eq_true_2 (state p4 = _)) by done
        |rewrite (bool_decide_eq_false_2 (state p4 = _)) by done]]]]].
  all: eexists; (split; [reflexivity|]).
  all: first
    [ left; split; [reflexivity|]; by repeat constructor
    | right; eexists; split; [reflexivity|]; split; [done|];
      intros j q Hq Hj;
      destruct (Hcases j q Hq) as [[-> ->]|[[-> ->]|[[-> ->]|[[-> ->]|[-> ->]]]]];
      first [done | lia] ].
Qed.

Lemma reset_loop_spec (w : W) :
  length (players (game w)) = 5%nat →
  wp (reset_loop slots)
     (λ _ w', w' = with_game (set_players (reset_slot <$> players (game w)) (game w)) w) w.
Proof.
  intros Hlen. destruct w as [g q sc f ls t rs]; wsimpl.
  destruct g as [gst np ct wid ps grr sd]; gsimpl.
  destruct ps as [|p0 [|p1 [|p2 [|p3 [|p4 [|]]]]]]; try done.
Qed.

(** Extra X21.  One round of the accept loop of the dice server.  When
    the game is Finished the round resets it: the game waits for players
    again with no turn, no winner and a count of 0, every slot is
    Disconnected with score 0 and no name, and the reset is logged; the
    ledger is not touched.  Otherwise the round changes nothing and goes
    on with the lowest slot that is Disconnected, or with none when every
    slot is taken. *)
Theorem main_round_resets_finished_game (w : W) :
  wf_world w →
  ∃ r w', main_iteration w = Ok r w'
          ∧ locks w' = free_locks
          ∧ scores w' = scores w ∧ scores_file w' = scores_file w
          ∧ (game_state (game w) = GAME_FINISHED →
               r = None ∧ game w' = fresh_game (game w)
               ∧ log_queue w'
                 = log_push ("Game state reset for new game"%string, []) (log_queue w))
          ∧ (game_state (game w) ≠ GAME_FINISHED →
               game w' = game w ∧ log_queue w' = log_queue w
               ∧ match r with
                 | Some slot =>
                     state_at (game w) slot = Some PLAYER_DISCONNECTED
                     ∧ ∀ j, 0 <= j < slot →
                         state_at (game w) j ≠ Some PLAYER_DISCONNECTED
                 | None =>
                     Forall (λ p, state p ≠ PLAYER_DISCONNECTED) (players (game w))
                 end).
Proof.
  intros (Hlen & Hlog & Hsc & Hl). unfold wf_game in Hlen.
  destruct (slot_scan_spec (players (game w)) Hlen) as (slot & Hscan & Hcases).
  destruct w as [g q sc f ls t rs]; wsimpl; subst ls.
  apply wp_run. unfold main_iteration. repeat gstep.
  case_bool_decide as Hfin.
  - apply wp_bind. unfold reset_game_state. repeat gstep.
    eapply wp_mono; [apply reset_loop_spec; wsimpl; gsimpl; done|].
    intros [] w1 ->. wsimpl. gsimpl. repeat gstep.
    split; [done|]. split; [done|]. split; [done|]. split; [|done].
    intros _. done.
  - destruct (slot <? 0) eqn:Hneg; [apply Z.ltb_lt in Hneg|apply Z.ltb_ge in Hneg];
      repeat gstep.
    all: split; [done|]; split; [done|]; split; [done|]; split; [done|].
    all: intros _; split; [done|]; split; [done|].
    + destruct Hcases as [[_ Hall]|(p & Hp%arr_get_Some & _)]; [done|lia].
    + destruct Hcases as [[-> _]|(p & Hp & Hst & Hlow)]; [lia|].
      unfold state_at. rewrite Hp. split; [by rewrite <- Hst|].
      intros j Hj. destruct (arr_get (players g) j) as [pj|] eqn:Hpj; [|done].
      cbn. intros [= Hd]. by eapply (Hlow j pj); [|lia|].
Qed.
End DiceMoves.

(** * The scores of the dice game *)

(** Rules of [wlp]. *)
Section WlpRules.
Context {G E : Type}.
Implicit Types w : World G E.

Lemma wlp_bind {A B} (m : M (World G E) A) (k : A → M (World G E) B) Q w :
  wlp m (λ a w', wlp (k a) Q w') w → wlp (bind m k) Q w.
Proof. unfold wlp, bind. destruct (m w); auto. Qed.

Lemma wlp_mono {A} (m : M (World G E) A) (Q Q' : A → World G E → Prop) w :
  wlp m Q w → (∀ a w', Q a w' → Q' a w') → wlp m Q' w.
Proof. unfold wlp. destruct (m w); auto. Qed.

Lemma wlp_run {A} (m : M (World G E) A) (Q : A → World G E → Prop) w a w' :
  wlp m Q w → m w = Ok a w' → Q a w'.
Proof. unfold wlp. intros H Hrun. by rewrite Hrun in H. Qed.

Lemma glp_wlp {A} (m : M (World G E) A) (Q : A → G → Prop) w :
  glp m Q (game w) → wlp m (λ a w', Q a (game w')) w.
Proof. intros Hm. unfold wlp. destruct (m w) eqn:Hrun; [|done]. by eapply Hm. Qed.

Lemma wlp_spin_lock l (Q : unit → World G E → Prop) w :
  (∀ w', game w' = game w → rand_stream w' = rand_stream w → Q tt w') →
  wlp (spin_lock l) Q w.
Proof. intros HQ. unfold wlp, spin_lock. destruct (_ =? 0); [|done]. by apply HQ. Qed.

Lemma wlp_read_game (Q : G → World G E → Prop) w : Q (game w) w → wlp read_game Q w.
Proof. done. Qed.

Lemma wlp_rand (Q : Z → World G E → Prop) w :
  (∀ r rs, rand_stream w = r :: rs → Q r (with_rand_stream rs w)) → wlp rand Q w.
Proof. intros HQ. unfold wlp, rand. destruct (rand_stream w); [done|]. by apply HQ. Qed.
End WlpRules.

Module DiceInv.
Import Dice DiceSteps.

Lemma Forall_at {A} (P : A → Prop) (l : list A) i x :
  Forall P l → arr_get l i = Some x → P x.
Proof.
  intros Hall Hx. apply arr_get_Some in Hx as Hi. rewrite arr_get_nat in Hx by lia.
  by eapply Forall_lookup_1.
Qed.

(** A critical section that changes no score or sets scores to 0, does
    not take the game out of Finished, and leaves the winner alone. *)
Lemma scores_inv_keep g g' :
  scores_inv g →
  (score <$> players g' = score <$> players g
   ∨ ∃ i, score <$> players g' = <[i := 0]> (score <$> players g)) →
  (game_state g' ≠ GAME_FINISHED → game_state g ≠ GAME_FINISHED) →
  winner_id g' = winner_id g →
  scores_inv g'.
Proof.
  intros (Hlen & Hsc & Hnf & Hw) Hscores Hph Hwin. unfold wf_game in Hlen.
  assert (length (players g') = 5%nat) as Hlen'.
  { rewrite <- (length_fmap score). destruct Hscores as [->|[i ->]];
      by rewrite ?length_insert, length_fmap. }
  assert (∀ Q : Z → Prop, Q 0 → Forall (λ p, Q (score p)) (players g) →
            Forall (λ p, Q (score p)) (players g')) as Hall.
  { intros Q Q0 HQ. apply (Forall_fmap score Q). apply (Forall_fmap score Q) in HQ.
    destruct Hscores as [->|[i ->]]; [done|]. by apply Forall_insert. }
  split; [done|]. split; [|split; [|by rewrite Hwin]].
  - apply (Hall (λ z, 0 <= z <= WINNING_SCORE + 11)); [unfold WINNING_SCORE; lia|done].
  - intros Hne. destruct (Hnf (Hph Hne)) as [Hw1 Hlow]. split; [by rewrite Hwin|].
    by apply (Hall (λ z, z < WINNING_SCORE)).
Qed.

Lemma scores_insert_state (ps : list Player) i p s :
  arr_get ps i = Some p →
  score <$> <[Z.to_nat i := set_state s p]> ps = score <$> ps.
Proof.
  intros Hp. apply arr_get_Some in Hp as Hi. rewrite arr_get_nat in Hp by lia.
  rewrite list_fmap_insert. apply list_insert_id. by rewrite list_lookup_fmap, Hp.
Qed.

Ltac keep :=
  lazymatch goal with
  | Hinv : scores_inv ?g |- scores_inv _ =>
      apply (scores_inv_keep g _ Hinv); gsimpl;
      [ first [ left; reflexivity | left; by eapply scores_insert_state ]
      | first [ done | congruence | intros ?; congruence ]
      | reflexivity ]
  end.

Lemma advance_scores g :
  scores_inv g → glp advance_turn (λ _ g', scores_inv g') g.
Proof. intros Hinv. unfold advance_turn. repeat g_step; [keep|done]. Qed.

Lemma quit_scores g pid :
  scores_inv g → glp (handle_MSG_QUIT pid) (λ _ g', scores_inv g') g.
Proof. intros Hinv. unfold handle_MSG_QUIT. repeat g_step. norm_arr. keep. Qed.

Lemma disconnect_scores g pid :
  scores_inv g → glp (handle_disconnect pid) (λ _ g', scores_inv g') g.
Proof. intros Hinv. unfold handle_disconnect. repeat g_step. norm_arr. keep. Qed.

Lemma scheduler_scores g :
  scores_inv g → glp scheduler_iteration (λ _ g', scores_inv g') g.
Proof.
  intros Hinv. unfold scheduler_iteration. repeat g_step. all: norm_arr; norm_phase.
  all: try done. all: keep.
Qed.

Lemma scores_insert_same (ps : list Player) i p p' :
  arr_get ps i = Some p → score p' = score p →
  score <$> <[Z.to_nat i := p']> ps = score <$> ps.
Proof.
  intros Hp Hs. apply arr_get_Some in Hp as Hi. rewrite arr_get_nat in Hp by lia.
  rewrite list_fmap_insert. apply list_insert_id. by rewrite list_lookup_fmap, Hp, Hs.
Qed.

Lemma scores_promote (ps : list Player) : score <$> (promote <$> ps) = score <$> ps.
Proof.
  rewrite <- list_fmap_compose. apply list_fmap_ext. intros i p _. cbn.
  unfold promote. by case_bool_decide.
Qed.

Lemma forked_scores g slot pid :
  scores_inv g →
  glp (run_action (ActForked slot pid)) (λ _ g', scores_inv g') g.
Proof.
  intros Hinv. cbn [run_action]. repeat g_step. norm_arr.
  apply (scores_inv_keep g _ Hinv); gsimpl; [|done|done].
  left. by eapply scores_insert_same.
Qed.

Lemma join_scores g pid msg :
  scores_inv g → glp (handle_MSG_JOIN pid msg) (λ _ g', scores_inv g') g.
Proof.
  intros Hinv. unfold handle_MSG_JOIN. repeat g_step. all: norm_arr; norm_phase.
  - apply andb_true_iff in Heqb as [_ Hwait%bool_decide_eq_true].
    apply (scores_inv_keep g _ Hinv); gsimpl; [|congruence|done].
    right. exists (Z.to_nat pid). by rewrite scores_promote, list_fmap_insert.
  - apply (scores_inv_keep g _ Hinv); gsimpl; [|done|done].
    right. exists (Z.to_nat pid). by rewrite list_fmap_insert.
Qed.

Lemma main_scores g :
  scores_inv g → glp main_iteration (λ _ g', scores_inv g') g.
Proof.
  intros Hinv. pose proof Hinv as (Hlen & _). unfold wf_game in Hlen.
  unfold main_iteration, reset_game_state, slots. cbn [reset_loop].
  repeat g_step. all: norm_arr; norm_phase. all: try done.
  destruct g as [gst np ct wid ps grr sd]. gsimpl.
  destruct ps as [|p0 [|p1 [|p2 [|p3 [|p4 [|]]]]]]; try done.
  repeat match goal with
         | H : arr_get _ _ = Some _ |- _ => cbn in H; injection H as <-
         end.
  cbn. unfold scores_inv, wf_game. gsimpl.
  split; [done|]. split; [|split; [|by left]].
  - repeat constructor; cbn; unfold WINNING_SCORE; lia.
  - intros _. split; [done|]. repeat constructor; cbn; unfold WINNING_SCORE; lia.
Qed.

(** The roll: the two values drawn are not negative, so each die shows 1
    to 6. *)
Lemma roll_scores (w : W) pid :
  scores_inv (game w) → Forall (λ r, 0 <= r) (rand_stream w) →
  wlp (roll_locked pid) (λ _ w', scores_inv (game w')) w.
Proof.
  intros Hinv Hpos. unfold roll_locked.
  apply wlp_bind, wlp_spin_lock. intros w1 Hg1 Hr1.
  apply wlp_bind, wlp_read_game. rewrite Hg1.
  destruct (negb (bool_decide (game_state (game w) = GAME_IN_PROGRESS))) eqn:Hip.
  { apply (glp_wlp _ (λ _ g, scores_inv g)). rewrite Hg1. by repeat g_step. }
  destruct (negb (current_turn (game w) =? pid)) eqn:Hct.
  { apply (glp_wlp _ (λ _ g, scores_inv g)). rewrite Hg1. by repeat g_step. }
  apply negb_false_iff, bool_decide_eq_true in Hip.
  apply wlp_bind, wlp_rand. intros r1 rs1 Hs1.
  apply wlp_bind, wlp_rand. intros r2 rs2 Hs2. cbn [rand_stream with_rand_stream] in Hs2.
  rewrite <- Hr1, Hs1 in Hpos. subst rs1.
  apply Forall_cons in Hpos as [Hp1 Hpos]. apply Forall_cons in Hpos as [Hp2 _].
  destruct (DiceFacts.die_exact r1 Hp1) as [-> Hd1].
  destruct (DiceFacts.die_exact r2 Hp2) as [-> Hd2].
  rewrite (int_add_exact (Z.rem r1 6 + 1)) by (unfold in_int, INT_MIN, INT_MAX; lia).
  set (die1 := Z.rem r1 6 + 1) in *. set (die2 := Z.rem r2 6 + 1) in *.
  clearbody die1 die2.
  apply (glp_wlp _ (λ _ g, scores_inv g)).
  cbn [game with_rand_stream]. rewrite Hg1. clear Hs1 Hg1 Hr1 w1.
  destruct Hinv as (Hlen & Hsc & Hnf & Hw). unfold wf_game in Hlen.
  destruct Hnf as [Hw1 Hlow]; [congruence|].
  repeat g_step. all: norm_arr; norm_phase.
  all: repeat match goal with
              | H : arr_get (<[_ := _]> _) _ = Some _ |- _ =>
                  rewrite arr_get_set_eq in H by lia; injection H as <-
              end; gsimpl.
  all: rewrite Z.geb_leb in Heqb0.
  all: pose proof (Forall_at _ _ _ _ Hsc H0) as Hs0; cbn beta in Hs0.
  all: pose proof (Forall_at _ _ _ _ Hlow H0) as Hl0; cbn beta in Hl0.
  all: unfold scores_inv, wf_game; gsimpl; rewrite length_insert.
  all: unfold WINNING_SCORE, MAX_PLAYERS in *.
  all: try rewrite int_add_exact in * by (unfold in_int, INT_MIN, INT_MAX; lia).
  - done.
  - split; [done|]. split; [by apply Forall_insert; [|cbn; lia]|].
    split; [|done]. intros _. split; [done|]. by apply Forall_insert; [|cbn; lia].
  - apply Z.leb_le in Heqb0.
    split; [done|]. split; [by apply Forall_insert; [|cbn; lia]|].
    split; [done|]. right. lia.
  - apply Z.leb_gt in Heqb0.
    split; [done|]. split; [by apply Forall_insert; [|cbn; lia]|].
    split; [|done]. intros _. split; [done|]. by apply Forall_insert; [|cbn; lia].
Qed.

(** [case MSG_ROLL] is [roll_locked], followed by [advance_turn] when the
    roll did not end the game. *)
Lemma bind_assoc_at {W0 A B C} (m : M W0 A) (k : A → M W0 B) (k' : B → M W0 C) w :
  bind (bind m k) k' w = bind m (λ a, bind (k a) k') w.
Proof. unfold bind. by destruct (m w). Qed.

Lemma bind_congr {W0 A B} (m : M W0 A) (k k' : A → M W0 B) w :
  (∀ a w', k a w' = k' a w') → bind m k w = bind m k' w.
Proof. intros Hk. unfold bind. by destruct (m w). Qed.

Ltac push := rewrite bind_assoc_at; apply bind_congr; intros ? ?.

Lemma handle_MSG_ROLL_split pid (w : W) :
  handle_MSG_ROLL pid w
  = (r <- roll_locked pid ;; if snd r then advance_turn ;; ret (fst r) else ret (fst r)) w.
Proof.
  unfold handle_MSG_ROLL, roll_locked. cbv zeta.
  push. push.
  destruct (negb (bool_decide _)); [push; reflexivity|].
  destruct (negb (_ =? _)); [push; push; reflexivity|].
  push. push. push. push. push.
  destruct (_ >=? _).
  - push. push. push. push. reflexivity.
  - push. reflexivity.
Qed.

Lemma action_scores a (w : W) :
  scores_inv (game w) → Forall (λ r, 0 <= r) (rand_stream w) →
  wlp (run_action a) (λ _ w', scores_inv (game w')) w.
Proof.
  intros Hinv Hpos. destruct a; cbn [run_action].
  - apply (glp_wlp _ (λ _ g, scores_inv g)). by apply forked_scores.
  - apply wlp_bind. eapply wlp_mono.
    { apply (glp_wlp _ (λ _ g, scores_inv g)). by apply join_scores. }
    by intros ? w' ?.
  - apply wlp_bind. eapply wlp_mono; [by apply roll_scores|]. by intros ? w' ?.
  - apply (glp_wlp _ (λ _ g, scores_inv g)). by apply advance_scores.
  - apply wlp_bind. eapply wlp_mono.
    { apply (glp_wlp _ (λ _ g, scores_inv g)). by apply quit_scores. }
    by intros ? w' ?.
  - apply (glp_wlp _ (λ _ g, scores_inv g)). by apply disconnect_scores.
  - apply (glp_wlp _ (λ _ g, scores_inv g)). by apply scheduler_scores.
  - apply wlp_bind. eapply wlp_mono.
    { apply (glp_wlp _ (λ _ g, scores_inv g)). by apply main_scores. }
    by intros ? w' ?.
Qed.

Lemma reachable_scores (w : W) : reachable w → scores_inv (game w).
Proof.
  induction 1 as [|w a rs w' _ IH Hpos Hrun].
  - unfold setup_shared_memory, scores_inv, wf_game. cbn [game]. gsimpl.
    split; [done|]. split; [|split; [|by left]].
    + repeat constructor; cbn; unfold WINNING_SCORE; lia.
    + intros _. split; [done|]. repeat constructor; cbn; unfold WINNING_SCORE; lia.
  - exact (wlp_run _ _ _ _ _ (action_scores a (with_rand_stream rs w) IH Hpos) Hrun).
Qed.

(** Extra X22.  In every state the dice server can reach, every score is
    between 0 and 111.  Unless the game is Finished, every score is below
    [WINNING_SCORE] and no winner is set: nobody goes on playing with 100
    points or more.  A winner, when set, is a slot index. *)
Theorem dice_scores_stay_in_range (w : W) (i : Z) (p : Player) :
  reachable w →
  arr_get (players (game w)) i = Some p →
  0 <= score p <= 111
  ∧ (game_state (game w) ≠ GAME_FINISHED → score p < WINNING_SCORE ∧ winner_id (game w) = -1)
  ∧ (winner_id (game w) = -1 ∨ 0 <= winner_id (game w) < MAX_PLAYERS).
Proof.
  intros Hreach Hp. destruct (reachable_scores w Hreach) as (_ & Hsc & Hnf & Hw).
  pose proof (Forall_at _ _ _ _ Hsc Hp) as Hs. cbn beta in Hs.
  unfold WINNING_SCORE in Hs. split; [lia|]. split; [|done].
  intros Hne. destruct (Hnf Hne) as [Hw1 Hlow]. split; [|done].
  by apply (Forall_at _ _ _ _ Hlow Hp).
Qed.
End DiceInv.

(** * The signal handler of the Sudoku server *)

Module SignalFacts.
Import Sudoku.

(** The run of [sigint_handler] when the ledger lock and the log lock are
    free. *)
Lemma sigint_handler_runs (w : W) :
  lock_word ScoresLock (locks w) = 0 →
  lock_word LogLock (locks w) = 0 →
  sigint_handler w
  = Ok tt (mkWorld (game w)
             (mkLogQueue (q_entries (log_queue w)) (q_head (log_queue w))
                (q_tail (log_queue w)) (q_count (log_queue w)) 1)
             (scores w)
             (take (Z.to_nat (sc_count (scores w))) (sc_entries (scores w)))
             (mkLocks (game_lock (locks w)) 0 0)
             (lock_trace w ++ [Acquire ScoresLock; Release ScoresLock;
                               Acquire LogLock; Release LogLock])
             (rand_stream w)).
Proof.
  destruct w as [g q sc f [gl ll sl] tr rs]. cbn. intros -> ->.
  unfold sigint_handler, save_scores, bind, spin_lock, spin_unlock, read_scores, read_log,
    write_log, modify. cbn.
  by rewrite <- !app_assoc.
Qed.

(** Extra X23.  When the ledger lock and the log lock are free, [sigint_handler]
    returns: it has written the ledger file from the first [count] rows,
    raised [shutdown] in the log queue and left the game state, the
    ledger and the game lock as they were; it took the ledger lock and
    then the log lock, one after the other. *)
Theorem sigint_handler_saves_and_stops (w : W) :
  lock_word ScoresLock (locks w) = 0 →
  lock_word LogLock (locks w) = 0 →
  ∃ w', sigint_handler w = Ok tt w'
    ∧ game w' = game w
    ∧ scores w' = scores w
    ∧ scores_file w' = take (Z.to_nat (sc_count (scores w))) (sc_entries (scores w))
    ∧ q_shutdown (log_queue w') = 1
    ∧ q_entries (log_queue w') = q_entries (log_queue w)
    ∧ q_head (log_queue w') = q_head (log_queue w)
    ∧ q_tail (log_queue w') = q_tail (log_queue w)
    ∧ q_count (log_queue w') = q_count (log_queue w)
    ∧ lock_word GameLock (locks w') = lock_word GameLock (locks w)
    ∧ lock_word ScoresLock (locks w') = 0
    ∧ lock_word LogLock (locks w') = 0
    ∧ lock_trace w' = lock_trace w ++ [Acquire ScoresLock; Release ScoresLock;
                                       Acquire LogLock; Release LogLock].
Proof.
  intros Hs Hl. eexists. split; [by apply sigint_handler_runs|]. by cbn.
Qed.


End SignalFacts.

(** * The theorems at concrete states *)

Ltac concrete :=
  first [ reflexivity
        | by vm_compute
        | repeat constructor; first [reflexivity | by vm_compute] ].

Ltac concrete_world :=
  repeat split; concrete.

Ltac discharge :=
  first [ concrete | concrete_world | repeat constructor; by vm_compute ].

(** C1 where Alice fills the last cell correctly. *)
Lemma place_resolution_witness :
  Sudoku.wf_world (Examples.Sudoku.last_cell_world 20 10 0)
  ∧ ∃ resp w',
      Sudoku.handle_MSG_PLACE 0 (Examples.Sudoku.place_msg 0 0 1)
        (Examples.Sudoku.last_cell_world 20 10 0) = Ok resp w'
      ∧ Sudoku.score_of (game w') 0 = Some 30
      ∧ Sudoku.cells_remaining (game w') = 0.
Proof.
  assert (Sudoku.wf_world (Examples.Sudoku.last_cell_world 20 10 0)) as Hwf
    by concrete_world.
  split; [exact Hwf|].
  destruct (SudokuFacts.place_resolution 0 (Examples.Sudoku.place_msg 0 0 1)
              (Examples.Sudoku.last_cell_world 20 10 0)
              (Sudoku.mkPlayer 0 "Alice" 20 2 0 PLAYER_ACTIVE 101)
              (Sudoku.mkCell 0 1 0 (-1)))
    as (resp & w' & Hrun & _ & Hcorrect & _); [exact Hwf|concrete..|].
  exists resp, w'. split; [exact Hrun|].
  destruct Hcorrect as (_ & Hcells & Hscore); [reflexivity..|].
  split; [exact Hscore|exact Hcells].
Defined.

(** C2 where Alice has 95 points and rolls 4 and 5. *)
Lemma roll_resolution_witness :
  Dice.wf_world (Examples.Dice.rolling_world 95 [3; 10])
  ∧ ∃ resp w',
      Dice.handle_MSG_ROLL 0 (Examples.Dice.rolling_world 95 [3; 10]) = Ok resp w'
      ∧ Dice.score_of (game w') 0 = Some 104
      ∧ Dice.game_state (game w') = GAME_FINISHED
      ∧ Dice.winner_id (game w') = 0.
Proof.
  assert (Dice.wf_world (Examples.Dice.rolling_world 95 [3; 10])) as Hwf
    by concrete_world.
  split; [exact Hwf|].
  destruct (DiceFacts.roll_resolution 0 (Examples.Dice.rolling_world 95 [3; 10])
              (Dice.mkPlayer 0 "Alice" 95 PLAYER_ACTIVE 101) 3 10 [])
    as (resp & w' & Hrun & _ & Hadd & Hwin); [exact Hwf|concrete..|].
  exists resp, w'. split; [exact Hrun|].
  assert (Dice.score_of (game w') 0 = Some 104) as Hscore.
  { apply Hadd. by vm_compute; intros [? ?]. }
  split; [exact Hscore|]. apply (Hwin 104 Hscore). by vm_compute.
Defined.

(** C4 on the first Join. *)
Lemma lock_nesting_witness :
  (∃ w' t,
    Sudoku.run_action Examples.pattern_generator
      (Sudoku.ActJoin 0 (Examples.Sudoku.join_msg "Alice"))
      (with_rand_stream [] Sudoku.setup_shared_memory) = Ok tt w'
    ∧ lock_trace w' = lock_trace Sudoku.setup_shared_memory ++ t
    ∧ follows_order [] t = Some [] ∧ (max_held [] t <= 2)%nat)
  ∧ (∃ r w' t,
    Sudoku.handle_client_step Examples.pattern_generator 0
      (Some (Examples.Sudoku.join_msg "Alice")) Sudoku.setup_shared_memory = Ok r w'
    ∧ lock_trace w' = lock_trace Sudoku.setup_shared_memory ++ t
    ∧ follows_order [] t = Some [] ∧ (max_held [] t <= 2)%nat)
  ∧ (∃ w' t,
    Sudoku.main_shutdown Sudoku.setup_shared_memory = Ok tt w'
    ∧ lock_trace w' = t ∧ (max_held [] t <= 1)%nat)
  ∧ (∃ r w',
    logger_iteration Sudoku.setup_shared_memory = Ok r w'
    ∧ lock_trace w' = [Acquire LogLock; Release LogLock])
  ∧ (∃ w',
    Sudoku.sigint_handler Sudoku.setup_shared_memory = Ok tt w'
    ∧ lock_trace w'
      = [Acquire ScoresLock; Release ScoresLock; Acquire LogLock; Release LogLock]).
Proof.
  destruct lock_nesting_follows_order as (Hsection & Hround & Hmain & Hlogger & Hsignal).
  split; [|split; [|split; [|split]]].
  - destruct (Sudoku.run_action Examples.pattern_generator
                (Sudoku.ActJoin 0 (Examples.Sudoku.join_msg "Alice"))
                (with_rand_stream [] Sudoku.setup_shared_memory))
      as [[] w'|] eqn:Hrun; [|by vm_compute in Hrun].
    destruct (Hsection _ _ _ _ _ (Sudoku.reach_setup _) eq_refl Hrun)
      as (t & Ht & Ho & Hm & _).
    exists w', t. done.
  - destruct (Sudoku.handle_client_step Examples.pattern_generator 0
                (Some (Examples.Sudoku.join_msg "Alice")) Sudoku.setup_shared_memory)
      as [r w'|] eqn:Hrun; [|by vm_compute in Hrun].
    destruct (Hround _ _ _ _ _ _ Hrun) as (t & Ht & Ho & Hm & _).
    exists r, w', t. done.
  - destruct (Sudoku.main_shutdown Sudoku.setup_shared_memory)
      as [[] w'|] eqn:Hrun; [|by vm_compute in Hrun].
    destruct (Hmain _ _ Hrun) as (t & Ht & _ & Hm).
    exists w', t. done.
  - destruct (logger_iteration Sudoku.setup_shared_memory)
      as [r w'|] eqn:Hrun; [|by vm_compute in Hrun].
    exists r, w'. split; [reflexivity|]. exact (Hlogger _ _ _ Hrun).
  - destruct (Sudoku.sigint_handler Sudoku.setup_shared_memory)
      as [[] w'|] eqn:Hrun; [|by vm_compute in Hrun].
    exists w'. split; [reflexivity|]. exact (Hsignal _ _ Hrun).
Defined.

(** C5 on the Join of the third player, which starts the game. *)
Lemma turn_moves_witness :
  ∃ w w',
    Sudoku.run_actions Examples.pattern_generator
      (take 2 Examples.Sudoku.alice_quits) Sudoku.setup_shared_memory = Some w
    ∧ Sudoku.run_action Examples.pattern_generator
        (Sudoku.ActJoin 2 (Examples.Sudoku.join_msg "Carol"))
        (with_rand_stream (Examples.first_cells 40) w) = Ok tt w'
    ∧ Sudoku.current_turn (game w) = -1
    ∧ Sudoku.current_turn (game w') = 0
    ∧ MIN_PLAYERS <= Sudoku.num_players (game w')
    ∧ Sudoku.state_at (game w') 0 = Some PLAYER_ACTIVE.
Proof.
  destruct (Sudoku.run_actions Examples.pattern_generator
              (take 2 Examples.Sudoku.alice_quits) Sudoku.setup_shared_memory)
    as [w|] eqn:Hw; [|by vm_compute in Hw].
  destruct (Sudoku.run_action Examples.pattern_generator
              (Sudoku.ActJoin 2 (Examples.Sudoku.join_msg "Carol"))
              (with_rand_stream (Examples.first_cells 40) w))
    as [[] w'|] eqn:Hrun.
  2: { vm_compute in Hw. injection Hw as <-. by vm_compute in Hrun. }
  pose proof (SudokuInv.reachable_run_actions _ _ _ _ (Sudoku.reach_setup _) Hw) as Hreach.
  destruct (SudokuInv.turn_moves_only_to_active Examples.pattern_generator w Hreach)
    as (_ & _ & Hstep).
  destruct (Hstep _ _ _ Hrun) as [Hstart Hturn].
  assert (Sudoku.current_turn (game w) = -1) as Hnone.
  { vm_compute in Hw. by injection Hw as <-. }
  assert (Sudoku.current_turn (game w') = 0) as Hset.
  { vm_compute in Hw. injection Hw as <-. vm_compute in Hrun. by injection Hrun as <-. }
  exists w, w'. split; [done|]. split; [done|]. split; [done|]. split; [done|].
  split; [apply Hstart; [done|by rewrite Hset]|].
  rewrite <- Hset. apply Hturn. by rewrite Hnone, Hset.
Defined.

(** C6 for Bob, before the game and while it is Alice's turn. *)
Lemma move_out_of_order_witness :
  (∃ resp w', Sudoku.handle_MSG_PLACE 1 (Examples.Sudoku.place_msg 0 0 1)
                Sudoku.setup_shared_memory = Ok resp w'
              ∧ Sudoku.msg_type resp = Sudoku.MSG_ERROR
              ∧ game w' = game Sudoku.setup_shared_memory)
  ∧ (∃ resp w', Sudoku.handle_MSG_PLACE 1 (Examples.Sudoku.place_msg 0 0 1)
                  (Examples.Sudoku.last_cell_world 20 10 0) = Ok resp w'
                ∧ Sudoku.msg_type resp = Sudoku.MSG_WAIT
                ∧ game w' = game (Examples.Sudoku.last_cell_world 20 10 0))
  ∧ (∃ resp w', Dice.handle_MSG_ROLL 1 (Examples.Dice.rolling_world 95 [3; 10]) = Ok resp w'
                ∧ Dice.msg_type resp = Dice.MSG_WAIT
                ∧ game w' = game (Examples.Dice.rolling_world 95 [3; 10])).
Proof.
  destruct move_out_of_order_rejected as [Hsudoku Hdice].
  split; [|split].
  - destruct (Hsudoku 1 (Examples.Sudoku.place_msg 0 0 1) Sudoku.setup_shared_memory)
      as [Herr _]; [concrete_world|].
    destruct Herr as (resp & w' & Hrun & Hty & _ & Hg & _); [by vm_compute|].
    by exists resp, w'.
  - destruct (Hsudoku 1 (Examples.Sudoku.place_msg 0 0 1)
                (Examples.Sudoku.last_cell_world 20 10 0)) as [_ Hwait]; [concrete_world|].
    destruct Hwait as (resp & w' & Hrun & Hty & Hg & _); [concrete..|].
    by exists resp, w'.
  - destruct (Hdice 1 (Examples.Dice.rolling_world 95 [3; 10])) as [_ Hwait];
      [concrete_world|].
    destruct Hwait as (resp & w' & Hrun & Hty & Hg & _); [concrete..|].
    by exists resp, w'.
Defined.

(** C7 with three Active players, starting from slot 0. *)
Lemma round_robin_witness :
  ∃ orb,
    get_next_active_player Sudoku.state (Examples.Sudoku.three_players 20 10 0) 0 = inr 1
    ∧ turn_orbit Sudoku.state 3 (Examples.Sudoku.three_players 20 10 0) 0 = inr orb
    ∧ NoDup orb
    ∧ (∀ i, i ∈ orb ↔ ∃ p, arr_get (Examples.Sudoku.three_players 20 10 0) i = Some p
                            ∧ Sudoku.state p = PLAYER_ACTIVE)
    ∧ last orb = Some 0.
Proof.
  destruct (round_robin_visits_active_once Sudoku.state
              (Examples.Sudoku.three_players 20 10 0) 0)
    as (r & orb & Hr & _ & Horb & Hnd & Hin & _ & Hlast); [concrete..|].
  exists orb. split; [reflexivity|]. split; [exact Horb|]. split; [exact Hnd|].
  split; [exact Hin|]. apply Hlast. eexists. split; reflexivity.
Defined.


(** C9 where Alice is the only Active player. *)
Lemma sole_active_witness :
  get_next_active_player Sudoku.state (Sudoku.players (game Examples.Sudoku.alone_world)) 0
  = inr 0
  ∧ ∃ w', Sudoku.advance_turn Examples.Sudoku.alone_world = Ok tt w'
          ∧ Sudoku.current_turn (game w') = 0
          ∧ Sudoku.turn_signal (game w') = 4.
Proof.
  destruct (sole_active_keeps_turn Examples.Sudoku.alone_world 0) as [Hnext Hturn].
  - concrete_world.
  - intros i. unfold Sudoku.state_at. split.
    + destruct (Z.ltb_spec i 0) as [Hneg|Hpos].
      { unfold arr_get. destruct (i <? 0) eqn:Hi; [done|]. apply Z.ltb_ge in Hi. lia. }
      rewrite arr_get_nat by done.
      destruct (Z.to_nat i) as [|[|[|[|[|n]]]]] eqn:Hn; cbn; try done. intros _. lia.
    + by intros ->.
  - split; [apply Hnext; by vm_compute|].
    destruct (Hturn eq_refl) as (w' & Hrun & Hct & Hts). exists w'.
    split; [exact Hrun|]. split; [exact Hct|]. rewrite Hts. reflexivity.
Defined.

(** C10 with scores of -1000, -1200 and -1005. *)
Lemma winner_floor_witness :
  Sudoku.winner_loop (Examples.Sudoku.three_players (-1000) (-1200) (-1005)) 0 (-1000) (-1)
  = (-1000, -1)
  ∧ (∃ resp w',
        Sudoku.handle_MSG_PLACE 0 (Examples.Sudoku.place_msg 0 0 1)
          (Examples.Sudoku.last_cell_world (-1010) (-1200) (-1005)) = Ok resp w'
        ∧ Sudoku.game_state (game w') = GAME_FINISHED
        ∧ Sudoku.winner_id (game w') = -1)
  ∧ (∃ w',
        Sudoku.scheduler_iteration
          (with_game (Sudoku.set_cells_remaining 0
                        (game (Examples.Sudoku.last_cell_world (-1000) (-1200) (-1005))))
             (Examples.Sudoku.last_cell_world (-1000) (-1200) (-1005))) = Ok tt w'
        ∧ Sudoku.winner_id (game w') = -1
        ∧ scores w' = Examples.Sudoku.blank_scores).
Proof.
  destruct SudokuFacts.winner_floor as (Hloop & Hsched & Hplace).
  split; [|split].
  - apply Hloop. repeat constructor; by vm_compute.
  - destruct (Hplace (Examples.Sudoku.last_cell_world (-1010) (-1200) (-1005)) 0
                (Examples.Sudoku.place_msg 0 0 1)
                (Sudoku.mkPlayer 0 "Alice" (-1010) 2 0 PLAYER_ACTIVE 101)
                (Sudoku.mkCell 0 1 0 (-1)))
      as (resp & w' & Hrun & Hfin & Hwin & _);
      [discharge..|].
    by exists resp, w'.
  - destruct (Hsched
                (with_game (Sudoku.set_cells_remaining 0
                              (game (Examples.Sudoku.last_cell_world (-1000) (-1200) (-1005))))
                   (Examples.Sudoku.last_cell_world (-1000) (-1200) (-1005))))
      as (w' & Hrun & _ & Hwin & Hsc & _);
      [discharge..|].
    by exists w'.
Defined.

(** X1: a second line behind the one that waits. *)
Lemma enqueue_log_appends_or_drops_witness :
  ∃ w', enqueue_log "Player %d joined" [ArgInt 1] (Examples.log_cup Examples.one_line_log)
        = Ok tt w'
        ∧ queue_contents (log_queue w')
          = [("Server started"%string, []); ("Player %d joined"%string, [ArgInt 1])].
Proof.
  destruct (enqueue_log_appends_or_drops "Player %d joined" [ArgInt 1]
              (Examples.log_cup Examples.one_line_log))
    as (w' & Hrun & _ & _ & Happ & _); [reflexivity|concrete_world|].
  exists w'. split; [exact Hrun|]. rewrite Happ; [reflexivity|by vm_compute].
Defined.

(** X2: the logger takes the line that waits. *)
Lemma logger_drains_in_order_witness :
  ∃ w', logger_iteration (Examples.log_cup Examples.one_line_log)
        = Ok ([("Server started"%string, [])], false) w'
        ∧ q_count (log_queue w') = 0.
Proof.
  destruct (logger_drains_in_order (Examples.log_cup Examples.one_line_log))
    as (w' & Hrun & _ & _ & _ & Hcount & _); [reflexivity|concrete_world|].
  exists w'. split; [exact Hrun|exact Hcount].
Defined.

(** X3: two more lines, across the end of the buffer. *)
Lemma log_lines_keep_their_order_witness :
  ∃ w1 w2 stop,
    enqueue_all Examples.two_lines (Examples.log_cup Examples.one_line_log) = Ok tt w1
    ∧ logger_iteration w1
      = Ok ([("Server started"%string, []);
             ("Client connected to slot %d"%string, [ArgInt 0]);
             ("Player %d joined"%string, [ArgInt 1])], stop) w2.
Proof.
  destruct (log_lines_keep_their_order Examples.two_lines
              (Examples.log_cup Examples.one_line_log))
    as (w1 & w2 & stop & Hrun1 & Hrun2 & _); [reflexivity|concrete_world|].
  exists w1, w2, stop. split; [exact Hrun1|exact Hrun2].
Defined.

(** X4: 1 may go back into the first cell, and 3 may not. *)
Lemma is_valid_placement_checks_units_witness :
  (∃ ok, Generator.is_valid_placement Examples.open_pair_grid 0 0 1 = Some ok
         ∧ (ok = 0 ∨ ok = 1))
  ∧ (∃ ok, Generator.is_valid_placement Examples.open_pair_grid 0 0 3 = Some ok
           ∧ (ok = 0 ∨ ok = 1)).
Proof.
  assert (Generator.wf_grid Examples.open_pair_grid) as Hwf.
  { split; [reflexivity|]. repeat constructor. }
  assert (Generator.in_grid 0 0) as Hin by (unfold Generator.in_grid; lia).
  split.
  - destruct (GeneratorFacts.is_valid_placement_checks_units Examples.open_pair_grid 0 0 1
                Hwf Hin) as (ok & Hrun & Hcases & _).
    exists ok. split; [exact Hrun|exact Hcases].
  - destruct (GeneratorFacts.is_valid_placement_checks_units Examples.open_pair_grid 0 0 3
                Hwf Hin) as (ok & Hrun & Hcases & _).
    exists ok. split; [exact Hrun|exact Hcases].
Defined.

(** X5: the shuffle of the numbers 1 to 9. *)
Lemma shuffle_array_permutes_witness :
  ∃ arr', Generator.shuffle_array Generator.nums_1_to_9 9
            (Examples.dice_cup (Examples.random_values 8 42))
          = Ok arr' (Examples.dice_cup [])
          ∧ arr' ≡ₚ Generator.nums_1_to_9.
Proof.
  destruct (GeneratorFacts.shuffle_array_permutes Generator.nums_1_to_9 9
              (Examples.dice_cup (Examples.random_values 8 42))
              (Examples.random_values 8 42) [])
    as (arr' & Hrun & Hperm & _).
  - by vm_compute.
  - by vm_compute.
  - reflexivity.
  - reflexivity.
  - vm_compute. repeat constructor; by vm_compute.
  - exists arr'. split; [exact Hrun|exact Hperm].
Defined.

(** X6: two cells to fill, with the 80 values that are enough. *)
Lemma generate_full_grid_fills_or_restores_witness :
  ∃ r w', Generator.generate_full_grid 3 Examples.open_pair_grid
            (Examples.dice_cup (Examples.random_values 80 42)) = Ok r w'
          ∧ ((r.1 = 0 ∧ r.2 = Examples.open_pair_grid)
             ∨ (r.1 = 1 ∧ Generator.no_empty r.2
                ∧ Generator.extends Examples.open_pair_grid r.2)).
Proof.
  destruct (GeneratorFacts.generate_full_grid_fills_or_restores 3 Examples.open_pair_grid
              (Examples.dice_cup (Examples.random_values 80 42)))
    as (r & w' & Hrun & _ & _ & Hout).
  - split; [reflexivity|]. repeat constructor.
  - vm_compute. lia.
  - vm_compute. repeat constructor; by vm_compute.
  - by vm_compute.
  - exists r, w'. split; [exact Hrun|].
    destruct Hout as [Hback|(H1 & _ & Hfull & Hext & _)]; [left; exact Hback|right].
    split; [exact H1|]. split; [exact Hfull|exact Hext].
Defined.

(** X7: the two cells have one completion. *)
Lemma generate_full_grid_finds_completion_witness :
  ∃ r w', Generator.generate_full_grid 3 Examples.open_pair_grid
            (Examples.dice_cup (Examples.random_values 80 42)) = Ok r w'
          ∧ r.1 = 1 ∧ Generator.solved r.2.
Proof.
  destruct (GeneratorFacts.generate_full_grid_finds_completion 3 Examples.open_pair_grid
              (Examples.dice_cup (Examples.random_values 80 42)))
    as (r & w' & Hrun & H1 & Hsolved & _).
  - split; [reflexivity|]. repeat constructor.
  - exact GeneratorFacts.open_pair_completable.
  - vm_compute. lia.
  - vm_compute. repeat constructor; by vm_compute.
  - by vm_compute.
  - exists r, w'. split; [exact Hrun|]. split; [exact H1|exact Hsolved].
Defined.

(** X8: the values 0, 1, 2, ... in place of [rand()]. *)
Lemma generate_full_grid_from_blank_witness :
  ∃ n, ∀ rest, Forall (λ r, 0 <= r) rest →
    ∃ r w', Generator.generate_full_grid 82 Generator.blank
              (with_rand_stream ((Z.of_nat <$> seq 0 n) ++ rest) (Examples.dice_cup []))
            = Ok r w'
            ∧ r.1 = 1 ∧ Generator.solved r.2.
Proof.
  apply (GeneratorFacts.generate_full_grid_from_blank 82 Z.of_nat (Examples.dice_cup [])).
  - lia.
  - lia.
Defined.

(** X9: Alice's first game, a win, in the empty ledger. *)
Lemma update_player_stats_by_name_witness :
  ∃ w', Sudoku.update_player_stats "Alice" true 5 1 Sudoku.setup_shared_memory = Ok tt w'
        ∧ ledger_rows (scores w') = [Sudoku.first_row "Alice" true 5 1]
        ∧ scores_file w' = ledger_rows (scores w').
Proof.
  destruct (SudokuLedger.update_player_stats_by_name "Alice" true 5 1
              Sudoku.setup_shared_memory)
    as (w' & Hrun & _ & Hfile & Hrow & _); [reflexivity|concrete_world|].
  exists w'. split; [exact Hrun|]. split; [exact Hrow|exact Hfile].
Defined.


(** X11: Alice's first win at dice. *)
Lemma update_score_by_name_witness :
  ∃ w', Dice.update_score "Alice" (Examples.Dice.rolling_world 95 []) = Ok tt w'
        ∧ ledger_rows (scores w') = [Dice.mkScore "Alice" 1]
        ∧ scores_file w' = ledger_rows (scores w').
Proof.
  destruct (DiceLedger.update_score_by_name "Alice" (Examples.Dice.rolling_world 95 []))
    as (w' & Hrun & _ & _ & Hfile & _ & Hrow & _);
    [reflexivity|reflexivity|concrete_world|concrete_world|].
  exists w'. split; [exact Hrun|]. split; [exact Hrow|exact Hfile].
Defined.

(** X12: Alice aims at row 9. *)
Lemma place_out_of_range_rejected_witness :
  ∃ resp, Sudoku.handle_MSG_PLACE 0 (Examples.Sudoku.place_msg 9 0 1)
            (Examples.Sudoku.last_cell_world 20 10 0)
          = Ok resp (Sudoku.rejected_world (Examples.Sudoku.last_cell_world 20 10 0))
          ∧ Sudoku.msg_type resp = Sudoku.MSG_ERROR.
Proof.
  destruct (SudokuMoves.place_out_of_range_rejected 0 (Examples.Sudoku.place_msg 9 0 1)
              (Examples.Sudoku.last_cell_world 20 10 0))
    as (resp & Hrun & Hty & _).
  - reflexivity.
  - reflexivity.
  - reflexivity.
  - vm_compute. intros [[_ Hrow] _]. discriminate Hrow.
  - exists resp. split; [exact Hrun|exact Hty].
Defined.

(** X13: a round of the scheduler while Alice, who is Active, is to move. *)
Lemma scheduler_repairs_turn_witness :
  ∃ w', Sudoku.scheduler_iteration (Examples.Sudoku.last_cell_world 20 10 0) = Ok tt w'
        ∧ Sudoku.current_turn (game w') = 0
        ∧ Sudoku.players (game w') = Examples.Sudoku.three_players 20 10 0.
Proof.
  destruct (SudokuMoves.scheduler_repairs_turn (Examples.Sudoku.last_cell_world 20 10 0))
    as (w' & Hrun & _ & Hps & _ & _ & _ & Hsame); [concrete_world|reflexivity|by vm_compute|].
  exists w'. split; [exact Hrun|]. split; [apply Hsame; reflexivity|exact Hps].
Defined.

(** X14: Alice leaves on her turn, and Bob is next. *)
Lemma turn_passes_after_leave_witness :
  ∃ resp w1 w2,
    Sudoku.handle_MSG_QUIT 0 (Examples.Sudoku.last_cell_world 20 10 0) = Ok resp w1
    ∧ Sudoku.scheduler_iteration w1 = Ok tt w2
    ∧ Sudoku.game_state (game w2) = GAME_IN_PROGRESS
    ∧ Sudoku.current_turn (game w2) = 1.
Proof.
  destruct (SudokuMoves.turn_passes_after_leave 0 (Examples.Sudoku.last_cell_world 20 10 0)
              (Sudoku.mkPlayer 0 "Alice" 20 2 0 PLAYER_ACTIVE 101))
    as (next & Hnext & (resp & w1 & w2 & Hrun1 & Hrun2 & _ & _ & Hgo & _) & _);
    [concrete_world|reflexivity|reflexivity|reflexivity|by vm_compute|].
  vm_compute in Hnext. injection Hnext as <-.
  destruct Hgo as (Hst & Hct & _); [lia|].
  exists resp, w1, w2. split; [exact Hrun1|]. split; [exact Hrun2|].
  split; [exact Hst|exact Hct].
Defined.

(** The pattern has a number in every cell. *)
Lemma pattern_fills : Puzzle.fills Examples.pattern_generator.
Proof.
  intros rs r c _. unfold Examples.pattern_generator, Examples.pattern. cbn [fst].
  pose proof (Z.mod_pos_bound (r * 3 + r / 3 + c) 9). lia.
Qed.

(** X15: the puzzle of difficulty 2, with the first 40 cells drawn. *)
Lemma generate_puzzle_counts_open_cells_witness :
  ∃ w', Sudoku.generate_puzzle Examples.pattern_generator 2
          (with_rand_stream (Examples.first_cells 40) Sudoku.setup_shared_memory) = Ok tt w'
        ∧ Sudoku.cells_remaining (game w') = 40
        ∧ Puzzle.open_cells (Sudoku.grid (game w')) = 40%nat.
Proof.
  destruct (Sudoku.generate_puzzle Examples.pattern_generator 2
              (with_rand_stream (Examples.first_cells 40) Sudoku.setup_shared_memory))
    as [[] w'|] eqn:Hrun; [|by vm_compute in Hrun].
  pose proof (PuzzleFacts.generate_puzzle_counts_open_cells Examples.pattern_generator 2
                (with_rand_stream (Examples.first_cells 40) Sudoku.setup_shared_memory))
    as Hspec.
  destruct (wpr_run _ _ _ _ _
              (Hspec eq_refl ltac:(concrete_world) pattern_fills ltac:(lia)
                 ltac:(vm_compute; repeat constructor; by vm_compute)) Hrun)
    as (Hcount & Hopen & _).
  exists w'. split; [reflexivity|]. split; [exact Hcount|exact Hopen].
Defined.

(** X16: Carol is the third to join. *)
Lemma join_starts_game_witness :
  ∃ resp w',
    Sudoku.handle_MSG_JOIN Examples.pattern_generator 2 (Examples.Sudoku.join_msg "Carol")
      Examples.Sudoku.two_waiting_world = Ok resp w'
    ∧ Sudoku.game_state (game w') = GAME_IN_PROGRESS
    ∧ Sudoku.current_turn (game w') = 0
    ∧ Sudoku.state_at (game w') 2 = Some PLAYER_ACTIVE
    ∧ Sudoku.cells_remaining (game w') = 40.
Proof.
  assert (Sudoku.wf_world Examples.Sudoku.two_waiting_world) as Hwf by concrete_world.
  assert (MIN_PLAYERS - 1 <= Sudoku.num_players (game Examples.Sudoku.two_waiting_world)
          < INT_MAX) as Hnum by by vm_compute.
  assert (Forall (λ r, 0 <= r)
            (Examples.pattern_generator (rand_stream Examples.Sudoku.two_waiting_world)).2)
    as Hpos by (vm_compute; repeat constructor; by vm_compute).
  pose proof (PuzzleFacts.join_starts_game Examples.pattern_generator 2
                (Examples.Sudoku.join_msg "Carol") Examples.Sudoku.two_waiting_world
                (Sudoku.initial_player 2) Hwf pattern_fills eq_refl Hnum eq_refl Hpos)
    as Hspec.
  clear Hwf Hnum Hpos.
  destruct (Sudoku.handle_MSG_JOIN Examples.pattern_generator 2
              (Examples.Sudoku.join_msg "Carol") Examples.Sudoku.two_waiting_world)
    as [resp w'|] eqn:Hrun.
  2: { clear Hspec. by vm_compute in Hrun. }
  destruct (wpr_run _ _ _ _ _ Hspec Hrun)
    as (_ & Hst & _ & _ & Hturn & _ & Hcarol & _ & Hcount & _).
  clear Hspec Hrun. vm_compute in Hturn. injection Hturn as Hturn.
  exists resp, w'. split; [reflexivity|]. split; [exact Hst|].
  split; [symmetry; exact Hturn|]. split; [exact Hcarol|exact Hcount].
Defined.

(** X17: Bob's score after the three have joined and Alice has quit. *)
Lemma scores_match_placements_witness :
  ∃ w p,
    Sudoku.run_actions Examples.pattern_generator Examples.Sudoku.alice_quits
      Sudoku.setup_shared_memory = Some w
    ∧ arr_get (Sudoku.players (game w)) 1 = Some p
    ∧ Sudoku.score p
      = int_wrap (10 * Sudoku.correct_placements p - 5 * Sudoku.wrong_placements p).
Proof.
  destruct (Sudoku.run_actions Examples.pattern_generator Examples.Sudoku.alice_quits
              Sudoku.setup_shared_memory) as [w|] eqn:Hw; [|by vm_compute in Hw].
  pose proof (SudokuInv.reachable_run_actions _ _ _ _ (Sudoku.reach_setup _) Hw) as Hreach.
  destruct (arr_get (Sudoku.players (game w)) 1) as [p|] eqn:Hp.
  2: { vm_compute in Hw. injection Hw as <-. by vm_compute in Hp. }
  exists w, p. split; [reflexivity|]. split; [exact Hp|].
  exact (BooksFacts.scores_match_placements Examples.pattern_generator w 1 p Hreach Hp).
Defined.

(** X18: the grid in the same state. *)
Lemma grid_shows_only_solutions_witness :
  ∃ w,
    Sudoku.run_actions Examples.pattern_generator Examples.Sudoku.alice_quits
      Sudoku.setup_shared_memory = Some w
    ∧ Sudoku.wf_game (game w)
    ∧ Sudoku.cells_remaining (game w) = Z.of_nat (Puzzle.open_cells (Sudoku.grid (game w)))
    ∧ 0 <= Sudoku.cells_remaining (game w) <= 40.
Proof.
  destruct (Sudoku.run_actions Examples.pattern_generator Examples.Sudoku.alice_quits
              Sudoku.setup_shared_memory) as [w|] eqn:Hw; [|by vm_compute in Hw].
  pose proof (SudokuInv.reachable_run_actions _ _ _ _ (Sudoku.reach_setup _) Hw) as Hreach.
  destruct (BooksFacts.grid_shows_only_solutions Examples.pattern_generator w Hreach)
    as (Hwf & _ & Hcount).
  exists w. split; [reflexivity|]. split; [exact Hwf|]. apply Hcount; [exact pattern_fills|].
  vm_compute in Hw. injection Hw as <-. by vm_compute.
Defined.

(** X19: the puzzle is complete and Alice leads with 30 points. *)
Lemma scheduler_declares_best_witness :
  ∃ w', Sudoku.scheduler_iteration Examples.Sudoku.completed_world = Ok tt w'
        ∧ Sudoku.game_state (game w') = GAME_FINISHED
        ∧ 0 <= Sudoku.winner_id (game w') < MAX_PLAYERS.
Proof.
  destruct (SudokuMoves.scheduler_declares_best Examples.Sudoku.completed_world)
    as (w' & Hrun & Hst & _ & Hwin); [concrete_world|reflexivity|by vm_compute|].
  exists w'. split; [exact Hrun|]. split; [exact Hst|].
  destruct Hwin as [[_ Hnone]|(best & Hbest & _)].
  - apply Forall_cons in Hnone as [Halice _]. specialize (Halice eq_refl).
    vm_compute in Halice. destruct (Halice eq_refl).
  - apply arr_get_Some in Hbest. exact Hbest.
Defined.

(** X20: a round of the dice scheduler while Alice, who is Active, is to
    roll. *)
Lemma dice_scheduler_repairs_turn_witness :
  ∃ w', Dice.scheduler_iteration (Examples.Dice.rolling_world 95 []) = Ok tt w'
        ∧ Dice.game_state (game w') = GAME_IN_PROGRESS
        ∧ Dice.current_turn (game w') = 0.
Proof.
  destruct (DiceMoves.dice_scheduler_repairs_turn (Examples.Dice.rolling_world 95 []))
    as (next & _ & w' & Hrun & _ & _ & _ & _ & _ & Hgo & _ & Hsame & _);
    [concrete_world|reflexivity|by vm_compute|].
  exists w'. split; [exact Hrun|]. split; [|apply Hsame; reflexivity].
  apply Hgo. split; [by vm_compute|by vm_compute].
Defined.

(** X21: the accept loop finds the game Alice has won. *)
Lemma main_round_resets_finished_game_witness :
  ∃ w', Dice.main_iteration Examples.Dice.won_world = Ok None w'
        ∧ game w' = Dice.fresh_game (game Examples.Dice.won_world)
        ∧ scores w' = scores Examples.Dice.won_world.
Proof.
  destruct (DiceMoves.main_round_resets_finished_game Examples.Dice.won_world)
    as (r & w' & Hrun & _ & Hsc & _ & Hreset & _); [concrete_world|].
  destruct (Hreset eq_refl) as (-> & Hg & _).
  exists w'. split; [exact Hrun|]. split; [exact Hg|exact Hsc].
Defined.

(** X22: Alice's score once she has joined. *)
Lemma dice_scores_stay_in_range_witness :
  ∃ w p,
    Dice.run_action (Dice.ActJoin 0 (Examples.Dice.join_msg "Alice"))
      Dice.setup_shared_memory = Ok tt w
    ∧ arr_get (Dice.players (game w)) 0 = Some p
    ∧ 0 <= Dice.score p < WINNING_SCORE.
Proof.
  destruct (Dice.run_action (Dice.ActJoin 0 (Examples.Dice.join_msg "Alice"))
              Dice.setup_shared_memory) as [[] w|] eqn:Hrun; [|by vm_compute in Hrun].
  assert (Dice.reachable w) as Hreach.
  { apply (Dice.reach_step Dice.setup_shared_memory
             (Dice.ActJoin 0 (Examples.Dice.join_msg "Alice")) [] w Dice.reach_setup);
      [constructor|exact Hrun]. }
  destruct (arr_get (Dice.players (game w)) 0) as [p|] eqn:Hp.
  2: { vm_compute in Hrun. injection Hrun as <-. by vm_compute in Hp. }
  destruct (DiceInv.dice_scores_stay_in_range w 0 p Hreach Hp) as (Hrange & Hlow & _).
  exists w, p. split; [reflexivity|]. split; [exact Hp|]. split; [lia|].
  apply Hlow. vm_compute in Hrun. injection Hrun as <-. by vm_compute.
Defined.

(** X23: the signal arrives before anyone has connected. *)
Lemma sigint_handler_saves_and_stops_witness :
  ∃ w', Sudoku.sigint_handler Sudoku.setup_shared_memory = Ok tt w'
        ∧ scores_file w' = []
        ∧ q_shutdown (log_queue w') = 1.
Proof.
  destruct (SignalFacts.sigint_handler_saves_and_stops Sudoku.setup_shared_memory)
    as (w' & Hrun & _ & _ & Hfile & Hstop & _); [reflexivity|reflexivity|].
  exists w'. split; [exact Hrun|]. split; [exact Hfile|exact Hstop].
Defined.


